(** * znn v4, trivial (single-threaded) network: a shallow embedding

    The development follows [src/core/v4/network/trivial/trivial_network.hpp].
    Objects created with [new] / [make_unique] live in arenas (lists) and
    pointers are indices into them; [std::map<std::string, _>] is an
    association list kept in key order; virtual dispatch on [nodes] and on
    [edge] is a match on a tagged union; the mutual recursion between node
    groups and edges is tied with a fuel counter.

    Modelling conventions.
    - [vec3i] holds three [int64_t] ([types.hpp] is not part of the
      sources at hand; the drivers build the vectors from [int64_t]): the
      components are integers and every sum, difference and product is
      reduced to 64 bits in two's complement, as the compiled program
      does it.  [size_t] counters are [nat].
    - [cube_p<double>] is [option cube]: [None] is the null pointer.  A cube
      that is reachable from two places (a node buffer handed to a
      convolution edge as [last_input], or returned by [network::forward])
      is never written through any of them after it has been shared on an
      acyclic graph, so cubes are kept as values.
    - [ZI_ASSERT] aborts the running operation; [UNIMPLEMENTED()] and
      [throw] do the same with their own tag.
    - The numeric kernels, the parameter objects, the transfer functions,
      the initializers and the option bag live in headers that are not part
      of the sources at hand; they are collected in the interface
      [Externals].

    Layout.  The embedding comes first, followed by the invariants the
    proofs use, a small model of [Externals] and some example graphs.
    Then the proofs: the two passes of [init], the forward pass, the
    backward pass, the edge kernels, the wiring.  The properties of the
    specification follow, [C1] to [C10], each with an instance on one of
    the example graphs.  The last part states further properties of the
    code, [X1] onwards: the pooling edge, the geometry [init] computes, what
    the passes write and what they accept, the declaration loops and the
    constructor, the firing of a channel, the protocol of the backward
    pass and the training step. *)

From stdpp Require Import prelude strings gmap.
From Stdlib Require Import ZArith Lia QArith.

Set Default Proof Using "Type".
Set Warnings "-clear-no-such-hyp".
Open Scope Z_scope.
Open Scope nat_scope.

(** ** Outcomes of an operation *)

Inductive failure : Type :=
| AssertionFailed      (* ZI_ASSERT(false) *)
| Unimplemented        (* UNIMPLEMENTED() *)
| LogicError           (* throw std::logic_error *)
| MissingOption        (* options::require_as on an absent or ill-typed key *)
| NullPointer          (* dereference of an empty cube_p / unique_ptr *)
| DanglingPointer      (* use of an object after delete / outside an arena *)
| ShapeMismatch        (* raised by a numeric kernel *)
| OutOfFuel.           (* artefact of the embedding, never raised by the code *)

Inductive result (A : Type) : Type :=
| Ok (a : A)
| Err (e : failure).
Arguments Ok {A} a.
Arguments Err {A} e.

#[global] Instance result_ret : MRet result := λ A a, Ok a.
#[global] Instance result_bind : MBind result :=
  λ A B f m, match m with Ok a => f a | Err e => Err e end.

Definition ZI_ASSERT (b : bool) : result unit :=
  if b then Ok tt else Err AssertionFailed.

Definition is_ok {A} (r : result A) : bool :=
  match r with Ok _ => true | Err _ => false end.

(** [for ( auto& x : xs ) body] over a state [S]. *)
Fixpoint for_each {S X : Type} (body : X → S → result S) (xs : list X) (s : S)
  : result S :=
  match xs with
  | [] => Ok s
  | x :: xs' => s' ← body x s; for_each body xs' s'
  end.

(** [f] applied to every element, left to right, stopping at a failure. *)
Fixpoint traverse {X Y : Type} (f : X → result Y) (xs : list X)
  : result (list Y) :=
  match xs with
  | [] => Ok []
  | x :: xs' => y ← f x; ys ← traverse f xs'; Ok (y :: ys)
  end.

(** ** [vec3i] *)

(** [int64_t]: the largest value, and the reduction of an integer to 64
    bits in two's complement *)
Definition int64_max : Z := 9223372036854775807.
Definition wrap64 (z : Z) : Z :=
  ((z + 9223372036854775808) mod 18446744073709551616
   - 9223372036854775808)%Z.

(** two integers with the same reduction *)
Inductive eq64 (a b : Z) : Prop :=
| Eq64 (H : (a mod 18446744073709551616 = b mod 18446744073709551616)%Z).

Record vec3i : Type := Vec3 { vx : Z; vy : Z; vz : Z }.

#[global] Instance vec3i_eq_dec : EqDecision vec3i.
Proof. solve_decision. Defined.

Module vec3i_ops.
Definition zero : vec3i := Vec3 0 0 0.
Definition one : vec3i := Vec3 1 1 1.
(** the component-wise operations over the integers *)
Definition exact_add (a b : vec3i) : vec3i :=
  Vec3 (vx a + vx b) (vy a + vy b) (vz a + vz b).
Definition exact_sub (a b : vec3i) : vec3i :=
  Vec3 (vx a - vx b) (vy a - vy b) (vz a - vz b).
Definition exact_mul (a b : vec3i) : vec3i :=
  Vec3 (vx a * vx b) (vy a * vy b) (vz a * vz b).
(** [operator+], [operator-] and [operator*] of [vec3i]: the result is
    stored in [int64_t] components *)
Definition reduce (a : vec3i) : vec3i :=
  Vec3 (wrap64 (vx a)) (wrap64 (vy a)) (wrap64 (vz a)).
Definition add (a b : vec3i) : vec3i := reduce (exact_add a b).
Definition sub (a b : vec3i) : vec3i := reduce (exact_sub a b).
Definition mul (a b : vec3i) : vec3i := reduce (exact_mul a b).
Definition eqb (a b : vec3i) : bool := bool_decide (a = b).
Definition neqb (a b : vec3i) : bool := negb (eqb a b).
(** every component strictly positive *)
Definition positive (a : vec3i) : Prop := (0 < vx a ∧ 0 < vy a ∧ 0 < vz a)%Z.
Definition positiveb (a : vec3i) : bool :=
  ((0 <? vx a) && (0 <? vy a) && (0 <? vz a))%Z.
(** component-wise order; the largest representable vector *)
Definition le (a b : vec3i) : Prop :=
  (vx a ≤ vx b ∧ vy a ≤ vy b ∧ vz a ≤ vz b)%Z.
Definition top : vec3i := Vec3 int64_max int64_max int64_max.
(** positive and bounded by [b] *)
Definition within (a b : vec3i) : Prop := positive a ∧ le a b.
End vec3i_ops.

Declare Scope vec3i_scope.
Delimit Scope vec3i_scope with V.
Bind Scope vec3i_scope with vec3i.
Infix "+" := vec3i_ops.add : vec3i_scope.
Infix "-" := vec3i_ops.sub : vec3i_scope.
Infix "*" := vec3i_ops.mul : vec3i_scope.

(** ** [std::map<std::string, V>]: an association list in key order *)

Module StdMap.
Definition t (V : Type) : Type := list (string * V).

Definition empty {V} : t V := [].

Fixpoint find {V} (k : string) (m : t V) : option V :=
  match m with
  | [] => None
  | (k', v) :: m' => if String.eqb k k' then Some v else find k m'
  end.

(** [m.count(k)] *)
Definition count {V} (k : string) (m : t V) : nat :=
  match find k m with Some _ => 1 | None => 0 end.

(** [m[k] = v] *)
Fixpoint insert {V} (k : string) (v : V) (m : t V) : t V :=
  match m with
  | [] => [(k, v)]
  | (k', v') :: m' =>
      if String.eqb k k' then (k, v) :: m'
      else if String.ltb k k' then (k, v) :: (k', v') :: m'
      else (k', v') :: insert k v m'
  end.

Definition size {V} (m : t V) : nat := length m.
Definition keys {V} (m : t V) : list string := m.*1.
Definition values {V} (m : t V) : list V := m.*2.

(** what every value of the C++ type satisfies: no key occurs twice *)
Definition wf {V} (m : t V) : Prop := NoDup (keys m).
End StdMap.

(** ** Pointers into the arenas *)

Abbreviation ptr := nat (only parsing).

(** ** The external collaborators *)

Class Externals : Type := {
  (** [double] and the two literals the sources use *)
  real : Type;
  real_0 : real;
  real_0_1 : real;
  (** [cube<double>], [cube<int>] and [cube_operators.hpp] *)
  cube : Type;
  icube : Type;
  size : cube → vec3i;
  cube_plus : cube → cube → cube;          (* a += b *)
  sum : cube → real;
  (** [convolution.hpp]; [None] when the kernel raises *)
  convolve_sparse : cube → cube → vec3i → option cube;
  convolve_sparse_flipped : cube → cube → vec3i → option cube;
  convolve_sparse_inverse : cube → cube → vec3i → option cube;
  (** [pooling.hpp], with the comparison [a > b] *)
  pooling_filter : cube → vec3i → vec3i → option (cube * icube);
  pooling_backprop : vec3i → cube → icube → option cube;
  (** [filter.hpp] *)
  filter : Type;
  filter_new : vec3i → real → real → real → filter;
  filter_W : filter → cube;
  filter_update : filter → cube → filter;
  (** [bias.hpp] *)
  bias : Type;
  bias_new : real → real → real → bias;
  bias_b : bias → real;
  bias_update : bias → real → bias;
  (** [transfer_functions.hpp] *)
  transfer_function : Type;
  tf_apply : transfer_function → cube → real → cube;
  tf_apply_grad : transfer_function → cube → cube → cube;
  transfer_function_of_name : string → option transfer_function;
  (** [initializators.hpp]: [initialize(p, n)] writes [n] values *)
  initializator : Type;
  initializator_of_name : string → option initializator;
  initialize : initializator → nat → list real;
  (** [utils.hpp] *)
  load_filters : list filter → vec3i → list real → option (list filter);
  load_biases : list bias → list real → option (list bias);
}.

(** [cube_p<double>] / [ccube_p<double>]: a possibly null shared pointer *)
Abbreviation cube_p := (option cube) (only parsing).

Section Basics.
Context `{Ext : Externals}.


(** [*p] *)
Definition deref {A} (p : option A) : result A :=
  match p with Some a => Ok a | None => Err NullPointer end.

(** the outcome of a numeric kernel, and of a lookup by name or a load *)
Definition kernel {A} (r : option A) : result A :=
  match r with Some a => Ok a | None => Err ShapeMismatch end.
Definition external {A} (r : option A) : result A :=
  match r with Some a => Ok a | None => Err LogicError end.

(** [arena[p]] for a pointer handed out by the arena *)
Definition at_ptr {A} (arena : list A) (p : ptr) : result A :=
  match arena !! p with Some a => Ok a | None => Err DanglingPointer end.

(** ** Option bags ([options.hpp])

    A string-keyed bag of typed values.  A byte string holding raw doubles
    (["filters"], ["biases"]) is kept as the list of those doubles. *)

Inductive oval : Type :=
| OString (s : string)
| OSize (n : nat)
| OVec (v : vec3i)
| OReal (d : real)
| OBlob (raw : list real).

Definition options : Type := list (string * oval).

End Basics.

Module opt.
Section defs.
Context `{Ext : Externals}.
Fixpoint get (o : options) (k : string) : option oval :=
  match o with
  | [] => None
  | (k', v) :: o' => if String.eqb k k' then Some v else get o' k
  end.
Definition contains (o : options) (k : string) : bool :=
  match get o k with Some _ => true | None => false end.
Definition require_string (o : options) (k : string) : result string :=
  match get o k with Some (OString s) => Ok s | _ => Err MissingOption end.
Definition require_size (o : options) (k : string) : result nat :=
  match get o k with Some (OSize n) => Ok n | _ => Err MissingOption end.
Definition require_vec (o : options) (k : string) : result vec3i :=
  match get o k with Some (OVec v) => Ok v | _ => Err MissingOption end.
Definition require_blob (o : options) (k : string) : result (list real) :=
  match get o k with Some (OBlob b) => Ok b | _ => Err MissingOption end.
Definition optional_vec (o : options) (k : string) (d : vec3i)
  : result vec3i :=
  match get o k with
  | None => Ok d
  | Some (OVec v) => Ok v
  | Some _ => Err MissingOption
  end.
Definition optional_real (o : options) (k : string) (d : real)
  : result real :=
  match get o k with
  | None => Ok d
  | Some (OReal v) => Ok v
  | Some _ => Err MissingOption
  end.
End defs.
End opt.

Section Lookup.
Context `{Ext : Externals}.

(** [get_transfer_function(opts)] and [get_initializator(opts)] *)
Definition get_transfer_function (o : options) : result transfer_function :=
  name ← opt.require_string o "function";
  external (transfer_function_of_name name).

Definition get_initializator (o : options) : result initializator :=
  name ← opt.require_string o "init"; external (initializator_of_name name).

End Lookup.

(** ** Edge kernels *)

(** [struct dummy_edge] has no state. *)

Module max_pooling_edge.
Section defs.
Context `{Ext : Externals}.
Record t : Type := Build {
  filter_size : vec3i;
  filter_stride : vec3i;
  indices : option icube;
  insize : vec3i;
}.
Definition ctor (size stride : vec3i) : t :=
  Build size stride None vec3i_ops.zero.
End defs.
End max_pooling_edge.

Module filter_edge.
Section defs.
Context `{Ext : Externals}.
Record t : Type := Build {
  filter_stride : vec3i;
  filter_ : ptr;                  (* filter & *)
  last_input : cube_p;
}.
Definition ctor (stride : vec3i) (f : ptr) : t := Build stride f None.
Definition set_last_input (c : cube_p) (e : t) : t :=
  Build (filter_stride e) (filter_ e) c.
End defs.
End filter_edge.

Inductive edge_impl `{Ext : Externals} : Type :=
| dummy_edge
| max_pooling (e : max_pooling_edge.t)
| filter_e (e : filter_edge.t).

(** [edge_of<E>]: [edge_base] plus the kernel *)
Module edge_of.
Section defs.
Context `{Ext : Externals}.
Record t : Type := Build {
  in_nodes : ptr;
  in_num : nat;
  out_nodes : ptr;
  out_num : nat;
  impl : edge_impl;
}.
Definition set_impl (i : edge_impl) (e : t) : t :=
  Build (in_nodes e) (in_num e) (out_nodes e) (out_num e) i.
End defs.
End edge_of.

(** ** Node groups *)

Module input_nodes.
Section defs.
Context `{Ext : Externals}.
Record t : Type := Build {
  size_ : nat;
  outputs_ : list (list ptr);
  opts_ : options;
}.
Definition ctor (s : nat) (op : options) : t := Build s (replicate s []) op.
End defs.
End input_nodes.

Module summing_nodes.
Section defs.
Context `{Ext : Externals}.
Record t : Type := Build {
  size_ : nat;
  inputs_ : list (list ptr);
  outputs_ : list (list ptr);
  received_ : list nat;
  fs_ : list cube_p;
  gs_ : list cube_p;
  opts_ : options;
}.
Definition ctor (s : nat) (op : options) : t :=
  Build s (replicate s []) (replicate s []) (replicate s 0)
        (replicate s None) (replicate s None) op.
Definition set_inputs_ v (x : t) : t :=
  Build (size_ x) v (outputs_ x) (received_ x) (fs_ x) (gs_ x) (opts_ x).
Definition set_outputs_ v (x : t) : t :=
  Build (size_ x) (inputs_ x) v (received_ x) (fs_ x) (gs_ x) (opts_ x).
Definition set_received_ v (x : t) : t :=
  Build (size_ x) (inputs_ x) (outputs_ x) v (fs_ x) (gs_ x) (opts_ x).
Definition set_fs_ v (x : t) : t :=
  Build (size_ x) (inputs_ x) (outputs_ x) (received_ x) v (gs_ x) (opts_ x).
Definition set_gs_ v (x : t) : t :=
  Build (size_ x) (inputs_ x) (outputs_ x) (received_ x) (fs_ x) v (opts_ x).
End defs.
End summing_nodes.

Module transfer_nodes.
Section defs.
Context `{Ext : Externals}.
Record t : Type := Build {
  size_ : nat;
  biases_ : list bias;
  func_ : transfer_function;
  inputs_ : list (list ptr);
  outputs_ : list (list ptr);
  received_ : list nat;
  fs_ : list cube_p;
  gs_ : list cube_p;
  options_ : options;
}.
Definition set_biases_ v (x : t) : t :=
  Build (size_ x) v (func_ x) (inputs_ x) (outputs_ x) (received_ x)
        (fs_ x) (gs_ x) (options_ x).
Definition set_inputs_ v (x : t) : t :=
  Build (size_ x) (biases_ x) (func_ x) v (outputs_ x) (received_ x)
        (fs_ x) (gs_ x) (options_ x).
Definition set_outputs_ v (x : t) : t :=
  Build (size_ x) (biases_ x) (func_ x) (inputs_ x) v (received_ x)
        (fs_ x) (gs_ x) (options_ x).
Definition set_received_ v (x : t) : t :=
  Build (size_ x) (biases_ x) (func_ x) (inputs_ x) (outputs_ x) v
        (fs_ x) (gs_ x) (options_ x).
Definition set_fs_ v (x : t) : t :=
  Build (size_ x) (biases_ x) (func_ x) (inputs_ x) (outputs_ x)
        (received_ x) v (gs_ x) (options_ x).
Definition set_gs_ v (x : t) : t :=
  Build (size_ x) (biases_ x) (func_ x) (inputs_ x) (outputs_ x)
        (received_ x) (fs_ x) v (options_ x).

(** the constructor, [transfer_nodes( options const & opts )] *)
Definition ctor (opts : options) : result t :=
  size ← opt.require_size opts "size";
  func ← get_transfer_function opts;
  eta ← opt.optional_real opts "eta" real_0_1;
  mom ← opt.optional_real opts "momentum" real_0;
  wd ← opt.optional_real opts "weight_decay" real_0;
  let biases := replicate size (bias_new eta mom wd) in
  bias_values ←
    (if opt.contains opts "biases" then opt.require_blob opts "biases"
     else if opt.contains opts "init" then
            initf ← get_initializator opts;
            Ok (initialize initf size)
          else Ok (replicate size real_0));
  biases ← external (load_biases biases bias_values);
  Ok (Build size biases func (replicate size []) (replicate size [])
            (replicate size 0) (replicate size None) (replicate size None)
            opts).
End defs.
End transfer_nodes.

(** [class nodes] with its three implementations *)
Inductive nodes `{Ext : Externals} : Type :=
| Input (n : input_nodes.t)
| Summing (n : summing_nodes.t)
| Transfer (n : transfer_nodes.t).

Section Nodes.
Context `{Ext : Externals}.

(** [num_out_nodes()] and [num_in_nodes()] agree in every implementation *)
Definition num_out_nodes (n : nodes) : nat :=
  match n with
  | Input x => input_nodes.size_ x
  | Summing x => summing_nodes.size_ x
  | Transfer x => transfer_nodes.size_ x
  end.
Definition num_in_nodes (n : nodes) : nat := num_out_nodes n.

(** [v[i].push_back(e)] *)
Definition push_at (v : list (list ptr)) (i : nat) (e : ptr)
  : list (list ptr) :=
  match v !! i with
  | Some l => <[i := l ++ [e]]> v
  | None => v
  end.

Definition attach_out_edge (n : nodes) (i : nat) (e : ptr) : result nodes :=
  match n with
  | Input x =>
      ZI_ASSERT (i <? input_nodes.size_ x);;
      Ok (Input (input_nodes.Build (input_nodes.size_ x)
                   (push_at (input_nodes.outputs_ x) i e)
                   (input_nodes.opts_ x)))
  | Summing x =>
      ZI_ASSERT (i <? summing_nodes.size_ x);;
      Ok (Summing (summing_nodes.set_outputs_
                     (push_at (summing_nodes.outputs_ x) i e) x))
  | Transfer x =>
      ZI_ASSERT (i <? transfer_nodes.size_ x);;
      Ok (Transfer (transfer_nodes.set_outputs_
                      (push_at (transfer_nodes.outputs_ x) i e) x))
  end.

Definition attach_in_edge (n : nodes) (i : nat) (e : ptr) : result nodes :=
  match n with
  | Input _ => Err Unimplemented
  | Summing x =>
      ZI_ASSERT (i <? summing_nodes.size_ x);;
      Ok (Summing (summing_nodes.set_inputs_
                     (push_at (summing_nodes.inputs_ x) i e) x))
  | Transfer x =>
      ZI_ASSERT (i <? transfer_nodes.size_ x);;
      Ok (Transfer (transfer_nodes.set_inputs_
                      (push_at (transfer_nodes.inputs_ x) i e) x))
  end.

(** [get_featuremaps()] *)
Definition get_featuremaps (n : nodes) : result (list cube_p) :=
  match n with
  | Input _ => Err Unimplemented
  | Summing x => Ok (summing_nodes.fs_ x)
  | Transfer x => Ok (transfer_nodes.fs_ x)
  end.

End Nodes.

(** ** Edge groups *)

Module dummy_edges.
Section defs.
Context `{Ext : Externals}.
Record t : Type := Build { options_ : options; edges_ : list ptr }.
End defs.
End dummy_edges.

Module max_pooling_edges.
Section defs.
Context `{Ext : Externals}.
Record t : Type := Build { options_ : options; edges_ : list ptr }.
End defs.
End max_pooling_edges.

Module filter_edges.
Section defs.
Context `{Ext : Externals}.
Record t : Type := Build {
  options_ : options;
  filters_ : list ptr;            (* unique_ptr<filter>, into the arena *)
  edges_ : list ptr;
  size_ : vec3i;
}.
End defs.
End filter_edges.

Inductive edges `{Ext : Externals} : Type :=
| DummyEdges (g : dummy_edges.t)
| MaxPoolingEdges (g : max_pooling_edges.t)
| FilterEdges (g : filter_edges.t).

(** ** The graph records of [class network] *)

Module nedges.
Section defs.
Context `{Ext : Externals}.
Record t : Type := Build {
  width : vec3i;
  stride : vec3i;
  in_stride : vec3i;
  in_fsize : vec3i;
  in_ : ptr;                      (* nnodes * in  *)
  out : ptr;                      (* nnodes * out *)
  opts : option options;          (* options const * *)
  edges : option edges;           (* unique_ptr<edges> *)
}.
Definition set_width v (x : t) : t :=
  Build v (stride x) (in_stride x) (in_fsize x) (in_ x) (out x) (opts x)
        (edges x).
Definition set_stride v (x : t) : t :=
  Build (width x) v (in_stride x) (in_fsize x) (in_ x) (out x) (opts x)
        (edges x).
Definition set_in_stride v (x : t) : t :=
  Build (width x) (stride x) v (in_fsize x) (in_ x) (out x) (opts x)
        (edges x).
Definition set_in_fsize v (x : t) : t :=
  Build (width x) (stride x) (in_stride x) v (in_ x) (out x) (opts x)
        (edges x).
Definition set_opts v (x : t) : t :=
  Build (width x) (stride x) (in_stride x) (in_fsize x) (in_ x) (out x) v
        (edges x).
Definition set_edges v (x : t) : t :=
  Build (width x) (stride x) (in_stride x) (in_fsize x) (in_ x) (out x)
        (opts x) v.
End defs.
End nedges.

Module nnodes.
Section defs.
Context `{Ext : Externals}.
Record t : Type := Build {
  fov : vec3i;
  stride : vec3i;
  fsize : vec3i;
  nodes_obj : nodes;              (* unique_ptr<nodes> nodes *)
  in_ : list ptr;                 (* vector<nedges *> in  *)
  out : list ptr;                 (* vector<nedges *> out *)
}.
Definition set_fov v (x : t) : t :=
  Build v (stride x) (fsize x) (nodes_obj x) (in_ x) (out x).
Definition set_stride v (x : t) : t :=
  Build (fov x) v (fsize x) (nodes_obj x) (in_ x) (out x).
Definition set_fsize v (x : t) : t :=
  Build (fov x) (stride x) v (nodes_obj x) (in_ x) (out x).
Definition set_nodes_obj v (x : t) : t :=
  Build (fov x) (stride x) (fsize x) v (in_ x) (out x).
Definition set_in_ v (x : t) : t :=
  Build (fov x) (stride x) (fsize x) (nodes_obj x) v (out x).
Definition set_out v (x : t) : t :=
  Build (fov x) (stride x) (fsize x) (nodes_obj x) (in_ x) v.
End defs.
End nnodes.

Section Model.
Context `{Ext : Externals}.

(** [class network]: the four registries and the arenas their pointers
    (and those held by node groups, edges and edge groups) point into. *)
Record network : Type := Network {
  nnodes_arena : list nnodes.t;
  nedges_arena : list nedges.t;
  edge_arena : list edge_of.t;
  filter_arena : list filter;
  edges_ : StdMap.t ptr;
  nodes_ : StdMap.t ptr;
  input_nodes_ : StdMap.t ptr;
  output_nodes_ : StdMap.t ptr;
}.

Definition empty_network : network :=
  Network [] [] [] [] StdMap.empty StdMap.empty StdMap.empty StdMap.empty.

Definition set_nnodes_arena v (net : network) : network :=
  Network v (nedges_arena net) (edge_arena net) (filter_arena net)
          (edges_ net) (nodes_ net) (input_nodes_ net) (output_nodes_ net).
Definition set_nedges_arena v (net : network) : network :=
  Network (nnodes_arena net) v (edge_arena net) (filter_arena net)
          (edges_ net) (nodes_ net) (input_nodes_ net) (output_nodes_ net).
Definition set_edge_arena v (net : network) : network :=
  Network (nnodes_arena net) (nedges_arena net) v (filter_arena net)
          (edges_ net) (nodes_ net) (input_nodes_ net) (output_nodes_ net).
Definition set_filter_arena v (net : network) : network :=
  Network (nnodes_arena net) (nedges_arena net) (edge_arena net) v
          (edges_ net) (nodes_ net) (input_nodes_ net) (output_nodes_ net).
Definition set_edges_ v (net : network) : network :=
  Network (nnodes_arena net) (nedges_arena net) (edge_arena net)
          (filter_arena net) v (nodes_ net) (input_nodes_ net)
          (output_nodes_ net).
Definition set_nodes_ v (net : network) : network :=
  Network (nnodes_arena net) (nedges_arena net) (edge_arena net)
          (filter_arena net) (edges_ net) v (input_nodes_ net)
          (output_nodes_ net).
Definition set_input_nodes_ v (net : network) : network :=
  Network (nnodes_arena net) (nedges_arena net) (edge_arena net)
          (filter_arena net) (edges_ net) (nodes_ net) v (output_nodes_ net).
Definition set_output_nodes_ v (net : network) : network :=
  Network (nnodes_arena net) (nedges_arena net) (edge_arena net)
          (filter_arena net) (edges_ net) (nodes_ net) (input_nodes_ net) v.

(** [*n = x] for [nnodes * n], and likewise for [nedges *] and [edge *] *)
Definition put_nnodes (n : ptr) (x : nnodes.t) (net : network) : network :=
  set_nnodes_arena (<[n := x]> (nnodes_arena net)) net.
Definition put_nedges (e : ptr) (x : nedges.t) (net : network) : network :=
  set_nedges_arena (<[e := x]> (nedges_arena net)) net.
Definition put_edge (e : ptr) (x : edge_of.t) (net : network) : network :=
  set_edge_arena (<[e := x]> (edge_arena net)) net.
Definition put_filter (f : ptr) (x : filter) (net : network) : network :=
  set_filter_arena (<[f := x]> (filter_arena net)) net.

Definition get_nnodes (net : network) (n : ptr) : result nnodes.t :=
  at_ptr (nnodes_arena net) n.
Definition get_nedges (net : network) (e : ptr) : result nedges.t :=
  at_ptr (nedges_arena net) e.
Definition get_edge (net : network) (e : ptr) : result edge_of.t :=
  at_ptr (edge_arena net) e.
Definition get_filter (net : network) (f : ptr) : result filter :=
  at_ptr (filter_arena net) f.

(** [n->nodes] for [nnodes * n], read and written *)
Definition get_nodes (net : network) (n : ptr) : result nodes :=
  x ← get_nnodes net n; Ok (nnodes.nodes_obj x).
Definition put_nodes (n : ptr) (o : nodes) (net : network) : network :=
  match nnodes_arena net !! n with
  | Some x => put_nnodes n (nnodes.set_nodes_obj o x) net
  | None => net
  end.

(** ** Geometry: the two passes of [network::init] *)

(** [void stride_pass(nnodes* n, const vec3i& stride)] *)
Fixpoint stride_pass (fuel : nat) (n : ptr) (stride : vec3i) (net : network)
  : result network :=
  match fuel with
  | 0 => Err OutOfFuel
  | S fuel =>
      nn ← get_nnodes net n;
      if vec3i_ops.neqb (nnodes.stride nn) vec3i_ops.zero then
        ZI_ASSERT (vec3i_ops.eqb (nnodes.stride nn) stride);;
        Ok net
      else
        let net := put_nnodes n (nnodes.set_stride stride nn) net in
        for_each
          (λ e net,
             ne ← get_nedges net e;
             let net := put_nedges e (nedges.set_in_stride stride ne) net in
             stride_pass fuel (nedges.out ne) (stride * nedges.stride ne)%V
                         net)
          (nnodes.out nn) net
  end.

(** [void fov_pass(nnodes* n, const vec3i& fov, const vec3i& fsize)] *)
Fixpoint fov_pass (fuel : nat) (n : ptr) (fov fsize : vec3i) (net : network)
  : result network :=
  match fuel with
  | 0 => Err OutOfFuel
  | S fuel =>
      nn ← get_nnodes net n;
      if vec3i_ops.neqb (nnodes.fov nn) vec3i_ops.zero then
        ZI_ASSERT (vec3i_ops.eqb (nnodes.fsize nn) fsize);;
        ZI_ASSERT (vec3i_ops.eqb (nnodes.fov nn) fov);;
        Ok net
      else
        net ← for_each
                 (λ e net,
                    ne ← get_nedges net e;
                    Ok (put_nedges e (nedges.set_in_fsize fsize ne) net))
                 (nnodes.out nn) net;
        let net :=
          put_nnodes n (nnodes.set_fsize fsize (nnodes.set_fov fov nn)) net in
        for_each
          (λ e net,
             ne ← get_nedges net e;
             let new_fov :=
               ((fov - vec3i_ops.one) * nedges.stride ne + nedges.width ne)%V in
             let new_fsize :=
               ((nedges.width ne - vec3i_ops.one) * nedges.in_stride ne
                + fsize)%V in
             fov_pass fuel (nedges.in_ ne) new_fov new_fsize net)
          (nnodes.in_ nn) net
  end.

(** The recursion of either pass expands a node group at most once, so its
    depth is bounded by the number of node groups. *)
Definition pass_fuel (net : network) : nat := S (length (nnodes_arena net)).

(** [void init( vec3i const& outsz )]; the printing loop has no effect on
    the state. *)
Definition init (outsz : vec3i) (net : network) : result network :=
  net ← for_each
           (λ (o : string * ptr) net,
              nn ← get_nnodes net o.2;
              if length (nnodes.out nn) =? 0 then
                Ok (set_output_nodes_
                      (StdMap.insert o.1 o.2 (output_nodes_ net)) net)
              else Ok net)
           (nodes_ net) net;
  net ← for_each
           (λ (o : string * ptr) net,
              stride_pass (pass_fuel net) o.2 vec3i_ops.one net)
           (input_nodes_ net) net;
  for_each
    (λ (o : string * ptr) net,
       fov_pass (pass_fuel net) o.2 vec3i_ops.one outsz net)
    (output_nodes_ net) net.

(** ** Edge kernels: [forward] and [backward] *)

(** [dummy_edge::forward] and [dummy_edge::backward]: [get_copy( *f)] *)
Definition dummy_edge_forward (f : cube_p) : result cube := deref f.
Definition dummy_edge_backward (g : cube_p) : result cube := deref g.

(** [max_pooling_edge::forward] *)
Definition max_pooling_edge_forward (e : max_pooling_edge.t) (f : cube_p)
  : result (max_pooling_edge.t * cube) :=
  c ← deref f;
  let insize := size c in
  r ← kernel (pooling_filter c (max_pooling_edge.filter_size e)
                               (max_pooling_edge.filter_stride e));
  Ok (max_pooling_edge.Build (max_pooling_edge.filter_size e)
        (max_pooling_edge.filter_stride e) (Some r.2) insize, r.1).

(** [max_pooling_edge::backward] *)
Definition max_pooling_edge_backward (e : max_pooling_edge.t) (g : cube_p)
  : result cube :=
  ZI_ASSERT (bool_decide (is_Some (max_pooling_edge.indices e)));;
  idx ← deref (max_pooling_edge.indices e);
  c ← deref g;
  ZI_ASSERT (vec3i_ops.eqb (max_pooling_edge.insize e)
               (size c + (max_pooling_edge.filter_size e - vec3i_ops.one)
                         * max_pooling_edge.filter_stride e)%V);;
  kernel (pooling_backprop (max_pooling_edge.insize e) c idx).

(** [filter_edge::forward]; [filters] is the store the reference [filter_]
    points into. *)
Definition filter_edge_forward (e : filter_edge.t) (f : cube_p)
    (filters : list filter) : result (filter_edge.t * cube) :=
  let e := filter_edge.set_last_input f e in
  c ← deref f;
  flt ← at_ptr filters (filter_edge.filter_ e);
  r ← kernel (convolve_sparse c (filter_W flt) (filter_edge.filter_stride e));
  Ok (e, r).

(** [filter_edge::backward]: returns the gradient for the upstream node
    and the filter store after [filter_.update( *dEdW)]. *)
Definition filter_edge_backward (e : filter_edge.t) (g : cube_p)
    (filters : list filter) : result (list filter * cube) :=
  ZI_ASSERT (bool_decide (is_Some (filter_edge.last_input e)));;
  last ← deref (filter_edge.last_input e);
  gc ← deref g;
  dEdW ← kernel (convolve_sparse_flipped last gc
                   (filter_edge.filter_stride e));
  flt ← at_ptr filters (filter_edge.filter_ e);
  ret ← kernel (convolve_sparse_inverse gc (filter_W flt)
                  (filter_edge.filter_stride e));
  let filters := <[filter_edge.filter_ e := filter_update flt dEdW]> filters in
  Ok (filters, ret).

(** [impl.forward(f)] and [impl.backward(g)] of an [edge_of<E>] *)
Definition impl_forward (i : edge_impl) (f : cube_p) (net : network)
  : result (edge_impl * cube) :=
  match i with
  | dummy_edge => c ← dummy_edge_forward f; Ok (dummy_edge, c)
  | max_pooling e =>
      r ← max_pooling_edge_forward e f; Ok (max_pooling r.1, r.2)
  | filter_e e =>
      r ← filter_edge_forward e f (filter_arena net); Ok (filter_e r.1, r.2)
  end.

Definition impl_backward (i : edge_impl) (g : cube_p) (net : network)
  : result (network * cube) :=
  match i with
  | dummy_edge => c ← dummy_edge_backward g; Ok (net, c)
  | max_pooling e => c ← max_pooling_edge_backward e g; Ok (net, c)
  | filter_e e =>
      r ← filter_edge_backward e g (filter_arena net);
      Ok (set_filter_arena r.1 net, r.2)
  end.

(** The signature of [nodes::forward] / [nodes::backward] on a node group
    [nnodes * -> nodes], and of [edge::forward] / [edge::backward]. *)
Definition nodes_method : Type := ptr → nat → cube_p → network → result network.
Definition edge_method : Type := ptr → cube_p → network → result network.

(** [edge_of<E>::forward]:
    [out_nodes->forward(out_num, impl.forward(f))] *)
Definition edge_of_forward (nodes_forward : nodes_method) : edge_method :=
  λ e f net,
    eo ← get_edge net e;
    r ← impl_forward (edge_of.impl eo) f net;
    let net := put_edge e (edge_of.set_impl r.1 eo) net in
    nodes_forward (edge_of.out_nodes eo) (edge_of.out_num eo) (Some r.2) net.

(** [edge_of<E>::backward]:
    [in_nodes->backward(in_num, impl.backward(g))] *)
Definition edge_of_backward (nodes_backward : nodes_method) : edge_method :=
  λ e g net,
    eo ← get_edge net e;
    r ← impl_backward (edge_of.impl eo) g net;
    nodes_backward (edge_of.in_nodes eo) (edge_of.in_num eo) (Some r.2) r.1.

(** ** Node groups: [forward] and [backward]

    [self] is the node group the method runs on; its fields are read from
    the current state wherever the source reads them. *)

(** [v[n]] after the bound has been asserted *)
Definition at_index {A} (v : list A) (n : nat) : result A := at_ptr v n.

Definition get_input_nodes (net : network) (self : ptr)
  : result input_nodes.t :=
  o ← get_nodes net self;
  match o with Input x => Ok x | _ => Err DanglingPointer end.
Definition get_summing_nodes (net : network) (self : ptr)
  : result summing_nodes.t :=
  o ← get_nodes net self;
  match o with Summing x => Ok x | _ => Err DanglingPointer end.
Definition get_transfer_nodes (net : network) (self : ptr)
  : result transfer_nodes.t :=
  o ← get_nodes net self;
  match o with Transfer x => Ok x | _ => Err DanglingPointer end.

(** [input_nodes::forward] *)
Definition input_nodes_forward (edge_forward : edge_method) : nodes_method :=
  λ self n f net,
    x ← get_input_nodes net self;
    ZI_ASSERT (n <? input_nodes.size_ x);;
    outs ← at_index (input_nodes.outputs_ x) n;
    for_each (λ e net, edge_forward e f net) outs net.

(** [input_nodes::backward] *)
Definition input_nodes_backward : nodes_method := λ self n g net, Ok net.

(** [if (received_[n] == 0) buf[n] = c; else *buf[n] += *c;] *)
Definition accumulate (received : nat) (buf : list cube_p) (n : nat)
    (c : cube_p) : result (list cube_p) :=
  if received =? 0 then Ok (<[n := c]> buf)
  else
    slot ← at_index buf n;
    a ← deref slot;
    b ← deref c;
    Ok (<[n := Some (cube_plus a b)]> buf).

(** [summing_nodes::forward] *)
Definition summing_nodes_forward (edge_forward : edge_method) : nodes_method :=
  λ self n f net,
    x ← get_summing_nodes net self;
    ZI_ASSERT (n <? summing_nodes.size_ x);;
    r ← at_index (summing_nodes.received_ x) n;
    fs ← accumulate r (summing_nodes.fs_ x) n f;
    let x := summing_nodes.set_fs_ fs x in
    let x := summing_nodes.set_received_
               (<[n := S r]> (summing_nodes.received_ x)) x in
    let net := put_nodes self (Summing x) net in
    ins ← at_index (summing_nodes.inputs_ x) n;
    if S r =? length ins then
      outs ← at_index (summing_nodes.outputs_ x) n;
      net ← for_each
               (λ e net,
                  x ← get_summing_nodes net self;
                  c ← at_index (summing_nodes.fs_ x) n;
                  edge_forward e c net)
               outs net;
      x ← get_summing_nodes net self;
      let x := summing_nodes.set_received_
                 (<[n := 0]> (summing_nodes.received_ x)) x in
      let x := summing_nodes.set_fs_ (<[n := None]> (summing_nodes.fs_ x)) x in
      Ok (put_nodes self (Summing x) net)
    else Ok net.

(** [summing_nodes::backward] *)
Definition summing_nodes_backward (edge_backward : edge_method)
  : nodes_method :=
  λ self n g net,
    x ← get_summing_nodes net self;
    ZI_ASSERT (n <? summing_nodes.size_ x);;
    r ← at_index (summing_nodes.received_ x) n;
    gs ← accumulate r (summing_nodes.gs_ x) n g;
    let x := summing_nodes.set_gs_ gs x in
    let x := summing_nodes.set_received_
               (<[n := S r]> (summing_nodes.received_ x)) x in
    let net := put_nodes self (Summing x) net in
    outs ← at_index (summing_nodes.outputs_ x) n;
    if (S r =? length outs) || (length outs =? 0) then
      ins ← at_index (summing_nodes.inputs_ x) n;
      net ← for_each
               (λ e net,
                  x ← get_summing_nodes net self;
                  c ← at_index (summing_nodes.gs_ x) n;
                  edge_backward e c net)
               ins net;
      x ← get_summing_nodes net self;
      let x := summing_nodes.set_received_
                 (<[n := 0]> (summing_nodes.received_ x)) x in
      let x := summing_nodes.set_gs_ (<[n := None]> (summing_nodes.gs_ x)) x in
      Ok (put_nodes self (Summing x) net)
    else Ok net.

(** [transfer_nodes::forward] *)
Definition transfer_nodes_forward (edge_forward : edge_method)
  : nodes_method :=
  λ self n f net,
    x ← get_transfer_nodes net self;
    ZI_ASSERT (n <? transfer_nodes.size_ x);;
    r ← at_index (transfer_nodes.received_ x) n;
    fs ← accumulate r (transfer_nodes.fs_ x) n f;
    let x := transfer_nodes.set_fs_ fs x in
    let x := transfer_nodes.set_received_
               (<[n := S r]> (transfer_nodes.received_ x)) x in
    ins ← at_index (transfer_nodes.inputs_ x) n;
    if S r =? length ins then
      (* func_.apply( *fs_[n], biases_[n]->b()) *)
      slot ← at_index (transfer_nodes.fs_ x) n;
      c ← deref slot;
      b ← at_index (transfer_nodes.biases_ x) n;
      let c := tf_apply (transfer_nodes.func_ x) c (bias_b b) in
      let x := transfer_nodes.set_fs_
                 (<[n := Some c]> (transfer_nodes.fs_ x)) x in
      let net := put_nodes self (Transfer x) net in
      outs ← at_index (transfer_nodes.outputs_ x) n;
      net ← for_each
               (λ e net,
                  x ← get_transfer_nodes net self;
                  c ← at_index (transfer_nodes.fs_ x) n;
                  edge_forward e c net)
               outs net;
      x ← get_transfer_nodes net self;
      let x := transfer_nodes.set_received_
                 (<[n := 0]> (transfer_nodes.received_ x)) x in
      Ok (put_nodes self (Transfer x) net)
    else Ok (put_nodes self (Transfer x) net).

(** [transfer_nodes::backward] *)
Definition transfer_nodes_backward (edge_backward : edge_method)
  : nodes_method :=
  λ self n g net,
    x ← get_transfer_nodes net self;
    ZI_ASSERT (n <? transfer_nodes.size_ x);;
    r ← at_index (transfer_nodes.received_ x) n;
    gs ← accumulate r (transfer_nodes.gs_ x) n g;
    let x := transfer_nodes.set_gs_ gs x in
    let x := transfer_nodes.set_received_
               (<[n := S r]> (transfer_nodes.received_ x)) x in
    outs ← at_index (transfer_nodes.outputs_ x) n;
    if (S r =? length outs) || (length outs =? 0) then
      (* func_.apply_grad( *gs_[n], *fs_[n]) *)
      gslot ← at_index (transfer_nodes.gs_ x) n;
      gc ← deref gslot;
      fslot ← at_index (transfer_nodes.fs_ x) n;
      fc ← deref fslot;
      let gc := tf_apply_grad (transfer_nodes.func_ x) gc fc in
      let x := transfer_nodes.set_gs_
                 (<[n := Some gc]> (transfer_nodes.gs_ x)) x in
      (* biases_[n]->update(sum( *gs_[n])) *)
      b ← at_index (transfer_nodes.biases_ x) n;
      let x := transfer_nodes.set_biases_
                 (<[n := bias_update b (sum gc)]> (transfer_nodes.biases_ x))
                 x in
      let net := put_nodes self (Transfer x) net in
      ins ← at_index (transfer_nodes.inputs_ x) n;
      net ← for_each
               (λ e net,
                  x ← get_transfer_nodes net self;
                  c ← at_index (transfer_nodes.gs_ x) n;
                  edge_backward e c net)
               ins net;
      x ← get_transfer_nodes net self;
      let x := transfer_nodes.set_received_
                 (<[n := 0]> (transfer_nodes.received_ x)) x in
      let x := transfer_nodes.set_gs_
                 (<[n := None]> (transfer_nodes.gs_ x)) x in
      let x := transfer_nodes.set_fs_
                 (<[n := None]> (transfer_nodes.fs_ x)) x in
      Ok (put_nodes self (Transfer x) net)
    else Ok (put_nodes self (Transfer x) net).

(** Virtual dispatch of [nodes::forward]; the recursion through
    [edge_of<E>::forward] is tied by [fuel]. *)
Fixpoint nodes_forward (fuel : nat) : nodes_method :=
  λ self n f net,
    match fuel with
    | 0 => Err OutOfFuel
    | S fuel =>
        let edge_forward := edge_of_forward (nodes_forward fuel) in
        o ← get_nodes net self;
        match o with
        | Input _ => input_nodes_forward edge_forward self n f net
        | Summing _ => summing_nodes_forward edge_forward self n f net
        | Transfer _ => transfer_nodes_forward edge_forward self n f net
        end
    end.

(** Virtual dispatch of [nodes::backward]. *)
Fixpoint nodes_backward (fuel : nat) : nodes_method :=
  λ self n g net,
    match fuel with
    | 0 => Err OutOfFuel
    | S fuel =>
        let edge_backward := edge_of_backward (nodes_backward fuel) in
        o ← get_nodes net self;
        match o with
        | Input _ => input_nodes_backward self n g net
        | Summing _ => summing_nodes_backward edge_backward self n g net
        | Transfer _ => transfer_nodes_backward edge_backward self n g net
        end
    end.

(** A channel that is dispatching cannot fire again before it has
    finished, so the recursion is never deeper than the number of
    channels. *)
Definition channels (net : network) : nat :=
  sum_list ((λ x, num_out_nodes (nnodes.nodes_obj x)) <$> nnodes_arena net).
Definition run_fuel (net : network) : nat := S (channels net).

(** ** [network::forward] and [network::backward] *)

(** [for ( size_t i = 0; i < v.size(); ++i ) layer->m(i, std::move(v[i]))] *)
Definition for_channels (m : nodes_method) (layer : ptr)
    (v : list cube_p) (net : network) : result network :=
  for_each (λ (ic : nat * cube_p) net, m layer ic.1 ic.2 net)
           (imap (λ i c, (i, c)) v) net.

(** [network::forward] *)
Definition network_forward (fin : StdMap.t (list cube_p)) (net : network)
  : result (StdMap.t (list cube_p) * network) :=
  ZI_ASSERT (StdMap.size fin =? StdMap.size (input_nodes_ net));;
  net ← for_each
           (λ (i : string * list cube_p) net,
              ZI_ASSERT (0 <? StdMap.count i.1 (input_nodes_ net));;
              in_layer ← deref (StdMap.find i.1 (input_nodes_ net));
              o ← get_nodes net in_layer;
              ZI_ASSERT (num_in_nodes o =? length i.2);;
              for_channels (nodes_forward (run_fuel net)) in_layer i.2 net)
           fin net;
  ret ← for_each
           (λ (l : string * ptr) ret,
              o ← get_nodes net l.2;
              fm ← get_featuremaps o;
              Ok (StdMap.insert l.1 fm ret))
           (output_nodes_ net) StdMap.empty;
  Ok (ret, net).

(** [network::backward] *)
Definition network_backward (fout : StdMap.t (list cube_p)) (net : network)
  : result (StdMap.t (list cube_p) * network) :=
  ZI_ASSERT (StdMap.size fout =? StdMap.size (input_nodes_ net));;
  net ← for_each
           (λ (o : string * list cube_p) net,
              ZI_ASSERT (0 <? StdMap.count o.1 (output_nodes_ net));;
              out_layer ← deref (StdMap.find o.1 (output_nodes_ net));
              obj ← get_nodes net out_layer;
              ZI_ASSERT (num_out_nodes obj =? length o.2);;
              for_channels (nodes_backward (run_fuel net)) out_layer o.2 net)
           fout net;
  let ret :=
    foldl (λ ret (l : string * ptr), StdMap.insert l.1 [] ret)
          StdMap.empty (input_nodes_ net) in
  Ok (ret, net).

(** ** Construction *)

(** [edge_of<E>::edge_of]: the new object (its address is [this]) attaches
    itself to both node groups. *)
Definition edge_of_ctor (in_ : ptr) (inn : nat) (out : ptr) (outn : nat)
    (impl : edge_impl) (net : network) : result (ptr * network) :=
  let this := length (edge_arena net) in
  let net :=
    set_edge_arena (edge_arena net ++ [edge_of.Build in_ inn out outn impl])
                   net in
  o ← get_nodes net in_;
  o ← attach_out_edge o inn this;
  let net := put_nodes in_ o net in
  o ← get_nodes net out;
  o ← attach_in_edge o outn this;
  let net := put_nodes out o net in
  Ok (this, net).

(** [for ( size_t i = 0; i < n; ++i ) edges_[i] = make_unique<...>(in, i,
    out, i, ...)], the loop of the two diagonal edge groups; the vector is
    filled in index order. *)
Definition diagonal_edges (in_ out : ptr) (impl : edge_impl) (n : nat)
    (net : network) : result (list ptr * network) :=
  for_each
    (λ i (st : list ptr * network),
       r ← edge_of_ctor in_ i out i impl st.2;
       Ok (st.1 ++ [r.1], r.2))
    (seq 0 n) ([], net).

(** [dummy_edges::dummy_edges] *)
Definition dummy_edges_ctor (in_ out : ptr) (opts : options) (net : network)
  : result (dummy_edges.t * network) :=
  oi ← get_nodes net in_;
  oo ← get_nodes net out;
  ZI_ASSERT (num_out_nodes oi =? num_in_nodes oo);;
  let n := num_out_nodes oi in
  r ← diagonal_edges in_ out dummy_edge n net;
  Ok (dummy_edges.Build opts r.1, r.2).

(** [max_pooling_edges::max_pooling_edges] *)
Definition max_pooling_edges_ctor (in_ out : ptr) (opts : options)
    (stride : vec3i) (net : network)
  : result (max_pooling_edges.t * network) :=
  oi ← get_nodes net in_;
  oo ← get_nodes net out;
  ZI_ASSERT (num_out_nodes oi =? num_in_nodes oo);;
  let n := num_out_nodes oi in
  sz ← opt.require_vec opts "size";
  r ← diagonal_edges in_ out
        (max_pooling (max_pooling_edge.ctor sz stride)) n net;
  Ok (max_pooling_edges.Build opts r.1, r.2).

(** A [double *] obtained from [new double[n]]. *)
Inductive raw_array : Type :=
| raw_live (contents : list real)
| raw_deleted.

(** [std::string( reinterpret_cast<char*>(p), sizeof(double) * n )] *)
Definition read_raw (p : raw_array) : result (list real) :=
  match p with
  | raw_live l => Ok l
  | raw_deleted => Err DanglingPointer
  end.

(** The nested loop of [filter_edges::filter_edges]: for every pair
    [(i, j)], in row-major order, a new filter and a new convolution edge
    from channel [i] to channel [j]; [filters_[k]] and [edges_[k]] are
    filled in the order of [k]. *)
Definition filter_edges_wire (in_ out : ptr) (n m : nat) (sz stride : vec3i)
    (eta mom wd : real) (net : network)
  : result (list ptr * list ptr * network) :=
  for_each
    (λ i st,
       for_each
         (λ j (st : list ptr * list ptr * network),
            let '(filters, edges, net) := st in
            let f := length (filter_arena net) in
            let net :=
              set_filter_arena
                (filter_arena net ++ [filter_new sz eta mom wd]) net in
            r ← edge_of_ctor in_ i out j
                  (filter_e (filter_edge.ctor stride f)) net;
            Ok (filters ++ [f], edges ++ [r.1], r.2))
         (seq 0 m) st)
    (seq 0 n) ([], [], net).

(** [filter_edges::filter_edges]; [opts.dump()] only prints. *)
Definition filter_edges_ctor (in_ out : ptr) (opts : options)
    (stride : vec3i) (net : network) : result (filter_edges.t * network) :=
  oi ← get_nodes net in_;
  oo ← get_nodes net out;
  let n := num_out_nodes oi in
  let m := num_in_nodes oo in
  ZI_ASSERT ((0 <? n) && (0 <? m));;
  eta ← opt.optional_real opts "eta" real_0_1;
  mom ← opt.optional_real opts "momentum" real_0;
  wd ← opt.optional_real opts "weight_decay" real_0;
  sz ← opt.require_vec opts "size";
  r ← filter_edges_wire in_ out n m sz stride eta mom wd net;
  let '(filters, edges, net) := r in
  filter_values ←
    (if opt.contains opts "filters" then opt.require_blob opts "filters"
     else
       let n_values :=
         (n * m * Z.to_nat (vx sz) * Z.to_nat (vy sz) * Z.to_nat (vz sz))%nat in
       (* double * filters_raw = new double[n_values]; *)
       let filters_raw := raw_live (replicate n_values real_0) in
       initf ← get_initializator opts;
       (* initf->initialize( filters_raw, n_values ); *)
       let filters_raw := raw_live (initialize initf n_values) in
       (* delete [] filters_raw; *)
       let filters_raw := raw_deleted in
       read_raw filters_raw);
  (* load_filters(filters_, size_, filter_values) *)
  objs ← traverse (get_filter net) filters;
  objs ← external (load_filters objs sz filter_values);
  let net :=
    foldl (λ net (fo : ptr * filter), put_filter fo.1 fo.2 net) net
          (zip filters objs) in
  Ok (filter_edges.Build opts filters edges sz, net).

(** [network::add_nodes] *)
Definition add_nodes (op : options) (net : network) : result network :=
  name ← opt.require_string op "name";
  type ← opt.require_string op "type";
  sz ← opt.require_size op "size";
  ZI_ASSERT (0 <? sz);;
  ZI_ASSERT (StdMap.count name (nodes_ net) =? 0);;
  let ns := length (nnodes_arena net) in
  let net := set_nodes_ (StdMap.insert name ns (nodes_ net)) net in
  let new_nnodes (o : nodes) :=
    nnodes.Build vec3i_ops.zero vec3i_ops.zero vec3i_ops.zero o [] [] in
  if String.eqb type "input" then
    let net :=
      set_input_nodes_ (StdMap.insert name ns (input_nodes_ net)) net in
    Ok (set_nnodes_arena
          (nnodes_arena net ++ [new_nnodes (Input (input_nodes.ctor sz op))])
          net)
  else if String.eqb type "sum" then
    Ok (set_nnodes_arena
          (nnodes_arena net
             ++ [new_nnodes (Summing (summing_nodes.ctor sz op))]) net)
  else if String.eqb type "transfer" then
    t ← transfer_nodes.ctor op;
    Ok (set_nnodes_arena (nnodes_arena net ++ [new_nnodes (Transfer t)]) net)
  else Err LogicError.

(** [network::add_edges] *)
Definition add_edges (op : options) (net : network) : result network :=
  name ← opt.require_string op "name";
  type ← opt.require_string op "type";
  in_ ← opt.require_string op "input";
  out ← opt.require_string op "output";
  ZI_ASSERT (StdMap.count name (edges_ net) =? 0);;
  ZI_ASSERT ((0 <? StdMap.count in_ (nodes_ net))
             && (0 <? StdMap.count out (nodes_ net)));;
  let es := length (nedges_arena net) in
  pin ← deref (StdMap.find in_ (nodes_ net));
  pout ← deref (StdMap.find out (nodes_ net));
  let new_nedges :=
    nedges.Build vec3i_ops.one vec3i_ops.one vec3i_ops.zero vec3i_ops.zero
                 pin pout (Some op) None in
  let net := set_nedges_arena (nedges_arena net ++ [new_nedges]) net in
  nin ← get_nnodes net pin;
  let net := put_nnodes pin (nnodes.set_out (nnodes.out nin ++ [es]) nin) net in
  nout ← get_nnodes net pout;
  let net :=
    put_nnodes pout (nnodes.set_in_ (nnodes.in_ nout ++ [es]) nout) net in
  let net := set_edges_ (StdMap.insert name es (edges_ net)) net in
  if String.eqb type "max_filter" then
    w ← opt.require_vec op "size";
    s ← opt.require_vec op "stride";
    Ok (put_nedges es (nedges.set_stride s (nedges.set_width w new_nedges))
          net)
  else if String.eqb type "conv" then
    w ← opt.require_vec op "size";
    s ← opt.optional_vec op "stride" vec3i_ops.one;
    Ok (put_nedges es (nedges.set_stride s (nedges.set_width w new_nedges))
          net)
  else if String.eqb type "dummy" then Ok net
  else Err LogicError.

(** [network::create_edges] *)
Definition create_edges (net : network) : result network :=
  for_each
    (λ (e : string * ptr) net,
       ne ← get_nedges net e.2;
       opts ← deref (nedges.opts ne);
       type ← opt.require_string opts "type";
       let in_ := nedges.in_ ne in
       let out := nedges.out ne in
       r ← (if String.eqb type "max_filter" then
              r ← max_pooling_edges_ctor in_ out opts (nedges.in_stride ne)
                    net;
              Ok (MaxPoolingEdges r.1, r.2)
            else if String.eqb type "conv" then
              r ← filter_edges_ctor in_ out opts (nedges.in_stride ne) net;
              Ok (FilterEdges r.1, r.2)
            else if String.eqb type "dummy" then
              r ← dummy_edges_ctor in_ out opts net;
              Ok (DummyEdges r.1, r.2)
            else Err LogicError);
       let net := r.2 in
       ne ← get_nedges net e.2;
       Ok (put_nedges e.2
             (nedges.set_opts None (nedges.set_edges (Some r.1) ne)) net))
    (edges_ net) net.

(** [network::network( ns, es, outsz )] *)
Definition network_ctor (ns es : list options) (outsz : vec3i)
  : result network :=
  net ← for_each add_nodes ns empty_network;
  net ← for_each add_edges es net;
  net ← init outsz net;
  create_edges net.

(** ** Reading the geometry of a graph

    Total accessors (an invalid pointer reads as the zero vector / the empty
    list) in which the statements about [init] are phrased. *)

Definition valid_node (net : network) (p : ptr) : Prop :=
  p < length (nnodes_arena net).
Definition valid_nedges (net : network) (e : ptr) : Prop :=
  e < length (nedges_arena net).

Definition n_stride (net : network) (p : ptr) : vec3i :=
  from_option nnodes.stride vec3i_ops.zero (nnodes_arena net !! p).
Definition n_fov (net : network) (p : ptr) : vec3i :=
  from_option nnodes.fov vec3i_ops.zero (nnodes_arena net !! p).
Definition n_fsize (net : network) (p : ptr) : vec3i :=
  from_option nnodes.fsize vec3i_ops.zero (nnodes_arena net !! p).
Definition n_out (net : network) (p : ptr) : list ptr :=
  from_option nnodes.out [] (nnodes_arena net !! p).
Definition n_in (net : network) (p : ptr) : list ptr :=
  from_option nnodes.in_ [] (nnodes_arena net !! p).

Definition e_in (net : network) (e : ptr) : ptr :=
  from_option nedges.in_ 0 (nedges_arena net !! e).
Definition e_out (net : network) (e : ptr) : ptr :=
  from_option nedges.out 0 (nedges_arena net !! e).
Definition e_width (net : network) (e : ptr) : vec3i :=
  from_option nedges.width vec3i_ops.zero (nedges_arena net !! e).
Definition e_stride (net : network) (e : ptr) : vec3i :=
  from_option nedges.stride vec3i_ops.zero (nedges_arena net !! e).
Definition e_in_stride (net : network) (e : ptr) : vec3i :=
  from_option nedges.in_stride vec3i_ops.zero (nedges_arena net !! e).
Definition e_in_fsize (net : network) (e : ptr) : vec3i :=
  from_option nedges.in_fsize vec3i_ops.zero (nedges_arena net !! e).

(** The part of a graph the stride pass never writes: everything but the
    [stride] of node groups and the [in_stride] of edge groups. *)
Definition erase_stride (net : network) : network :=
  set_nedges_arena
    (nedges.set_in_stride vec3i_ops.zero <$> nedges_arena net)
    (set_nnodes_arena
       (nnodes.set_stride vec3i_ops.zero <$> nnodes_arena net) net).

(** The part of a graph the FOV pass never writes: everything but [fov] and
    [fsize] of node groups and the [in_fsize] of edge groups. *)
Definition erase_fov (net : network) : network :=
  set_nedges_arena
    (nedges.set_in_fsize vec3i_ops.zero <$> nedges_arena net)
    (set_nnodes_arena
       ((λ x, nnodes.set_fsize vec3i_ops.zero
                (nnodes.set_fov vec3i_ops.zero x)) <$> nnodes_arena net) net).

(** Node groups that can be reached from an input node group. *)
Inductive reachable (net : network) : ptr → Prop :=
| reachable_input k p :
    (k, p) ∈ input_nodes_ net → reachable net p
| reachable_step e :
    valid_nedges net e → reachable net (e_in net e) →
    reachable net (e_out net e).

(** The wiring of the graph records: every edge group joins two existing
    node groups and is listed once by each, with positive window and
    stride. *)
Record wired (net : network) : Prop := Wired {
  wired_ends : ∀ e, valid_nedges net e →
      valid_node net (e_in net e) ∧ valid_node net (e_out net e);
  wired_out : ∀ p e, valid_node net p →
      (e ∈ n_out net p ↔ valid_nedges net e ∧ e_in net e = p);
  wired_in : ∀ p e, valid_node net p →
      (e ∈ n_in net p ↔ valid_nedges net e ∧ e_out net e = p);
  wired_positive : ∀ e, valid_nedges net e →
      vec3i_ops.positive (e_width net e) ∧
      vec3i_ops.positive (e_stride net e);
}.

(** A well-formed graph, as [add_nodes] and [add_edges] leave it before
    [init]: it is wired; it is acyclic ([rank] numbers the node groups
    along the edges); every node group is registered and is fed from an
    input node group; no geometry has been computed yet. *)
Record graph_wf (net : network) (rank : ptr → nat) : Prop := GraphWf {
  wf_wired : wired net;
  wf_rank : ∀ e, valid_nedges net e →
      rank (e_in net e) < rank (e_out net e);
  wf_rank_bound : ∀ p, valid_node net p → rank p < length (nnodes_arena net);
  wf_nodes_ : ∀ p, valid_node net p ↔ p ∈ StdMap.values (nodes_ net);
  wf_nodes_keys : StdMap.wf (nodes_ net);
  wf_inputs : ∀ k p, (k, p) ∈ input_nodes_ net → valid_node net p;
  wf_reachable : ∀ p, valid_node net p → reachable net p;
  wf_no_outputs : output_nodes_ net = StdMap.empty;
  wf_fresh : ∀ p, n_stride net p = vec3i_ops.zero ∧
                  n_fov net p = vec3i_ops.zero;
}.

(** The geometry of a graph fits into [int64_t]: [bs], [bf] and [bz] bound
    the stride, the field of view and the feature-map size of every node
    group.  The bounds are representable and are closed, over the
    integers, under what the two passes compute along an edge group: a
    stride is multiplied downstream, a field of view and a size grow
    upstream. *)
Record fits (net : network) (outsz : vec3i) (bs bf bz : ptr → vec3i)
  : Prop := Fits {
  fit_top : ∀ p,
      vec3i_ops.le (bs p) vec3i_ops.top ∧ vec3i_ops.le (bf p) vec3i_ops.top ∧
      vec3i_ops.le (bz p) vec3i_ops.top;
  fit_inputs : ∀ k p, (k, p) ∈ input_nodes_ net →
      vec3i_ops.le vec3i_ops.one (bs p);
  fit_outputs : ∀ p, valid_node net p → n_out net p = [] →
      vec3i_ops.le vec3i_ops.one (bf p) ∧ vec3i_ops.le outsz (bz p);
  fit_stride : ∀ e, valid_nedges net e →
      vec3i_ops.le
        (vec3i_ops.exact_mul (bs (e_in net e)) (e_stride net e))
        (bs (e_out net e));
  fit_fov : ∀ e, valid_nedges net e →
      vec3i_ops.le
        (vec3i_ops.exact_add
           (vec3i_ops.exact_mul
              (vec3i_ops.exact_sub (bf (e_out net e)) vec3i_ops.one)
              (e_stride net e))
           (e_width net e))
        (bf (e_in net e));
  fit_fsize : ∀ e, valid_nedges net e →
      vec3i_ops.le
        (vec3i_ops.exact_add
           (vec3i_ops.exact_mul
              (vec3i_ops.exact_sub (e_width net e) vec3i_ops.one)
              (bs (e_in net e)))
           (bz (e_out net e)))
        (bz (e_in net e));
}.

(** The relation the stride pass establishes at a node group. *)
Definition stride_closed (net : network) (p : ptr) : Prop :=
  ∀ e, e ∈ n_out net p →
    n_stride net (e_out net e) = (n_stride net p * e_stride net e)%V ∧
    e_in_stride net e = n_stride net p.

(** The relations the FOV pass establishes at a node group. *)
Definition fov_closed (net : network) (p : ptr) : Prop :=
  (∀ e, e ∈ n_in net p →
     n_fov net (e_in net e) =
       ((n_fov net p - vec3i_ops.one) * e_stride net e + e_width net e)%V ∧
     n_fsize net (e_in net e) =
       ((e_width net e - vec3i_ops.one) * e_in_stride net e
        + n_fsize net p)%V) ∧
  (∀ e, e ∈ n_out net p → e_in_fsize net e = n_fsize net p).

(** Two graphs with the same node groups, edge groups and wiring. *)
Record same_wiring (a b : network) : Prop := SameWiring {
  sw_n_out : ∀ p, n_out b p = n_out a p;
  sw_n_in : ∀ p, n_in b p = n_in a p;
  sw_e_in : ∀ e, e_in b e = e_in a e;
  sw_e_out : ∀ e, e_out b e = e_out a e;
  sw_e_width : ∀ e, e_width b e = e_width a e;
  sw_e_stride : ∀ e, e_stride b e = e_stride a e;
  sw_valid_node : ∀ p, valid_node b p ↔ valid_node a p;
  sw_valid_nedges : ∀ e, valid_nedges b e ↔ valid_nedges a e;
  sw_nodes_ : nodes_ b = nodes_ a;
  sw_input_nodes_ : input_nodes_ b = input_nodes_ a;
}.

(** Node groups a pass has still to expand. *)
Definition unvisited_stride (net : network) : nat :=
  length (base.filter (λ x, nnodes.stride x = vec3i_ops.zero) (nnodes_arena net)).
Definition unvisited_fov (net : network) : nat :=
  length (base.filter (λ x, nnodes.fov x = vec3i_ops.zero) (nnodes_arena net)).

(** ** Reading the run-time state of a graph *)

Definition is_input (o : nodes) : bool :=
  match o with Input _ => true | _ => false end.
Definition is_summing (o : nodes) : bool :=
  match o with Summing _ => true | _ => false end.
Definition is_transfer (o : nodes) : bool :=
  match o with Transfer _ => true | _ => false end.

Definition outputs_of (o : nodes) : list (list ptr) :=
  match o with
  | Input x => input_nodes.outputs_ x
  | Summing x => summing_nodes.outputs_ x
  | Transfer x => transfer_nodes.outputs_ x
  end.
Definition inputs_of (o : nodes) : list (list ptr) :=
  match o with
  | Input x => []
  | Summing x => summing_nodes.inputs_ x
  | Transfer x => transfer_nodes.inputs_ x
  end.
Definition received_of (o : nodes) : list nat :=
  match o with
  | Input x => []
  | Summing x => summing_nodes.received_ x
  | Transfer x => transfer_nodes.received_ x
  end.
Definition fs_of (o : nodes) : list cube_p :=
  match o with
  | Input x => []
  | Summing x => summing_nodes.fs_ x
  | Transfer x => transfer_nodes.fs_ x
  end.
Definition gs_of (o : nodes) : list cube_p :=
  match o with
  | Input x => []
  | Summing x => summing_nodes.gs_ x
  | Transfer x => transfer_nodes.gs_ x
  end.

(** the node group object behind [nnodes * p], if any *)
Definition node_obj (net : network) (p : ptr) : option nodes :=
  nnodes.nodes_obj <$> nnodes_arena net !! p.

(** [outputs_[i]], [inputs_[i]], [received_[i]], [fs_[i]], [gs_[i]] of the
    node group at [p]; out of range they read as empty / zero / null. *)
Definition c_out (net : network) (p : ptr) (i : nat) : list ptr :=
  default [] (o ← node_obj net p; outputs_of o !! i).
Definition c_in (net : network) (p : ptr) (i : nat) : list ptr :=
  default [] (o ← node_obj net p; inputs_of o !! i).
Definition received (net : network) (p : ptr) (i : nat) : nat :=
  default 0 (o ← node_obj net p; received_of o !! i).
Definition fs (net : network) (p : ptr) (i : nat) : cube_p :=
  default None (o ← node_obj net p; fs_of o !! i).
Definition gs (net : network) (p : ptr) (i : nat) : cube_p :=
  default None (o ← node_obj net p; gs_of o !! i).
Definition c_size (net : network) (p : ptr) : nat :=
  from_option num_out_nodes 0 (node_obj net p).
Definition input_at (net : network) (p : ptr) : Prop :=
  is_input <$> node_obj net p = Some true.
Definition summing_at (net : network) (p : ptr) : Prop :=
  is_summing <$> node_obj net p = Some true.
Definition transfer_at (net : network) (p : ptr) : Prop :=
  is_transfer <$> node_obj net p = Some true.

(** end points of the edge object at [e] *)
Definition valid_edge (net : network) (e : ptr) : Prop :=
  e < length (edge_arena net).
Definition ed_in (net : network) (e : ptr) : ptr :=
  from_option edge_of.in_nodes 0 (edge_arena net !! e).
Definition ed_in_num (net : network) (e : ptr) : nat :=
  from_option edge_of.in_num 0 (edge_arena net !! e).
Definition ed_out (net : network) (e : ptr) : ptr :=
  from_option edge_of.out_nodes 0 (edge_arena net !! e).
Definition ed_out_num (net : network) (e : ptr) : nat :=
  from_option edge_of.out_num 0 (edge_arena net !! e).

(** The part of a graph that a forward pass never writes: everything but
    the counters and feature buffers of node groups and the state kept by
    edge kernels. *)
Definition erase_nodes (o : nodes) : nodes :=
  match o with
  | Input x => Input x
  | Summing x =>
      Summing (summing_nodes.set_received_ [] (summing_nodes.set_fs_ [] x))
  | Transfer x =>
      Transfer (transfer_nodes.set_received_ [] (transfer_nodes.set_fs_ [] x))
  end.
Definition erase_forward (net : network) : network :=
  set_edge_arena (edge_of.set_impl dummy_edge <$> edge_arena net)
    (set_nnodes_arena
       ((λ x, nnodes.set_nodes_obj (erase_nodes (nnodes.nodes_obj x)) x)
          <$> nnodes_arena net) net).

(** A well-formed graph at run time: every edge is listed exactly once by
    the channel it leaves and by the channel it enters, and the lists hold
    nothing else; the graph is acyclic ([rank] numbers the node groups along
    the edges); every channel of a summing or transfer node group has an
    in-edge; the input node groups, and only they, are registered as
    inputs. *)
Record run_wf (net : network) (rank : ptr → nat) : Prop := RunWf {
  rw_out_sound : ∀ p i e, e ∈ c_out net p i →
      valid_edge net e ∧ ed_in net e = p ∧ ed_in_num net e = i;
  rw_in_sound : ∀ p i e, e ∈ c_in net p i →
      valid_edge net e ∧ ed_out net e = p ∧ ed_out_num net e = i;
  rw_complete : ∀ e, valid_edge net e →
      e ∈ c_out net (ed_in net e) (ed_in_num net e) ∧
      e ∈ c_in net (ed_out net e) (ed_out_num net e);
  rw_out_nodup : ∀ p i, NoDup (c_out net p i);
  rw_in_nodup : ∀ p i, NoDup (c_in net p i);
  rw_rank : ∀ e, valid_edge net e →
      rank (ed_in net e) < rank (ed_out net e);
  rw_rank_bound : ∀ p, valid_node net p → rank p < length (nnodes_arena net);
  rw_sizes : ∀ p, valid_node net p → 0 < c_size net p;
  rw_outputs_len : ∀ p o, node_obj net p = Some o →
      length (outputs_of o) = num_out_nodes o;
  rw_fed : ∀ p i, valid_node net p → ¬ input_at net p → i < c_size net p →
      c_in net p i ≠ [];
  rw_inputs_keys : StdMap.wf (input_nodes_ net);
  rw_inputs_inj : NoDup (StdMap.values (input_nodes_ net));
  rw_inputs : ∀ p, input_at net p ↔ p ∈ StdMap.values (input_nodes_ net);
}.

(** Between passes no arrival is pending. *)
Definition quiescent (net : network) : Prop := ∀ p i, received net p i = 0.

(** Every accumulator buffer of every node group is released. *)
Definition all_released (net : network) : Prop :=
  ∀ p i, fs net p i = None ∧ gs net p i = None.

End Model.

(** * Invariants

    The relations in which the statements about the passes are phrased and
    the invariants their proofs carry. *)

Section Invariants.
Context `{Ext : Externals}.

(** two graphs with the same stride-erasure agree on everything else *)
Record same_but_stride (a b : network) : Prop := SameButStride {
  sbs_n_out : ∀ p, n_out b p = n_out a p;
  sbs_n_in : ∀ p, n_in b p = n_in a p;
  sbs_n_fov : ∀ p, n_fov b p = n_fov a p;
  sbs_n_fsize : ∀ p, n_fsize b p = n_fsize a p;
  sbs_e_in : ∀ e, e_in b e = e_in a e;
  sbs_e_out : ∀ e, e_out b e = e_out a e;
  sbs_e_width : ∀ e, e_width b e = e_width a e;
  sbs_e_stride : ∀ e, e_stride b e = e_stride a e;
  sbs_e_in_fsize : ∀ e, e_in_fsize b e = e_in_fsize a e;
  sbs_valid_node : ∀ p, valid_node b p ↔ valid_node a p;
  sbs_valid_nedges : ∀ e, valid_nedges b e ↔ valid_nedges a e;
  sbs_nodes_ : nodes_ b = nodes_ a;
  sbs_input_nodes_ : input_nodes_ b = input_nodes_ a;
  sbs_output_nodes_ : output_nodes_ b = output_nodes_ a;
  sbs_len : length (nnodes_arena b) = length (nnodes_arena a);
}.

(** what one call of [stride_pass] may change from [a] to [b]: nothing the
    eraser keeps; no stride that was set; no [in_stride] of an edge group
    whose source was visited; and a node group visited by the call is
    closed under the stride relation *)
Record sp_post (bs : ptr → vec3i) (a b : network) : Prop := SpPost {
  sp_same : erase_stride b = erase_stride a;
  sp_mono : ∀ p, n_stride a p ≠ vec3i_ops.zero → n_stride b p = n_stride a p;
  sp_edges : ∀ e, n_stride a (e_in a e) ≠ vec3i_ops.zero →
      e_in_stride b e = e_in_stride a e;
  sp_new : ∀ p, n_stride a p = vec3i_ops.zero →
      n_stride b p ≠ vec3i_ops.zero →
      stride_closed b p ∧ vec3i_ops.within (n_stride b p) (bs p);
}.

(** the loop of [stride_pass] over [n->out], after the edge groups
    [done_] *)
Record sp_loop (bs : ptr → vec3i) (net1 : network) (n : nat) (s : vec3i)
    (cur : network) (done_ : list nat) : Prop := SpLoop {
  spl_same : erase_stride cur = erase_stride net1;
  spl_mono : ∀ p, n_stride net1 p ≠ vec3i_ops.zero →
      n_stride cur p = n_stride net1 p;
  spl_edges : ∀ e, e_in net1 e ≠ n →
      n_stride net1 (e_in net1 e) ≠ vec3i_ops.zero →
      e_in_stride cur e = e_in_stride net1 e;
  spl_new : ∀ p, n_stride net1 p = vec3i_ops.zero →
      n_stride cur p ≠ vec3i_ops.zero →
      stride_closed cur p ∧ vec3i_ops.within (n_stride cur p) (bs p);
  spl_done : ∀ e, e ∈ done_ →
      e_in net1 e = n ∧
      n_stride cur (e_out cur e) = (s * e_stride cur e)%V ∧
      e_in_stride cur e = s;
}.

(** the specification of [stride_pass] with [fuel] levels of recursion *)
Definition stride_pass_ok (outsz : vec3i) (bs bf bz : ptr → vec3i)
    (fuel : nat) : Prop :=
  ∀ n s net,
    wired net → fits net outsz bs bf bz → valid_node net n →
    vec3i_ops.within s (bs n) →
    unvisited_stride net < fuel →
    match stride_pass fuel n s net with
    | Ok net' => sp_post bs net net' ∧ n_stride net' n = s
    | Err e => e = AssertionFailed
    end.

(** two graphs with the same FOV-erasure agree on everything else *)
Record same_but_fov (a b : network) : Prop := SameButFov {
  sbf_n_out : ∀ p, n_out b p = n_out a p;
  sbf_n_in : ∀ p, n_in b p = n_in a p;
  sbf_n_stride : ∀ p, n_stride b p = n_stride a p;
  sbf_e_in : ∀ e, e_in b e = e_in a e;
  sbf_e_out : ∀ e, e_out b e = e_out a e;
  sbf_e_width : ∀ e, e_width b e = e_width a e;
  sbf_e_stride : ∀ e, e_stride b e = e_stride a e;
  sbf_e_in_stride : ∀ e, e_in_stride b e = e_in_stride a e;
  sbf_valid_node : ∀ p, valid_node b p ↔ valid_node a p;
  sbf_valid_nedges : ∀ e, valid_nedges b e ↔ valid_nedges a e;
  sbf_nodes_ : nodes_ b = nodes_ a;
  sbf_input_nodes_ : input_nodes_ b = input_nodes_ a;
  sbf_output_nodes_ : output_nodes_ b = output_nodes_ a;
  sbf_len : length (nnodes_arena b) = length (nnodes_arena a);
}.

(** what one call of [fov_pass] may change from [a] to [b] *)
Record fp_post (bf : ptr → vec3i) (a b : network) : Prop := FpPost {
  fp_same : erase_fov b = erase_fov a;
  fp_mono : ∀ p, n_fov a p ≠ vec3i_ops.zero →
      n_fov b p = n_fov a p ∧ n_fsize b p = n_fsize a p;
  fp_edges : ∀ e, n_fov a (e_in a e) ≠ vec3i_ops.zero →
      e_in_fsize b e = e_in_fsize a e;
  fp_new : ∀ p, n_fov a p = vec3i_ops.zero → n_fov b p ≠ vec3i_ops.zero →
      fov_closed b p ∧ vec3i_ops.within (n_fov b p) (bf p);
}.

(** the specification of [fov_pass] with [fuel] levels of recursion *)
Definition fov_pass_ok (outsz : vec3i) (bs bf bz : ptr → vec3i)
    (fuel : nat) : Prop :=
  ∀ n fov fsize net,
    wired net → fits net outsz bs bf bz → valid_node net n →
    vec3i_ops.within fov (bf n) →
    unvisited_fov net < fuel →
    match fov_pass fuel n fov fsize net with
    | Ok net' =>
        fp_post bf net net' ∧ n_fov net' n = fov ∧ n_fsize net' n = fsize
    | Err e => e = AssertionFailed
    end.

(** the loop of [fov_pass] over [n->in], after the edge groups [done_] *)
Record fp_loop (bf : ptr → vec3i) (net1 : network) (n : nat)
    (fov fsize : vec3i) (cur : network) (done_ : list nat) : Prop := FpLoop {
  fpl_post : fp_post bf net1 cur;
  fpl_done : ∀ e, e ∈ done_ →
      valid_nedges net1 e ∧ e_out net1 e = n ∧
      n_fov cur (e_in cur e) =
        ((fov - vec3i_ops.one) * e_stride cur e + e_width cur e)%V ∧
      n_fsize cur (e_in cur e) =
        ((e_width cur e - vec3i_ops.one) * e_in_stride cur e + fsize)%V;
}.

(** the first loop of [init] as a fold *)
Definition collect_outputs (net : network) (l : list (string * nat))
    (acc : StdMap.t nat) : StdMap.t nat :=
  foldl (λ acc (o : string * nat),
           if length (n_out net o.2) =? 0 then StdMap.insert o.1 o.2 acc
           else acc) acc l.

(** what [init] leaves behind on a well-formed graph *)
Record init_post (outsz : vec3i) (bs bf bz : ptr → vec3i)
    (net net' : network) : Prop := InitPost {
  ip_wiring : same_wiring net net';
  ip_stride : ∀ p, valid_node net p →
      stride_closed net' p ∧ vec3i_ops.within (n_stride net' p) (bs p);
  ip_fov : ∀ p, valid_node net p →
      fov_closed net' p ∧ vec3i_ops.within (n_fov net' p) (bf p) ∧
      vec3i_ops.within (n_fsize net' p) (bz p);
  ip_inputs : ∀ k p, (k, p) ∈ input_nodes_ net →
      n_stride net' p = vec3i_ops.one;
  ip_outputs : ∀ p, valid_node net p → n_out net p = [] →
      n_fov net' p = vec3i_ops.one ∧ n_fsize net' p = outsz;
}.

(** a forward pass leaves the wiring, the kinds and the gradient side alone *)
Record same_topology (a b : network) : Prop := SameTopology {
  st_c_out : ∀ p i, c_out b p i = c_out a p i;
  st_c_in : ∀ p i, c_in b p i = c_in a p i;
  st_c_size : ∀ p, c_size b p = c_size a p;
  st_gs : ∀ p i, gs b p i = gs a p i;
  st_input_at : ∀ p, input_at b p ↔ input_at a p;
  st_summing_at : ∀ p, summing_at b p ↔ summing_at a p;
  st_transfer_at : ∀ p, transfer_at b p ↔ transfer_at a p;
  st_outputs_len : ∀ p o, node_obj b p = Some o →
      ∃ o', node_obj a p = Some o' ∧
            length (outputs_of o) = length (outputs_of o') ∧
            num_out_nodes o = num_out_nodes o';
  st_ed_in : ∀ e, ed_in b e = ed_in a e;
  st_ed_in_num : ∀ e, ed_in_num b e = ed_in_num a e;
  st_ed_out : ∀ e, ed_out b e = ed_out a e;
  st_ed_out_num : ∀ e, ed_out_num b e = ed_out_num a e;
  st_valid_edge : ∀ e, valid_edge b e ↔ valid_edge a e;
  st_valid_node : ∀ p, valid_node b p ↔ valid_node a p;
  st_len : length (nnodes_arena b) = length (nnodes_arena a);
  st_input_nodes_ : input_nodes_ b = input_nodes_ a;
  st_output_nodes_ : output_nodes_ b = output_nodes_ a;
  st_filter_arena : filter_arena b = filter_arena a;
  st_channels : channels b = channels a;
}.

(** how many edges of [l] have delivered, [D] being the set of the edges
    that have *)
Definition delivered (D : gset nat) (l : list nat) : nat :=
  length (base.filter (λ e, e ∈ D) l).

(** the accumulation protocol at channel [i] of [p]: while in-edges are
    outstanding the counter is the number of deliveries and no out-edge
    has delivered; once all have delivered the channel has fired, the
    counter is back at zero and every out-edge has delivered *)
Definition chan_inv (net : network) (D : gset nat) (p i : nat) : Prop :=
  if decide (delivered D (c_in net p i) < length (c_in net p i)) then
    received net p i = delivered D (c_in net p i) ∧
    (∀ e, e ∈ c_out net p i → e ∉ D)
  else
    received net p i = 0 ∧
    (∀ e, e ∈ c_out net p i → e ∈ D) ∧
    (summing_at net p → fs net p i = None) ∧
    (transfer_at net p → is_Some (fs net p i)).

(** the body of the first loop of [network::forward] *)
Definition forward_entry (i : string * list (option cube)) (net : network)
  : result network :=
  ZI_ASSERT (0 <? StdMap.count i.1 (input_nodes_ net));;
  in_layer ← deref (StdMap.find i.1 (input_nodes_ net));
  o ← get_nodes net in_layer;
  ZI_ASSERT (num_in_nodes o =? length i.2);;
  for_channels (nodes_forward (run_fuel net)) in_layer i.2 net.

(** the state of a transfer node group whose channel [n] is about to
    dispatch backward: gradient multiplied, bias updated, arrival counted *)
Definition transfer_fired (x : transfer_nodes.t) (n r : nat)
    (gs1 : list (option cube)) (G' : cube) (b : bias) : transfer_nodes.t :=
  transfer_nodes.set_biases_
    (<[n := bias_update b (sum G')]> (transfer_nodes.biases_ x))
    (transfer_nodes.set_gs_ (<[n := Some G']> gs1)
       (transfer_nodes.set_received_
          (<[n := S r]> (transfer_nodes.received_ x))
          (transfer_nodes.set_gs_ gs1 x))).

(** ... and once it has dispatched: both buffers released, counter reset *)
Definition transfer_released (x : transfer_nodes.t) (n : nat)
  : transfer_nodes.t :=
  transfer_nodes.set_fs_ (<[n := None]> (transfer_nodes.fs_ x))
    (transfer_nodes.set_gs_ (<[n := None]> (transfer_nodes.gs_ x))
       (transfer_nodes.set_received_
          (<[n := 0]> (transfer_nodes.received_ x)) x)).

(** how often [e] occurs in [l] *)
Definition occurrences (e : nat) (l : list nat) : nat :=
  length (base.filter (λ x, x = e) l).

(** the edge vectors of every node group are as long as the group is
    wide *)
Definition vectors_ok (net : network) : Prop :=
  ∀ p o, node_obj net p = Some o →
    length (outputs_of o) = num_out_nodes o ∧
    (is_input o = false → length (inputs_of o) = num_out_nodes o).

(** node groups list edges of the arena only *)
Definition arena_closed (net : network) : Prop :=
  ∀ p i e, e ∈ c_out net p i ∨ e ∈ c_in net p i →
    e < length (edge_arena net).

(** [1] when [e] is one of the edges [objs], allocated from address [len0]
    on, and that edge is selected by [sel]; [0] otherwise *)
Definition tally (len0 : nat) (objs : list edge_of.t)
    (sel : edge_of.t → bool) (e : ptr) : nat :=
  if decide (len0 ≤ e) then
    match objs !! (e - len0) with
    | Some o => if sel o then 1 else 0
    | None => 0
    end
  else 0.

(** the edge [o] leaves, resp. enters, channel [i] of [p] *)
Definition leaves (p : ptr) (i : nat) (o : edge_of.t) : bool :=
  bool_decide (edge_of.in_nodes o = p ∧ edge_of.in_num o = i).

Definition enters (p : ptr) (i : nat) (o : edge_of.t) : bool :=
  bool_decide (edge_of.out_nodes o = p ∧ edge_of.out_num o = i).

(** [net] is [net0] after the edge objects [objs] were constructed. *)
Record created (net0 net : network) (objs : list edge_of.t) : Prop := {
  cr_arena : edge_arena net = edge_arena net0 ++ objs;
  cr_vectors : vectors_ok net;
  cr_size : ∀ p, c_size net p = c_size net0 p;
  cr_out : ∀ p i e,
    occurrences e (c_out net p i) =
    occurrences e (c_out net0 p i)
      + tally (length (edge_arena net0)) objs (leaves p i) e;
  cr_in : ∀ p i e,
    occurrences e (c_in net p i) =
    occurrences e (c_in net0 p i)
      + tally (length (edge_arena net0)) objs (enters p i) e;
}.

(** the edge at address [e] runs from channel [i] of [p] to channel [j] of
    [q] and is registered exactly once at either end *)
Record wires (net : network) (e p : ptr) (i : nat) (q : ptr) (j : nat)
  : Prop := {
  w_valid : valid_edge net e;
  w_in : ed_in net e = p;
  w_in_num : ed_in_num net e = i;
  w_out : ed_out net e = q;
  w_out_num : ed_out_num net e = j;
  w_chan_in : i < c_size net p;
  w_chan_out : j < c_size net q;
  w_once_out : occurrences e (c_out net p i) = 1;
  w_once_in : occurrences e (c_in net q j) = 1;
}.

(** the edge object [o] joins the pair of channels [x] *)
Definition joins (net0 : network) (in_ out : ptr) (x : nat * nat)
    (o : edge_of.t) : Prop :=
  edge_of.in_nodes o = in_ ∧ edge_of.in_num o = x.1 ∧
  edge_of.out_nodes o = out ∧ edge_of.out_num o = x.2 ∧
  x.1 < c_size net0 in_ ∧ x.2 < c_size net0 out.

(** the pairs [(i, j)], [i < n], [j < m], in row-major order *)
Definition pairs_from (a n m : nat) : list (nat * nat) :=
  flat_map (λ i, pair i <$> seq 0 m) (seq a n).

(** what a diagonal group leaves behind *)
Definition diagonal_wired (in_ out : ptr) (net : network)
    (edges : list ptr) (net' : network) : Prop :=
  c_size net in_ = c_size net out ∧
  length (edge_arena net') = length (edge_arena net) + c_size net in_ ∧
  edges = seq (length (edge_arena net)) (c_size net in_) ∧
  ∀ i, i < c_size net in_ →
    wires net' (length (edge_arena net) + i) in_ i out i.

(** what a cartesian group leaves behind *)
Definition cartesian_wired (in_ out : ptr) (net : network)
    (edges : list ptr) (net' : network) : Prop :=
  let n := c_size net in_ in
  let m := c_size net out in
  length (edge_arena net') = length (edge_arena net) + n * m ∧
  edges = seq (length (edge_arena net)) (n * m) ∧
  ∀ i j, i < n → j < m →
    wires net' (length (edge_arena net) + (i * m + j)) in_ i out j.

(** the state of a forward pass between two input channels: the channels
    in [F] have fired, the edges in [D] have delivered *)
Record top_inv (net0 cur : network) (D : gset nat) (F : gset (nat * nat))
  : Prop := TopInv {
  ti_same : erase_forward cur = erase_forward net0;
  ti_inv : ∀ q j, c_in net0 q j ≠ [] → chan_inv cur D q j;
  ti_fired : ∀ p i e, input_at net0 p → (p, i) ∈ F →
      e ∈ c_out net0 p i → e ∈ D;
  ti_unfired : ∀ p i e, input_at net0 p → (p, i) ∉ F →
      e ∈ c_out net0 p i → e ∉ D;
}.

(** the node group objects and the edge objects of [b] are those of [a] *)
Definition same_objects (a b : network) : Prop :=
  edge_arena b = edge_arena a ∧ ∀ p, node_obj b p = node_obj a p.

(** no edge object yet, and every channel list empty *)
Definition unwired (net : network) : Prop :=
  edge_arena net = [] ∧
  ∀ p o, node_obj net p = Some o →
    outputs_of o = replicate (num_out_nodes o) [] ∧
    (is_input o = false → inputs_of o = replicate (num_out_nodes o) []).

(** every channel lists exactly the edge objects that leave, resp. enter,
    it, each of them once *)
Definition registered (net : network) : Prop :=
  vectors_ok net ∧
  ∀ p i e,
    occurrences e (c_out net p i)
      = tally 0 (edge_arena net) (leaves p i) e ∧
    occurrences e (c_in net p i)
      = tally 0 (edge_arena net) (enters p i) e.

Section Ranked.
Variable rank : ptr → nat.

(** the specification of [nodes::forward] with [fuel] levels of recursion:
    called for the delivery of [e0] to channel [i] of [p], in a state in
    which the protocol holds from [p] on, it never runs out of fuel and
    leaves a state in which the protocol holds for the deliveries [D'] *)
Definition nodes_forward_ok (fuel : nat) : Prop :=
  ∀ p i f net (D : gset nat) e0,
    run_wf net rank → e0 ∈ c_in net p i → e0 ∉ D →
    (∀ q j, c_in net q j ≠ [] → rank p ≤ rank q → chan_inv net D q j) →
    length (nnodes_arena net) < fuel + rank p →
    match nodes_forward fuel p i f net with
    | Ok net' =>
        ∃ D' : gset nat,
          erase_forward net' = erase_forward net ∧ D ⊆ D' ∧ e0 ∈ D' ∧
          (∀ e, e ∈ D' → e ∉ D →
             e = e0 ∨ (rank p ≤ rank (ed_in net e) ∧
                       ¬ input_at net (ed_in net e))) ∧
          (∀ q j, c_in net q j ≠ [] → rank p ≤ rank q → chan_inv net' D' q j) ∧
          (∀ q, rank q < rank p → node_obj net' q = node_obj net q)
    | Err x => x ≠ OutOfFuel
    end.

(** the dispatch loop of a firing channel of [p], after the out-edges
    [done_] *)
Record loop_inv (net0 : network) (D0 : gset nat) (p : nat)
    (cur : network) (D : gset nat) (done_ : list nat) : Prop := LoopInv {
  li_same : erase_forward cur = erase_forward net0;
  li_sub : D0 ⊆ D;
  li_done : ∀ e, e ∈ done_ → e ∈ D;
  li_new : ∀ e, e ∈ D → e ∉ D0 →
      e ∈ done_ ∨ (rank p < rank (ed_in net0 e) ∧
                   ¬ input_at net0 (ed_in net0 e));
  li_inv : ∀ q j, c_in net0 q j ≠ [] → rank p < rank q → chan_inv cur D q j;
  li_frame : ∀ q, rank q ≤ rank p → node_obj cur q = node_obj net0 q;
}.

(** the state after the delivery of [e0] to [p] *)
Definition fwd_post (net : network) (D : gset nat) (e0 p : nat)
    (net' : network) (D' : gset nat) : Prop :=
  erase_forward net' = erase_forward net ∧ D ⊆ D' ∧ e0 ∈ D' ∧
  (∀ e, e ∈ D' → e ∉ D →
     e = e0 ∨ (rank p ≤ rank (ed_in net e) ∧ ¬ input_at net (ed_in net e))) ∧
  (∀ q j, c_in net q j ≠ [] → rank p ≤ rank q → chan_inv net' D' q j) ∧
  (∀ q, rank q < rank p → node_obj net' q = node_obj net q).

(** every in-edge of a channel comes from a node group of lower rank *)
Definition upstream_ranked (net : network) : Prop :=
  ∀ p i e, e ∈ c_in net p i → rank (ed_in net e) < rank p.

(** [b] differs from [a] at most in the filters and in the state -- not the
    in-edge lists -- of node groups of rank at most [k] *)
Record bframe (k : nat) (a b : network) : Prop := BFrame {
  bf_edges : edge_arena b = edge_arena a;
  bf_inputs : ∀ p, inputs_of <$> node_obj b p = inputs_of <$> node_obj a p;
  bf_above : ∀ p, k < rank p → node_obj b p = node_obj a p;
}.

(** [nodes::backward] on [q] stays below [q] *)
Definition nodes_backward_framed (fuel : nat) : Prop :=
  ∀ q n g cur cur',
    upstream_ranked cur → nodes_backward fuel q n g cur = Ok cur' →
    bframe (rank q) cur cur'.

End Ranked.

End Invariants.

(** * Further relations

    The rest of the interface of [network], and the erasers and relations in
    which the properties of the constructor and of the two passes that go
    beyond the specification are phrased. *)

Section Further.
Context `{Ext : Externals}.

(** [vec3i fov() const]: [input_nodes_.begin()->second->fov]; on an empty
    registry [begin()] is [end()], which must not be dereferenced *)
Definition network_fov (net : network) : result vec3i :=
  match input_nodes_ net with
  | [] => Err DanglingPointer
  | (_, p) :: _ => nn ← get_nnodes net p; Ok (nnodes.fov nn)
  end.

(** The part of a network that [init] never writes: everything but the
    geometry and the registry of the output node groups. *)
Definition erase_init (net : network) : network :=
  set_output_nodes_ StdMap.empty (erase_fov (erase_stride net)).

(** The part of a graph that a backward pass never writes: everything but
    the filters, the biases, the counters and gradient buffers of node
    groups and the feature buffers of transfer node groups. *)
Definition erase_grads (o : nodes) : nodes :=
  match o with
  | Input x => Input x
  | Summing x =>
      Summing (summing_nodes.set_received_ [] (summing_nodes.set_gs_ [] x))
  | Transfer x =>
      Transfer (transfer_nodes.set_biases_ []
                  (transfer_nodes.set_received_ []
                     (transfer_nodes.set_fs_ []
                        (transfer_nodes.set_gs_ [] x))))
  end.
Definition erase_backward (net : network) : network :=
  set_filter_arena []
    (set_nnodes_arena
       ((λ x, nnodes.set_nodes_obj (erase_grads (nnodes.nodes_obj x)) x)
          <$> nnodes_arena net) net).

(** the body of the first loop of [network::backward] *)
Definition backward_entry (o : string * list (option cube)) (net : network)
  : result network :=
  ZI_ASSERT (0 <? StdMap.count o.1 (output_nodes_ net));;
  out_layer ← deref (StdMap.find o.1 (output_nodes_ net));
  obj ← get_nodes net out_layer;
  ZI_ASSERT (num_out_nodes obj =? length o.2);;
  for_channels (nodes_backward (run_fuel net)) out_layer o.2 net.

(** the node group at [i] is the one the declaration [op] asks for *)
Definition node_declared (op : options) (i : ptr) (net : network) : Prop :=
  ∃ name type sz o,
    opt.require_string op "name" = Ok name ∧
    opt.require_string op "type" = Ok type ∧
    opt.require_size op "size" = Ok sz ∧ 0 < sz ∧
    StdMap.find name (nodes_ net) = Some i ∧
    node_obj net i = Some o ∧ num_out_nodes o = sz ∧
    StdMap.find name (input_nodes_ net)
      = (if is_input o then Some i else None) ∧
    (type = "input" ∧ is_input o = true ∨
     type = "sum" ∧ is_summing o = true ∨
     type = "transfer" ∧ is_transfer o = true).

(** a node group as [add_nodes] creates it: it lists no edge group, its
    channels list no edge object and it has no geometry *)
Definition node_fresh (net : network) (p : ptr) : Prop :=
  n_in net p = [] ∧ n_out net p = [] ∧
  n_stride net p = vec3i_ops.zero ∧ n_fov net p = vec3i_ops.zero ∧
  n_fsize net p = vec3i_ops.zero ∧
  ∀ i, c_out net p i = [] ∧ c_in net p i = [].

(** the edge group at [i] is the one the declaration [op] asks for *)
Definition edge_declared (op : options) (i : ptr) (net : network) : Prop :=
  ∃ name type in_ out pin pout,
    opt.require_string op "name" = Ok name ∧
    opt.require_string op "type" = Ok type ∧
    opt.require_string op "input" = Ok in_ ∧
    opt.require_string op "output" = Ok out ∧
    StdMap.find name (edges_ net) = Some i ∧
    StdMap.find in_ (nodes_ net) = Some pin ∧
    StdMap.find out (nodes_ net) = Some pout ∧
    e_in net i = pin ∧ e_out net i = pout ∧
    i ∈ n_out net pin ∧ i ∈ n_in net pout ∧
    (type = "max_filter" ∧
       opt.require_vec op "size" = Ok (e_width net i) ∧
       opt.require_vec op "stride" = Ok (e_stride net i) ∨
     type = "conv" ∧
       opt.require_vec op "size" = Ok (e_width net i) ∧
       opt.optional_vec op "stride" vec3i_ops.one = Ok (e_stride net i) ∨
     type = "dummy" ∧
       e_width net i = vec3i_ops.one ∧ e_stride net i = vec3i_ops.one).

(** What the two declaration loops of the constructor keep: every edge
    group joins two existing node groups and is listed once by each; node
    groups and edge groups are registered, each under a name of its own;
    the input node groups, and only they, are registered as inputs; no
    output is registered and no geometry computed yet; every node group
    has a channel. *)
Record declared_wf (net : network) : Prop := DeclaredWf {
  dw_ends : ∀ e, valid_nedges net e →
      valid_node net (e_in net e) ∧ valid_node net (e_out net e);
  dw_out : ∀ p e, valid_node net p →
      (e ∈ n_out net p ↔ valid_nedges net e ∧ e_in net e = p);
  dw_in : ∀ p e, valid_node net p →
      (e ∈ n_in net p ↔ valid_nedges net e ∧ e_out net e = p);
  dw_out_nodup : ∀ p, NoDup (n_out net p);
  dw_in_nodup : ∀ p, NoDup (n_in net p);
  dw_nodes_ : ∀ p, valid_node net p ↔ p ∈ StdMap.values (nodes_ net);
  dw_nodes_keys : StdMap.wf (nodes_ net);
  dw_nodes_inj : NoDup (StdMap.values (nodes_ net));
  dw_edges_ : ∀ e, valid_nedges net e ↔ e ∈ StdMap.values (edges_ net);
  dw_edges_keys : StdMap.wf (edges_ net);
  dw_inputs : ∀ k p, (k, p) ∈ input_nodes_ net ↔
      (k, p) ∈ nodes_ net ∧ input_at net p;
  dw_inputs_keys : StdMap.wf (input_nodes_ net);
  dw_no_outputs : output_nodes_ net = StdMap.empty;
  dw_fresh : ∀ p, n_stride net p = vec3i_ops.zero ∧
                  n_fov net p = vec3i_ops.zero;
  dw_sizes : ∀ p, valid_node net p → 0 < c_size net p;
}.

(** the state of a summing node group when an arrival at channel [n] has
    been counted and accumulated *)
Definition summing_arrived (x : summing_nodes.t) (n r : nat)
    (gs1 : list (option cube)) : summing_nodes.t :=
  summing_nodes.set_received_ (<[n := S r]> (summing_nodes.received_ x))
    (summing_nodes.set_gs_ gs1 x).

(** ... and once the channel has dispatched backward: gradient buffer
    released, counter reset *)
Definition summing_released (x : summing_nodes.t) (n : nat)
  : summing_nodes.t :=
  summing_nodes.set_gs_ (<[n := None]> (summing_nodes.gs_ x))
    (summing_nodes.set_received_ (<[n := 0]> (summing_nodes.received_ x)) x).

(** The part of a network that [create_edges] never writes: everything but
    the edge objects, the filters, the edge lists of the node groups and
    the [opts] and [edges] of the edge groups. *)
Definition erase_wires (o : nodes) : nodes :=
  match o with
  | Input x =>
      Input (input_nodes.Build (input_nodes.size_ x) [] (input_nodes.opts_ x))
  | Summing x =>
      Summing (summing_nodes.set_inputs_ [] (summing_nodes.set_outputs_ [] x))
  | Transfer x =>
      Transfer (transfer_nodes.set_inputs_ []
                  (transfer_nodes.set_outputs_ [] x))
  end.
Definition erase_edges (net : network) : network :=
  set_filter_arena []
    (set_edge_arena []
       (set_nedges_arena
          ((λ x, nedges.set_opts None (nedges.set_edges None x))
             <$> nedges_arena net)
          (set_nnodes_arena
             ((λ x, nnodes.set_nodes_obj (erase_wires (nnodes.nodes_obj x)) x)
                <$> nnodes_arena net) net))).

(** no arrival counted, no buffer held *)
Definition pristine (net : network) : Prop :=
  ∀ p i, received net p i = 0 ∧ fs net p i = None ∧ gs net p i = None.

(** two networks that differ in what [create_edges] writes only *)
Record same_graph (a b : network) : Prop := SameGraph {
  sg_n_in : ∀ p, n_in b p = n_in a p;
  sg_n_out : ∀ p, n_out b p = n_out a p;
  sg_e_in : ∀ e, e_in b e = e_in a e;
  sg_e_out : ∀ e, e_out b e = e_out a e;
  sg_valid_node : ∀ p, valid_node b p ↔ valid_node a p;
  sg_valid_nedges : ∀ e, valid_nedges b e ↔ valid_nedges a e;
  sg_c_size : ∀ p, c_size b p = c_size a p;
  sg_input_at : ∀ p, input_at b p ↔ input_at a p;
  sg_received : ∀ p i, received b p i = received a p i;
  sg_fs : ∀ p i, fs b p i = fs a p i;
  sg_gs : ∀ p i, gs b p i = gs a p i;
  sg_edges_ : edges_ b = edges_ a;
  sg_nodes_ : nodes_ b = nodes_ a;
  sg_input_nodes_ : input_nodes_ b = input_nodes_ a;
}.

(** [net'] is [net] after the construction of an edge group from [in_] to
    [out]: edge objects were added, all of them from [in_] to [out], every
    channel of [out] is entered by one of them and every channel of [in_]
    is left by one of them *)
Definition group_created (in_ out : ptr) (net net' : network) : Prop :=
  ∃ xs objs,
    created net net' objs ∧ Forall2 (joins net in_ out) xs objs ∧
    (∀ j, j < c_size net out → ∃ i, (i, j) ∈ xs) ∧
    (∀ i, i < c_size net in_ → ∃ j, (i, j) ∈ xs).

(** the state of [create_edges] when the edge groups [done_] have been
    constructed in the initialised graph [net0] *)
Record built_inv (net0 cur : network) (done_ : list ptr) : Prop := BuiltInv {
  bi_same : erase_edges cur = erase_edges net0;
  bi_registered : registered cur;
  bi_follow : ∀ e, valid_edge cur e →
      ∃ g, g ∈ done_ ∧ ed_in cur e = e_in net0 g ∧ ed_out cur e = e_out net0 g;
  bi_cover : ∀ g j, g ∈ done_ → j < c_size net0 (e_out net0 g) →
      ∃ e, valid_edge cur e ∧ ed_out cur e = e_out net0 g ∧
           ed_out_num cur e = j;
  bi_cover_in : ∀ g i, g ∈ done_ → i < c_size net0 (e_in net0 g) →
      ∃ e, valid_edge cur e ∧ ed_in cur e = e_in net0 g ∧
           ed_in_num cur e = i;
}.

(** every out-edge of a channel leads to a node group of higher rank *)
Definition downstream_ranked (rank : ptr → nat) (net : network) : Prop :=
  ∀ p i e, e ∈ c_out net p i → rank p < rank (ed_out net e).

(** the state of a summing node group when an arrival at channel [n] has
    been counted and accumulated into [fs_[n]] *)
Definition summing_fed (x : summing_nodes.t) (n r : nat)
    (fs1 : list (option cube)) : summing_nodes.t :=
  summing_nodes.set_received_ (<[n := S r]> (summing_nodes.received_ x))
    (summing_nodes.set_fs_ fs1 x).

(** ... and once the channel has dispatched forward: feature buffer
    released, counter reset *)
Definition summing_forwarded (x : summing_nodes.t) (n : nat)
  : summing_nodes.t :=
  summing_nodes.set_fs_ (<[n := None]> (summing_nodes.fs_ x))
    (summing_nodes.set_received_ (<[n := 0]> (summing_nodes.received_ x)) x).

(** the same for a transfer node group; [transfer_applied] is the state in
    which the channel dispatches: the transfer function has been applied *)
Definition transfer_fed (x : transfer_nodes.t) (n r : nat)
    (fs1 : list (option cube)) : transfer_nodes.t :=
  transfer_nodes.set_received_ (<[n := S r]> (transfer_nodes.received_ x))
    (transfer_nodes.set_fs_ fs1 x).

Definition transfer_applied (x : transfer_nodes.t) (n r : nat)
    (fs1 : list (option cube)) (F' : cube) : transfer_nodes.t :=
  transfer_nodes.set_fs_ (<[n := Some F']> fs1) (transfer_fed x n r fs1).

Definition transfer_forwarded (x : transfer_nodes.t) (n : nat)
  : transfer_nodes.t :=
  transfer_nodes.set_received_ (<[n := 0]> (transfer_nodes.received_ x)) x.

(** a delivery to [p] writes no node group below [p] *)
Definition nodes_forward_below (rank : ptr → nat) (fuel : nat) : Prop :=
  ∀ p i f net net',
    downstream_ranked rank net → nodes_forward fuel p i f net = Ok net' →
    ∀ q, rank q < rank p → node_obj net' q = node_obj net q.

(** How many gradients channel [i] of [p] waits for in a backward pass:
    one from every out-edge, and one from outside if it has none. *)
Definition expected (net : network) (p i : nat) : nat :=
  if decide (c_out net p i = []) then 1 else length (c_out net p i).

(** How many of them have arrived, [D] being the set of the edges that have
    delivered backward and [F] the set of the channels without out-edge
    that were given their gradient. *)
Definition arrivals (net : network) (D : gset nat) (F : gset (nat * nat))
    (p i : nat) : nat :=
  if decide (c_out net p i = []) then
    if decide ((p, i) ∈ F) then 1 else 0
  else delivered D (c_out net p i).

(** The accumulation protocol of a backward pass at channel [i] of [p],
    [net0] being the state in which the pass started: while gradients are
    outstanding the counter is the number of arrivals, no in-edge has been
    handed a gradient and the feature buffer is untouched; once all have
    arrived the channel has fired, the counter is back at zero, every
    in-edge has been handed the gradient, the gradient buffer is released
    and so is the feature buffer of a transfer node group. *)
Definition bchan_inv (net0 cur : network) (D : gset nat)
    (F : gset (nat * nat)) (p i : nat) : Prop :=
  if decide (arrivals net0 D F p i < expected net0 p i) then
    received cur p i = arrivals net0 D F p i ∧
    (∀ e, e ∈ c_in net0 p i → e ∉ D) ∧
    (arrivals net0 D F p i = 0 → gs cur p i = gs net0 p i) ∧
    fs cur p i = fs net0 p i
  else
    received cur p i = 0 ∧
    (∀ e, e ∈ c_in net0 p i → e ∈ D) ∧
    gs cur p i = None ∧
    (transfer_at net0 p → fs cur p i = None) ∧
    (summing_at net0 p → fs cur p i = fs net0 p i).

(** two graphs with the same backward-erasure agree on the wiring *)
Record same_wiring_b (a b : network) : Prop := SameWiringB {
  sb_c_out : ∀ p i, c_out b p i = c_out a p i;
  sb_c_in : ∀ p i, c_in b p i = c_in a p i;
  sb_c_size : ∀ p, c_size b p = c_size a p;
  sb_input_at : ∀ p, input_at b p ↔ input_at a p;
  sb_summing_at : ∀ p, summing_at b p ↔ summing_at a p;
  sb_transfer_at : ∀ p, transfer_at b p ↔ transfer_at a p;
  sb_edge_arena : edge_arena b = edge_arena a;
  sb_valid_node : ∀ p, valid_node b p ↔ valid_node a p;
  sb_channels : channels b = channels a;
  sb_input_nodes_ : input_nodes_ b = input_nodes_ a;
  sb_output_nodes_ : output_nodes_ b = output_nodes_ a;
}.

(** an arrival at channel [i] of [p]: the deliveries [D], [F] become [D1],
    [F1], and no other channel at the rank of [p] or below sees it *)
Record arrival (rank : ptr → nat) (net0 : network) (D : gset nat)
    (F : gset (nat * nat)) (D1 : gset nat) (F1 : gset (nat * nat))
    (p i : nat) : Prop := Arrival {
  ar_pending : arrivals net0 D F p i < expected net0 p i;
  ar_count : arrivals net0 D1 F1 p i = S (arrivals net0 D F p i);
  ar_sub : D ⊆ D1;
  ar_others : ∀ q j, (q, j) ≠ (p, i) → rank q ≤ rank p →
      arrivals net0 D1 F1 q j = arrivals net0 D F q j;
  ar_in : ∀ q j e, rank q ≤ rank p → e ∈ c_in net0 q j →
      (e ∈ D1 ↔ e ∈ D);
}.

(** the state after an arrival at [p] has been dealt with: the deliveries
    [D1] have become [D'] *)
Definition bwd_post (rank : ptr → nat) (net0 cur : network) (D1 : gset nat)
    (F1 : gset (nat * nat)) (p : nat) (net' : network) (D' : gset nat)
  : Prop :=
  D1 ⊆ D' ∧
  (∀ e, e ∈ D' → e ∉ D1 → rank (ed_out net0 e) ≤ rank p) ∧
  (∀ q j, ¬ input_at net0 q → rank q ≤ rank p →
     bchan_inv net0 net' D' F1 q j) ∧
  (∀ q, rank p < rank q → node_obj net' q = node_obj cur q).

(** the specification of [nodes::backward] with [fuel] levels of recursion:
    called by the edge [e0] on channel [i] of [p], in a state in which the
    protocol holds from [p] down, it never runs out of fuel and leaves a
    state in which the protocol holds for the deliveries [D'] *)
Definition nodes_backward_ok (rank : ptr → nat) (fuel : nat) : Prop :=
  ∀ net0 p i g cur (D : gset nat) (F : gset (nat * nat)) e0,
    run_wf net0 rank → erase_backward cur = erase_backward net0 →
    e0 ∈ c_out net0 p i → e0 ∉ D →
    (∀ q j, ¬ input_at net0 q → rank q ≤ rank p →
       bchan_inv net0 cur D F q j) →
    rank p < fuel →
    match nodes_backward fuel p i g cur with
    | Ok net' => ∃ D' : gset nat,
        bwd_post rank net0 cur ({[e0]} ∪ D) F p net' D'
    | Err x => x ≠ OutOfFuel
    end.

(** the dispatch loop of a firing channel of [p], which started in [net1]
    with the deliveries [D0], after the in-edges [done_] *)
Record bloop_inv (rank : ptr → nat) (net0 net1 : network) (D0 : gset nat)
    (F : gset (nat * nat)) (p : nat) (cur : network) (D : gset nat)
    (done_ : list nat) : Prop := BLoopInv {
  bl_same : erase_backward cur = erase_backward net0;
  bl_sub : D0 ⊆ D;
  bl_done : ∀ e, e ∈ done_ → e ∈ D;
  bl_new : ∀ e, e ∈ D → e ∉ D0 →
      e ∈ done_ ∨ rank (ed_out net0 e) < rank p;
  bl_inv : ∀ q j, ¬ input_at net0 q → rank q < rank p →
      bchan_inv net0 cur D F q j;
  bl_frame : ∀ q, rank p ≤ rank q → node_obj cur q = node_obj net1 q;
}.

(** the state of a backward pass between two output channels *)
Record btop_inv (net0 cur : network) (D : gset nat) (F : gset (nat * nat))
  : Prop := BTopInv {
  bt_same : erase_backward cur = erase_backward net0;
  bt_inv : ∀ q j, ¬ input_at net0 q → bchan_inv net0 cur D F q j;
}.

(** The registry of the output node groups is sound for a backward pass:
    the registered node groups bear distinct names, none of their channels
    has an out-edge, and every channel without out-edge belongs to one of
    them. *)
Record outputs_wf (net : network) : Prop := OutputsWf {
  ow_keys : StdMap.wf (output_nodes_ net);
  ow_inj : NoDup (StdMap.values (output_nodes_ net));
  ow_sinks : ∀ p i, p ∈ StdMap.values (output_nodes_ net) →
      c_out net p i = [];
  ow_cover : ∀ p i, valid_node net p → i < c_size net p →
      c_out net p i = [] → p ∈ StdMap.values (output_nodes_ net);
}.

(** the counters and feature buffers beyond the width of a node group are
    in [b] what they are in [a] *)
Definition kept_beyond (a b : network) : Prop :=
  ∀ p i, c_size a p ≤ i →
    received b p i = received a p i ∧ fs b p i = fs a p i.

(** A network between two training steps: well formed, with a sound
    registry of outputs, no arrival pending and every buffer released. *)
Record ready (net : network) (rank : ptr → nat) : Prop := Ready {
  rd_wf : run_wf net rank;
  rd_vectors : vectors_ok net;
  rd_outputs : outputs_wf net;
  rd_quiescent : quiescent net;
  rd_released : all_released net;
}.

End Further.

(** * A model of the numeric libraries: cubes of a single voxel

    Every cube is one rational voxel; a convolution with a window of one
    voxel is a product; SGD with momentum and weight decay as in
    [filter.hpp] and [bias.hpp]. *)
Module OneVoxel.
Record filter_t : Type :=
  Filter { W : Q; V : Q; f_eta : Q; f_mu : Q; f_lambda : Q }.
Record bias_t : Type :=
  Bias { b : Q; v : Q; b_eta : Q; b_mu : Q; b_lambda : Q }.
Definition update_filter (f : filter_t) (dW : Q) : filter_t :=
  let V' := Qred (f_mu f * V f - f_eta f * (dW + f_lambda f * W f)) in
  Filter (Qred (W f + V')) V' (f_eta f) (f_mu f) (f_lambda f).
Definition update_bias (x : bias_t) (dB : Q) : bias_t :=
  let v' := Qred (b_mu x * v x - b_eta x * (dB + b_lambda x * b x)) in
  Bias (Qred (b x + v')) v' (b_eta x) (b_mu x) (b_lambda x).
Definition load_filter_values (fs : list filter_t) (sz : vec3i) (vals : list Q)
  : option (list filter_t) :=
  if bool_decide (length fs = length vals) then
    Some (zip_with (λ f w, Filter w 0 (f_eta f) (f_mu f) (f_lambda f))
                   fs vals)
  else None.
Definition load_bias_values (bs : list bias_t) (vals : list Q)
  : option (list bias_t) :=
  if bool_decide (length bs = length vals) then
    Some (zip_with (λ x w, Bias w 0 (b_eta x) (b_mu x) (b_lambda x))
                   bs vals)
  else None.

#[export] Instance ext : Externals := {|
  real := Q;
  real_0 := 0%Q;
  real_0_1 := (1 # 10)%Q;
  cube := Q;
  icube := unit;
  size := λ _, vec3i_ops.one;
  cube_plus := λ a b, Qred (a + b);
  sum := λ c, c;
  convolve_sparse := λ i w _, Some (Qred (i * w));
  convolve_sparse_flipped := λ i g _, Some (Qred (i * g));
  convolve_sparse_inverse := λ g w _, Some (Qred (w * g));
  pooling_filter := λ c _ _, Some (c, tt);
  pooling_backprop := λ _ g _, Some g;
  filter := filter_t;
  filter_new := λ _ eta mu lam, Filter 0 0 eta mu lam;
  filter_W := W;
  filter_update := update_filter;
  bias := bias_t;
  bias_new := λ eta mu lam, Bias 0 0 eta mu lam;
  bias_b := b;
  bias_update := update_bias;
  transfer_function := unit;
  tf_apply := λ _ c b, Qred (c + b);
  tf_apply_grad := λ _ g _, g;
  transfer_function_of_name :=
    λ s, if String.eqb s "linear" then Some tt else None;
  initializator := Q;
  initializator_of_name :=
    λ s, if String.eqb s "constant" then Some 1%Q else None;
  initialize := λ c n, replicate n c;
  load_filters := load_filter_values;
  load_biases := load_bias_values;
|}.
End OneVoxel.

(** * Example graphs *)
Module Examples.
Import OneVoxel.

(** a cube, a weight *)
Definition voxel (q : Q) : cube := q.
Definition weight (w : Q) : filter := Filter w 0 (1 # 10) 0 0.

Definition nodes_input (name : string) (sz : nat) : options :=
  [("name", OString name); ("type", OString "input"); ("size", OSize sz)].
Definition nodes_sum (name : string) (sz : nat) : options :=
  [("name", OString name); ("type", OString "sum"); ("size", OSize sz)].
Definition nodes_transfer (name : string) (sz : nat) : options :=
  [("name", OString name); ("type", OString "transfer"); ("size", OSize sz);
   ("function", OString "linear")].
Definition edges_dummy (name i o : string) : options :=
  [("name", OString name); ("type", OString "dummy");
   ("input", OString i); ("output", OString o)].
Definition edges_conv (name i o : string) (w : vec3i) (ws : list Q)
  : options :=
  [("name", OString name); ("type", OString "conv");
   ("input", OString i); ("output", OString o);
   ("size", OVec w); ("filters", OBlob ws)].
Definition edges_conv_init (name i o : string) : options :=
  [("name", OString name); ("type", OString "conv");
   ("input", OString i); ("output", OString o);
   ("size", OVec vec3i_ops.one); ("init", OString "constant")].
Definition edges_pool (name i o : string) : options :=
  [("name", OString name); ("type", OString "max_filter");
   ("input", OString i); ("output", OString o);
   ("size", OVec (Vec3 2 2 2)); ("stride", OVec (Vec3 2 2 2))].

Definition edges_pool_of (name i o : string) (w s : vec3i) : options :=
  [("name", OString name); ("type", OString "max_filter");
   ("input", OString i); ("output", OString o);
   ("size", OVec w); ("stride", OVec s)].

(** the graph records after the two declaration loops of the constructor,
    as [init] finds them *)
Definition declared (ns es : list options) : result network :=
  net ← for_each add_nodes ns empty_network;
  for_each add_edges es net.

Definition built (r : result network) : network :=
  match r with Ok net => net | Err _ => empty_network end.

(** [in](1) -dummy-> [out](1, transfer) *)
Definition chain_net : network :=
  Eval vm_compute in
    built (network_ctor [nodes_input "in" 1; nodes_transfer "out" 1]
             [edges_dummy "e" "in" "out"] (Vec3 2 2 2)).

(** [in](1) -dummy-> [out](1, sum) *)
Definition sum_net : network :=
  Eval vm_compute in
    built (network_ctor [nodes_input "in" 1; nodes_sum "out" 1]
             [edges_dummy "e" "in" "out"] (Vec3 1 1 1)).

(** [a](1), [b](1) -dummy-> [out](1, transfer) *)
Definition join_net : network :=
  Eval vm_compute in
    built (network_ctor
             [nodes_input "a" 1; nodes_input "b" 1; nodes_transfer "out" 1]
             [edges_dummy "e1" "a" "out"; edges_dummy "e2" "b" "out"]
             (Vec3 1 1 1)).

(** [in](1) -pool 2/2-> [mid](1) -conv 2-> [out](1), declared *)
Definition pool_conv_graph : network :=
  Eval vm_compute in
    built (declared
             [nodes_input "in" 1; nodes_transfer "mid" 1;
              nodes_transfer "out" 1]
             [edges_pool "p" "in" "mid";
              edges_conv "c" "mid" "out" (Vec3 2 2 2) [1%Q]]).

(** [in](2) -conv-> [out](3), declared and initialised: the state in which
    [create_edges] constructs the edge group *)
Definition fan_graph : network :=
  Eval vm_compute in
    built (net ← declared [nodes_input "in" 2; nodes_transfer "out" 3]
                   [edges_conv "e" "in" "out" vec3i_ops.one
                      [1; 2; 3; 4; 5; 6]%Q];
           init vec3i_ops.one net).

(** ... and the edge group constructed there *)
Definition fan_wired : filter_edges.t * network :=
  Eval vm_compute in
    match filter_edges_ctor 0 1
            (edges_conv "e" "in" "out" vec3i_ops.one [1; 2; 3; 4; 5; 6]%Q)
            vec3i_ops.one fan_graph with
    | Ok r => r
    | Err _ => (filter_edges.Build [] [] [] vec3i_ops.zero, empty_network)
    end.

(** [chain_net] after a forward pass on the voxel [5] *)
Definition chain_net_fed : network :=
  Eval vm_compute in
    built (r ← network_forward [("in", [Some 5%Q])] chain_net; Ok r.2).

(** [pool_conv_graph] initialised for an output of one voxel *)
Definition pool_conv_init : network :=
  Eval vm_compute in built (init vec3i_ops.one pool_conv_graph).

(** [in](1) -pool 2/2^32-> [mid](1) -pool 2/2^32-> [out](1), declared:
    the stride at [out] is [2^64] over the integers *)
Definition far_graph : network :=
  Eval vm_compute in
    built (declared
             [nodes_input "in" 1; nodes_transfer "mid" 1;
              nodes_transfer "out" 1]
             [edges_pool_of "p" "in" "mid" (Vec3 2 2 2)
                (Vec3 4294967296 4294967296 4294967296);
              edges_pool_of "q" "mid" "out" (Vec3 2 2 2)
                (Vec3 4294967296 4294967296 4294967296)]).

(** ... and initialised for an output of one voxel *)
Definition far_init : network :=
  Eval vm_compute in built (init vec3i_ops.one far_graph).

(** [in](2) -pool 2/2-> [out](2), declared and initialised *)
Definition twin_graph : network :=
  Eval vm_compute in
    built (net ← declared [nodes_input "in" 2; nodes_transfer "out" 2]
                   [edges_pool "p" "in" "out"];
           init vec3i_ops.one net).

(** ... and the pooling edge group, resp. a dummy edge group, constructed
    there *)
Definition twin_pooled : max_pooling_edges.t * network :=
  Eval vm_compute in
    match max_pooling_edges_ctor 0 1 (edges_pool "p" "in" "out")
            vec3i_ops.one twin_graph with
    | Ok r => r
    | Err _ => (max_pooling_edges.Build [] [], empty_network)
    end.
Definition twin_joined : dummy_edges.t * network :=
  Eval vm_compute in
    match dummy_edges_ctor 0 1 (edges_dummy "e" "in" "out") twin_graph with
    | Ok r => r
    | Err _ => (dummy_edges.Build [] [], empty_network)
    end.
(** the map [sum_net] returns for the voxel [2], and its state then *)
Definition sum_net_fed : StdMap.t (list (option cube)) * network :=
  Eval vm_compute in
    match network_forward [("in", [Some (voxel 2)])] sum_net with
    | Ok r => r
    | Err _ => (StdMap.empty, empty_network)
    end.

(** a single input node group, which no edge leaves *)
Definition lone_net : network :=
  Eval vm_compute in
    built (network_ctor [nodes_input "in" 1] [] vec3i_ops.one).

(** what [network::backward] returns on [chain_net_fed] for the gradient
    [28], and the state it leaves *)
Definition chain_net_trained : StdMap.t (list (option cube)) * network :=
  Eval vm_compute in
    match network_backward [("out", [Some (voxel 28)])] chain_net_fed with
    | Ok r => r
    | Err _ => (StdMap.empty, empty_network)
    end.

(** the node groups of [pool_conv_graph], declared *)
Definition pool_conv_nodes : network :=
  Eval vm_compute in
    built (for_each add_nodes
             [nodes_input "in" 1; nodes_transfer "mid" 1;
              nodes_transfer "out" 1] empty_network).

(** [sum_net] with the gradient [7] at its output *)
Definition sum_net_back : network :=
  Eval vm_compute in
    built (nodes_backward 2 1 0 (Some (voxel 7)) sum_net).

(** [chain_net] with bias [3] at its output channel *)
Definition chain_net_biased : network :=
  Eval vm_compute in
    put_nodes 1
      (match node_obj chain_net 1 with
       | Some (Transfer x) =>
           Transfer (transfer_nodes.set_biases_ [Bias 3 0 (1 # 10) 0 0] x)
       | _ => Input (input_nodes.ctor 0 [])
       end) chain_net.
(** ... after the arrival of the cube [5] at that channel *)
Definition chain_net_biased_fed : network :=
  Eval vm_compute in
    built (nodes_forward 1 1 0 (Some (voxel 5)) chain_net_biased).
(** [sum_net] after the arrival of the cube [4] at its output channel *)
Definition sum_net_pushed : network :=
  Eval vm_compute in
    built (nodes_forward 1 1 0 (Some (voxel 4)) sum_net).

(** what [network::forward] returns on [chain_net] for the voxel [5], and
    the state it leaves *)
Definition chain_net_run : StdMap.t (list (option cube)) * network :=
  Eval vm_compute in
    match network_forward [("in", [Some (voxel 5)])] chain_net with
    | Ok r => r
    | Err _ => (StdMap.empty, empty_network)
    end.

(** [in](1) -pool 2/2-> [mid](1) -conv 2-> [out](1), constructed for an
    output of one voxel *)
Definition pool_conv_net : network :=
  Eval vm_compute in
    built (network_ctor
             [nodes_input "in" 1; nodes_transfer "mid" 1;
              nodes_transfer "out" 1]
             [edges_pool "p" "in" "mid";
              edges_conv "c" "mid" "out" (Vec3 2 2 2) [1%Q]]
             vec3i_ops.one).

End Examples.

(** * Proofs *)

(** ** The result monad and [vec3i] *)

(** a value that fits is not changed by the reduction to 64 bits *)
Lemma wrap64_small z :
  (- 9223372036854775808 ≤ z ≤ int64_max)%Z → wrap64 z = z.
Proof. unfold wrap64, int64_max. intros. rewrite Z.mod_small; lia. Qed.

(** the reduction is a ring homomorphism: sums, differences and products
    can be reduced at any stage *)
#[global] Instance eq64_equiv : Equivalence eq64.
Proof.
  split.
  - by intros a.
  - by intros a b [H].
  - intros a b c [H1] [H2]. split. congruence.
Qed.
#[global] Instance eq64_add : Proper (eq64 ==> eq64 ==> eq64) Z.add.
Proof.
  intros a a' [Ha] b b' [Hb]. split.
  by rewrite Z.add_mod, Ha, Hb, <-Z.add_mod.
Qed.
#[global] Instance eq64_sub : Proper (eq64 ==> eq64 ==> eq64) Z.sub.
Proof.
  intros a a' [Ha] b b' [Hb]. split.
  by rewrite Zminus_mod, Ha, Hb, <-Zminus_mod.
Qed.
#[global] Instance eq64_mul : Proper (eq64 ==> eq64 ==> eq64) Z.mul.
Proof.
  intros a a' [Ha] b b' [Hb]. split.
  by rewrite Z.mul_mod, Ha, Hb, <-Z.mul_mod.
Qed.

Lemma wrap64_eq64 z : eq64 (wrap64 z) z.
Proof.
  split. unfold wrap64. rewrite Zminus_mod_idemp_l. f_equal. lia.
Qed.

#[global] Instance wrap64_proper : Proper (eq64 ==> eq) wrap64.
Proof.
  intros a b [H]. unfold wrap64.
  by rewrite <-(Zplus_mod_idemp_l a), H, Zplus_mod_idemp_l.
Qed.

Lemma eq64_of_eq a b : a = b → eq64 a b.
Proof. by intros ->. Qed.

(** proves an identity between two reduced polynomials *)
Ltac ring64 :=
  apply wrap64_proper; repeat setoid_rewrite wrap64_eq64;
  apply eq64_of_eq; ring.

(** rewrites the reductions of values that fit, innermost first *)
Ltac unwrap64 :=
  repeat match goal with
         | |- context [wrap64 ?z] =>
             lazymatch z with
             | context [wrap64 _] => fail
             | _ => rewrite (wrap64_small z) by (unfold int64_max; nia)
             end
         end.

Section ResultFacts.
Context `{Ext : Externals}.

Lemma bind_ok {A B} (m : result A) (f : A → result B) b :
  (m ≫= f) = Ok b ↔ ∃ a, m = Ok a ∧ f a = Ok b.
Proof.
  destruct m; simpl; split;
    [eauto | intros (?&[= ->]&?); done | done | intros (?&?&?); done].
Qed.

Lemma assert_ok b u : ZI_ASSERT b = Ok u ↔ b = true.
Proof. destruct b, u; simpl; split; congruence. Qed.

Lemma positive_ne_zero v : vec3i_ops.positive v → v ≠ vec3i_ops.zero.
Proof. intros (?&?&?) ->. simpl in *. lia. Qed.

Lemma positive_one : vec3i_ops.positive vec3i_ops.one.
Proof. repeat split; simpl; lia. Qed.

Lemma within_positive a b : vec3i_ops.within a b → vec3i_ops.positive a.
Proof. by intros [? _]. Qed.

Lemma within_ne_zero a b : vec3i_ops.within a b → a ≠ vec3i_ops.zero.
Proof. intros [? _]. by apply positive_ne_zero. Qed.

Lemma within_one b :
  vec3i_ops.le vec3i_ops.one b → vec3i_ops.within vec3i_ops.one b.
Proof. split; [apply positive_one|done]. Qed.

Lemma wrap64_mul_within a ba t bb :
  (0 < a → a ≤ ba → 0 < t → ba * t ≤ bb → bb ≤ int64_max →
   wrap64 (a * t) = a * t ∧ 0 < a * t ≤ bb)%Z.
Proof.
  intros. unfold int64_max in *.
  assert (a * t ≤ ba * t)%Z by nia. assert (0 < a * t)%Z by nia.
  unwrap64. lia.
Qed.

Lemma wrap64_fov_within f bd s w bu :
  (0 < f → f ≤ bd → 0 < s → 0 < w → (bd - 1) * s + w ≤ bu →
   bu ≤ int64_max →
   wrap64 (wrap64 (wrap64 (f - 1) * s) + w) = (f - 1) * s + w ∧
   0 < (f - 1) * s + w ≤ bu)%Z.
Proof.
  intros. unfold int64_max in *.
  assert ((f - 1) * s ≤ (bd - 1) * s)%Z by nia.
  assert (0 ≤ (f - 1) * s)%Z by nia.
  unwrap64. lia.
Qed.

Lemma wrap64_fsize_within w s bs_ z bd bu :
  (0 < w → 0 < s → s ≤ bs_ → 0 < z → z ≤ bd → (w - 1) * bs_ + bd ≤ bu →
   bu ≤ int64_max →
   wrap64 (wrap64 (wrap64 (w - 1) * s) + z) = (w - 1) * s + z ∧
   0 < (w - 1) * s + z ≤ bu)%Z.
Proof.
  intros. unfold int64_max in *.
  assert ((w - 1) * s ≤ (w - 1) * bs_)%Z by nia.
  assert (0 ≤ (w - 1) * s)%Z by nia.
  unwrap64. lia.
Qed.

(** within the bounds the operations of [vec3i] are those of the
    integers *)
Lemma mul_exact a ba t bb :
  vec3i_ops.within a ba → vec3i_ops.positive t →
  vec3i_ops.le (vec3i_ops.exact_mul ba t) bb →
  vec3i_ops.le bb vec3i_ops.top →
  (a * t)%V = vec3i_ops.exact_mul a t ∧
  vec3i_ops.within (vec3i_ops.exact_mul a t) bb.
Proof.
  destruct a as [a1 a2 a3], ba as [b1 b2 b3], t as [t1 t2 t3],
    bb as [c1 c2 c3].
  intros [(?&?&?) (?&?&?)] (?&?&?) (?&?&?) (?&?&?). simpl in *.
  destruct (wrap64_mul_within a1 b1 t1 c1) as [E1 ?]; [done..|].
  destruct (wrap64_mul_within a2 b2 t2 c2) as [E2 ?]; [done..|].
  destruct (wrap64_mul_within a3 b3 t3 c3) as [E3 ?]; [done..|].
  split.
  - unfold vec3i_ops.mul, vec3i_ops.reduce, vec3i_ops.exact_mul. simpl.
    by rewrite E1, E2, E3.
  - repeat split; simpl; lia.
Qed.

Lemma fov_exact f bd s w bu :
  vec3i_ops.within f bd → vec3i_ops.positive s → vec3i_ops.positive w →
  vec3i_ops.le
    (vec3i_ops.exact_add
       (vec3i_ops.exact_mul (vec3i_ops.exact_sub bd vec3i_ops.one) s) w)
    bu →
  vec3i_ops.le bu vec3i_ops.top →
  ((f - vec3i_ops.one) * s + w)%V
  = vec3i_ops.exact_add
      (vec3i_ops.exact_mul (vec3i_ops.exact_sub f vec3i_ops.one) s) w ∧
  vec3i_ops.within
    (vec3i_ops.exact_add
       (vec3i_ops.exact_mul (vec3i_ops.exact_sub f vec3i_ops.one) s) w) bu.
Proof.
  destruct f as [f1 f2 f3], bd as [b1 b2 b3], s as [s1 s2 s3],
    w as [w1 w2 w3], bu as [c1 c2 c3].
  intros [(?&?&?) (?&?&?)] (?&?&?) (?&?&?) (?&?&?) (?&?&?). simpl in *.
  destruct (wrap64_fov_within f1 b1 s1 w1 c1) as [E1 ?]; [done..|].
  destruct (wrap64_fov_within f2 b2 s2 w2 c2) as [E2 ?]; [done..|].
  destruct (wrap64_fov_within f3 b3 s3 w3 c3) as [E3 ?]; [done..|].
  split.
  - unfold vec3i_ops.add, vec3i_ops.mul, vec3i_ops.sub, vec3i_ops.reduce,
      vec3i_ops.exact_add, vec3i_ops.exact_mul, vec3i_ops.exact_sub.
    simpl. by rewrite E1, E2, E3.
  - repeat split; simpl; lia.
Qed.

Lemma fsize_exact w s bs_ z bd bu :
  vec3i_ops.positive w → vec3i_ops.within s bs_ → vec3i_ops.within z bd →
  vec3i_ops.le
    (vec3i_ops.exact_add
       (vec3i_ops.exact_mul (vec3i_ops.exact_sub w vec3i_ops.one) bs_) bd)
    bu →
  vec3i_ops.le bu vec3i_ops.top →
  ((w - vec3i_ops.one) * s + z)%V
  = vec3i_ops.exact_add
      (vec3i_ops.exact_mul (vec3i_ops.exact_sub w vec3i_ops.one) s) z ∧
  vec3i_ops.within
    (vec3i_ops.exact_add
       (vec3i_ops.exact_mul (vec3i_ops.exact_sub w vec3i_ops.one) s) z) bu.
Proof.
  destruct w as [w1 w2 w3], s as [s1 s2 s3], bs_ as [b1 b2 b3],
    z as [z1 z2 z3], bd as [d1 d2 d3], bu as [c1 c2 c3].
  intros (?&?&?) [(?&?&?) (?&?&?)] [(?&?&?) (?&?&?)] (?&?&?) (?&?&?).
  simpl in *.
  destruct (wrap64_fsize_within w1 s1 b1 z1 d1 c1) as [E1 ?]; [done..|].
  destruct (wrap64_fsize_within w2 s2 b2 z2 d2 c2) as [E2 ?]; [done..|].
  destruct (wrap64_fsize_within w3 s3 b3 z3 d3 c3) as [E3 ?]; [done..|].
  split.
  - unfold vec3i_ops.add, vec3i_ops.mul, vec3i_ops.sub, vec3i_ops.reduce,
      vec3i_ops.exact_add, vec3i_ops.exact_mul, vec3i_ops.exact_sub.
    simpl. by rewrite E1, E2, E3.
  - repeat split; simpl; lia.
Qed.

Lemma within_mul a ba t bb :
  vec3i_ops.within a ba → vec3i_ops.positive t →
  vec3i_ops.le (vec3i_ops.exact_mul ba t) bb →
  vec3i_ops.le bb vec3i_ops.top →
  vec3i_ops.within (a * t)%V bb.
Proof.
  intros Ha Ht Hb Htop.
  destruct (mul_exact a ba t bb Ha Ht Hb Htop) as [-> ?]. done.
Qed.

Lemma within_fov f bd s w bu :
  vec3i_ops.within f bd → vec3i_ops.positive s → vec3i_ops.positive w →
  vec3i_ops.le
    (vec3i_ops.exact_add
       (vec3i_ops.exact_mul (vec3i_ops.exact_sub bd vec3i_ops.one) s) w)
    bu →
  vec3i_ops.le bu vec3i_ops.top →
  vec3i_ops.within ((f - vec3i_ops.one) * s + w)%V bu.
Proof.
  intros Hf Hs Hw Hb Htop.
  destruct (fov_exact f bd s w bu Hf Hs Hw Hb Htop) as [-> ?]. done.
Qed.

Lemma within_fsize w s bs_ z bd bu :
  vec3i_ops.positive w → vec3i_ops.within s bs_ → vec3i_ops.within z bd →
  vec3i_ops.le
    (vec3i_ops.exact_add
       (vec3i_ops.exact_mul (vec3i_ops.exact_sub w vec3i_ops.one) bs_) bd)
    bu →
  vec3i_ops.le bu vec3i_ops.top →
  vec3i_ops.within ((w - vec3i_ops.one) * s + z)%V bu.
Proof.
  intros Hw Hs Hz Hb Htop.
  destruct (fsize_exact w s bs_ z bd bu Hw Hs Hz Hb Htop) as [-> ?]. done.
Qed.

Lemma neqb_true a b : vec3i_ops.neqb a b = true ↔ a ≠ b.
Proof.
  unfold vec3i_ops.neqb, vec3i_ops.eqb.
  by rewrite negb_true_iff, bool_decide_eq_false.
Qed.
Lemma neqb_false a b : vec3i_ops.neqb a b = false ↔ a = b.
Proof.
  unfold vec3i_ops.neqb, vec3i_ops.eqb.
  by rewrite negb_false_iff, bool_decide_eq_true.
Qed.
Lemma eqb_true a b : vec3i_ops.eqb a b = true ↔ a = b.
Proof. unfold vec3i_ops.eqb. by rewrite bool_decide_eq_true. Qed.

Lemma at_ptr_ok {A} (l : list A) p a : at_ptr l p = Ok a ↔ l !! p = Some a.
Proof. unfold at_ptr. destruct (l !! p); split; congruence. Qed.

End ResultFacts.

(** ** The stride pass

    [stride_pass] is a depth-first traversal from the input node groups
    that writes a stride once per node group.  Everything else is framed
    with [erase_stride]; the recursion is bounded by the number of node
    groups not yet visited. *)

Section StridePassFrame.
Context `{Ext : Externals}.
Variables (outsz : vec3i) (bs bf bz : ptr → vec3i).

(** what the erasers keep *)
Lemma erase_stride_nnodes_arena net :
  nnodes_arena (erase_stride net) =
  nnodes.set_stride vec3i_ops.zero <$> nnodes_arena net.
Proof. done. Qed.
Lemma erase_stride_nedges_arena net :
  nedges_arena (erase_stride net) =
  nedges.set_in_stride vec3i_ops.zero <$> nedges_arena net.
Proof. done. Qed.

Ltac erase_stride_accessor :=
  unfold n_out, n_in, n_fov, n_fsize, e_in, e_out, e_width, e_stride,
    e_in_fsize;
  rewrite ?erase_stride_nnodes_arena, ?erase_stride_nedges_arena,
    list_lookup_fmap;
  by destruct (_ !! _) as [[]|].

Lemma erase_stride_n_out net p : n_out (erase_stride net) p = n_out net p.
Proof. erase_stride_accessor. Qed.
Lemma erase_stride_n_in net p : n_in (erase_stride net) p = n_in net p.
Proof. erase_stride_accessor. Qed.
Lemma erase_stride_n_fov net p : n_fov (erase_stride net) p = n_fov net p.
Proof. erase_stride_accessor. Qed.
Lemma erase_stride_n_fsize net p : n_fsize (erase_stride net) p = n_fsize net p.
Proof. erase_stride_accessor. Qed.
Lemma erase_stride_e_in net e : e_in (erase_stride net) e = e_in net e.
Proof. erase_stride_accessor. Qed.
Lemma erase_stride_e_out net e : e_out (erase_stride net) e = e_out net e.
Proof. erase_stride_accessor. Qed.
Lemma erase_stride_e_width net e : e_width (erase_stride net) e = e_width net e.
Proof. erase_stride_accessor. Qed.
Lemma erase_stride_e_stride net e : e_stride (erase_stride net) e = e_stride net e.
Proof. erase_stride_accessor. Qed.
Lemma erase_stride_e_in_fsize net e :
  e_in_fsize (erase_stride net) e = e_in_fsize net e.
Proof. erase_stride_accessor. Qed.
Lemma erase_stride_valid_node net p :
  valid_node (erase_stride net) p ↔ valid_node net p.
Proof. unfold valid_node. by rewrite erase_stride_nnodes_arena, length_fmap. Qed.
Lemma erase_stride_valid_nedges net p :
  valid_nedges (erase_stride net) p ↔ valid_nedges net p.
Proof. unfold valid_nedges. by rewrite erase_stride_nedges_arena, length_fmap. Qed.

Lemma erase_stride_same a b :
  erase_stride b = erase_stride a → same_but_stride a b.
Proof.
  intros E. split; intros.
  - by rewrite <-erase_stride_n_out, E, erase_stride_n_out.
  - by rewrite <-erase_stride_n_in, E, erase_stride_n_in.
  - by rewrite <-erase_stride_n_fov, E, erase_stride_n_fov.
  - by rewrite <-erase_stride_n_fsize, E, erase_stride_n_fsize.
  - by rewrite <-erase_stride_e_in, E, erase_stride_e_in.
  - by rewrite <-erase_stride_e_out, E, erase_stride_e_out.
  - by rewrite <-erase_stride_e_width, E, erase_stride_e_width.
  - by rewrite <-erase_stride_e_stride, E, erase_stride_e_stride.
  - by rewrite <-erase_stride_e_in_fsize, E, erase_stride_e_in_fsize.
  - by rewrite <-erase_stride_valid_node, E, erase_stride_valid_node.
  - by rewrite <-erase_stride_valid_nedges, E, erase_stride_valid_nedges.
  - by apply (f_equal nodes_) in E.
  - by apply (f_equal input_nodes_) in E.
  - by apply (f_equal output_nodes_) in E.
  - apply (f_equal (λ n, length (nnodes_arena n))) in E.
    by rewrite !erase_stride_nnodes_arena, !length_fmap in E.
Qed.

Lemma erase_stride_put_nnodes net n nn s :
  nnodes_arena net !! n = Some nn →
  erase_stride (put_nnodes n (nnodes.set_stride s nn) net) = erase_stride net.
Proof.
  intros H. unfold erase_stride, put_nnodes, set_nedges_arena, set_nnodes_arena.
  cbn [nnodes_arena nedges_arena edge_arena filter_arena edges_ nodes_
       input_nodes_ output_nodes_].
  f_equal. rewrite list_fmap_insert. apply list_insert_id.
  rewrite list_lookup_fmap, H. by destruct nn.
Qed.

Lemma erase_stride_put_nedges net e ne s :
  nedges_arena net !! e = Some ne →
  erase_stride (put_nedges e (nedges.set_in_stride s ne) net) = erase_stride net.
Proof.
  intros H. unfold erase_stride, put_nedges, set_nedges_arena, set_nnodes_arena.
  cbn [nnodes_arena nedges_arena edge_arena filter_arena edges_ nodes_
       input_nodes_ output_nodes_].
  f_equal. rewrite list_fmap_insert. apply list_insert_id.
  rewrite list_lookup_fmap, H. by destruct ne.
Qed.

(** reading after a write *)
Lemma n_stride_put_nnodes_eq net n x :
  valid_node net n → n_stride (put_nnodes n x net) n = nnodes.stride x.
Proof.
  unfold n_stride, put_nnodes, valid_node, set_nnodes_arena.
  cbn [nnodes_arena]. intros. by rewrite list_lookup_insert_eq.
Qed.
Lemma n_stride_put_nnodes_ne net n x p :
  p ≠ n → n_stride (put_nnodes n x net) p = n_stride net p.
Proof.
  unfold n_stride, put_nnodes, valid_node, set_nnodes_arena.
  cbn [nnodes_arena]. intros. by rewrite list_lookup_insert_ne.
Qed.
Lemma n_stride_put_nedges net e x p :
  n_stride (put_nedges e x net) p = n_stride net p.
Proof. done. Qed.
Lemma e_in_stride_put_nedges_eq net e x :
  valid_nedges net e →
  e_in_stride (put_nedges e x net) e = nedges.in_stride x.
Proof.
  unfold e_in_stride, put_nedges, valid_nedges, set_nedges_arena.
  cbn [nedges_arena]. intros. by rewrite list_lookup_insert_eq.
Qed.
Lemma e_in_stride_put_nedges_ne net e x e' :
  e' ≠ e → e_in_stride (put_nedges e x net) e' = e_in_stride net e'.
Proof.
  unfold e_in_stride, put_nedges, valid_nedges, set_nedges_arena.
  cbn [nedges_arena]. intros. by rewrite list_lookup_insert_ne.
Qed.
Lemma e_in_stride_put_nnodes net n x e :
  e_in_stride (put_nnodes n x net) e = e_in_stride net e.
Proof. done. Qed.

Lemma same_but_stride_wired a b : same_but_stride a b → wired a → wired b.
Proof.
  intros S [W1 W2 W3 W4]. destruct S. split; intros.
  - rewrite sbs_e_in0, sbs_e_out0, !sbs_valid_node0. apply W1.
    by apply sbs_valid_nedges0.
  - rewrite sbs_n_out0, sbs_e_in0, sbs_valid_nedges0. apply W2.
    by apply sbs_valid_node0.
  - rewrite sbs_n_in0, sbs_e_out0, sbs_valid_nedges0. apply W3.
    by apply sbs_valid_node0.
  - rewrite sbs_e_width0, sbs_e_stride0. apply W4. by apply sbs_valid_nedges0.
Qed.

Lemma same_but_stride_fits a b :
  same_but_stride a b → fits a outsz bs bf bz → fits b outsz bs bf bz.
Proof.
  intros S F. split.
  - apply (fit_top _ _ _ _ _ F).
  - intros k p. rewrite (sbs_input_nodes_ _ _ S). apply (fit_inputs _ _ _ _ _ F).
  - intros p. rewrite (sbs_valid_node _ _ S), (sbs_n_out _ _ S).
    apply (fit_outputs _ _ _ _ _ F).
  - intros e. rewrite (sbs_valid_nedges _ _ S), (sbs_e_in _ _ S),
      (sbs_e_out _ _ S), (sbs_e_stride _ _ S). apply (fit_stride _ _ _ _ _ F).
  - intros e. rewrite (sbs_valid_nedges _ _ S), (sbs_e_in _ _ S),
      (sbs_e_out _ _ S), (sbs_e_stride _ _ S), (sbs_e_width _ _ S).
    apply (fit_fov _ _ _ _ _ F).
  - intros e. rewrite (sbs_valid_nedges _ _ S), (sbs_e_in _ _ S),
      (sbs_e_out _ _ S), (sbs_e_width _ _ S). apply (fit_fsize _ _ _ _ _ F).
Qed.

(** one step of the stride pass stays within the bounds *)
Lemma fits_stride_step net e a :
  wired net → fits net outsz bs bf bz → valid_nedges net e →
  vec3i_ops.within a (bs (e_in net e)) →
  vec3i_ops.within (a * e_stride net e)%V (bs (e_out net e)).
Proof.
  intros W F He Ha. eapply within_mul; [exact Ha|..].
  - by apply (wired_positive _ W).
  - by apply (fit_stride _ _ _ _ _ F).
  - apply (fit_top _ _ _ _ _ F).
Qed.

Lemma n_stride_valid net p : n_stride net p ≠ vec3i_ops.zero → valid_node net p.
Proof.
  unfold n_stride, valid_node. destruct (_ !! p) eqn:E; [|done].
  intros _. by eapply lookup_lt_Some.
Qed.

(** counting the node groups still to expand *)
Lemma filter_length_mono {A} (P Q : A → Prop) `{∀ x, Decision (P x)}
    `{∀ x, Decision (Q x)} (l l' : list A) :
  length l = length l' →
  (∀ i x y, l !! i = Some x → l' !! i = Some y → Q y → P x) →
  length (base.filter Q l') ≤ length (base.filter P l).
Proof.
  revert l'. induction l as [|x l IH]; intros [|y l'] Hl Hi; simpl in *; try lia.
  rewrite !filter_cons. specialize (IH l' ltac:(lia) (λ i, Hi (S i))).
  destruct (decide (Q y)) as [HQ|]; destruct (decide (P x)) as [|HP]; simpl; try lia.
  destruct HP. by apply (Hi 0 x y).
Qed.

Lemma filter_length_insert {A} (P : A → Prop) `{∀ x, Decision (P x)}
    (l : list A) i x y :
  l !! i = Some x → P x → ¬ P y →
  S (length (base.filter P (<[i:=y]> l))) = length (base.filter P l).
Proof.
  revert i. induction l as [|z l IH]; intros [|i] Hi HP HQ; simpl in *; try done.
  - injection Hi as ->. rewrite !filter_cons.
    rewrite decide_False by done. by rewrite decide_True by done.
  - rewrite !filter_cons. destruct (decide (P z)); simpl; rewrite <-(IH i); auto.
Qed.

Lemma sp_post_refl a : sp_post bs a a.
Proof. split; done. Qed.

Lemma sp_post_unvisited a b :
  sp_post bs a b → unvisited_stride b ≤ unvisited_stride a.
Proof.
  intros [S M _ _]. apply erase_stride_same in S.
  unfold unvisited_stride. apply filter_length_mono.
  - symmetry. apply S.
  - intros i x y Hx Hy Hz. destruct (decide (nnodes.stride x = vec3i_ops.zero)) as [|Hn]; [done|].
    specialize (M i). unfold n_stride in M. rewrite Hx, Hy in M. simpl in M.
    rewrite M in Hz; done.
Qed.

Lemma stride_closed_preserved a b p :
  wired a → fits a outsz bs bf bz → sp_post bs a b → valid_node a p →
  vec3i_ops.within (n_stride a p) (bs p) → stride_closed a p →
  stride_closed b p.
Proof.
  intros W F [S M E N] Hv Hp Hc e He.
  pose proof (erase_stride_same _ _ S) as SS.
  rewrite (sbs_n_out _ _ SS) in He.
  destruct (Hc e He) as [H1 H2].
  destruct (proj1 (wired_out _ W p e Hv) He) as [Hve Hin].
  rewrite (sbs_e_out _ _ SS), (sbs_e_stride _ _ SS).
  assert (n_stride b p = n_stride a p) as ->
    by (apply M; by eapply within_ne_zero).
  split.
  - rewrite M; [done|]. rewrite H1.
    apply (within_ne_zero _ (bs (e_out a e))), fits_stride_step; [done..|].
    by rewrite Hin.
  - rewrite E; [done|]. rewrite Hin. by eapply within_ne_zero.
Qed.

Lemma sp_post_trans a b c :
  wired a → fits a outsz bs bf bz → sp_post bs a b → sp_post bs b c →
  sp_post bs a c.
Proof.
  intros W F Hab Hbc.
  pose proof (erase_stride_same _ _ (sp_same _ _ _ Hab)) as SS.
  split.
  - rewrite (sp_same _ _ _ Hbc). apply Hab.
  - intros p Hp. rewrite (sp_mono _ _ _ Hbc); rewrite (sp_mono _ _ _ Hab); done.
  - intros e He. rewrite (sp_edges _ _ _ Hbc), (sp_edges _ _ _ Hab); [done..|].
    rewrite (sbs_e_in _ _ SS), (sp_mono _ _ _ Hab); done.
  - intros p Hp Hc.
    destruct (decide (n_stride b p = vec3i_ops.zero)) as [Hz|Hnz].
    + by apply (sp_new _ _ _ Hbc).
    + destruct (sp_new _ _ _ Hab p Hp Hnz) as [Hcl Hpos].
      rewrite (sp_mono _ _ _ Hbc p Hnz). split; [|done].
      eapply stride_closed_preserved; [| |exact Hbc| | |]; try done.
      * eapply same_but_stride_wired; done.
      * eapply same_but_stride_fits; done.
      * by apply n_stride_valid.
Qed.

End StridePassFrame.

Section StridePassLoop.
Context `{Ext : Externals}.
Variables (outsz : vec3i) (bs bf bz : ptr → vec3i).

Lemma get_nedges_valid net e :
  valid_nedges net e → ∃ ne, get_nedges net e = Ok ne ∧
    nedges_arena net !! e = Some ne ∧
    e_in net e = nedges.in_ ne ∧ e_out net e = nedges.out ne ∧
    e_stride net e = nedges.stride ne ∧ e_width net e = nedges.width ne ∧
    e_in_stride net e = nedges.in_stride ne.
Proof.
  intros H. destruct (lookup_lt_is_Some_2 _ _ H) as [ne Hne].
  exists ne. unfold get_nedges, at_ptr, e_in, e_out, e_stride, e_width, e_in_stride.
  rewrite Hne. done.
Qed.

Lemma get_nnodes_valid net p :
  valid_node net p → ∃ nn, get_nnodes net p = Ok nn ∧
    nnodes_arena net !! p = Some nn ∧
    n_stride net p = nnodes.stride nn ∧ n_out net p = nnodes.out nn ∧
    n_in net p = nnodes.in_ nn ∧ n_fov net p = nnodes.fov nn ∧
    n_fsize net p = nnodes.fsize nn.
Proof.
  intros H. destruct (lookup_lt_is_Some_2 _ _ H) as [nn Hnn].
  exists nn. unfold get_nnodes, at_ptr, n_stride, n_out, n_in, n_fov, n_fsize.
  rewrite Hnn. done.
Qed.

Lemma stride_loop fuel net1 n s :
  stride_pass_ok outsz bs bf bz fuel →
  wired net1 → fits net1 outsz bs bf bz → valid_node net1 n →
  vec3i_ops.within s (bs n) →
  n_stride net1 n = s → unvisited_stride net1 < fuel →
  ∀ es done_ cur,
    sp_loop bs net1 n s cur done_ →
    (∀ e, e ∈ es → e ∈ n_out net1 n) →
    match
      for_each
        (λ e net,
           ne ← get_nedges net e;
           let net := put_nedges e (nedges.set_in_stride s ne) net in
           stride_pass fuel (nedges.out ne) (s * nedges.stride ne)%V net)
        es cur
    with
    | Ok net' => sp_loop bs net1 n s net' (done_ ++ es)
    | Err e => e = AssertionFailed
    end.
Proof.
  intros IH W1 F1 Hn Hs Hns Hfuel es.
  induction es as [|e es IHes]; intros done_ cur L Hes.
  { simpl. by rewrite app_nil_r. }
  pose proof (erase_stride_same _ _ (spl_same _ _ _ _ _ _ L)) as S1.
  assert (e ∈ n_out net1 n) as He by (apply Hes; left).
  destruct (proj1 (wired_out _ W1 n e Hn) He) as [Hve Hine].
  assert (valid_nedges cur e) as Hve' by (by apply (sbs_valid_nedges _ _ S1)).
  destruct (get_nedges_valid _ _ Hve') as (ne & Hget & Hlk & Hin & Hout & Hst & Hw & Hist).
  cbn [for_each]. rewrite Hget. cbn [mbind result_bind].
  set (cur1 := put_nedges e (nedges.set_in_stride s ne) cur).
  assert (erase_stride cur1 = erase_stride cur) as E1
    by (by apply erase_stride_put_nedges).
  pose proof (erase_stride_same _ _ E1) as S2.
  assert (wired cur) as Wc by (by eapply same_but_stride_wired).
  assert (wired cur1) as Wc1 by (by eapply same_but_stride_wired).
  assert (fits cur outsz bs bf bz) as Fc by (by eapply same_but_stride_fits).
  assert (fits cur1 outsz bs bf bz) as Fc1
    by (by eapply same_but_stride_fits).
  assert (∀ p, n_stride cur1 p = n_stride cur p) as Hn1 by done.
  assert (∀ e', e' ≠ e → e_in_stride cur1 e' = e_in_stride cur e') as Hi1
    by (intros; by apply e_in_stride_put_nedges_ne).
  assert (e_in_stride cur1 e = s) as Hi2.
  { unfold cur1. rewrite e_in_stride_put_nedges_eq; [|done]. by destruct ne. }
  assert (vec3i_ops.within (s * nedges.stride ne)%V (bs (nedges.out ne)))
    as Hpos.
  { rewrite <-Hst, <-Hout. apply (fits_stride_step outsz bs bf bz); [done..|].
    by rewrite (sbs_e_in _ _ S1), Hine. }
  assert (valid_node cur1 (nedges.out ne)) as Hvo.
  { apply (sbs_valid_node _ _ S2), (sbs_valid_node _ _ S1).
    rewrite <-Hout, (sbs_e_out _ _ S1). by apply (wired_ends _ W1). }
  assert (unvisited_stride cur1 < fuel) as Hf1.
  { eapply Nat.le_lt_trans; [|exact Hfuel].
    unfold unvisited_stride. apply filter_length_mono.
    - rewrite <-(sbs_len _ _ S1). rewrite <-(sbs_len _ _ S2). done.
    - intros i x y Hx Hy Hz.
      destruct (decide (nnodes.stride x = vec3i_ops.zero)) as [|Hnz]; [done|].
      pose proof (spl_mono _ _ _ _ _ _ L i) as M. rewrite <-Hn1 in M.
      unfold n_stride in M. rewrite Hx, Hy in M. simpl in M.
      rewrite M in Hz; done. }
  specialize (IH (nedges.out ne) (s * nedges.stride ne)%V cur1 Wc1 Fc1 Hvo
                Hpos Hf1).
  destruct (stride_pass fuel _ _ cur1) as [cur2|err]; [|done].
  destruct IH as [P Hres].
  pose proof (erase_stride_same _ _ (sp_same _ _ _ P)) as S3.
  assert (∀ p, n_stride net1 p ≠ vec3i_ops.zero →
               n_stride cur2 p = n_stride net1 p) as Hmono.
  { intros p Hp. rewrite (sp_mono _ _ _ P), Hn1; [by apply L|].
    rewrite Hn1, (spl_mono _ _ _ _ _ _ L); done. }
  assert (n_stride cur1 n ≠ vec3i_ops.zero) as Hnv.
  { rewrite Hn1, (spl_mono _ _ _ _ _ _ L); rewrite Hns;
      by eapply within_ne_zero. }
  assert (∀ e', e_in net1 e' = n → e_in_stride cur2 e' = e_in_stride cur1 e')
    as Hframe.
  { intros e' He'. apply (sp_edges _ _ _ P).
    by rewrite (sbs_e_in _ _ S2), (sbs_e_in _ _ S1), He'. }
  replace (done_ ++ e :: es) with ((done_ ++ [e]) ++ es)
    by (by rewrite <-app_assoc).
  apply IHes; [|intros; apply Hes; by right].
  split.
  - by rewrite (sp_same _ _ _ P), E1, (spl_same _ _ _ _ _ _ L).
  - done.
  - intros e' Hne' Hv'. rewrite (sp_edges _ _ _ P).
    + rewrite Hi1; [by apply L|]. intros ->. done.
    + rewrite (sbs_e_in _ _ S2), (sbs_e_in _ _ S1), Hn1, (spl_mono _ _ _ _ _ _ L); done.
  - intros p Hp0 Hp2.
    destruct (decide (n_stride cur1 p = vec3i_ops.zero)) as [Hz|Hnz].
    + by apply (sp_new _ _ _ P).
    + rewrite Hn1 in Hnz. destruct (spl_new _ _ _ _ _ _ L p Hp0 Hnz) as [Hcl Hpp].
      rewrite (sp_mono _ _ _ P), Hn1 by (by rewrite Hn1). split; [|done].
      assert (p ≠ n) as Hpn.
      { intros ->. rewrite Hp0 in Hns. subst s. by apply within_ne_zero in Hs. }
      assert (valid_node cur p) as Hvp by (by apply n_stride_valid).
      eapply stride_closed_preserved; [exact Wc1|exact Fc1|exact P| | |].
      * by apply (sbs_valid_node _ _ S2).
      * by rewrite Hn1.
      * intros e' He'. rewrite (sbs_n_out _ _ S2) in He'.
        destruct (Hcl e' He') as [H1 H2].
        rewrite !Hn1, (sbs_e_out _ _ S2), (sbs_e_stride _ _ S2).
        split; [done|]. rewrite Hi1; [done|]. intros ->.
        destruct (proj1 (wired_out _ Wc p e Hvp) He') as [_ Hin'].
        rewrite (sbs_e_in _ _ S1) in Hin'. congruence.
  - intros e' He'. apply elem_of_app in He' as [He'|He'].
    + destruct (spl_done _ _ _ _ _ _ L e' He') as (Hin' & H1 & H2).
      split; [done|].
      rewrite (sbs_e_out _ _ S3), (sbs_e_stride _ _ S3),
        (sbs_e_out _ _ S2), (sbs_e_stride _ _ S2).
      split.
      * rewrite (sp_mono _ _ _ P), Hn1; [done|]. rewrite Hn1, H1.
        assert (valid_nedges cur e') as Hv'.
        { destruct (decide (e' = e)) as [->|]; [done|].
          unfold valid_nedges. pose proof Hs as Hs'. rewrite <-H2 in Hs'.
          unfold e_in_stride in Hs'.
          destruct (nedges_arena cur !! e') eqn:Hl.
          - by apply lookup_lt_Some in Hl.
          - simpl in Hs'. by apply within_ne_zero in Hs'. }
        apply (within_ne_zero _ (bs (e_out cur e'))).
        apply (fits_stride_step outsz bs bf bz); [done..|].
        by rewrite (sbs_e_in _ _ S1), Hin'.
      * rewrite (Hframe _ Hin').
        destruct (decide (e' = e)) as [->|]; [done|]. by rewrite Hi1.
    + apply list_elem_of_singleton in He' as ->. split; [done|].
      rewrite (sbs_e_out _ _ S3), (sbs_e_stride _ _ S3),
        (sbs_e_out _ _ S2), (sbs_e_stride _ _ S2), Hout, Hst.
      split; [done|]. by rewrite (Hframe _ Hine).
Qed.

End StridePassLoop.

Section StridePassSpec.
Context `{Ext : Externals}.
Variables (outsz : vec3i) (bs bf bz : ptr → vec3i).

Lemma stride_pass_spec fuel : stride_pass_ok outsz bs bf bz fuel.
Proof.
  induction fuel as [|fuel IH]; intros n s net W F Hn Hs Hfuel; [lia|].
  destruct (get_nnodes_valid _ _ Hn) as (nn & Hget & Hlk & Hst & Hout & _).
  cbn [stride_pass]. rewrite Hget. cbn [mbind result_bind].
  destruct (vec3i_ops.neqb (nnodes.stride nn) vec3i_ops.zero) eqn:Hvis.
  { destruct (vec3i_ops.eqb (nnodes.stride nn) s) eqn:Heq; simpl; [|done].
    apply eqb_true in Heq. split; [apply sp_post_refl|congruence]. }
  apply neqb_false in Hvis.
  set (net1 := put_nnodes n (nnodes.set_stride s nn) net).
  assert (erase_stride net1 = erase_stride net) as E1
    by (by apply erase_stride_put_nnodes).
  pose proof (erase_stride_same _ _ E1) as S1.
  assert (wired net1) as W1 by (by eapply same_but_stride_wired).
  assert (fits net1 outsz bs bf bz) as F1
    by (by eapply same_but_stride_fits).
  assert (n_stride net1 n = s) as Hns.
  { unfold net1. rewrite n_stride_put_nnodes_eq; [|done]. by destruct nn. }
  assert (∀ p, p ≠ n → n_stride net1 p = n_stride net p) as Hother
    by (intros; by apply n_stride_put_nnodes_ne).
  assert (unvisited_stride net1 < fuel) as Hf1.
  { unfold unvisited_stride in *. unfold net1, put_nnodes, set_nnodes_arena.
    cbn [nnodes_arena].
    pose proof (filter_length_insert
      (λ x, nnodes.stride x = vec3i_ops.zero) (nnodes_arena net) n nn
      (nnodes.set_stride s nn) Hlk Hvis) as Hc.
    rewrite <-Hc in Hfuel; [lia|]. destruct nn; simpl.
    by eapply within_ne_zero. }
  pose proof (stride_loop outsz bs bf bz fuel net1 n s IH W1 F1
    ltac:(by apply (sbs_valid_node _ _ S1)) Hs Hns Hf1
    (nnodes.out nn) [] net1) as HL.
  destruct (for_each _ _ net1) as [net'|err].
  2:{ apply HL; [|intros e He; by rewrite (sbs_n_out _ _ S1), Hout].
      split; [done..|]. intros e He; inversion He. }
  assert (sp_loop bs net1 n s net' ([] ++ nnodes.out nn)) as L.
  { apply HL; [|intros e He; by rewrite (sbs_n_out _ _ S1), Hout].
    split; [done..|]. intros e He; inversion He. }
  clear HL. rewrite app_nil_l in L.
  pose proof (erase_stride_same _ _ (spl_same _ _ _ _ _ _ L)) as S2.
  assert (n_stride net n = vec3i_ops.zero) as Hn0 by (by rewrite Hst).
  assert (n_stride net' n = s) as Hn'.
  { rewrite (spl_mono _ _ _ _ _ _ L); [done|]. rewrite Hns.
    by eapply within_ne_zero. }
  split; [|done]. split.
  - by rewrite (spl_same _ _ _ _ _ _ L).
  - intros p Hp. assert (p ≠ n) by congruence.
    rewrite (spl_mono _ _ _ _ _ _ L); rewrite Hother; done.
  - intros e He. assert (e_in net e ≠ n) by congruence.
    rewrite (spl_edges _ _ _ _ _ _ L); [done|..].
    + by rewrite (sbs_e_in _ _ S1).
    + rewrite (sbs_e_in _ _ S1), Hother; done.
  - intros p Hp0 Hp'. destruct (decide (p = n)) as [->|Hne].
    + rewrite Hn'. split; [|done]. intros e He.
      rewrite (sbs_n_out _ _ S2), (sbs_n_out _ _ S1), Hout in He.
      destruct (spl_done _ _ _ _ _ _ L e He) as (_ & H1 & H2). by rewrite Hn'.
    + apply (spl_new _ _ _ _ _ _ L); [|done]. by rewrite Hother.
Qed.

End StridePassSpec.

(** ** The FOV pass

    The mirror image of the stride pass, from the output node groups
    against the edges. *)

Section FovPassFrame.
Context `{Ext : Externals}.
Variables (outsz : vec3i) (bs bf bz : ptr → vec3i).

Lemma erase_fov_nnodes_arena net :
  nnodes_arena (erase_fov net) =
  (λ x, nnodes.set_fsize vec3i_ops.zero (nnodes.set_fov vec3i_ops.zero x))
    <$> nnodes_arena net.
Proof. done. Qed.
Lemma erase_fov_nedges_arena net :
  nedges_arena (erase_fov net) =
  nedges.set_in_fsize vec3i_ops.zero <$> nedges_arena net.
Proof. done. Qed.

Ltac erase_fov_accessor :=
  unfold n_out, n_in, n_stride, e_in, e_out, e_width, e_stride, e_in_stride;
  rewrite ?erase_fov_nnodes_arena, ?erase_fov_nedges_arena,
    list_lookup_fmap; by destruct (_ !! _) as [[]|].

Lemma erase_fov_n_out net p : n_out (erase_fov net) p = n_out net p.
Proof. erase_fov_accessor. Qed.
Lemma erase_fov_n_in net p : n_in (erase_fov net) p = n_in net p.
Proof. erase_fov_accessor. Qed.
Lemma erase_fov_n_stride net p : n_stride (erase_fov net) p = n_stride net p.
Proof. erase_fov_accessor. Qed.
Lemma erase_fov_e_in net e : e_in (erase_fov net) e = e_in net e.
Proof. erase_fov_accessor. Qed.
Lemma erase_fov_e_out net e : e_out (erase_fov net) e = e_out net e.
Proof. erase_fov_accessor. Qed.
Lemma erase_fov_e_width net e : e_width (erase_fov net) e = e_width net e.
Proof. erase_fov_accessor. Qed.
Lemma erase_fov_e_stride net e : e_stride (erase_fov net) e = e_stride net e.
Proof. erase_fov_accessor. Qed.
Lemma erase_fov_e_in_stride net e :
  e_in_stride (erase_fov net) e = e_in_stride net e.
Proof. erase_fov_accessor. Qed.
Lemma erase_fov_valid_node net p :
  valid_node (erase_fov net) p ↔ valid_node net p.
Proof. unfold valid_node. by rewrite erase_fov_nnodes_arena, length_fmap. Qed.
Lemma erase_fov_valid_nedges net p :
  valid_nedges (erase_fov net) p ↔ valid_nedges net p.
Proof. unfold valid_nedges. by rewrite erase_fov_nedges_arena, length_fmap. Qed.

Lemma erase_fov_same a b : erase_fov b = erase_fov a → same_but_fov a b.
Proof.
  intros E. split; intros.
  - by rewrite <-erase_fov_n_out, E, erase_fov_n_out.
  - by rewrite <-erase_fov_n_in, E, erase_fov_n_in.
  - by rewrite <-erase_fov_n_stride, E, erase_fov_n_stride.
  - by rewrite <-erase_fov_e_in, E, erase_fov_e_in.
  - by rewrite <-erase_fov_e_out, E, erase_fov_e_out.
  - by rewrite <-erase_fov_e_width, E, erase_fov_e_width.
  - by rewrite <-erase_fov_e_stride, E, erase_fov_e_stride.
  - by rewrite <-erase_fov_e_in_stride, E, erase_fov_e_in_stride.
  - by rewrite <-erase_fov_valid_node, E, erase_fov_valid_node.
  - by rewrite <-erase_fov_valid_nedges, E, erase_fov_valid_nedges.
  - by apply (f_equal nodes_) in E.
  - by apply (f_equal input_nodes_) in E.
  - by apply (f_equal output_nodes_) in E.
  - apply (f_equal (λ n, length (nnodes_arena n))) in E.
    by rewrite !erase_fov_nnodes_arena, !length_fmap in E.
Qed.

Lemma same_but_fov_wired a b : same_but_fov a b → wired a → wired b.
Proof.
  intros S [W1 W2 W3 W4]. destruct S. split; intros.
  - rewrite sbf_e_in0, sbf_e_out0, !sbf_valid_node0. apply W1.
    by apply sbf_valid_nedges0.
  - rewrite sbf_n_out0, sbf_e_in0, sbf_valid_nedges0. apply W2.
    by apply sbf_valid_node0.
  - rewrite sbf_n_in0, sbf_e_out0, sbf_valid_nedges0. apply W3.
    by apply sbf_valid_node0.
  - rewrite sbf_e_width0, sbf_e_stride0. apply W4. by apply sbf_valid_nedges0.
Qed.

Lemma same_but_fov_fits a b :
  same_but_fov a b → fits a outsz bs bf bz → fits b outsz bs bf bz.
Proof.
  intros S F. split.
  - apply (fit_top _ _ _ _ _ F).
  - intros k p. rewrite (sbf_input_nodes_ _ _ S). apply (fit_inputs _ _ _ _ _ F).
  - intros p. rewrite (sbf_valid_node _ _ S), (sbf_n_out _ _ S).
    apply (fit_outputs _ _ _ _ _ F).
  - intros e. rewrite (sbf_valid_nedges _ _ S), (sbf_e_in _ _ S),
      (sbf_e_out _ _ S), (sbf_e_stride _ _ S). apply (fit_stride _ _ _ _ _ F).
  - intros e. rewrite (sbf_valid_nedges _ _ S), (sbf_e_in _ _ S),
      (sbf_e_out _ _ S), (sbf_e_stride _ _ S), (sbf_e_width _ _ S).
    apply (fit_fov _ _ _ _ _ F).
  - intros e. rewrite (sbf_valid_nedges _ _ S), (sbf_e_in _ _ S),
      (sbf_e_out _ _ S), (sbf_e_width _ _ S). apply (fit_fsize _ _ _ _ _ F).
Qed.

(** one step of the FOV pass stays within the bounds *)
Lemma fits_fov_step net e f :
  wired net → fits net outsz bs bf bz → valid_nedges net e →
  vec3i_ops.within f (bf (e_out net e)) →
  vec3i_ops.within ((f - vec3i_ops.one) * e_stride net e + e_width net e)%V
                   (bf (e_in net e)).
Proof.
  intros W F He Hf. eapply within_fov; [exact Hf|..].
  - by apply (wired_positive _ W).
  - by apply (wired_positive _ W).
  - by apply (fit_fov _ _ _ _ _ F).
  - apply (fit_top _ _ _ _ _ F).
Qed.

Lemma fits_fsize_step net e s z :
  wired net → fits net outsz bs bf bz → valid_nedges net e →
  vec3i_ops.within s (bs (e_in net e)) →
  vec3i_ops.within z (bz (e_out net e)) →
  vec3i_ops.within ((e_width net e - vec3i_ops.one) * s + z)%V
                   (bz (e_in net e)).
Proof.
  intros W F He Hs Hz. eapply within_fsize; [|exact Hs|exact Hz|..].
  - by apply (wired_positive _ W).
  - by apply (fit_fsize _ _ _ _ _ F).
  - apply (fit_top _ _ _ _ _ F).
Qed.

Lemma erase_fov_put_nnodes net n nn f s :
  nnodes_arena net !! n = Some nn →
  erase_fov (put_nnodes n (nnodes.set_fsize s (nnodes.set_fov f nn)) net)
  = erase_fov net.
Proof.
  intros H. unfold erase_fov, put_nnodes, set_nedges_arena, set_nnodes_arena.
  cbn [nnodes_arena nedges_arena edge_arena filter_arena edges_ nodes_
       input_nodes_ output_nodes_].
  f_equal. rewrite list_fmap_insert. apply list_insert_id.
  rewrite list_lookup_fmap, H. by destruct nn.
Qed.

Lemma erase_fov_put_nedges net e ne s :
  nedges_arena net !! e = Some ne →
  erase_fov (put_nedges e (nedges.set_in_fsize s ne) net) = erase_fov net.
Proof.
  intros H. unfold erase_fov, put_nedges, set_nedges_arena, set_nnodes_arena.
  cbn [nnodes_arena nedges_arena edge_arena filter_arena edges_ nodes_
       input_nodes_ output_nodes_].
  f_equal. rewrite list_fmap_insert. apply list_insert_id.
  rewrite list_lookup_fmap, H. by destruct ne.
Qed.

Lemma n_fov_put_nnodes_eq net n x :
  valid_node net n →
  n_fov (put_nnodes n x net) n = nnodes.fov x ∧
  n_fsize (put_nnodes n x net) n = nnodes.fsize x.
Proof.
  unfold n_fov, n_fsize, put_nnodes, valid_node, set_nnodes_arena.
  cbn [nnodes_arena]. intros. by rewrite list_lookup_insert_eq.
Qed.
Lemma n_fov_put_nnodes_ne net n x p :
  p ≠ n →
  n_fov (put_nnodes n x net) p = n_fov net p ∧
  n_fsize (put_nnodes n x net) p = n_fsize net p.
Proof.
  unfold n_fov, n_fsize, put_nnodes, valid_node, set_nnodes_arena.
  cbn [nnodes_arena]. intros. by rewrite list_lookup_insert_ne.
Qed.
Lemma e_in_fsize_put_nedges_eq net e x :
  valid_nedges net e → e_in_fsize (put_nedges e x net) e = nedges.in_fsize x.
Proof.
  unfold e_in_fsize, put_nedges, valid_nedges, set_nedges_arena.
  cbn [nedges_arena]. intros. by rewrite list_lookup_insert_eq.
Qed.
Lemma e_in_fsize_put_nedges_ne net e x e' :
  e' ≠ e → e_in_fsize (put_nedges e x net) e' = e_in_fsize net e'.
Proof.
  unfold e_in_fsize, put_nedges, valid_nedges, set_nedges_arena.
  cbn [nedges_arena]. intros. by rewrite list_lookup_insert_ne.
Qed.

Lemma n_fov_valid net p : n_fov net p ≠ vec3i_ops.zero → valid_node net p.
Proof.
  unfold n_fov, valid_node. destruct (_ !! p) eqn:E; [|done].
  intros _. by eapply lookup_lt_Some.
Qed.

Lemma fp_post_refl a : fp_post bf a a.
Proof. split; done. Qed.

Lemma fp_post_unvisited a b :
  fp_post bf a b → unvisited_fov b ≤ unvisited_fov a.
Proof.
  intros [S M _ _]. apply erase_fov_same in S.
  unfold unvisited_fov. apply filter_length_mono.
  - symmetry. apply S.
  - intros i x y Hx Hy Hz.
    destruct (decide (nnodes.fov x = vec3i_ops.zero)) as [|Hn]; [done|].
    specialize (M i). unfold n_fov in M. rewrite Hx, Hy in M. simpl in M.
    destruct (M Hn) as [M1 _]. rewrite M1 in Hz; done.
Qed.

Lemma fov_closed_preserved a b p :
  wired a → fits a outsz bs bf bz → fp_post bf a b → valid_node a p →
  vec3i_ops.within (n_fov a p) (bf p) → fov_closed a p → fov_closed b p.
Proof.
  intros W F [S M E N] Hv Hp [Hc1 Hc2].
  pose proof (erase_fov_same _ _ S) as SS.
  destruct (M p (within_ne_zero _ _ Hp)) as [Mf Ms].
  split; intros e He.
  - rewrite (sbf_n_in _ _ SS) in He.
    destruct (Hc1 e He) as [H1 H2].
    destruct (proj1 (wired_in _ W p e Hv) He) as [Hve Hin].
    rewrite (sbf_e_in _ _ SS), (sbf_e_stride _ _ SS), (sbf_e_width _ _ SS),
      (sbf_e_in_stride _ _ SS), Mf, Ms.
    assert (n_fov a (e_in a e) ≠ vec3i_ops.zero) as Hnz.
    { rewrite H1. apply (within_ne_zero _ (bf (e_in a e))).
      apply fits_fov_step; [done..|]. by rewrite Hin. }
    destruct (M _ Hnz) as [-> ->]. done.
  - rewrite (sbf_n_out _ _ SS) in He.
    destruct (proj1 (wired_out _ W p e Hv) He) as [Hve Hin].
    rewrite E, Ms; [by apply Hc2|]. rewrite Hin. by eapply within_ne_zero.
Qed.

Lemma fp_post_trans a b c :
  wired a → fits a outsz bs bf bz → fp_post bf a b → fp_post bf b c →
  fp_post bf a c.
Proof.
  intros W F Hab Hbc.
  pose proof (erase_fov_same _ _ (fp_same _ _ _ Hab)) as SS.
  split.
  - rewrite (fp_same _ _ _ Hbc). apply Hab.
  - intros p Hp. destruct (fp_mono _ _ _ Hab p Hp) as [H1 H2].
    destruct (fp_mono _ _ _ Hbc p) as [H3 H4]; [congruence|]. split; congruence.
  - intros e He. rewrite (fp_edges _ _ _ Hbc), (fp_edges _ _ _ Hab); [done..|].
    rewrite (sbf_e_in _ _ SS). destruct (fp_mono _ _ _ Hab _ He). congruence.
  - intros p Hp Hc.
    destruct (decide (n_fov b p = vec3i_ops.zero)) as [Hz|Hnz].
    + by apply (fp_new _ _ _ Hbc).
    + destruct (fp_new _ _ _ Hab p Hp Hnz) as [Hcl Hpos].
      destruct (fp_mono _ _ _ Hbc p Hnz) as [-> _]. split; [|done].
      eapply fov_closed_preserved; [| |exact Hbc| | |]; try done.
      * eapply same_but_fov_wired; done.
      * eapply same_but_fov_fits; done.
      * by apply n_fov_valid.
Qed.

End FovPassFrame.

Section FovPassLoop.
Context `{Ext : Externals}.
Variables (outsz : vec3i) (bs bf bz : ptr → vec3i).

(** the first loop of an expansion: [e->in_fsize = fsize] over [n->out] *)
Lemma fov_loop_out fsize es : ∀ net,
  (∀ e, e ∈ es → valid_nedges net e) →
  ∃ net', for_each
            (λ e net, ne ← get_nedges net e;
                      Ok (put_nedges e (nedges.set_in_fsize fsize ne) net))
            es net = Ok net' ∧
    erase_fov net' = erase_fov net ∧
    (∀ p, n_fov net' p = n_fov net p ∧ n_fsize net' p = n_fsize net p) ∧
    (∀ e, e ∈ es → e_in_fsize net' e = fsize) ∧
    (∀ e, e ∉ es → e_in_fsize net' e = e_in_fsize net e).
Proof.
  induction es as [|e es IH]; intros net Hv.
  { exists net. repeat split; try done. intros e He; inversion He. }
  destruct (get_nedges_valid net e) as (ne & Hget & Hlk & _); [apply Hv; left|].
  cbn [for_each]. rewrite Hget. cbn [mbind result_bind].
  set (net1 := put_nedges e (nedges.set_in_fsize fsize ne) net).
  assert (erase_fov net1 = erase_fov net) as E1
    by (by apply erase_fov_put_nedges).
  pose proof (erase_fov_same _ _ E1) as S1.
  destruct (IH net1) as (net' & Hrun & E & Hn & Hin & Hout).
  { intros e' He'. apply (sbf_valid_nedges _ _ S1), Hv. by right. }
  exists net'. split; [done|]. split; [congruence|]. split; [|split].
  - intros p. by rewrite (proj1 (Hn p)), (proj2 (Hn p)).
  - intros e' He'. destruct (decide (e' ∈ es)) as [|Hni]; [by apply Hin|].
    apply elem_of_cons in He' as [->|]; [|done].
    rewrite Hout; [|done]. unfold net1. rewrite e_in_fsize_put_nedges_eq.
    + by destruct ne.
    + apply Hv; left.
  - intros e' He'. apply not_elem_of_cons in He' as [Hne Hni].
    rewrite Hout; [|done]. by apply e_in_fsize_put_nedges_ne.
Qed.

Lemma fov_loop_in fuel net1 n fov fsize :
  fov_pass_ok outsz bs bf bz fuel →
  wired net1 → fits net1 outsz bs bf bz → valid_node net1 n →
  vec3i_ops.within fov (bf n) →
  unvisited_fov net1 < fuel →
  ∀ es done_ cur,
    fp_loop bf net1 n fov fsize cur done_ →
    (∀ e, e ∈ es → e ∈ n_in net1 n) →
    match
      for_each
        (λ e net,
           ne ← get_nedges net e;
           let new_fov :=
             ((fov - vec3i_ops.one) * nedges.stride ne + nedges.width ne)%V in
           let new_fsize :=
             ((nedges.width ne - vec3i_ops.one) * nedges.in_stride ne
              + fsize)%V in
           fov_pass fuel (nedges.in_ ne) new_fov new_fsize net)
        es cur
    with
    | Ok net' => fp_loop bf net1 n fov fsize net' (done_ ++ es)
    | Err e => e = AssertionFailed
    end.
Proof.
  intros IH W1 F1 Hn Hf Hfuel es.
  induction es as [|e es IHes]; intros done_ cur [P D] Hes.
  { simpl. by rewrite app_nil_r. }
  pose proof (erase_fov_same _ _ (fp_same _ _ _ P)) as S1.
  assert (e ∈ n_in net1 n) as He by (apply Hes; left).
  destruct (proj1 (wired_in _ W1 n e Hn) He) as [Hve Houte].
  assert (valid_nedges cur e) as Hve' by (by apply (sbf_valid_nedges _ _ S1)).
  destruct (get_nedges_valid _ _ Hve')
    as (ne & Hget & Hlk & Hin & Hout & Hst & Hw & Hist).
  cbn [for_each]. rewrite Hget. cbn [mbind result_bind].
  assert (wired cur) as Wc by (by eapply same_but_fov_wired).
  assert (fits cur outsz bs bf bz) as Fc by (by eapply same_but_fov_fits).
  assert (vec3i_ops.within
            ((fov - vec3i_ops.one) * nedges.stride ne + nedges.width ne)%V
            (bf (nedges.in_ ne))) as Hpos.
  { rewrite <-Hst, <-Hw, <-Hin.
    apply (fits_fov_step outsz bs bf bz); [done..|].
    by rewrite (sbf_e_out _ _ S1), Houte. }
  assert (valid_node cur (nedges.in_ ne)) as Hvi.
  { rewrite <-Hin. by apply (wired_ends _ Wc). }
  assert (unvisited_fov cur < fuel) as Hf1.
  { eapply Nat.le_lt_trans; [|exact Hfuel]. by apply (fp_post_unvisited bf). }
  specialize (IH (nedges.in_ ne) _
    ((nedges.width ne - vec3i_ops.one) * nedges.in_stride ne + fsize)%V
    cur Wc Fc Hvi Hpos Hf1).
  destruct (fov_pass fuel _ _ _ cur) as [cur2|err]; [|done].
  destruct IH as (P2 & R1 & R2).
  pose proof (erase_fov_same _ _ (fp_same _ _ _ P2)) as S2.
  replace (done_ ++ e :: es) with ((done_ ++ [e]) ++ es)
    by (by rewrite <-app_assoc).
  apply IHes; [|intros; apply Hes; by right].
  split; [by eapply fp_post_trans|].
  intros e' He'.
  rewrite (sbf_e_in _ _ S2), (sbf_e_stride _ _ S2), (sbf_e_width _ _ S2),
    (sbf_e_in_stride _ _ S2).
  apply elem_of_app in He' as [He'|He'].
  - destruct (D e' He') as (Hv' & Ho' & H1 & H2). split; [done|].
    split; [done|].
    assert (n_fov cur (e_in cur e') ≠ vec3i_ops.zero) as Hnz.
    { rewrite H1. apply (within_ne_zero _ (bf (e_in cur e'))).
      apply (fits_fov_step outsz bs bf bz);
        [done|done|by apply (sbf_valid_nedges _ _ S1)|].
      by rewrite (sbf_e_out _ _ S1), Ho'. }
    destruct (fp_mono _ _ _ P2 _ Hnz) as [-> ->]. done.
  - apply list_elem_of_singleton in He' as ->. split; [done|].
    split; [done|]. by rewrite Hin, Hst, Hw, Hist.
Qed.

End FovPassLoop.

Section FovPassSpec.
Context `{Ext : Externals}.
Variables (outsz : vec3i) (bs bf bz : ptr → vec3i).

Lemma fov_pass_spec fuel : fov_pass_ok outsz bs bf bz fuel.
Proof.
  induction fuel as [|fuel IH]; intros n fov fsize net W F Hn Hf Hfuel; [lia|].
  destruct (get_nnodes_valid _ _ Hn)
    as (nn & Hget & Hlk & _ & Hout & Hin & Hfov & Hfs).
  cbn [fov_pass]. rewrite Hget. cbn [mbind result_bind].
  destruct (vec3i_ops.neqb (nnodes.fov nn) vec3i_ops.zero) eqn:Hvis.
  { destruct (vec3i_ops.eqb (nnodes.fsize nn) fsize) eqn:Heq1; simpl; [|done].
    destruct (vec3i_ops.eqb (nnodes.fov nn) fov) eqn:Heq2; simpl; [|done].
    apply eqb_true in Heq1, Heq2.
    split; [apply fp_post_refl|]. split; congruence. }
  apply neqb_false in Hvis.
  destruct (fov_loop_out fsize (nnodes.out nn) net)
    as (net0 & Hrun & E0 & Hn0 & Hin0 & Hout0).
  { intros e He. rewrite <-Hout in He. by apply (wired_out _ W n e Hn). }
  rewrite Hrun. cbn [mbind result_bind].
  pose proof (erase_fov_same _ _ E0) as S0.
  assert (nnodes_arena net0 !! n = Some nn) as Hlk0.
  { clear -Hrun Hlk. revert net Hrun Hlk.
    induction (nnodes.out nn) as [|e es IHes]; intros net Hrun Hlk.
    - by injection Hrun as <-.
    - cbn [for_each] in Hrun. apply bind_ok in Hrun as (net1 & H1 & H2).
      apply bind_ok in H1 as (ne & _ & [= <-]). by apply (IHes _ H2). }
  set (net1 := put_nnodes n (nnodes.set_fsize fsize (nnodes.set_fov fov nn)) net0).
  assert (erase_fov net1 = erase_fov net0) as E1
    by (by apply erase_fov_put_nnodes).
  pose proof (erase_fov_same _ _ E1) as S1.
  assert (wired net0) as W0 by (by eapply same_but_fov_wired).
  assert (wired net1) as W1 by (by eapply same_but_fov_wired).
  assert (fits net0 outsz bs bf bz) as F0 by (by eapply same_but_fov_fits).
  assert (fits net1 outsz bs bf bz) as F1 by (by eapply same_but_fov_fits).
  assert (valid_node net0 n) as Hn0v by (by apply (sbf_valid_node _ _ S0)).
  assert (valid_node net1 n) as Hn1v by (by apply (sbf_valid_node _ _ S1)).
  assert (n_fov net1 n = fov ∧ n_fsize net1 n = fsize) as [Hnf Hns].
  { unfold net1. destruct (n_fov_put_nnodes_eq net0 n
      (nnodes.set_fsize fsize (nnodes.set_fov fov nn)) Hn0v) as [-> ->].
    by destruct nn. }
  assert (∀ p, p ≠ n → n_fov net1 p = n_fov net p ∧ n_fsize net1 p = n_fsize net p)
    as Hother.
  { intros p Hp. unfold net1.
    destruct (n_fov_put_nnodes_ne net0 n
      (nnodes.set_fsize fsize (nnodes.set_fov fov nn)) p Hp) as [-> ->].
    apply Hn0. }
  assert (∀ e, e_in_fsize net1 e = e_in_fsize net0 e) as He1 by done.
  assert (unvisited_fov net1 < fuel) as Hf1.
  { unfold unvisited_fov in *. unfold net1, put_nnodes, set_nnodes_arena.
    cbn [nnodes_arena].
    pose proof (filter_length_insert
      (λ x, nnodes.fov x = vec3i_ops.zero) (nnodes_arena net0) n nn
      (nnodes.set_fsize fsize (nnodes.set_fov fov nn)) Hlk0 Hvis) as Hc.
    assert (length (base.filter (λ x, nnodes.fov x = vec3i_ops.zero)
                      (nnodes_arena net0))
            ≤ length (base.filter (λ x, nnodes.fov x = vec3i_ops.zero)
                        (nnodes_arena net))) as Hle.
    { apply filter_length_mono; [symmetry; apply S0|].
      intros i x y Hx Hy Hz. pose proof (proj1 (Hn0 i)) as M.
      unfold n_fov in M. rewrite Hx, Hy in M. simpl in M. congruence. }
    rewrite <-Hc in Hle; [lia|]. destruct nn; simpl.
    by eapply within_ne_zero. }
  pose proof (fov_loop_in outsz bs bf bz fuel net1 n fov fsize IH W1 F1 Hn1v
                Hf Hf1
    (nnodes.in_ nn) [] net1) as HL.
  assert (fp_loop bf net1 n fov fsize net1 []) as L0.
  { split; [apply fp_post_refl|]. intros e He; inversion He. }
  assert (∀ e, e ∈ nnodes.in_ nn → e ∈ n_in net1 n) as Hes.
  { intros e He. by rewrite (sbf_n_in _ _ S1), (sbf_n_in _ _ S0), Hin. }
  specialize (HL L0 Hes).
  destruct (for_each _ _ net1) as [net'|err]; [|done].
  rewrite app_nil_l in HL. destruct HL as [P D].
  pose proof (erase_fov_same _ _ (fp_same _ _ _ P)) as S2.
  assert (n_fov net n = vec3i_ops.zero) as Hz by (by rewrite Hfov).
  destruct (fp_mono _ _ _ P n) as [Hf' Hs'].
  { rewrite Hnf. by eapply within_ne_zero. }
  rewrite Hnf in Hf'. rewrite Hns in Hs'.
  split; [|done]. split.
  - by rewrite (fp_same _ _ _ P), E1.
  - intros p Hp. assert (p ≠ n) as Hpn by congruence.
    destruct (Hother p Hpn) as [H1 H2].
    destruct (fp_mono _ _ _ P p) as [H3 H4]; [congruence|]. split; congruence.
  - intros e He. assert (e_in net e ≠ n) as Hne by congruence.
    rewrite (fp_edges _ _ _ P).
    + rewrite He1. apply Hout0. rewrite <-Hout. intros Hel.
      by destruct (proj1 (wired_out _ W n e Hn) Hel).
    + rewrite (sbf_e_in _ _ S1), (sbf_e_in _ _ S0).
      destruct (Hother _ Hne) as [-> _]. done.
  - intros p Hp0 Hp'. destruct (decide (p = n)) as [->|Hne].
    + rewrite Hf'. split; [|done]. split; intros e He.
      * rewrite (sbf_n_in _ _ S2), (sbf_n_in _ _ S1), (sbf_n_in _ _ S0), Hin in He.
        destruct (D e He) as (_ & _ & H1 & H2).
        rewrite Hf', Hs'. done.
      * rewrite (sbf_n_out _ _ S2), (sbf_n_out _ _ S1), (sbf_n_out _ _ S0) in He.
        destruct (proj1 (wired_out _ W n e Hn) He) as [Hve Hie].
        rewrite (fp_edges _ _ _ P).
        -- rewrite He1, Hs'. apply Hin0. by rewrite <-Hout.
        -- rewrite (sbf_e_in _ _ S1), (sbf_e_in _ _ S0), Hie, Hnf.
           by eapply within_ne_zero.
    + apply (fp_new _ _ _ P); [|done]. destruct (Hother p Hne) as [-> _]. done.
Qed.

End FovPassSpec.

(** ** [init] *)

Section StdMapFacts.
Context {V : Type}.
Implicit Types m : StdMap.t V.

Lemma stdmap_insert_elem k v m kv :
  kv ∈ StdMap.insert k v m → kv = (k, v) ∨ kv ∈ m.
Proof.
  induction m as [|[k' v'] m IH]; simpl.
  - intros ?%list_elem_of_singleton. by left.
  - destruct (String.eqb k k'); [|destruct (String.ltb k k')].
    + intros [->|?]%elem_of_cons; [by left|right; by right].
    + intros [->|?]%elem_of_cons; [by left|by right].
    + intros [->|?]%elem_of_cons; [right; by left|].
      destruct IH as [->|]; [done|by left|right; by right].
Qed.

Lemma stdmap_elem_insert_eq k v m : (k, v) ∈ StdMap.insert k v m.
Proof.
  induction m as [|[k' v'] m IH]; simpl; [by left|].
  destruct (String.eqb k k'); [by left|].
  destruct (String.ltb k k'); [by left|by right].
Qed.

Lemma stdmap_elem_insert_ne k v m k' v' :
  k' ≠ k → (k', v') ∈ m → (k', v') ∈ StdMap.insert k v m.
Proof.
  intros Hne. induction m as [|[k2 v2] m IH]; simpl; [by intros ?%elem_of_nil|].
  intros [[= <- <-]|Hin]%elem_of_cons.
  - destruct (String.eqb_spec k k'); [congruence|].
    destruct (String.ltb k k'); [right; by left|by left].
  - destruct (String.eqb k k2); [by right|].
    destruct (String.ltb k k2); [right; by right|right; by apply IH].
Qed.

Lemma stdmap_find_elem k v m : StdMap.find k m = Some v → (k, v) ∈ m.
Proof.
  induction m as [|[k' v'] m IH]; simpl; [done|].
  destruct (String.eqb_spec k k') as [->|]; [intros [= ->]; by left|].
  intros. right. by apply IH.
Qed.

End StdMapFacts.

Section InitOutputs.
Context `{Ext : Externals}.

Lemma init_collect net0 l : ∀ net,
  (∀ o, o ∈ l → valid_node net0 o.2) →
  nnodes_arena net = nnodes_arena net0 →
  for_each
    (λ (o : string * nat) net,
       nn ← get_nnodes net o.2;
       if length (nnodes.out nn) =? 0 then
         Ok (set_output_nodes_ (StdMap.insert o.1 o.2 (output_nodes_ net)) net)
       else Ok net) l net
  = Ok (set_output_nodes_ (collect_outputs net0 l (output_nodes_ net)) net).
Proof.
  induction l as [|[k p] l IH]; intros net Hv Ha; cbn [for_each].
  { by destruct net. }
  assert (valid_node net p) as Hp.
  { unfold valid_node. rewrite Ha. apply (Hv (k, p)). by left. }
  destruct (get_nnodes_valid _ _ Hp) as (nn & Hget & _ & _ & Hout & _).
  cbn [fst snd]. rewrite Hget. cbn [mbind result_bind].
  unfold collect_outputs. cbn [foldl fst snd]. fold (collect_outputs net0).
  assert (n_out net0 p = nnodes.out nn) as ->.
  { rewrite <-Hout. unfold n_out. by rewrite Ha. }
  destruct (length (nnodes.out nn) =? 0).
  - etrans; [apply IH; [intros; apply Hv; by right|done]|done].
  - etrans; [apply IH; [intros; apply Hv; by right|done]|done].
Qed.

Lemma collect_outputs_sound net l : ∀ acc kp,
  kp ∈ collect_outputs net l acc →
  kp ∈ acc ∨ (kp ∈ l ∧ n_out net kp.2 = []).
Proof.
  induction l as [|[k p] l IH]; intros acc kp; simpl; [by left|].
  intros [H|[H1 H2]]%IH; [|right; split; [by right|done]].
  destruct (length (n_out net p) =? 0) eqn:E; [|by left].
  apply stdmap_insert_elem in H as [->|]; [|by left].
  right. split; [by left|]. simpl. apply Nat.eqb_eq in E.
  by apply nil_length_inv.
Qed.

Lemma collect_outputs_complete net l : ∀ acc k p,
  NoDup l.*1 →
  ((k, p) ∈ acc ∧ k ∉ l.*1) ∨ ((k, p) ∈ l ∧ n_out net p = []) →
  (k, p) ∈ collect_outputs net l acc.
Proof.
  induction l as [|[k' p'] l IH]; intros acc k p Hnd; simpl.
  { intros [[? _]|[?%elem_of_nil _]]; done. }
  apply NoDup_cons in Hnd as [Hk' Hnd]. simpl in *.
  intros [[Hacc Hk]|[Hin Hout]]; apply IH; try done.
  - left. apply not_elem_of_cons in Hk as [??]. split; [|done].
    destruct (length (n_out net p') =? 0); [|done].
    by apply stdmap_elem_insert_ne.
  - apply elem_of_cons in Hin as [[= -> ->]|Hin]; [left|by right].
    rewrite Hout. split; [apply stdmap_elem_insert_eq|done].
Qed.

End InitOutputs.

Section InitPasses.
Context `{Ext : Externals}.
Variables (outsz : vec3i) (bs bf bz : ptr → vec3i).

Lemma unvisited_stride_fuel net : unvisited_stride net < pass_fuel net.
Proof.
  unfold unvisited_stride, pass_fuel.
  pose proof (length_filter (λ x, nnodes.stride x = vec3i_ops.zero)
                (nnodes_arena net)). lia.
Qed.
Lemma unvisited_fov_fuel net : unvisited_fov net < pass_fuel net.
Proof.
  unfold unvisited_fov, pass_fuel.
  pose proof (length_filter (λ x, nnodes.fov x = vec3i_ops.zero)
                (nnodes_arena net)). lia.
Qed.

Lemma init_strides net0 :
  wired net0 → fits net0 outsz bs bf bz →
  ∀ l cur done_,
    (∀ o : string * nat, o ∈ l → valid_node net0 o.2) →
    (∀ o : string * nat, o ∈ l → vec3i_ops.le vec3i_ops.one (bs o.2)) →
    erase_stride cur = erase_stride net0 →
    (∀ p, n_stride cur p ≠ vec3i_ops.zero →
          stride_closed cur p ∧ vec3i_ops.within (n_stride cur p) (bs p)) →
    (∀ o : string * nat, o ∈ done_ → n_stride cur o.2 = vec3i_ops.one) →
    match
      for_each (λ (o : string * nat) net,
                  stride_pass (pass_fuel net) o.2 vec3i_ops.one net) l cur
    with
    | Ok net' =>
        erase_stride net' = erase_stride net0 ∧
        (∀ p, n_stride net' p ≠ vec3i_ops.zero →
              stride_closed net' p ∧
              vec3i_ops.within (n_stride net' p) (bs p)) ∧
        (∀ o : string * nat, o ∈ done_ ++ l →
              n_stride net' o.2 = vec3i_ops.one)
    | Err e => e = AssertionFailed
    end.
Proof.
  intros W0 F0 l.
  induction l as [|[k p] l IH]; intros cur done_ Hv Hb E Hcl Hd.
  { simpl. rewrite app_nil_r. done. }
  cbn [for_each].
  pose proof (erase_stride_same _ _ E) as S.
  assert (wired cur) as Wc by (by eapply same_but_stride_wired).
  assert (fits cur outsz bs bf bz) as Fc by (by eapply same_but_stride_fits).
  assert (valid_node cur p) as Hp.
  { apply (sbs_valid_node _ _ S). apply (Hv (k, p)). by left. }
  assert (vec3i_ops.within vec3i_ops.one (bs p)) as Hone.
  { apply within_one. apply (Hb (k, p)). by left. }
  pose proof (stride_pass_spec outsz bs bf bz (pass_fuel cur) p vec3i_ops.one
                cur Wc Fc Hp Hone (unvisited_stride_fuel cur)) as HS.
  cbn [snd]. destruct (stride_pass _ p _ cur) as [cur2|err]; [|done].
  cbn [mbind result_bind]. destruct HS as [P Hres].
  replace (done_ ++ (k, p) :: l) with ((done_ ++ [(k, p)]) ++ l)
    by (by rewrite <-app_assoc).
  apply IH.
  - intros; apply Hv; by right.
  - intros; apply Hb; by right.
  - by rewrite (sp_same _ _ _ P).
  - intros q Hq. destruct (decide (n_stride cur q = vec3i_ops.zero)) as [Hz|Hnz].
    + by apply (sp_new _ _ _ P).
    + destruct (Hcl q Hnz) as [H1 H2]. rewrite (sp_mono _ _ _ P q Hnz).
      split; [|done]. eapply stride_closed_preserved; try done.
      by apply n_stride_valid.
  - intros o [Ho| ->%list_elem_of_singleton]%elem_of_app; [|done].
    rewrite (sp_mono _ _ _ P); rewrite (Hd o Ho); [done|].
    apply positive_ne_zero, positive_one.
Qed.

Lemma init_fovs net0 :
  wired net0 → fits net0 outsz bs bf bz →
  ∀ l cur done_,
    (∀ o : string * nat, o ∈ l → valid_node net0 o.2) →
    (∀ o : string * nat, o ∈ l → vec3i_ops.le vec3i_ops.one (bf o.2)) →
    erase_fov cur = erase_fov net0 →
    (∀ p, n_fov cur p ≠ vec3i_ops.zero →
          fov_closed cur p ∧ vec3i_ops.within (n_fov cur p) (bf p)) →
    (∀ o : string * nat, o ∈ done_ →
          n_fov cur o.2 = vec3i_ops.one ∧ n_fsize cur o.2 = outsz) →
    match
      for_each (λ (o : string * nat) net,
                  fov_pass (pass_fuel net) o.2 vec3i_ops.one outsz net) l cur
    with
    | Ok net' =>
        erase_fov net' = erase_fov net0 ∧
        (∀ p, n_fov net' p ≠ vec3i_ops.zero →
              fov_closed net' p ∧ vec3i_ops.within (n_fov net' p) (bf p)) ∧
        (∀ o : string * nat, o ∈ done_ ++ l →
              n_fov net' o.2 = vec3i_ops.one ∧ n_fsize net' o.2 = outsz)
    | Err e => e = AssertionFailed
    end.
Proof.
  intros W0 F0 l.
  induction l as [|[k p] l IH]; intros cur done_ Hv Hb E Hcl Hd.
  { simpl. rewrite app_nil_r. done. }
  cbn [for_each].
  pose proof (erase_fov_same _ _ E) as S.
  assert (wired cur) as Wc by (by eapply same_but_fov_wired).
  assert (fits cur outsz bs bf bz) as Fc by (by eapply same_but_fov_fits).
  assert (valid_node cur p) as Hp.
  { apply (sbf_valid_node _ _ S). apply (Hv (k, p)). by left. }
  assert (vec3i_ops.within vec3i_ops.one (bf p)) as Hone.
  { apply within_one. apply (Hb (k, p)). by left. }
  pose proof (fov_pass_spec outsz bs bf bz (pass_fuel cur) p vec3i_ops.one
                outsz cur Wc Fc Hp Hone (unvisited_fov_fuel cur)) as HS.
  cbn [snd]. destruct (fov_pass _ p _ _ cur) as [cur2|err]; [|done].
  cbn [mbind result_bind]. destruct HS as (P & Hr1 & Hr2).
  replace (done_ ++ (k, p) :: l) with ((done_ ++ [(k, p)]) ++ l)
    by (by rewrite <-app_assoc).
  apply IH.
  - intros; apply Hv; by right.
  - intros; apply Hb; by right.
  - by rewrite (fp_same _ _ _ P).
  - intros q Hq. destruct (decide (n_fov cur q = vec3i_ops.zero)) as [Hz|Hnz].
    + by apply (fp_new _ _ _ P).
    + destruct (Hcl q Hnz) as [H1 H2].
      destruct (fp_mono _ _ _ P q Hnz) as [-> _].
      split; [|done]. eapply fov_closed_preserved; try done.
      by apply n_fov_valid.
  - intros o [Ho| ->%list_elem_of_singleton]%elem_of_app; [|done].
    destruct (Hd o Ho) as [H1 H2].
    destruct (fp_mono _ _ _ P o.2) as [-> ->]; [|done].
    rewrite H1. apply positive_ne_zero, positive_one.
Qed.

End InitPasses.

Section InitSpec.
Context `{Ext : Externals}.
Variables (outsz : vec3i) (bs bf bz : ptr → vec3i).

Lemma init_spec net rank :
  graph_wf net rank → vec3i_ops.positive outsz →
  fits net outsz bs bf bz →
  match init outsz net with
  | Ok net' => init_post outsz bs bf bz net net'
  | Err e => e = AssertionFailed
  end.
Proof.
  intros WF Hsz F. pose proof (wf_wired _ _ WF) as W.
  unfold init.
  rewrite (init_collect net); [|intros [k p] Ho|done].
  2:{ apply (wf_nodes_ _ _ WF). apply list_elem_of_fmap. by exists (k, p). }
  cbn [mbind result_bind].
  set (outs := collect_outputs net (nodes_ net) (output_nodes_ net)).
  set (net_a := set_output_nodes_ outs net).
  assert (wired net_a) as Wa by (by destruct W).
  assert (fits net_a outsz bs bf bz) as Fa by (by destruct F).
  pose proof (init_strides outsz bs bf bz net_a Wa Fa (input_nodes_ net_a)
                net_a []) as H2.
  assert (∀ o : string * nat, o ∈ input_nodes_ net_a → valid_node net_a o.2)
    as A1 by (intros [k p] Ho; by apply (wf_inputs _ _ WF k p)).
  assert (∀ o : string * nat, o ∈ input_nodes_ net_a →
            vec3i_ops.le vec3i_ops.one (bs o.2))
    as A0 by (intros [k p] Ho; by apply (fit_inputs _ _ _ _ _ F k p)).
  assert (∀ p, n_stride net_a p ≠ vec3i_ops.zero →
            stride_closed net_a p ∧
            vec3i_ops.within (n_stride net_a p) (bs p))
    as A2 by (intros p Hp; by destruct (proj1 (wf_fresh _ _ WF p))).
  assert (∀ o : string * nat, o ∈ [] → n_stride net_a o.2 = vec3i_ops.one)
    as A3 by (intros o Ho; inversion Ho).
  specialize (H2 A1 A0 eq_refl A2 A3). clear A0 A1 A2 A3.
  destruct (for_each _ (input_nodes_ net_a) net_a) as [net_b|err]; [|done].
  destruct H2 as (Eb & Hclb & Hinb). cbn [app] in Hinb.
  cbn [mbind result_bind].
  pose proof (erase_stride_same _ _ Eb) as Sb.
  assert (wired net_b) as Wb by (by eapply same_but_stride_wired).
  assert (fits net_b outsz bs bf bz) as Fb
    by (by eapply same_but_stride_fits).
  assert (output_nodes_ net_b = outs) as -> by (by rewrite (sbs_output_nodes_ _ _ Sb)).
  pose proof (init_fovs outsz bs bf bz net_b Wb Fb outs net_b []) as H3.
  assert (∀ o : string * nat, o ∈ outs → o ∈ nodes_ net ∧ n_out net o.2 = [])
    as Houts.
  { intros o Ho. apply collect_outputs_sound in Ho as [Ho|Ho]; [|done].
    rewrite (wf_no_outputs _ _ WF) in Ho. inversion Ho. }
  assert (∀ o : string * nat, o ∈ nodes_ net → valid_node net o.2) as Hreg.
  { intros [k p] Ho. apply (wf_nodes_ _ _ WF), list_elem_of_fmap. by exists (k, p). }
  assert (∀ o : string * nat, o ∈ outs → valid_node net_b o.2) as A1.
  { intros o Ho. apply (sbs_valid_node _ _ Sb), Hreg, Houts, Ho. }
  assert (∀ o : string * nat, o ∈ outs →
            vec3i_ops.le vec3i_ops.one (bf o.2)) as A0.
  { intros o Ho. destruct (Houts o Ho) as [Hr Hno].
    by apply (fit_outputs _ _ _ _ _ F o.2 (Hreg o Hr) Hno). }
  assert (∀ p, n_fov net_b p ≠ vec3i_ops.zero →
            fov_closed net_b p ∧ vec3i_ops.within (n_fov net_b p) (bf p))
    as A2.
  { intros p Hp. rewrite (sbs_n_fov _ _ Sb) in Hp.
    by destruct (proj2 (wf_fresh _ _ WF p)). }
  assert (∀ o : string * nat, o ∈ [] →
            n_fov net_b o.2 = vec3i_ops.one ∧ n_fsize net_b o.2 = outsz)
    as A3 by (intros o Ho; inversion Ho).
  specialize (H3 A1 A0 eq_refl A2 A3). clear A0 A1 A2 A3.
  destruct (for_each _ outs net_b) as [net'|err]; [|done].
  destruct H3 as (Ec & Hclc & Houtc). cbn [app] in Houtc.
  pose proof (erase_fov_same _ _ Ec) as Sc.
  assert (wired net') as W' by (by eapply same_but_fov_wired).
  assert (fits net' outsz bs bf bz) as F' by (by eapply same_but_fov_fits).
  (* strides: every node group is fed from an input *)
  assert (∀ p, reachable net p →
            vec3i_ops.within (n_stride net_b p) (bs p)) as Hreach.
  { intros p Hp. induction Hp as [k p Hin|e Hve Hr IHr].
    - pose proof (Hinb (k, p)) as Hone. cbn [snd] in Hone.
      rewrite Hone; [|done]. by apply within_one, (fit_inputs _ _ _ _ _ F k).
    - destruct (Hclb (e_in net e)) as [Hcl _]; [by eapply within_ne_zero|].
      destruct (Hcl e) as [H1 _].
      { rewrite (sbs_n_out _ _ Sb). apply (wired_out _ W); [|done].
        by apply (wired_ends _ W). }
      rewrite (sbs_e_out _ _ Sb), (sbs_e_stride _ _ Sb) in H1.
      change (e_out net_a e) with (e_out net e) in H1.
      change (e_stride net_a e) with (e_stride net e) in H1. rewrite H1.
      by apply (fits_stride_step outsz bs bf bz). }
  assert (∀ p, valid_node net p →
            stride_closed net' p ∧ vec3i_ops.within (n_stride net' p) (bs p))
    as Hstr.
  { intros p Hp. pose proof (Hreach p (wf_reachable _ _ WF p Hp)) as Hpos.
    destruct (Hclb p (within_ne_zero _ _ Hpos)) as [Hcl _].
    rewrite (sbf_n_stride _ _ Sc). split; [|done].
    intros e He. rewrite (sbf_n_out _ _ Sc) in He.
    rewrite !(sbf_n_stride _ _ Sc), (sbf_e_out _ _ Sc), (sbf_e_stride _ _ Sc),
      (sbf_e_in_stride _ _ Sc). by apply Hcl. }
  (* fields of view: every node group feeds an output *)
  assert (∀ k p, k + rank p = length (nnodes_arena net) → valid_node net p →
            vec3i_ops.within (n_fov net' p) (bf p) ∧
            vec3i_ops.within (n_fsize net' p) (bz p)) as Hrank.
  { intros k. induction k as [k IHk] using lt_wf_ind. intros p Hk Hp.
    destruct (n_out net p) as [|e es] eqn:Hout.
    - destruct (fit_outputs _ _ _ _ _ F p Hp Hout) as [Hbf Hbz].
      pose proof (proj1 (wf_nodes_ _ _ WF p) Hp) as Hin.
      apply list_elem_of_fmap in Hin as ([k' p'] & -> & Hin). simpl in *.
      destruct (Houtc (k', p')) as [H1 H2].
      { apply collect_outputs_complete.
        - apply (wf_nodes_keys _ _ WF).
        - right. done. }
      cbn [snd] in H1, H2. rewrite H1, H2.
      split; [by apply within_one|by split].
    - assert (e ∈ n_out net p) as He by (rewrite Hout; left).
      destruct (proj1 (wired_out _ W p e Hp) He) as [Hve Hine].
      destruct (wired_ends _ W e Hve) as [_ Hvo].
      pose proof (wf_rank _ _ WF e Hve) as Hr. rewrite Hine in Hr.
      pose proof (wf_rank_bound _ _ WF _ Hvo) as Hb.
      destruct (IHk (length (nnodes_arena net) - rank (e_out net e))
                  ltac:(lia) (e_out net e) ltac:(lia) Hvo) as [Hpf Hps].
      destruct (Hclc (e_out net e) (within_ne_zero _ _ Hpf)) as [[Hcl _] _].
      destruct (Hcl e) as [H1 H2].
      { rewrite (sbf_n_in _ _ Sc), (sbs_n_in _ _ Sb).
        by apply (wired_in _ W). }
      assert (e_in net' e = p) as Hin'
        by (by rewrite (sbf_e_in _ _ Sc), (sbs_e_in _ _ Sb)).
      assert (e_out net' e = e_out net e) as Hout'
        by (by rewrite (sbf_e_out _ _ Sc), (sbs_e_out _ _ Sb)).
      assert (valid_nedges net' e) as Hve'
        by (by apply (sbf_valid_nedges _ _ Sc), (sbs_valid_nedges _ _ Sb)).
      rewrite Hin' in H1, H2. rewrite H1, H2. rewrite <-Hout' in Hpf, Hps.
      split.
      + pose proof (fits_fov_step outsz bs bf bz net' e _ W' F' Hve' Hpf)
          as X. by rewrite Hin', Hout' in X.
      + destruct (Hstr p Hp) as [Hcl' Hpp].
        destruct (Hcl' e) as [_ His].
        { by rewrite (sbf_n_out _ _ Sc), (sbs_n_out _ _ Sb). }
        rewrite <-His, <-Hin' in Hpp.
        pose proof (fits_fsize_step outsz bs bf bz net' e _ _ W' F' Hve'
                      Hpp Hps) as X.
        by rewrite Hin', Hout' in X. }
  split.
  - split; intros.
    + by rewrite (sbf_n_out _ _ Sc), (sbs_n_out _ _ Sb).
    + by rewrite (sbf_n_in _ _ Sc), (sbs_n_in _ _ Sb).
    + by rewrite (sbf_e_in _ _ Sc), (sbs_e_in _ _ Sb).
    + by rewrite (sbf_e_out _ _ Sc), (sbs_e_out _ _ Sb).
    + by rewrite (sbf_e_width _ _ Sc), (sbs_e_width _ _ Sb).
    + by rewrite (sbf_e_stride _ _ Sc), (sbs_e_stride _ _ Sb).
    + by rewrite (sbf_valid_node _ _ Sc), (sbs_valid_node _ _ Sb).
    + by rewrite (sbf_valid_nedges _ _ Sc), (sbs_valid_nedges _ _ Sb).
    + by rewrite (sbf_nodes_ _ _ Sc), (sbs_nodes_ _ _ Sb).
    + by rewrite (sbf_input_nodes_ _ _ Sc), (sbs_input_nodes_ _ _ Sb).
  - done.
  - intros p Hp.
    destruct (Hrank (length (nnodes_arena net) - rank p) p) as [Hpf Hps];
      [pose proof (wf_rank_bound _ _ WF p Hp); lia|done|].
    split; [|done]. apply Hclc. by eapply within_ne_zero.
  - intros k p Hin. rewrite (sbf_n_stride _ _ Sc). by apply (Hinb (k, p)).
  - intros p Hp Hout.
    pose proof (proj1 (wf_nodes_ _ _ WF p) Hp) as Hin.
    apply list_elem_of_fmap in Hin as ([k' p'] & -> & Hin).
    apply (Houtc (k', p')). apply collect_outputs_complete.
    + apply (wf_nodes_keys _ _ WF).
    + right. done.
Qed.

(** within the bounds nothing [init] has computed along an edge group was
    reduced: the relations hold over the integers *)
Lemma init_post_exact net rank net' e :
  graph_wf net rank → fits net outsz bs bf bz →
  init_post outsz bs bf bz net net' → valid_nedges net e →
  (n_stride net' (e_in net e) * e_stride net e)%V
  = vec3i_ops.exact_mul (n_stride net' (e_in net e)) (e_stride net e) ∧
  ((n_fov net' (e_out net e) - vec3i_ops.one) * e_stride net e
   + e_width net e)%V
  = vec3i_ops.exact_add
      (vec3i_ops.exact_mul
         (vec3i_ops.exact_sub (n_fov net' (e_out net e)) vec3i_ops.one)
         (e_stride net e))
      (e_width net e) ∧
  ((e_width net e - vec3i_ops.one) * n_stride net' (e_in net e)
   + n_fsize net' (e_out net e))%V
  = vec3i_ops.exact_add
      (vec3i_ops.exact_mul
         (vec3i_ops.exact_sub (e_width net e) vec3i_ops.one)
         (n_stride net' (e_in net e)))
      (n_fsize net' (e_out net e)).
Proof.
  intros WF F P He. pose proof (wf_wired _ _ WF) as W.
  destruct (wired_ends _ W e He) as [Hi Ho].
  destruct (ip_stride _ _ _ _ _ _ P _ Hi) as [_ Hs].
  destruct (ip_fov _ _ _ _ _ _ P _ Ho) as (_ & Hf & Hz).
  destruct (wired_positive _ W e He) as [Hw Ht].
  pose proof (fit_top _ _ _ _ _ F (e_in net e)) as (T1 & T2 & T3).
  pose proof (fit_top _ _ _ _ _ F (e_out net e)) as (T4 & _ & _).
  split; [|split].
  - by apply (mul_exact _ (bs (e_in net e)) _ (bs (e_out net e)));
      [..|apply (fit_stride _ _ _ _ _ F)|].
  - by apply (fov_exact _ (bf (e_out net e)) _ _ (bf (e_in net e)));
      [..|apply (fit_fov _ _ _ _ _ F)|].
  - by apply (fsize_exact _ _ (bs (e_in net e)) _ (bz (e_out net e))
                (bz (e_in net e)));
      [..|apply (fit_fsize _ _ _ _ _ F)|].
Qed.

End InitSpec.

(** ** The forward pass

    The proof follows the deliveries: [D] is the set of the edges that
    have delivered so far, and [chan_inv] relates it to the counter and
    the buffers of every channel.  [rank] numbers the node groups along
    the edges; a delivery to [p] touches no node group of smaller
    rank. *)

Section ForwardFrame.
Context `{Ext : Externals}.

Lemma erase_forward_nnodes_arena net :
  nnodes_arena (erase_forward net) =
  (λ x, nnodes.set_nodes_obj (erase_nodes (nnodes.nodes_obj x)) x)
    <$> nnodes_arena net.
Proof. done. Qed.
Lemma erase_forward_edge_arena net :
  edge_arena (erase_forward net) =
  edge_of.set_impl dummy_edge <$> edge_arena net.
Proof. done. Qed.

Lemma node_obj_erase net p :
  node_obj (erase_forward net) p = erase_nodes <$> node_obj net p.
Proof.
  unfold node_obj. rewrite erase_forward_nnodes_arena, list_lookup_fmap.
  by destruct (_ !! _) as [[]|].
Qed.

Lemma erase_nodes_outputs o : outputs_of (erase_nodes o) = outputs_of o.
Proof. by destruct o. Qed.
Lemma erase_nodes_inputs o : inputs_of (erase_nodes o) = inputs_of o.
Proof. by destruct o. Qed.
Lemma erase_nodes_gs o : gs_of (erase_nodes o) = gs_of o.
Proof. by destruct o. Qed.
Lemma erase_nodes_size o : num_out_nodes (erase_nodes o) = num_out_nodes o.
Proof. by destruct o. Qed.
Lemma erase_nodes_is_input o : is_input (erase_nodes o) = is_input o.
Proof. by destruct o. Qed.
Lemma erase_nodes_is_summing o : is_summing (erase_nodes o) = is_summing o.
Proof. by destruct o. Qed.
Lemma erase_nodes_is_transfer o : is_transfer (erase_nodes o) = is_transfer o.
Proof. by destruct o. Qed.

Lemma erase_c_out net p i : c_out (erase_forward net) p i = c_out net p i.
Proof.
  unfold c_out. rewrite node_obj_erase. destruct (node_obj net p); [|done].
  simpl. by rewrite erase_nodes_outputs.
Qed.
Lemma erase_c_in net p i : c_in (erase_forward net) p i = c_in net p i.
Proof.
  unfold c_in. rewrite node_obj_erase. destruct (node_obj net p); [|done].
  simpl. by rewrite erase_nodes_inputs.
Qed.
Lemma erase_gs net p i : gs (erase_forward net) p i = gs net p i.
Proof.
  unfold gs. rewrite node_obj_erase. destruct (node_obj net p); [|done].
  simpl. by rewrite erase_nodes_gs.
Qed.
Lemma erase_c_size net p : c_size (erase_forward net) p = c_size net p.
Proof.
  unfold c_size. rewrite node_obj_erase. destruct (node_obj net p); [|done].
  simpl. by rewrite erase_nodes_size.
Qed.
Lemma erase_input_at net p : input_at (erase_forward net) p ↔ input_at net p.
Proof.
  unfold input_at. rewrite node_obj_erase. destruct (node_obj net p); [|done].
  simpl. by rewrite erase_nodes_is_input.
Qed.
Lemma erase_summing_at net p :
  summing_at (erase_forward net) p ↔ summing_at net p.
Proof.
  unfold summing_at. rewrite node_obj_erase. destruct (node_obj net p); [|done].
  simpl. by rewrite erase_nodes_is_summing.
Qed.
Lemma erase_transfer_at net p :
  transfer_at (erase_forward net) p ↔ transfer_at net p.
Proof.
  unfold transfer_at. rewrite node_obj_erase. destruct (node_obj net p); [|done].
  simpl. by rewrite erase_nodes_is_transfer.
Qed.

Ltac erase_edge_accessor :=
  unfold ed_in, ed_in_num, ed_out, ed_out_num;
  rewrite erase_forward_edge_arena, list_lookup_fmap;
  by destruct (_ !! _) as [[]|].

Lemma erase_ed_in net e : ed_in (erase_forward net) e = ed_in net e.
Proof. erase_edge_accessor. Qed.
Lemma erase_ed_in_num net e : ed_in_num (erase_forward net) e = ed_in_num net e.
Proof. erase_edge_accessor. Qed.
Lemma erase_ed_out net e : ed_out (erase_forward net) e = ed_out net e.
Proof. erase_edge_accessor. Qed.
Lemma erase_ed_out_num net e :
  ed_out_num (erase_forward net) e = ed_out_num net e.
Proof. erase_edge_accessor. Qed.
Lemma erase_valid_edge net e :
  valid_edge (erase_forward net) e ↔ valid_edge net e.
Proof. unfold valid_edge. by rewrite erase_forward_edge_arena, length_fmap. Qed.
Lemma erase_valid_node_f net p :
  valid_node (erase_forward net) p ↔ valid_node net p.
Proof. unfold valid_node. by rewrite erase_forward_nnodes_arena, length_fmap. Qed.
Lemma erase_channels net : channels (erase_forward net) = channels net.
Proof.
  unfold channels. rewrite erase_forward_nnodes_arena. f_equal.
  rewrite <-list_fmap_compose. apply list_fmap_ext. intros i [] _. simpl.
  by rewrite erase_nodes_size.
Qed.

Lemma erase_forward_same a b :
  erase_forward b = erase_forward a → same_topology a b.
Proof.
  intros E. split; intros.
  - by rewrite <-erase_c_out, E, erase_c_out.
  - by rewrite <-erase_c_in, E, erase_c_in.
  - by rewrite <-erase_c_size, E, erase_c_size.
  - by rewrite <-erase_gs, E, erase_gs.
  - by rewrite <-erase_input_at, E, erase_input_at.
  - by rewrite <-erase_summing_at, E, erase_summing_at.
  - by rewrite <-erase_transfer_at, E, erase_transfer_at.
  - pose proof (node_obj_erase b p) as H1. rewrite E, node_obj_erase, H in H1.
    destruct (node_obj a p) as [o'|]; [|done]. exists o'. split; [done|].
    injection H1 as H1.
    rewrite <-(erase_nodes_outputs o), <-(erase_nodes_size o), <-H1.
    by rewrite erase_nodes_outputs, erase_nodes_size.
  - by rewrite <-erase_ed_in, E, erase_ed_in.
  - by rewrite <-erase_ed_in_num, E, erase_ed_in_num.
  - by rewrite <-erase_ed_out, E, erase_ed_out.
  - by rewrite <-erase_ed_out_num, E, erase_ed_out_num.
  - by rewrite <-erase_valid_edge, E, erase_valid_edge.
  - by rewrite <-erase_valid_node_f, E, erase_valid_node_f.
  - apply (f_equal (λ n, length (nnodes_arena n))) in E.
    by rewrite !erase_forward_nnodes_arena, !length_fmap in E.
  - by apply (f_equal input_nodes_) in E.
  - by apply (f_equal output_nodes_) in E.
  - by apply (f_equal filter_arena) in E.
  - by rewrite <-erase_channels, E, erase_channels.
Qed.

Lemma same_topology_run_wf rank a b :
  same_topology a b → run_wf a rank → run_wf b rank.
Proof.
  intros S W. split.
  - intros p i e H. rewrite (st_c_out _ _ S) in H.
    rewrite (st_valid_edge _ _ S), (st_ed_in _ _ S), (st_ed_in_num _ _ S).
    by apply (rw_out_sound _ _ W).
  - intros p i e H. rewrite (st_c_in _ _ S) in H.
    rewrite (st_valid_edge _ _ S), (st_ed_out _ _ S), (st_ed_out_num _ _ S).
    by apply (rw_in_sound _ _ W).
  - intros e H. rewrite (st_valid_edge _ _ S) in H.
    rewrite (st_ed_in _ _ S), (st_ed_in_num _ _ S), (st_ed_out _ _ S),
      (st_ed_out_num _ _ S), (st_c_out _ _ S), (st_c_in _ _ S).
    by apply (rw_complete _ _ W).
  - intros p i. rewrite (st_c_out _ _ S). apply (rw_out_nodup _ _ W).
  - intros p i. rewrite (st_c_in _ _ S). apply (rw_in_nodup _ _ W).
  - intros e H. rewrite (st_ed_in _ _ S), (st_ed_out _ _ S).
    apply (rw_rank _ _ W). by apply (st_valid_edge _ _ S).
  - intros p H. rewrite (st_len _ _ S). apply (rw_rank_bound _ _ W).
    by apply (st_valid_node _ _ S).
  - intros p H. rewrite (st_c_size _ _ S). apply (rw_sizes _ _ W).
    by apply (st_valid_node _ _ S).
  - intros p o H.
    destruct (st_outputs_len _ _ S _ _ H) as (o' & H1 & -> & ->).
    by apply (rw_outputs_len _ _ W p).
  - intros p i Hv Hi Hlt. rewrite (st_c_in _ _ S). apply (rw_fed _ _ W).
    + by apply (st_valid_node _ _ S).
    + by rewrite <-(st_input_at _ _ S).
    + by rewrite <-(st_c_size _ _ S).
  - rewrite (st_input_nodes_ _ _ S). apply (rw_inputs_keys _ _ W).
  - rewrite (st_input_nodes_ _ _ S). apply (rw_inputs_inj _ _ W).
  - intros p. rewrite (st_input_nodes_ _ _ S), (st_input_at _ _ S).
    apply (rw_inputs _ _ W).
Qed.

(** writes *)
Lemma node_obj_put_nodes_eq net p o :
  valid_node net p → node_obj (put_nodes p o net) p = Some o.
Proof.
  intros H. unfold node_obj, put_nodes.
  destruct (lookup_lt_is_Some_2 _ _ H) as [nn Hnn]. rewrite Hnn.
  unfold put_nnodes, set_nnodes_arena. cbn [nnodes_arena].
  rewrite list_lookup_insert_eq by done. by destruct nn.
Qed.
Lemma node_obj_put_nodes_ne net p o q :
  q ≠ p → node_obj (put_nodes p o net) q = node_obj net q.
Proof.
  intros H. unfold node_obj, put_nodes.
  destruct (nnodes_arena net !! p); [|done].
  unfold put_nnodes, set_nnodes_arena. cbn [nnodes_arena].
  by rewrite list_lookup_insert_ne.
Qed.
Lemma node_obj_put_edge net e x q :
  node_obj (put_edge e x net) q = node_obj net q.
Proof. done. Qed.

Lemma erase_forward_put_nodes net p o o' :
  node_obj net p = Some o → erase_nodes o' = erase_nodes o →
  erase_forward (put_nodes p o' net) = erase_forward net.
Proof.
  unfold node_obj, put_nodes. intros H E.
  destruct (nnodes_arena net !! p) as [nn|] eqn:Hnn; [|done].
  injection H as <-.
  unfold erase_forward, put_nnodes, set_edge_arena, set_nnodes_arena.
  cbn [nnodes_arena nedges_arena edge_arena filter_arena edges_ nodes_
       input_nodes_ output_nodes_].
  f_equal. rewrite list_fmap_insert. apply list_insert_id.
  rewrite list_lookup_fmap, Hnn. destruct nn; simpl in *. by rewrite E.
Qed.

Lemma erase_forward_put_edge net e eo i :
  edge_arena net !! e = Some eo →
  erase_forward (put_edge e (edge_of.set_impl i eo) net) = erase_forward net.
Proof.
  intros H.
  unfold erase_forward, put_edge, set_edge_arena, set_nnodes_arena.
  cbn [nnodes_arena nedges_arena edge_arena filter_arena edges_ nodes_
       input_nodes_ output_nodes_].
  f_equal. rewrite list_fmap_insert. apply list_insert_id.
  rewrite list_lookup_fmap, H. by destruct eo.
Qed.

End ForwardFrame.

Section Delivered.
Implicit Types (D : gset nat) (l : list nat).

Lemma delivered_le D l : delivered D l ≤ length l.
Proof. apply length_filter. Qed.

Lemma delivered_ext D D' l :
  (∀ e, e ∈ l → (e ∈ D' ↔ e ∈ D)) → delivered D' l = delivered D l.
Proof.
  unfold delivered. induction l as [|x l IH]; intros H; [done|].
  rewrite !filter_cons. specialize (IH (λ e He, H e (list_elem_of_further _ _ _ He))).
  pose proof (H x (list_elem_of_here _ _)).
  destruct (decide (x ∈ D')), (decide (x ∈ D)); simpl; try tauto; lia.
Qed.

Lemma delivered_all D l : delivered D l = length l ↔ ∀ e, e ∈ l → e ∈ D.
Proof.
  unfold delivered. induction l as [|x l IH]; [split; [intros _ e He; inversion He|done]|].
  rewrite filter_cons. pose proof (length_filter (λ e, e ∈ D) l).
  destruct (decide (x ∈ D)) as [Hx|Hx]; simpl; split.
  - intros [= Hl]. intros y [->|He]%elem_of_cons; [done|]. by apply IH.
  - intros Hall. f_equal. apply IH. intros y He. apply Hall. by right.
  - lia.
  - intros Hall. destruct Hx. apply Hall. by left.
Qed.

Lemma delivered_lt D l e : e ∈ l → e ∉ D → delivered D l < length l.
Proof.
  intros He Hn. pose proof (delivered_le D l).
  destruct (decide (delivered D l = length l)) as [Heq|]; [|lia].
  destruct Hn. by apply (proj1 (delivered_all D l) Heq).
Qed.

Lemma delivered_add D l e :
  NoDup l → e ∈ l → e ∉ D → delivered ({[e]} ∪ D) l = S (delivered D l).
Proof.
  unfold delivered. induction l as [|x l IH]; intros Hnd He Hn; [inversion He|].
  apply NoDup_cons in Hnd as [Hx Hnd]. rewrite !filter_cons.
  apply elem_of_cons in He as [->|He].
  - rewrite decide_True by set_solver. rewrite decide_False by done. simpl.
    f_equal. apply (delivered_ext D ({[x]} ∪ D) l). intros e He. set_solver.
  - specialize (IH Hnd He Hn).
    destruct (decide (x ∈ D)).
    + rewrite decide_True by set_solver. simpl. by rewrite IH.
    + rewrite decide_False; [done|]. set_solver.
Qed.

End Delivered.

Section ChannelInvariant.
Context `{Ext : Externals}.

Lemma chan_inv_frame a b D D' p i :
  same_topology a b →
  received b p i = received a p i → fs b p i = fs a p i →
  (∀ e, e ∈ c_in a p i ∨ e ∈ c_out a p i → (e ∈ D' ↔ e ∈ D)) →
  chan_inv a D p i → chan_inv b D' p i.
Proof.
  intros S Hr Hf HD. unfold chan_inv.
  rewrite (st_c_in _ _ S), (st_c_out _ _ S), Hr, Hf.
  rewrite (delivered_ext D D' (c_in a p i)) by (intros; apply HD; by left).
  destruct (decide _); intros H.
  - destruct H as [H1 H2]. split; [done|]. intros e He.
    rewrite HD by (by right). by apply H2.
  - destruct H as (H1 & H2 & H3 & H4). split; [done|]. split; [|split].
    + intros e He. rewrite HD by (by right). by apply H2.
    + intros Hs. by apply H3, (st_summing_at _ _ S).
    + intros Ht. by apply H4, (st_transfer_at _ _ S).
Qed.

End ChannelInvariant.

Section ForwardLoop.
Context `{Ext : Externals}.
Variable rank : nat → nat.

Lemma kernel_no_fuel {A} (r : option A) : kernel r ≠ Err OutOfFuel.
Proof. by destruct r. Qed.
Lemma deref_no_fuel {A} (r : option A) : deref r ≠ Err OutOfFuel.
Proof. by destruct r. Qed.
Lemma at_ptr_no_fuel {A} (l : list A) p : at_ptr l p ≠ Err OutOfFuel.
Proof. unfold at_ptr. by destruct (_ !! _). Qed.
Lemma assert_no_fuel b : ZI_ASSERT b ≠ Err OutOfFuel.
Proof. by destruct b. Qed.

Lemma bind_no_fuel {A B} (m : result A) (f : A → result B) :
  m ≠ Err OutOfFuel → (∀ a, m = Ok a → f a ≠ Err OutOfFuel) →
  (m ≫= f) ≠ Err OutOfFuel.
Proof. destruct m as [a|x]; simpl; [intros _ H; by apply H|intros H _ [= ->]; by apply H]. Qed.

Lemma impl_forward_no_fuel i f net : impl_forward i f net ≠ Err OutOfFuel.
Proof.
  destruct i; simpl.
  - apply bind_no_fuel; [apply deref_no_fuel|done].
  - apply bind_no_fuel; [|done]. unfold max_pooling_edge_forward.
    apply bind_no_fuel; [apply deref_no_fuel|]. intros.
    apply bind_no_fuel; [apply kernel_no_fuel|done].
  - apply bind_no_fuel; [|done]. unfold filter_edge_forward.
    apply bind_no_fuel; [apply deref_no_fuel|]. intros.
    apply bind_no_fuel; [apply at_ptr_no_fuel|]. intros.
    apply bind_no_fuel; [apply kernel_no_fuel|done].
Qed.

Lemma received_node_obj a b p i :
  node_obj b p = node_obj a p → received b p i = received a p i.
Proof. unfold received. by intros ->. Qed.
Lemma fs_node_obj a b p i :
  node_obj b p = node_obj a p → fs b p i = fs a p i.
Proof. unfold fs. by intros ->. Qed.

Lemma get_edge_valid net e :
  valid_edge net e → ∃ eo, get_edge net e = Ok eo ∧
    edge_arena net !! e = Some eo ∧
    ed_in net e = edge_of.in_nodes eo ∧ ed_in_num net e = edge_of.in_num eo ∧
    ed_out net e = edge_of.out_nodes eo ∧
    ed_out_num net e = edge_of.out_num eo.
Proof.
  intros H. destruct (lookup_lt_is_Some_2 _ _ H) as [eo Heo].
  exists eo. unfold get_edge, at_ptr, ed_in, ed_in_num, ed_out, ed_out_num.
  by rewrite Heo.
Qed.

Lemma fire_loop fuel net0 D0 p i (body : nat → network → result network) :
  nodes_forward_ok rank fuel →
  run_wf net0 rank →
  (∀ e net, ∃ r : result cube_p, r ≠ Err OutOfFuel ∧
     body e net = (r ≫= λ c, edge_of_forward (nodes_forward fuel) e c net)) →
  length (nnodes_arena net0) < S fuel + rank p →
  (∀ e, e ∈ c_out net0 p i → e ∉ D0) →
  ∀ es done_ cur D,
    done_ ++ es = c_out net0 p i →
    loop_inv rank net0 D0 p cur D done_ →
    match for_each body es cur with
    | Ok net' => ∃ D', loop_inv rank net0 D0 p net' D' (done_ ++ es)
    | Err x => x ≠ OutOfFuel
    end.
Proof.
  intros IH W0 Hbody Hfuel HD0 es.
  induction es as [|e es IHes]; intros done_ cur D Hsplit L.
  { simpl. exists D. by rewrite app_nil_r. }
  pose proof (erase_forward_same _ _ (li_same _ _ _ _ _ _ _ L)) as S1.
  assert (e ∈ c_out net0 p i) as He.
  { rewrite <-Hsplit. apply elem_of_app. right. left. }
  destruct (rw_out_sound _ _ W0 p i e He) as (Hve & Hsrc & Hsrcn).
  destruct (rw_complete _ _ W0 e Hve) as [_ Hdst].
  pose proof (rw_rank _ _ W0 e Hve) as Hrk. rewrite Hsrc in Hrk.
  assert (e ∉ done_) as Hnd.
  { pose proof (rw_out_nodup _ _ W0 p i) as Hn. rewrite <-Hsplit in Hn.
    apply NoDup_app in Hn as (_ & Hn & _). intros Hin. apply (Hn e Hin). left. }
  assert (e ∉ D) as HeD.
  { intros HeD. destruct (li_new _ _ _ _ _ _ _ L e HeD (HD0 e He)) as [?|[Hr _]];
      [done|]. rewrite Hsrc in Hr. lia. }
  cbn [for_each]. destruct (Hbody e cur) as (r & Hr & ->).
  destruct r as [c|x]; [|simpl; intros ->; by apply Hr].
  cbn [mbind result_bind]. unfold edge_of_forward at 1.
  assert (valid_edge cur e) as Hve' by (by apply (st_valid_edge _ _ S1)).
  destruct (get_edge_valid _ _ Hve') as (eo & Hget & Hlk & _ & _ & Hout & Houtn).
  rewrite Hget. cbn [mbind result_bind].
  pose proof (impl_forward_no_fuel (edge_of.impl eo) c cur) as Himpl.
  destruct (impl_forward (edge_of.impl eo) c cur) as [[impl' out]|x];
    [|simpl; intros ->; by apply Himpl].
  cbn [mbind result_bind fst snd].
  set (cur1 := put_edge e (edge_of.set_impl impl' eo) cur).
  assert (erase_forward cur1 = erase_forward cur) as E1
    by (by apply erase_forward_put_edge).
  pose proof (erase_forward_same _ _ E1) as S2.
  assert (erase_forward cur1 = erase_forward net0) as E10
    by (by rewrite E1, (li_same _ _ _ _ _ _ _ L)).
  pose proof (erase_forward_same _ _ E10) as S10.
  assert (run_wf cur1 rank) as W1 by (by eapply same_topology_run_wf).
  rewrite (st_ed_out _ _ S1) in Hout. rewrite (st_ed_out_num _ _ S1) in Houtn.
  rewrite <-Hout, <-Houtn.
  set (q := ed_out net0 e) in *. set (j := ed_out_num net0 e) in *.
  specialize (IH q j (Some out) cur1 D e).
  destruct (nodes_forward fuel q j (Some out) cur1) as [net'|x].
  2:{ simpl. apply IH; try done.
      - by rewrite (st_c_in _ _ S10).
      - intros q' j' Hin Hq'. rewrite (st_c_in _ _ S10) in Hin.
        eapply (chan_inv_frame cur cur1 D D); try done.
        apply (li_inv _ _ _ _ _ _ _ L); [done|lia].
      - rewrite (st_len _ _ S10). lia. }
  destruct IH as (D' & E' & Hsub & He0 & Hnew & Hinv & Hfr); try done.
  { by rewrite (st_c_in _ _ S10). }
  { intros q' j' Hin Hq'. rewrite (st_c_in _ _ S10) in Hin.
    eapply (chan_inv_frame cur cur1 D D); try done.
    apply (li_inv _ _ _ _ _ _ _ L); [done|lia]. }
  { rewrite (st_len _ _ S10). lia. }
  cbn [mbind result_bind].
  replace (done_ ++ e :: es) with ((done_ ++ [e]) ++ es)
    by (by rewrite <-app_assoc).
  apply (IHes (done_ ++ [e]) net' D'); [by rewrite <-app_assoc|].
  pose proof (erase_forward_same _ _ E') as S3.
  split.
  - by rewrite E'.
  - pose proof (li_sub _ _ _ _ _ _ _ L). set_solver.
  - intros e' [He'|He']%elem_of_app.
    + apply Hsub. by apply (li_done _ _ _ _ _ _ _ L).
    + apply list_elem_of_singleton in He' as ->. done.
  - intros e' He' He'0. destruct (decide (e' ∈ D)) as [HeD'|HeD'].
    + destruct (li_new _ _ _ _ _ _ _ L e' HeD' He'0) as [?|?]; [|by right].
      left. apply elem_of_app. by left.
    + destruct (Hnew e' He' HeD') as [->|[Hr' Hi]].
      * left. apply elem_of_app. right. left.
      * right. rewrite (st_ed_in _ _ S10) in Hr', Hi.
        rewrite (st_input_at _ _ S10) in Hi. split; [lia|done].
  - intros q' j' Hin Hq'. destruct (decide (rank q ≤ rank q')) as [Hle|Hgt].
    + apply Hinv; [by rewrite (st_c_in _ _ S10)|done].
    + assert (node_obj net' q' = node_obj cur q') as Hobj
        by (rewrite Hfr by lia; done).
      eapply (chan_inv_frame cur net' D D').
      * apply erase_forward_same. by rewrite E', E1.
      * by apply received_node_obj.
      * by apply fs_node_obj.
      * intros e' He'. split; [|by apply Hsub]. intros HeD'.
        destruct (decide (e' ∈ D)) as [|Hn]; [done|]. exfalso.
        rewrite (st_c_in _ _ S1), (st_c_out _ _ S1) in He'.
        destruct (Hnew e' HeD' Hn) as [->|[Hr' _]].
        -- destruct He' as [He'|He'].
           ++ destruct (rw_in_sound _ _ W0 _ _ _ He') as (_ & Ho & _).
              fold q in Ho. subst q'. lia.
           ++ destruct (rw_out_sound _ _ W0 _ _ _ He') as (_ & Ho & _).
              rewrite Hsrc in Ho. subst q'. lia.
        -- rewrite (st_ed_in _ _ S10) in Hr'. destruct He' as [He'|He'].
           ++ destruct (rw_in_sound _ _ W0 _ _ _ He') as (Hv' & Ho & _).
              pose proof (rw_rank _ _ W0 e' Hv'). rewrite Ho in *. lia.
           ++ destruct (rw_out_sound _ _ W0 _ _ _ He') as (_ & Ho & _).
              rewrite Ho in Hr'. lia.
      * apply (li_inv _ _ _ _ _ _ _ L); done.
  - intros q' Hq'. rewrite Hfr by lia.
    change (node_obj cur1 q') with (node_obj cur q').
    by apply (li_frame _ _ _ _ _ _ _ L).
Qed.

End ForwardLoop.

Ltac rank_lia :=
  repeat match goal with
         | H : ed_in _ _ = _ |- _ => rewrite ?H in *; revert H
         | H : ed_out _ _ = _ |- _ => rewrite ?H in *; revert H
         end;
  intros; lia.

Section ForwardChannel.
Context `{Ext : Externals}.
Variable rank : nat → nat.

(** what a channel knows when an in-edge arrives *)
Lemma arrival_pre net (D : gset nat) e0 p i :
  run_wf net rank → e0 ∈ c_in net p i → e0 ∉ D →
  chan_inv net D p i →
  received net p i = delivered D (c_in net p i) ∧
  received net p i < length (c_in net p i) ∧
  delivered ({[e0]} ∪ D) (c_in net p i) = S (received net p i) ∧
  (∀ e, e ∈ c_out net p i → e ∉ ({[e0]} ∪ D : gset nat)) ∧
  valid_edge net e0 ∧ ed_out net e0 = p ∧ ed_out_num net e0 = i ∧
  rank (ed_in net e0) < rank p ∧ ¬ input_at net p.
Proof.
  intros W He0 Hn Hinv.
  pose proof (delivered_lt D _ _ He0 Hn) as Hlt.
  unfold chan_inv in Hinv. rewrite decide_True in Hinv by done.
  destruct Hinv as [Hr Hout].
  destruct (rw_in_sound _ _ W _ _ _ He0) as (Hv & Ho & Hon).
  pose proof (rw_rank _ _ W e0 Hv) as Hrk. rewrite Ho in Hrk.
  split; [done|]. split; [by rewrite Hr|]. split.
  { rewrite Hr. apply delivered_add; [apply (rw_in_nodup _ _ W)|done..]. }
  split.
  { intros e He [->%elem_of_singleton|HeD]%elem_of_union.
    - destruct (rw_out_sound _ _ W _ _ _ He) as (_ & Hi & _).
      rewrite Hi in Hrk. lia.
    - by apply (Hout e). }
  repeat split; try done.
  unfold input_at, c_in in *. destruct (node_obj net p) as [[]|]; simpl in *;
    try done; inversion He0.
Qed.

(** channels other than [(p, i)] at the rank of [p] or above do not see
    the arrival of [e0] *)
Lemma arrival_frame net (D : gset nat) e0 p i net1 q j :
  run_wf net rank → e0 ∈ c_in net p i → e0 ∉ D →
  erase_forward net1 = erase_forward net →
  received net1 q j = received net q j → fs net1 q j = fs net q j →
  (q, j) ≠ (p, i) → rank p ≤ rank q →
  chan_inv net D q j → chan_inv net1 ({[e0]} ∪ D) q j.
Proof.
  intros W He0 Hn E Hr Hf Hne Hrk.
  apply chan_inv_frame; [by apply erase_forward_same|done..|].
  destruct (rw_in_sound _ _ W _ _ _ He0) as (Hv & Ho & Hon).
  pose proof (rw_rank _ _ W e0 Hv) as Hrk0. rewrite Ho in Hrk0.
  intros e He. split; [|set_solver].
  intros [->%elem_of_singleton|?]%elem_of_union; [|done]. exfalso.
  destruct He as [He|He].
  - destruct (rw_in_sound _ _ W _ _ _ He) as (_ & H1 & H2). congruence.
  - destruct (rw_out_sound _ _ W _ _ _ He) as (_ & H1 & _). rank_lia.
Qed.

Lemma unfired_post net (D : gset nat) e0 p i net1 :
  run_wf net rank → e0 ∈ c_in net p i → e0 ∉ D →
  (∀ q j, c_in net q j ≠ [] → rank p ≤ rank q → chan_inv net D q j) →
  erase_forward net1 = erase_forward net →
  (∀ q, q ≠ p → node_obj net1 q = node_obj net q) →
  (∀ j, j ≠ i →
     received net1 p j = received net p j ∧ fs net1 p j = fs net p j) →
  received net1 p i = S (received net p i) →
  S (received net p i) ≠ length (c_in net p i) →
  fwd_post rank net D e0 p net1 ({[e0]} ∪ D).
Proof.
  intros W He0 Hn Hinv E Hoth Hsib Hrec Hne.
  assert (c_in net p i ≠ []) as Hnil by (intros Hnil; rewrite Hnil in He0; inversion He0).
  destruct (arrival_pre net D e0 p i W He0 Hn (Hinv p i Hnil (le_n _)))
    as (Hr & Hlt & Hadd & Hout & Hv & Ho & Hon & Hrk & Hni).
  pose proof (erase_forward_same _ _ E) as S.
  split; [done|]. split; [set_solver|]. split; [set_solver|]. split; [|split].
  - intros e He HeD. left. set_solver.
  - intros q j Hin Hq. destruct (decide ((q, j) = (p, i))) as [[= -> ->]|Hne'].
    + unfold chan_inv. rewrite (st_c_in _ _ S), (st_c_out _ _ S), Hadd.
      rewrite decide_True by lia. by rewrite Hrec.
    + eapply arrival_frame; try done.
      * destruct (decide (q = p)) as [->|Hqp].
        -- apply Hsib. congruence.
        -- by apply received_node_obj, Hoth.
      * destruct (decide (q = p)) as [->|Hqp].
        -- apply Hsib. congruence.
        -- by apply fs_node_obj, Hoth.
      * by apply Hinv.
  - intros q Hq. apply Hoth. intros ->. lia.
Qed.

Lemma loop_start net (D : gset nat) e0 p i net1 :
  run_wf net rank → e0 ∈ c_in net p i → e0 ∉ D →
  (∀ q j, c_in net q j ≠ [] → rank p ≤ rank q → chan_inv net D q j) →
  erase_forward net1 = erase_forward net →
  (∀ q, q ≠ p → node_obj net1 q = node_obj net q) →
  loop_inv rank net1 ({[e0]} ∪ D) p net1 ({[e0]} ∪ D) [] ∧
  (∀ e, e ∈ c_out net1 p i → e ∉ ({[e0]} ∪ D : gset nat)).
Proof.
  intros W He0 Hn Hinv E Hoth.
  assert (c_in net p i ≠ []) as Hnil by (intros Hnil; rewrite Hnil in He0; inversion He0).
  destruct (arrival_pre net D e0 p i W He0 Hn (Hinv p i Hnil (le_n _)))
    as (Hr & Hlt & Hadd & Hout & Hv & Ho & Hon & Hrk & Hni).
  pose proof (erase_forward_same _ _ E) as S.
  split; [|intros e He; rewrite (st_c_out _ _ S) in He; by apply Hout].
  split; try done.
  - intros e He. inversion He.
  - intros q j Hin Hq. rewrite (st_c_in _ _ S) in Hin.
    eapply arrival_frame; try done.
    + apply received_node_obj, Hoth. intros ->. lia.
    + apply fs_node_obj, Hoth. intros ->. lia.
    + intros [= -> ->]. lia.
    + lia.
    + apply Hinv; [done|lia].
Qed.

Lemma fired_post net (D : gset nat) e0 p i net1 net2 D2 net' :
  run_wf net rank → e0 ∈ c_in net p i → e0 ∉ D →
  (∀ q j, c_in net q j ≠ [] → rank p ≤ rank q → chan_inv net D q j) →
  erase_forward net1 = erase_forward net →
  (∀ q, q ≠ p → node_obj net1 q = node_obj net q) →
  (∀ j, j ≠ i →
     received net1 p j = received net p j ∧ fs net1 p j = fs net p j) →
  S (received net p i) = length (c_in net p i) →
  loop_inv rank net1 ({[e0]} ∪ D) p net2 D2 (c_out net p i) →
  erase_forward net' = erase_forward net2 →
  (∀ q, q ≠ p → node_obj net' q = node_obj net2 q) →
  (∀ j, j ≠ i →
     received net' p j = received net2 p j ∧ fs net' p j = fs net2 p j) →
  received net' p i = 0 →
  (summing_at net p → fs net' p i = None) →
  (transfer_at net p → is_Some (fs net' p i)) →
  fwd_post rank net D e0 p net' D2.
Proof.
  intros W He0 Hn Hinv E1 Hoth1 Hsib1 Hfull L E' Hoth' Hsib' Hrec Hsum Htr.
  assert (c_in net p i ≠ []) as Hnil by (intros Hnil; rewrite Hnil in He0; inversion He0).
  destruct (arrival_pre net D e0 p i W He0 Hn (Hinv p i Hnil (le_n _)))
    as (Hr & Hlt & Hadd & Hout & Hv & Ho & Hon & Hrk & Hni).
  pose proof (erase_forward_same _ _ E1) as S1.
  pose proof (erase_forward_same _ _ (li_same _ _ _ _ _ _ _ L)) as S2.
  pose proof (erase_forward_same _ _ E') as S'.
  pose proof (li_sub _ _ _ _ _ _ _ L) as Hsub.
  assert (erase_forward net' = erase_forward net) as E0
    by (by rewrite E', (li_same _ _ _ _ _ _ _ L)).
  pose proof (erase_forward_same _ _ E0) as S0.
  (* an edge delivered during the pass that touches a channel at the rank of
     [p], other than [(p, i)] itself, does not exist *)
  assert (∀ q j e, (q, j) ≠ (p, i) → rank q = rank p →
            e ∈ c_in net q j ∨ e ∈ c_out net q j → e ∈ D2 → e ∈ D) as Hsame.
  { intros q j e Hne Hq He HeD2.
    destruct (decide (e ∈ D)) as [|HnD]; [done|]. exfalso.
    destruct (decide (e = e0)) as [->|Hne0].
    - destruct He as [He|He].
      + destruct (rw_in_sound _ _ W _ _ _ He) as (_ & H1 & H2). congruence.
      + destruct (rw_out_sound _ _ W _ _ _ He) as (_ & H1 & _). rank_lia.
    - destruct (li_new _ _ _ _ _ _ _ L e HeD2) as [Hd|[Hr' _]]; [set_solver|..].
      + destruct (rw_out_sound _ _ W _ _ _ Hd) as (Hve & H1 & H2).
        pose proof (rw_rank _ _ W e Hve) as Hrke.
        destruct He as [He|He].
        * destruct (rw_in_sound _ _ W _ _ _ He) as (_ & H3 & _). rank_lia.
        * destruct (rw_out_sound _ _ W _ _ _ He) as (_ & H3 & H4). congruence.
      + rewrite (st_ed_in _ _ S1) in Hr'. destruct He as [He|He].
        * destruct (rw_in_sound _ _ W _ _ _ He) as (Hve & H3 & _).
          pose proof (rw_rank _ _ W e Hve). rank_lia.
        * destruct (rw_out_sound _ _ W _ _ _ He) as (_ & H3 & _). rank_lia. }
  split; [done|]. split; [set_solver|]. split; [set_solver|]. split; [|split].
  - intros e He HeD. destruct (decide (e = e0)) as [|Hne0]; [by left|right].
    destruct (li_new _ _ _ _ _ _ _ L e He) as [Hd|[Hr' Hi]]; [set_solver|..].
    + destruct (rw_out_sound _ _ W _ _ _ Hd) as (_ & -> & _). done.
    + rewrite (st_ed_in _ _ S1) in Hr', Hi. rewrite (st_input_at _ _ S1) in Hi.
      split; [lia|done].
  - intros q j Hin Hq.
    destruct (decide (rank p < rank q)) as [Hlt'|Hge].
    + eapply (chan_inv_frame net2 net' D2 D2); try done.
      * apply received_node_obj, Hoth'. intros ->. lia.
      * apply fs_node_obj, Hoth'. intros ->. lia.
      * apply (li_inv _ _ _ _ _ _ _ L); [by rewrite (st_c_in _ _ S1)|done].
    + assert (rank q = rank p) as Hqp by lia.
      destruct (decide ((q, j) = (p, i))) as [[= -> ->]|Hne].
      * unfold chan_inv. rewrite (st_c_in _ _ S0), (st_c_out _ _ S0).
        assert (delivered D2 (c_in net p i) = length (c_in net p i)) as Hall.
        { apply delivered_all. intros e He. apply Hsub.
          assert (delivered ({[e0]} ∪ D) (c_in net p i)
                  = length (c_in net p i)) as Hd by lia.
          by apply (proj1 (delivered_all _ _) Hd). }
        rewrite decide_False by lia.
        split; [done|]. split; [|split].
        -- intros e He. by apply (li_done _ _ _ _ _ _ _ L).
        -- intros Hs. by apply Hsum, (st_summing_at _ _ S0).
        -- intros Ht. by apply Htr, (st_transfer_at _ _ S0).
      * eapply (chan_inv_frame net net' D D2); try done.
        -- destruct (decide (q = p)) as [->|Hqp'].
           ++ assert (j ≠ i) as Hji by congruence.
              rewrite (proj1 (Hsib' j Hji)).
              rewrite (received_node_obj net1 net2)
                by (apply (li_frame _ _ _ _ _ _ _ L); lia).
              by apply Hsib1.
           ++ rewrite (received_node_obj net2 net') by (by apply Hoth').
              rewrite (received_node_obj net1 net2)
                by (apply (li_frame _ _ _ _ _ _ _ L); lia).
              by apply received_node_obj, Hoth1.
        -- destruct (decide (q = p)) as [->|Hqp'].
           ++ assert (j ≠ i) as Hji by congruence.
              rewrite (proj2 (Hsib' j Hji)).
              rewrite (fs_node_obj net1 net2)
                by (apply (li_frame _ _ _ _ _ _ _ L); lia).
              by apply Hsib1.
           ++ rewrite (fs_node_obj net2 net') by (by apply Hoth').
              rewrite (fs_node_obj net1 net2)
                by (apply (li_frame _ _ _ _ _ _ _ L); lia).
              by apply fs_node_obj, Hoth1.
        -- intros e He. split; [by eapply Hsame|set_solver].
        -- by apply Hinv.
  - intros q Hq. rewrite Hoth' by (intros ->; lia).
    rewrite (li_frame _ _ _ _ _ _ _ L) by lia. apply Hoth1. intros ->. lia.
Qed.

End ForwardChannel.

Section ForwardSumming.
Context `{Ext : Externals}.
Variable rank : nat → nat.

Lemma get_nodes_node_obj net p o :
  get_nodes net p = Ok o ↔ node_obj net p = Some o.
Proof.
  unfold get_nodes, get_nnodes, at_ptr, node_obj.
  destruct (nnodes_arena net !! p); simpl; split; congruence.
Qed.
Lemma get_nodes_no_fuel net p : get_nodes net p ≠ Err OutOfFuel.
Proof.
  unfold get_nodes, get_nnodes, at_ptr. by destruct (nnodes_arena net !! p).
Qed.
Lemma node_obj_valid net p o : node_obj net p = Some o → valid_node net p.
Proof.
  unfold node_obj, valid_node. destruct (_ !! p) eqn:E; [|done].
  intros _. by eapply lookup_lt_Some.
Qed.

Lemma get_summing_nodes_ok net p x :
  node_obj net p = Some (Summing x) → get_summing_nodes net p = Ok x.
Proof.
  intros H. unfold get_summing_nodes.
  by rewrite (proj2 (get_nodes_node_obj _ _ _) H).
Qed.
Lemma get_transfer_nodes_ok net p x :
  node_obj net p = Some (Transfer x) → get_transfer_nodes net p = Ok x.
Proof.
  intros H. unfold get_transfer_nodes.
  by rewrite (proj2 (get_nodes_node_obj _ _ _) H).
Qed.
Lemma get_summing_nodes_no_fuel net p :
  get_summing_nodes net p ≠ Err OutOfFuel.
Proof.
  unfold get_summing_nodes. apply bind_no_fuel; [apply get_nodes_no_fuel|].
  by intros [] _.
Qed.
Lemma get_transfer_nodes_no_fuel net p :
  get_transfer_nodes net p ≠ Err OutOfFuel.
Proof.
  unfold get_transfer_nodes. apply bind_no_fuel; [apply get_nodes_no_fuel|].
  by intros [] _.
Qed.
Lemma get_input_nodes_no_fuel net p :
  get_input_nodes net p ≠ Err OutOfFuel.
Proof.
  unfold get_input_nodes. apply bind_no_fuel; [apply get_nodes_no_fuel|].
  by intros [] _.
Qed.

Lemma accumulate_no_fuel r buf i c : accumulate r buf i c ≠ Err OutOfFuel.
Proof.
  unfold accumulate. destruct (r =? 0); [done|].
  apply bind_no_fuel; [apply at_ptr_no_fuel|]. intros.
  apply bind_no_fuel; [apply deref_no_fuel|]. intros.
  apply bind_no_fuel; [apply deref_no_fuel|]. done.
Qed.
Lemma accumulate_other r buf i c buf' j :
  accumulate r buf i c = Ok buf' → j ≠ i → buf' !! j = buf !! j.
Proof.
  unfold accumulate. intros H Hj. destruct (r =? 0).
  - injection H as <-. by rewrite list_lookup_insert_ne.
  - apply bind_ok in H as (? & _ & H). apply bind_ok in H as (? & _ & H).
    apply bind_ok in H as (? & _ & H). injection H as <-.
    by rewrite list_lookup_insert_ne.
Qed.

Lemma at_index_ok {A} (l : list A) i a : at_index l i = Ok a ↔ l !! i = Some a.
Proof. apply at_ptr_ok. Qed.

(** the body of the dispatch loop of a summing / transfer node group *)
Lemma summing_body_shape fuel p i :
  ∀ e net, ∃ r : result cube_p, r ≠ Err OutOfFuel ∧
    (x ← get_summing_nodes net p;
     c ← at_index (summing_nodes.fs_ x) i;
     edge_of_forward (nodes_forward fuel) e c net)
    = (r ≫= λ c, edge_of_forward (nodes_forward fuel) e c net).
Proof.
  intros e net.
  exists (x ← get_summing_nodes net p; at_index (summing_nodes.fs_ x) i).
  split.
  - apply bind_no_fuel; [apply get_summing_nodes_no_fuel|].
    intros. apply at_ptr_no_fuel.
  - destruct (get_summing_nodes net p); [|done]. simpl.
    by destruct (at_index _ _).
Qed.
Lemma transfer_body_shape fuel p i :
  ∀ e net, ∃ r : result cube_p, r ≠ Err OutOfFuel ∧
    (x ← get_transfer_nodes net p;
     c ← at_index (transfer_nodes.fs_ x) i;
     edge_of_forward (nodes_forward fuel) e c net)
    = (r ≫= λ c, edge_of_forward (nodes_forward fuel) e c net).
Proof.
  intros e net.
  exists (x ← get_transfer_nodes net p; at_index (transfer_nodes.fs_ x) i).
  split.
  - apply bind_no_fuel; [apply get_transfer_nodes_no_fuel|].
    intros. apply at_ptr_no_fuel.
  - destruct (get_transfer_nodes net p); [|done]. simpl.
    by destruct (at_index _ _).
Qed.

Lemma summing_forward_ok fuel p i f net (D : gset nat) e0 x :
  nodes_forward_ok rank fuel →
  node_obj net p = Some (Summing x) →
  run_wf net rank → e0 ∈ c_in net p i → e0 ∉ D →
  (∀ q j, c_in net q j ≠ [] → rank p ≤ rank q → chan_inv net D q j) →
  length (nnodes_arena net) < S fuel + rank p →
  match
    summing_nodes_forward (edge_of_forward (nodes_forward fuel)) p i f net
  with
  | Ok net' => ∃ D' : gset nat, fwd_post rank net D e0 p net' D'
  | Err x => x ≠ OutOfFuel
  end.
Proof.
  intros IH Hobj W He0 Hn Hinv Hfuel.
  pose proof (node_obj_valid _ _ _ Hobj) as Hvp.
  unfold summing_nodes_forward.
  rewrite (get_summing_nodes_ok _ _ _ Hobj). cbn [mbind result_bind].
  destruct (i <? summing_nodes.size_ x); [|done]. cbn [ZI_ASSERT mbind result_bind].
  destruct (at_index (summing_nodes.received_ x) i) as [r|err] eqn:Hr.
  2:{ simpl. intros ->. by apply (at_ptr_no_fuel (summing_nodes.received_ x) i). }
  apply at_index_ok in Hr. cbn [mbind result_bind].
  destruct (accumulate r (summing_nodes.fs_ x) i f) as [fs'|err] eqn:Hacc.
  2:{ simpl. intros ->. by apply (accumulate_no_fuel r (summing_nodes.fs_ x) i f). }
  cbn [mbind result_bind].
  set (x1 := summing_nodes.set_received_ _ (summing_nodes.set_fs_ fs' x)).
  set (net1 := put_nodes p (Summing x1) net).
  assert (summing_nodes.inputs_ x1 = summing_nodes.inputs_ x) as -> by done.
  assert (summing_nodes.outputs_ x1 = summing_nodes.outputs_ x) as -> by done.
  destruct (at_index (summing_nodes.inputs_ x) i) as [ins|err] eqn:Hins.
  2:{ simpl. intros ->. by apply (at_ptr_no_fuel (summing_nodes.inputs_ x) i). }
  apply at_index_ok in Hins. cbn [mbind result_bind].
  (* the state before a possible dispatch *)
  assert (c_in net p i = ins) as Hcin.
  { unfold c_in. rewrite Hobj. simpl. by rewrite Hins. }
  assert (received net p i = r) as Hrec.
  { unfold received. rewrite Hobj. simpl. by rewrite Hr. }
  assert (node_obj net1 p = Some (Summing x1)) as Hobj1
    by (by apply node_obj_put_nodes_eq).
  assert (erase_forward net1 = erase_forward net) as E1.
  { eapply erase_forward_put_nodes; [done|]. by destruct x. }
  assert (∀ q, q ≠ p → node_obj net1 q = node_obj net q) as Hoth1
    by (intros; by apply node_obj_put_nodes_ne).
  assert (∀ j, j ≠ i →
     received net1 p j = received net p j ∧ fs net1 p j = fs net p j)
    as Hsib1.
  { intros j Hj. unfold received, fs. rewrite Hobj1, Hobj. simpl.
    rewrite list_lookup_insert_ne by done.
    unfold x1. cbn [summing_nodes.fs_ summing_nodes.set_fs_
      summing_nodes.set_received_].
    by rewrite (accumulate_other _ _ _ _ _ _ Hacc Hj). }
  assert (received net1 p i = S r) as Hrec1.
  { unfold received. rewrite Hobj1. simpl.
    rewrite list_lookup_insert_eq; [done|]. by eapply lookup_lt_Some. }
  destruct (S r =? length ins) eqn:Hfire.
  2:{ apply Nat.eqb_neq in Hfire. exists ({[e0]} ∪ D).
      eapply unfired_post; try done; congruence. }
  apply Nat.eqb_eq in Hfire.
  destruct (at_index (summing_nodes.outputs_ x) i) as [outs|err] eqn:Houts.
  2:{ simpl. intros ->. by apply (at_ptr_no_fuel (summing_nodes.outputs_ x) i). }
  apply at_index_ok in Houts. cbn [mbind result_bind].
  assert (c_out net p i = outs) as Hcout.
  { unfold c_out. rewrite Hobj. simpl. by rewrite Houts. }
  pose proof (erase_forward_same _ _ E1) as S1.
  assert (run_wf net1 rank) as W1 by (by eapply same_topology_run_wf).
  destruct (loop_start rank net D e0 p i net1 W He0 Hn Hinv E1 Hoth1)
    as [L0 Hfresh].
  pose proof (fire_loop rank fuel net1 ({[e0]} ∪ D) p i _ IH W1
    (summing_body_shape fuel p i)
    ltac:(rewrite (st_len _ _ S1); lia) Hfresh outs [] net1 ({[e0]} ∪ D)
    ltac:(by rewrite (st_c_out _ _ S1)) L0) as HL.
  destruct (for_each _ outs net1) as [net2|err]; [|done].
  destruct HL as [D2 L]. cbn [app] in L. cbn [mbind result_bind].
  assert (node_obj net2 p = Some (Summing x1)) as Hobj2.
  { rewrite (li_frame _ _ _ _ _ _ _ L) by lia. done. }
  rewrite (get_summing_nodes_ok _ _ _ Hobj2). cbn [mbind result_bind].
  set (x2 := summing_nodes.set_fs_ _ _).
  set (net' := put_nodes p (Summing x2) net2).
  pose proof (node_obj_valid _ _ _ Hobj2) as Hvp2.
  assert (node_obj net' p = Some (Summing x2)) as Hobj'
    by (by apply node_obj_put_nodes_eq).
  exists D2. eapply (fired_post rank net D e0 p i net1 net2 D2 net'); try done.
  - congruence.
  - by rewrite <-Hcout in L.
  - eapply erase_forward_put_nodes; [done|]. by destruct x.
  - intros; by apply node_obj_put_nodes_ne.
  - intros j Hj. unfold received, fs. rewrite Hobj', Hobj2. simpl.
    by rewrite !list_lookup_insert_ne by done.
  - unfold received. rewrite Hobj'. simpl.
    rewrite list_lookup_insert_eq; [done|]. rewrite length_insert.
    by eapply lookup_lt_Some.
  - intros _. unfold fs. rewrite Hobj'. simpl.
    destruct (decide (i < length fs')) as [Hlt|Hge].
    + by rewrite list_lookup_insert_eq.
    + by rewrite lookup_ge_None_2 by (rewrite length_insert; lia).
  - unfold transfer_at. by rewrite Hobj.
Qed.

End ForwardSumming.

Section ForwardTransfer.
Context `{Ext : Externals}.
Variable rank : nat → nat.

Lemma transfer_forward_ok fuel p i f net (D : gset nat) e0 x :
  nodes_forward_ok rank fuel →
  node_obj net p = Some (Transfer x) →
  run_wf net rank → e0 ∈ c_in net p i → e0 ∉ D →
  (∀ q j, c_in net q j ≠ [] → rank p ≤ rank q → chan_inv net D q j) →
  length (nnodes_arena net) < S fuel + rank p →
  match
    transfer_nodes_forward (edge_of_forward (nodes_forward fuel)) p i f net
  with
  | Ok net' => ∃ D' : gset nat, fwd_post rank net D e0 p net' D'
  | Err x => x ≠ OutOfFuel
  end.
Proof.
  intros IH Hobj W He0 Hn Hinv Hfuel.
  pose proof (node_obj_valid _ _ _ Hobj) as Hvp.
  unfold transfer_nodes_forward.
  rewrite (get_transfer_nodes_ok _ _ _ Hobj). cbn [mbind result_bind].
  destruct (i <? transfer_nodes.size_ x); [|done].
  cbn [ZI_ASSERT mbind result_bind].
  destruct (at_index (transfer_nodes.received_ x) i) as [r|err] eqn:Hr.
  2:{ simpl. intros ->. by apply (at_ptr_no_fuel (transfer_nodes.received_ x) i). }
  apply at_index_ok in Hr. cbn [mbind result_bind].
  destruct (accumulate r (transfer_nodes.fs_ x) i f) as [fs'|err] eqn:Hacc.
  2:{ simpl. intros ->. by apply (accumulate_no_fuel r (transfer_nodes.fs_ x) i f). }
  cbn [mbind result_bind].
  set (x1 := transfer_nodes.set_received_ _ (transfer_nodes.set_fs_ fs' x)).
  assert (transfer_nodes.inputs_ x1 = transfer_nodes.inputs_ x) as -> by done.
  destruct (at_index (transfer_nodes.inputs_ x) i) as [ins|err] eqn:Hins.
  2:{ simpl. intros ->. by apply (at_ptr_no_fuel (transfer_nodes.inputs_ x) i). }
  apply at_index_ok in Hins. cbn [mbind result_bind].
  assert (c_in net p i = ins) as Hcin.
  { unfold c_in. rewrite Hobj. simpl. by rewrite Hins. }
  assert (received net p i = r) as Hrec.
  { unfold received. rewrite Hobj. simpl. by rewrite Hr. }
  destruct (S r =? length ins) eqn:Hfire.
  2:{ apply Nat.eqb_neq in Hfire. exists ({[e0]} ∪ D).
      set (net1 := put_nodes p (Transfer x1) net).
      assert (node_obj net1 p = Some (Transfer x1)) as Hobj1
        by (by apply node_obj_put_nodes_eq).
      eapply unfired_post; try done.
      - eapply erase_forward_put_nodes; [done|]. by destruct x.
      - intros; by apply node_obj_put_nodes_ne.
      - intros j Hj. unfold received, fs. rewrite Hobj1, Hobj. simpl.
        rewrite list_lookup_insert_ne by done.
        by rewrite (accumulate_other _ _ _ _ _ _ Hacc Hj).
      - rewrite Hrec. unfold received. rewrite Hobj1. simpl.
        rewrite list_lookup_insert_eq; [done|]. by eapply lookup_lt_Some.
      - congruence. }
  apply Nat.eqb_eq in Hfire.
  destruct (at_index (transfer_nodes.fs_ x1) i) as [slot|err] eqn:Hslot.
  2:{ simpl. intros ->. by apply (at_ptr_no_fuel (transfer_nodes.fs_ x1) i). }
  apply at_index_ok in Hslot. cbn [mbind result_bind].
  destruct (deref slot) as [c|err] eqn:Hc.
  2:{ simpl. intros ->. by apply (deref_no_fuel slot). }
  cbn [mbind result_bind].
  assert (transfer_nodes.biases_ x1 = transfer_nodes.biases_ x) as -> by done.
  destruct (at_index (transfer_nodes.biases_ x) i) as [b|err] eqn:Hb.
  2:{ simpl. intros ->. by apply (at_ptr_no_fuel (transfer_nodes.biases_ x) i). }
  cbn [mbind result_bind].
  set (x1' := transfer_nodes.set_fs_ _ x1).
  set (net1 := put_nodes p (Transfer x1') net).
  assert (transfer_nodes.outputs_ x1' = transfer_nodes.outputs_ x) as -> by done.
  assert (node_obj net1 p = Some (Transfer x1')) as Hobj1
    by (by apply node_obj_put_nodes_eq).
  assert (erase_forward net1 = erase_forward net) as E1.
  { eapply erase_forward_put_nodes; [done|]. by destruct x. }
  assert (∀ q, q ≠ p → node_obj net1 q = node_obj net q) as Hoth1
    by (intros; by apply node_obj_put_nodes_ne).
  assert (∀ j, j ≠ i →
     received net1 p j = received net p j ∧ fs net1 p j = fs net p j)
    as Hsib1.
  { intros j Hj. unfold received, fs. rewrite Hobj1, Hobj. simpl.
    rewrite !list_lookup_insert_ne by done.
    by rewrite (accumulate_other _ _ _ _ _ _ Hacc Hj). }
  destruct (at_index (transfer_nodes.outputs_ x) i) as [outs|err] eqn:Houts.
  2:{ simpl. intros ->. by apply (at_ptr_no_fuel (transfer_nodes.outputs_ x) i). }
  apply at_index_ok in Houts. cbn [mbind result_bind].
  assert (c_out net p i = outs) as Hcout.
  { unfold c_out. rewrite Hobj. simpl. by rewrite Houts. }
  pose proof (erase_forward_same _ _ E1) as S1.
  assert (run_wf net1 rank) as W1 by (by eapply same_topology_run_wf).
  destruct (loop_start rank net D e0 p i net1 W He0 Hn Hinv E1 Hoth1)
    as [L0 Hfresh].
  pose proof (fire_loop rank fuel net1 ({[e0]} ∪ D) p i _ IH W1
    (transfer_body_shape fuel p i)
    ltac:(rewrite (st_len _ _ S1); lia) Hfresh outs [] net1 ({[e0]} ∪ D)
    ltac:(by rewrite (st_c_out _ _ S1)) L0) as HL.
  destruct (for_each _ outs net1) as [net2|err]; [|done].
  destruct HL as [D2 L]. cbn [app] in L. cbn [mbind result_bind].
  assert (node_obj net2 p = Some (Transfer x1')) as Hobj2.
  { rewrite (li_frame _ _ _ _ _ _ _ L) by lia. done. }
  rewrite (get_transfer_nodes_ok _ _ _ Hobj2). cbn [mbind result_bind].
  set (x2 := transfer_nodes.set_received_ _ _).
  set (net' := put_nodes p (Transfer x2) net2).
  pose proof (node_obj_valid _ _ _ Hobj2) as Hvp2.
  assert (node_obj net' p = Some (Transfer x2)) as Hobj'
    by (by apply node_obj_put_nodes_eq).
  exists D2. eapply (fired_post rank net D e0 p i net1 net2 D2 net'); try done.
  - congruence.
  - by rewrite <-Hcout in L.
  - eapply erase_forward_put_nodes; [done|]. by destruct x.
  - intros; by apply node_obj_put_nodes_ne.
  - intros j Hj. unfold received, fs. rewrite Hobj', Hobj2. simpl.
    by rewrite !list_lookup_insert_ne by done.
  - unfold received. rewrite Hobj'. simpl.
    rewrite list_lookup_insert_eq; [done|]. rewrite length_insert.
    by eapply lookup_lt_Some.
  - unfold summing_at. by rewrite Hobj.
  - intros _. unfold fs. rewrite Hobj'. simpl.
    rewrite list_lookup_insert_eq; [by eexists|].
    apply lookup_lt_Some in Hslot. done.
Qed.

Lemma nodes_forward_spec fuel : nodes_forward_ok rank fuel.
Proof.
  induction fuel as [|fuel IH]; intros p i f net D e0 W He0 Hn Hinv Hfuel.
  { exfalso.
    assert (valid_node net p) as Hv.
    { unfold c_in in He0. destruct (node_obj net p) eqn:Ho; [|inversion He0].
      by eapply node_obj_valid. }
    pose proof (rw_rank_bound _ _ W p Hv). lia. }
  cbn [nodes_forward].
  destruct (get_nodes net p) as [o|err] eqn:Hget.
  2:{ simpl. intros ->. by apply (get_nodes_no_fuel net p). }
  apply get_nodes_node_obj in Hget. cbn [mbind result_bind].
  destruct o as [x|x|x].
  - exfalso. unfold c_in in He0. rewrite Hget in He0. simpl in He0.
    inversion He0.
  - by eapply summing_forward_ok.
  - by eapply transfer_forward_ok.
Qed.

End ForwardTransfer.

Section ForwardInput.
Context `{Ext : Externals}.
Variable rank : nat → nat.

Lemma c_in_not_input net p i : c_in net p i ≠ [] → ¬ input_at net p.
Proof.
  unfold c_in, input_at. by destruct (node_obj net p) as [[]|].
Qed.

Lemma input_fire (fuel : nat) (net0 cur : network) (D : gset nat)
    (F : gset (nat * nat)) (p i : nat) (f : option cube) :
  run_wf net0 rank → top_inv net0 cur D F →
  input_at net0 p → (p, i) ∉ F →
  length (nnodes_arena net0) < fuel + rank p →
  match nodes_forward fuel p i f cur with
  | Ok net' => ∃ D', top_inv net0 net' D' ({[(p, i)]} ∪ F)
  | Err x => x ≠ OutOfFuel
  end.
Proof.
  intros W0 [E Hinv Hfired Hunf] Hinp HF Hfuel.
  pose proof (erase_forward_same _ _ E) as S.
  assert (run_wf cur rank) as W by (by eapply same_topology_run_wf).
  assert (valid_node net0 p) as Hvp.
  { unfold input_at in Hinp. destruct (node_obj net0 p) eqn:Ho; [|done].
    by eapply node_obj_valid. }
  destruct fuel as [|fuel]; [pose proof (rw_rank_bound _ _ W0 p Hvp); lia|].
  cbn [nodes_forward].
  destruct (get_nodes cur p) as [o|err] eqn:Hget.
  2:{ simpl. intros ->. by apply (get_nodes_no_fuel cur p). }
  apply get_nodes_node_obj in Hget. cbn [mbind result_bind].
  apply (st_input_at _ _ S) in Hinp as Hinp'.
  destruct o as [x|x|x]; try (unfold input_at in Hinp'; by rewrite Hget in Hinp').
  unfold input_nodes_forward, get_input_nodes.
  rewrite (proj2 (get_nodes_node_obj _ _ _) Hget). cbn [mbind result_bind].
  destruct (i <? input_nodes.size_ x); [|done].
  cbn [ZI_ASSERT mbind result_bind].
  destruct (at_index (input_nodes.outputs_ x) i) as [outs|err] eqn:Houts.
  2:{ simpl. intros ->. by apply (at_ptr_no_fuel (input_nodes.outputs_ x) i). }
  apply at_index_ok in Houts. cbn [mbind result_bind].
  assert (c_out cur p i = outs) as Hcout.
  { unfold c_out. rewrite Hget. simpl. by rewrite Houts. }
  assert (loop_inv rank cur D p cur D []) as L0.
  { split; try done.
    - intros e He. inversion He.
    - intros q j Hin _. apply Hinv. by rewrite <-(st_c_in _ _ S). }
  pose proof (fire_loop rank fuel cur D p i
    (λ e net, edge_of_forward (nodes_forward fuel) e f net)
    (nodes_forward_spec rank fuel) W
    ltac:(intros e net; exists (Ok f); by split)
    ltac:(rewrite (st_len _ _ S); lia)
    ltac:(intros e He; apply (Hunf p i e); [done..|by rewrite <-(st_c_out _ _ S)])
    outs [] cur D ltac:(done) L0) as HL.
  destruct (for_each _ outs cur) as [net'|err]; [|done].
  destruct HL as [D' L]. cbn [app] in L. exists D'.
  pose proof (li_sub _ _ _ _ _ _ _ L) as Hsub.
  assert (∀ e, e ∈ D' → e ∉ D →
            e ∈ c_out net0 p i ∨
            (rank p < rank (ed_in net0 e) ∧ ¬ input_at net0 (ed_in net0 e)))
    as Hnew.
  { intros e He HeD. destruct (li_new _ _ _ _ _ _ _ L e He HeD) as [Hd|[H1 H2]].
    - left. by rewrite <-(st_c_out _ _ S), Hcout.
    - right. by rewrite <-(st_ed_in _ _ S), <-(st_input_at _ _ S). }
  split.
  - by rewrite (li_same _ _ _ _ _ _ _ L).
  - intros q j Hin. destruct (decide (rank p < rank q)) as [Hlt|Hge].
    + apply (li_inv _ _ _ _ _ _ _ L); [by rewrite (st_c_in _ _ S)|done].
    + eapply (chan_inv_frame cur net' D D').
      * apply erase_forward_same, (li_same _ _ _ _ _ _ _ L).
      * apply received_node_obj, (li_frame _ _ _ _ _ _ _ L). lia.
      * apply fs_node_obj, (li_frame _ _ _ _ _ _ _ L). lia.
      * intros e He. split; [|by apply Hsub]. intros HeD'.
        destruct (decide (e ∈ D)) as [|HnD]; [done|]. exfalso.
        rewrite (st_c_in _ _ S), (st_c_out _ _ S) in He.
        destruct (Hnew e HeD' HnD) as [Hd|[Hr _]].
        -- destruct (rw_out_sound _ _ W0 _ _ _ Hd) as (Hve & H1 & H2).
           pose proof (rw_rank _ _ W0 e Hve) as Hrke.
           destruct He as [He|He].
           ++ destruct (rw_in_sound _ _ W0 _ _ _ He) as (_ & H3 & _). rank_lia.
           ++ destruct (rw_out_sound _ _ W0 _ _ _ He) as (_ & H3 & _).
              apply (c_in_not_input _ _ _ Hin). congruence.
        -- destruct He as [He|He].
           ++ destruct (rw_in_sound _ _ W0 _ _ _ He) as (Hve & H3 & _).
              pose proof (rw_rank _ _ W0 e Hve). rank_lia.
           ++ destruct (rw_out_sound _ _ W0 _ _ _ He) as (_ & H3 & _). rank_lia.
      * by apply Hinv.
  - intros p' i' e Hin' HF' He.
    apply elem_of_union in HF' as [[= -> ->]%elem_of_singleton|HF'].
    + apply (li_done _ _ _ _ _ _ _ L). by rewrite <-Hcout, (st_c_out _ _ S).
    + apply Hsub. by apply (Hfired p' i').
  - intros p' i' e Hin' HF' He HeD'.
    apply not_elem_of_union in HF' as [Hne HF'].
    apply (Hunf p' i' e Hin' HF' He).
    destruct (decide (e ∈ D)) as [|HnD]; [done|]. exfalso.
    destruct (rw_out_sound _ _ W0 _ _ _ He) as (_ & H3 & H4).
    destruct (Hnew e HeD' HnD) as [Hd|[_ Hni]].
    + destruct (rw_out_sound _ _ W0 _ _ _ Hd) as (_ & H1 & H2).
      apply Hne, elem_of_singleton. congruence.
    + apply Hni. by rewrite H3.
Qed.

End ForwardInput.

Section StdMapFind.
Context {V : Type}.
Implicit Types m : StdMap.t V.

Lemma stdmap_find_value k v m : StdMap.find k m = Some v → v ∈ StdMap.values m.
Proof.
  intros H%stdmap_find_elem. apply list_elem_of_fmap. by exists (k, v).
Qed.

Lemma stdmap_find_inj k1 k2 v m :
  NoDup (StdMap.values m) →
  StdMap.find k1 m = Some v → StdMap.find k2 m = Some v → k1 = k2.
Proof.
  induction m as [|[k w] m IH]; simpl; [done|].
  intros [Hw Hnd]%NoDup_cons.
  destruct (String.eqb_spec k1 k) as [->|]; destruct (String.eqb_spec k2 k) as [->|];
    try done.
  - intros [= ->] H2%stdmap_find_value. done.
  - intros H1%stdmap_find_value [= ->]. done.
  - by apply IH.
Qed.

Lemma stdmap_elem_find k v m :
  NoDup (StdMap.keys m) → (k, v) ∈ m → StdMap.find k m = Some v.
Proof.
  induction m as [|[k' w] m IH]; simpl; [by intros _ ?%elem_of_nil|].
  intros [Hw Hnd]%NoDup_cons [[= -> ->]|Hin]%elem_of_cons.
  - by rewrite String.eqb_refl.
  - destruct (String.eqb_spec k k') as [->|]; [|by apply IH].
    destruct Hw. apply list_elem_of_fmap. by exists (k', v).
Qed.

Lemma stdmap_count_find k m :
  (0 <? StdMap.count k m) = true → is_Some (StdMap.find k m).
Proof. unfold StdMap.count. by destruct (StdMap.find k m). Qed.

End StdMapFind.

Section ForwardInputs.
Context `{Ext : Externals}.
Variable rank : nat → nat.

Lemma imap_indices {A} (v : list A) (k : nat) :
  (imap (λ i c, (k + i, c)) v).*1 = seq k (length v).
Proof.
  revert k. induction v as [|x v IH]; intros k; [done|].
  simpl. rewrite Nat.add_0_r. f_equal.
  rewrite <-(IH (S k)). f_equal. apply imap_ext. intros i y _. simpl.
  f_equal. lia.
Qed.

Lemma channels_ge net :
  (∀ p, valid_node net p → 0 < c_size net p) →
  length (nnodes_arena net) ≤ channels net.
Proof.
  unfold channels, valid_node, c_size, node_obj. intros H.
  assert (Forall (λ x, 0 < num_out_nodes (nnodes.nodes_obj x))
            (nnodes_arena net)) as HF.
  { apply Forall_lookup. intros p x Hx. specialize (H p).
    rewrite Hx in H. apply H. by eapply lookup_lt_Some. }
  clear H. induction HF as [|x l Hx _ IH]; [done|].
  rewrite fmap_cons. simpl in *. lia.
Qed.

Lemma channels_fire (fuel : nat) (net0 : network) (p : nat) :
  run_wf net0 rank → input_at net0 p →
  length (nnodes_arena net0) < fuel + rank p →
  ∀ (ics : list (nat * option cube)) (cur : network) (D : gset nat)
    (F : gset (nat * nat)),
    NoDup ics.*1 → (∀ i, i ∈ ics.*1 → (p, i) ∉ F) →
    top_inv net0 cur D F →
    match
      for_each (λ (ic : nat * option cube) net,
                  nodes_forward fuel p ic.1 ic.2 net) ics cur
    with
    | Ok net' =>
        ∃ D' F', top_inv net0 net' D' F' ∧
          ∀ c, c ∈ F' ↔ c ∈ F ∨ ∃ i, i ∈ ics.*1 ∧ c = (p, i)
    | Err x => x ≠ OutOfFuel
    end.
Proof.
  intros W0 Hinp Hfuel ics.
  induction ics as [|[i c] ics IH]; intros cur D F Hnd HF T.
  { simpl. exists D, F. split; [done|]. intros c. split; [by left|].
    intros [?|(i & Hi & _)]; [done|inversion Hi]. }
  cbn [for_each fst snd]. simpl in Hnd. apply NoDup_cons in Hnd as [Hi Hnd].
  pose proof (input_fire rank fuel net0 cur D F p i c W0 T Hinp
    ltac:(apply HF; left) Hfuel) as H1.
  destruct (nodes_forward fuel p i c cur) as [net1|err]; [|done].
  destruct H1 as [D1 T1]. cbn [mbind result_bind].
  specialize (IH net1 D1 ({[(p, i)]} ∪ F) Hnd).
  destruct (for_each _ ics net1) as [net'|err].
  2:{ apply IH; [|done]. intros j Hj.
      apply not_elem_of_union. split; [|apply HF; by right].
      intros [= ->]%elem_of_singleton. done. }
  destruct IH as (D' & F' & T' & HF'); [|done|].
  { intros j Hj. apply not_elem_of_union. split; [|apply HF; by right].
    intros [= ->]%elem_of_singleton. done. }
  exists D', F'. split; [done|]. intros c'. rewrite HF'. simpl. split.
  - intros [[->%elem_of_singleton|?]%elem_of_union|(j & Hj & ->)].
    + right. exists i. split; [left|done].
    + by left.
    + right. exists j. split; [by right|done].
  - intros [?|(j & [->|Hj]%elem_of_cons & ->)].
    + left. set_solver.
    + left. set_solver.
    + right. by exists j.
Qed.

Lemma inputs_fire (net0 : network) :
  run_wf net0 rank →
  ∀ (entries : list (string * list (option cube))) (cur : network)
    (D : gset nat) (F : gset (nat * nat)),
    NoDup entries.*1 →
    top_inv net0 cur D F →
    (∀ name p i, name ∈ entries.*1 →
       StdMap.find name (input_nodes_ net0) = Some p → (p, i) ∉ F) →
    match for_each forward_entry entries cur with
    | Ok net' =>
        ∃ D' F', top_inv net0 net' D' F' ∧ F ⊆ F' ∧
          (∀ name, name ∈ entries.*1 →
             ∃ p, StdMap.find name (input_nodes_ net0) = Some p ∧
                  ∀ i, i < c_size net0 p → (p, i) ∈ F')
    | Err x => x ≠ OutOfFuel
    end.
Proof.
  intros W0 entries.
  induction entries as [|[name cubes] entries IH]; intros cur D F Hnd T HF.
  { simpl. exists D, F. split; [done|]. split; [done|].
    intros name Hn. inversion Hn. }
  simpl in Hnd. apply NoDup_cons in Hnd as [Hname Hnd].
  pose proof (erase_forward_same _ _ (ti_same _ _ _ _ T)) as S.
  cbn [for_each].
  assert (forward_entry (name, cubes) cur =
    (ZI_ASSERT (0 <? StdMap.count name (input_nodes_ cur));;
     in_layer ← deref (StdMap.find name (input_nodes_ cur));
     o ← get_nodes cur in_layer;
     ZI_ASSERT (num_in_nodes o =? length cubes);;
     for_channels (nodes_forward (run_fuel cur)) in_layer cubes cur)) as ->
    by done.
  rewrite (st_input_nodes_ _ _ S).
  destruct (0 <? StdMap.count name (input_nodes_ net0)) eqn:Hc; [|done].
  cbn [ZI_ASSERT mbind result_bind].
  destruct (stdmap_count_find _ _ Hc) as [p Hp]. rewrite Hp.
  cbn [deref mbind result_bind].
  assert (input_at net0 p) as Hinp
    by (apply (rw_inputs _ _ W0); by eapply stdmap_find_value).
  destruct (get_nodes cur p) as [o|err] eqn:Hget.
  2:{ simpl. intros ->. by apply (get_nodes_no_fuel cur p). }
  apply get_nodes_node_obj in Hget. cbn [mbind result_bind].
  destruct (num_in_nodes o =? length cubes) eqn:Hlen; [|done].
  apply Nat.eqb_eq in Hlen. cbn [ZI_ASSERT mbind result_bind].
  assert (c_size net0 p = length cubes) as Hsz.
  { rewrite <-(st_c_size _ _ S). unfold c_size. by rewrite Hget. }
  assert (valid_node net0 p) as Hvp.
  { apply (st_valid_node _ _ S). by eapply node_obj_valid. }
  unfold for_channels.
  pose proof (channels_fire (run_fuel cur) net0 p W0 Hinp
    ltac:(unfold run_fuel; rewrite (st_channels _ _ S);
          pose proof (channels_ge net0 (rw_sizes _ _ W0)); lia)
    (imap (λ i c, (i, c)) cubes) cur D F) as H1.
  pose proof (imap_indices cubes 0) as Hidx. simpl in Hidx.
  rewrite Hidx in H1.
  specialize (H1 (NoDup_seq _ _)
    ltac:(intros i _; apply (HF name); [left|done]) T).
  destruct (for_each _ (imap _ cubes) cur) as [net1|err]; [|done].
  destruct H1 as (D1 & F1 & T1 & HF1). cbn [mbind result_bind].
  specialize (IH net1 D1 F1 Hnd T1).
  assert (∀ name' p' i, name' ∈ entries.*1 →
            StdMap.find name' (input_nodes_ net0) = Some p' → (p', i) ∉ F1)
    as HF1'.
  { intros name' p' i Hn' Hp' [HiF|(j & _ & [= -> ->])]%HF1.
    - apply (HF name' p' i); [by right|done..].
    - assert (name' = name) as ->; [|done].
      eapply stdmap_find_inj; [apply (rw_inputs_inj _ _ W0)|done..]. }
  specialize (IH HF1').
  destruct (for_each forward_entry entries net1) as [net'|err]; [|done].
  destruct IH as (D' & F' & T' & Hsub & HF').
  assert (F ⊆ F1) as Hsub1 by (intros c Hc'; apply HF1; by left).
  exists D', F'. split; [done|]. split; [set_solver|].
  intros name' [->|Hn']%elem_of_cons; [|by apply HF'].
  exists p. split; [done|]. intros i Hi.
  apply Hsub, HF1. right. exists i. split; [|done].
  apply elem_of_seq. lia.
Qed.

End ForwardInputs.

Lemma delivered_empty (l : list nat) : delivered ∅ l = 0.
Proof.
  unfold delivered. induction l as [|x l IH]; [done|].
  rewrite filter_cons. by rewrite decide_False by set_solver.
Qed.

Section ForwardAll.
Context `{Ext : Externals}.
Variable rank : nat → nat.

Lemma c_out_size net p i e :
  run_wf net rank → e ∈ c_out net p i → valid_node net p ∧ i < c_size net p.
Proof.
  intros W He. unfold c_out, c_size in *.
  destruct (node_obj net p) as [o|] eqn:Ho; [|inversion He]. simpl in *.
  split; [by eapply node_obj_valid|].
  rewrite <-(rw_outputs_len _ _ W p o Ho).
  destruct (outputs_of o !! i) eqn:Hl; [|inversion He].
  by eapply lookup_lt_Some.
Qed.

Lemma all_full (net net' : network) (D : gset nat) (F : gset (nat * nat)) :
  run_wf net rank → top_inv net net' D F →
  (∀ p i, input_at net p → i < c_size net p → (p, i) ∈ F) →
  ∀ q j, c_in net q j ≠ [] →
    delivered D (c_in net q j) = length (c_in net q j).
Proof.
  intros W T HF.
  assert (∀ r q j, rank q = r → c_in net q j ≠ [] →
            delivered D (c_in net q j) = length (c_in net q j)) as H;
    [|intros q j; by apply (H (rank q))].
  intros r. induction r as [r IH] using lt_wf_ind. intros q j Hr Hin.
  apply delivered_all. intros e He.
  destruct (rw_in_sound _ _ W _ _ _ He) as (Hve & Hq & Hj).
  destruct (rw_complete _ _ W e Hve) as [Hout _].
  pose proof (rw_rank _ _ W e Hve) as Hrk.
  destruct (c_out_size _ _ _ _ W Hout) as [Hvp Hsz].
  destruct (decide (is_input <$> node_obj net (ed_in net e) = Some true))
    as [Hi|Hni].
  - apply (ti_fired _ _ _ _ T _ (ed_in_num net e) e Hi); [by apply HF|done].
  - pose proof (rw_fed _ _ W _ _ Hvp Hni Hsz) as Hfed.
    pose proof (IH (rank (ed_in net e)) ltac:(rewrite Hq in Hrk; lia)
                  _ _ eq_refl Hfed) as Hfull.
    pose proof (ti_inv _ _ _ _ T _ _ Hfed) as Hinv.
    pose proof (erase_forward_same _ _ (ti_same _ _ _ _ T)) as S.
    unfold chan_inv in Hinv. rewrite (st_c_in _ _ S), (st_c_out _ _ S) in Hinv.
    rewrite decide_False in Hinv by lia.
    destruct Hinv as (_ & Hall & _). by apply Hall.
Qed.

Lemma incl_keys (l l' : list string) :
  NoDup l → NoDup l' → length l = length l' →
  (∀ k, k ∈ l → k ∈ l') → ∀ k, k ∈ l' → k ∈ l.
Proof.
  intros Hl Hl' Hlen Hsub k Hk.
  apply list_elem_of_In.
  apply (@NoDup_length_incl _ l l' (proj1 (NoDup_ListNoDup l) Hl)); [lia| |].
  - intros x Hx. apply list_elem_of_In, Hsub, list_elem_of_In, Hx.
  - by apply list_elem_of_In.
Qed.

Lemma forward_fires_all net fin ret net' :
  run_wf net rank → quiescent net → StdMap.wf fin →
  network_forward fin net = Ok (ret, net') →
  ∃ (D : gset nat) (F : gset (nat * nat)),
    top_inv net net' D F ∧
    (∀ p i, input_at net p → i < c_size net p → (p, i) ∈ F).
Proof.
  intros W Q Hfin Hrun. unfold network_forward in Hrun.
  apply bind_ok in Hrun as ([] & Hsz%assert_ok%Nat.eqb_eq & Hrun).
  apply bind_ok in Hrun as (net1 & Hloop & Hrun).
  apply bind_ok in Hrun as (ret1 & _ & [= <- <-]).
  pose proof (inputs_fire rank net W fin net ∅ ∅ Hfin) as H.
  change (for_each forward_entry fin net) with
    (for_each
       (λ (i : string * list (option cube)) net,
          ZI_ASSERT (0 <? StdMap.count i.1 (input_nodes_ net));;
          in_layer ← deref (StdMap.find i.1 (input_nodes_ net));
          o ← get_nodes net in_layer;
          ZI_ASSERT (num_in_nodes o =? length i.2);;
          for_channels (nodes_forward (run_fuel net)) in_layer i.2 net)
       fin net) in H.
  rewrite Hloop in H.
  destruct H as (D & F & T & _ & Hcov).
  { split; try done.
    - intros q j Hin. unfold chan_inv.
      rewrite delivered_empty.
      rewrite decide_True by (destruct (c_in net q j); simpl; [done|lia]).
      split; [apply Q|set_solver]. }
  { set_solver. }
  exists D, F. split; [done|].
  intros p i Hinp Hi.
  apply (rw_inputs _ _ W) in Hinp as Hval.
  apply list_elem_of_fmap in Hval as ([k p'] & -> & Hkp). simpl in *.
  pose proof (stdmap_elem_find _ _ _ (rw_inputs_keys _ _ W) Hkp) as Hfind.
  destruct (Hcov k) as (p'' & Hp'' & Hall).
  { apply (incl_keys (StdMap.keys fin) (StdMap.keys (input_nodes_ net))).
    - done.
    - apply (rw_inputs_keys _ _ W).
    - unfold StdMap.keys. rewrite !length_fmap. done.
    - intros k' Hk'. destruct (Hcov k' Hk') as (q & Hq & _).
      apply stdmap_find_elem in Hq. apply list_elem_of_fmap. by exists (k', q).
    - apply list_elem_of_fmap. by exists (k, p'). }
  rewrite Hfind in Hp''. injection Hp'' as <-. by apply Hall.
Qed.

End ForwardAll.

Section ForwardSpec.
Context `{Ext : Externals}.
Variable rank : nat → nat.

Lemma forward_post net fin ret net' :
  run_wf net rank → quiescent net → StdMap.wf fin →
  network_forward fin net = Ok (ret, net') →
  erase_forward net' = erase_forward net ∧
  (∀ p i, valid_node net p → i < c_size net p →
     received net' p i = 0 ∧
     (summing_at net p → fs net' p i = None) ∧
     (transfer_at net p → is_Some (fs net' p i))).
Proof.
  intros W Q Hfin Hrun.
  destruct (forward_fires_all rank net fin ret net' W Q Hfin Hrun)
    as (D & F & T & HF).
  pose proof (erase_forward_same _ _ (ti_same _ _ _ _ T)) as S.
  split; [apply T|].
  intros p i Hvp Hi.
  destruct (decide (is_input <$> node_obj net p = Some true)) as [Hinp|Hni].
  - apply (st_input_at _ _ S) in Hinp as Hinp'.
    unfold input_at, summing_at, transfer_at, received in *.
    destruct (node_obj net' p) as [[]|]; try done.
    destruct (node_obj net p) as [[]|]; try done.
  - pose proof (rw_fed _ _ W p i Hvp Hni Hi) as Hfed.
    pose proof (all_full rank net net' D F W T HF p i Hfed) as Hfull.
    pose proof (ti_inv _ _ _ _ T p i Hfed) as Hinv.
    unfold chan_inv in Hinv. rewrite (st_c_in _ _ S) in Hinv.
    rewrite decide_False in Hinv by lia.
    destruct Hinv as (H1 & _ & H3 & H4). split; [done|]. split.
    + intros Hs. by apply H3, (st_summing_at _ _ S).
    + intros Ht. by apply H4, (st_transfer_at _ _ S).
Qed.

Lemma forward_no_fuel net fin :
  run_wf net rank → quiescent net → StdMap.wf fin →
  network_forward fin net ≠ Err OutOfFuel.
Proof.
  intros W Q Hfin. unfold network_forward.
  apply bind_no_fuel; [apply assert_no_fuel|]. intros _ _.
  apply bind_no_fuel.
  - pose proof (inputs_fire rank net W fin net ∅ ∅ Hfin) as H.
    change (for_each forward_entry fin net) with
      (for_each
         (λ (i : string * list (option cube)) net,
            ZI_ASSERT (0 <? StdMap.count i.1 (input_nodes_ net));;
            in_layer ← deref (StdMap.find i.1 (input_nodes_ net));
            o ← get_nodes net in_layer;
            ZI_ASSERT (num_in_nodes o =? length i.2);;
            for_channels (nodes_forward (run_fuel net)) in_layer i.2 net)
         fin net) in H.
    destruct (for_each _ fin net) as [net1|err]; [done|].
    intros [= ->]. revert H. intros H. apply H; [|set_solver|done].
    split; try done.
    intros q j Hin. unfold chan_inv. rewrite delivered_empty.
    rewrite decide_True by (destruct (c_in net q j); simpl; [done|lia]).
    split; [apply Q|set_solver].
  - intros net1 _. apply bind_no_fuel; [|done].
    generalize (@StdMap.empty (list (option cube))).
    induction (output_nodes_ net1) as [|l ls IH]; intros acc; [done|].
    cbn [for_each]. apply bind_no_fuel; [|intros; apply IH].
    apply bind_no_fuel; [apply get_nodes_no_fuel|]. intros o _.
    apply bind_no_fuel; [by destruct o|done].
Qed.

End ForwardSpec.

(** ** The backward pass: what a delivery leaves alone *)

Section BackwardFrame.
Context `{Ext : Externals}.
Variable rank : nat → nat.

Lemma run_wf_upstream_ranked net : run_wf net rank → upstream_ranked rank net.
Proof.
  intros WF p i e He.
  destruct (rw_in_sound _ _ WF _ _ _ He) as (Hv & <- & _).
  by apply (rw_rank _ _ WF).
Qed.

Lemma bframe_refl k a : bframe rank k a a.
Proof. by split. Qed.
Lemma bframe_trans k a b c : bframe rank k a b → bframe rank k b c → bframe rank k a c.
Proof.
  intros [E1 I1 A1] [E2 I2 A2]. split.
  - by rewrite E2.
  - intros p. by rewrite I2.
  - intros p Hp. by rewrite A2, A1.
Qed.
Lemma bframe_mono k k' a b : k ≤ k' → bframe rank k a b → bframe rank k' a b.
Proof. intros Hk [E I A]. split; [done..|]. intros p Hp. apply A. lia. Qed.

Lemma bframe_c_in k a b p i : bframe rank k a b → c_in b p i = c_in a p i.
Proof.
  intros [_ I _]. unfold c_in. specialize (I p).
  destruct (node_obj b p), (node_obj a p); simplify_eq/=; congruence.
Qed.
Lemma bframe_ed_in k a b e : bframe rank k a b → ed_in b e = ed_in a e.
Proof. intros [E _ _]. unfold ed_in. by rewrite E. Qed.

Lemma bframe_ranked k a b : bframe rank k a b → upstream_ranked rank a → upstream_ranked rank b.
Proof.
  intros F U p i e He. rewrite (bframe_c_in _ _ _ _ _ F) in He.
  rewrite (bframe_ed_in _ _ _ _ F). by apply (U p i).
Qed.

Lemma bframe_put_nodes q o' a :
  (∀ o, node_obj a q = Some o → inputs_of o' = inputs_of o) →
  bframe rank (rank q) a (put_nodes q o' a).
Proof.
  intros H. split.
  - unfold put_nodes. by destruct (nnodes_arena a !! q).
  - intros p. destruct (decide (p = q)) as [->|Hne].
    + destruct (node_obj a q) as [o|] eqn:Ho.
      * rewrite node_obj_put_nodes_eq by (by eapply node_obj_valid).
        simpl. f_equal. by apply H.
      * unfold put_nodes. unfold node_obj in Ho.
        destruct (nnodes_arena a !! q) eqn:E; [done|].
        unfold node_obj. by rewrite E.
    + by rewrite node_obj_put_nodes_ne.
  - intros p Hp. apply node_obj_put_nodes_ne. intros ->. lia.
Qed.

Lemma bframe_set_filter_arena k a v : bframe rank k a (set_filter_arena v a).
Proof. by split. Qed.

Lemma for_each_inv {S X} (I : S → Prop) (body : X → S → result S) xs :
  ∀ s s', I s →
    (∀ x s s', x ∈ xs → I s → body x s = Ok s' → I s') →
    for_each body xs s = Ok s' → I s'.
Proof.
  induction xs as [|x xs IH]; intros s s' Hs Hb H; simpl in H.
  - by injection H as <-.
  - apply bind_ok in H as (s1 & H1 & H).
    apply (IH s1); [|intros y ???; apply Hb; by apply list_elem_of_further|done].
    eapply Hb; [apply list_elem_of_here|done..].
Qed.

Lemma impl_backward_frame k i g net net' c :
  impl_backward i g net = Ok (net', c) → bframe rank k net net'.
Proof.
  destruct i as [|e|e]; simpl.
  - intros (c' & _ & [= <- _])%bind_ok. apply bframe_refl.
  - intros (c' & _ & [= <- _])%bind_ok. apply bframe_refl.
  - intros ([fl c'] & _ & [= <- _])%bind_ok. apply bframe_set_filter_arena.
Qed.

Lemma edge_backward_frame fuel e c cur cur' :
  nodes_backward_framed rank fuel → upstream_ranked rank cur →
  edge_of_backward (nodes_backward fuel) e c cur = Ok cur' →
  bframe rank (rank (ed_in cur e)) cur cur'.
Proof.
  intros IH U H. unfold edge_of_backward in H.
  apply bind_ok in H as (eo & Heo%at_ptr_ok & H).
  apply bind_ok in H as ([net1 c1] & Hi & H). simpl in H.
  pose proof (impl_backward_frame (rank (ed_in cur e)) _ _ _ _ _ Hi) as F1.
  apply IH in H; [|by eapply bframe_ranked].
  unfold ed_in in *. rewrite Heo in *. simpl in *.
  by eapply bframe_trans.
Qed.

(** the dispatch loop of a firing channel [n] of [q] *)
Lemma dispatch_frame fuel q n ins cur
    (body : ptr → network → result network) :
  nodes_backward_framed rank fuel → upstream_ranked rank cur →
  c_in cur q n = ins →
  (∀ e s s', body e s = Ok s' →
     ∃ c, edge_of_backward (nodes_backward fuel) e c s = Ok s') →
  ∀ cur', for_each body ins cur = Ok cur' →
    bframe rank (Nat.pred (rank q)) cur cur'.
Proof.
  intros IH U Hins Hbody cur' H.
  apply (for_each_inv (λ s, bframe rank (Nat.pred (rank q)) cur s) body ins cur);
    [apply bframe_refl| |done].
  intros e s s' He F Hb. destruct (Hbody _ _ _ Hb) as [c Hc].
  apply edge_backward_frame in Hc; [|done|by eapply bframe_ranked].
  eapply bframe_trans; [done|]. eapply bframe_mono; [|done].
  rewrite (bframe_ed_in _ _ _ _ F).
  rewrite <-Hins in He. specialize (U _ _ _ He). lia.
Qed.

End BackwardFrame.

Section BackwardFrameSpec.
Context `{Ext : Externals}.
Variable rank : nat → nat.

Lemma get_summing_nodes_inv net p x :
  get_summing_nodes net p = Ok x → node_obj net p = Some (Summing x).
Proof.
  unfold get_summing_nodes.
  intros (o & Ho%get_nodes_node_obj & H)%bind_ok.
  destruct o; simplify_eq. done.
Qed.
Lemma get_transfer_nodes_inv net p x :
  get_transfer_nodes net p = Ok x → node_obj net p = Some (Transfer x).
Proof.
  unfold get_transfer_nodes.
  intros (o & Ho%get_nodes_node_obj & H)%bind_ok.
  destruct o; simplify_eq. done.
Qed.

Lemma c_in_node_obj net p o i ins :
  node_obj net p = Some o → inputs_of o !! i = Some ins → c_in net p i = ins.
Proof. intros Ho Hi. unfold c_in. rewrite Ho. simpl. by rewrite Hi. Qed.

Lemma summing_backward_frame fuel q n g cur cur' :
  nodes_backward_framed rank fuel → upstream_ranked rank cur →
  summing_nodes_backward (edge_of_backward (nodes_backward fuel)) q n g cur
    = Ok cur' →
  bframe rank (rank q) cur cur'.
Proof.
  intros IH U H. unfold summing_nodes_backward in H.
  apply bind_ok in H as (x & Hx%get_summing_nodes_inv & H).
  apply bind_ok in H as (_ & _ & H).
  apply bind_ok in H as (r & _ & H).
  apply bind_ok in H as (gs1 & _ & H).
  set (x1 := summing_nodes.set_received_ _ _) in H.
  set (net1 := put_nodes q (Summing x1) cur) in H.
  assert (bframe rank (rank q) cur net1) as F1.
  { apply bframe_put_nodes. intros o Ho. rewrite Hx in Ho.
    by injection Ho as <-. }
  apply bind_ok in H as (outs & _ & H).
  destruct (_ || _); [|injection H as <-; done].
  apply bind_ok in H as (ins & Hins%at_index_ok & H).
  apply bind_ok in H as (net2 & Hloop & H).
  apply bind_ok in H as (x2 & Hx2%get_summing_nodes_inv & [= <-]).
  eapply (dispatch_frame rank fuel q n ins net1) in Hloop;
    [|done|by eapply bframe_ranked| |].
  - eapply bframe_trans; [done|]. eapply bframe_trans.
    + eapply bframe_mono; [|done]. lia.
    + apply bframe_put_nodes. intros o Ho. rewrite Hx2 in Ho.
      by injection Ho as <-.
  - rewrite (bframe_c_in _ _ _ _ _ _ F1).
    by apply (c_in_node_obj _ _ _ _ _ Hx).
  - intros e s s' Hb.
    apply bind_ok in Hb as (? & _ & Hb). apply bind_ok in Hb as (c & _ & Hb).
    by exists c.
Qed.

Lemma transfer_backward_frame fuel q n g cur cur' :
  nodes_backward_framed rank fuel → upstream_ranked rank cur →
  transfer_nodes_backward (edge_of_backward (nodes_backward fuel)) q n g cur
    = Ok cur' →
  bframe rank (rank q) cur cur'.
Proof.
  intros IH U H. unfold transfer_nodes_backward in H.
  apply bind_ok in H as (x & Hx%get_transfer_nodes_inv & H).
  apply bind_ok in H as (_ & _ & H).
  apply bind_ok in H as (r & _ & H).
  apply bind_ok in H as (gs1 & _ & H).
  set (x1 := transfer_nodes.set_received_ _ _) in H.
  apply bind_ok in H as (outs & _ & H).
  destruct (_ || _).
  2:{ injection H as <-. apply bframe_put_nodes. intros o Ho.
      rewrite Hx in Ho. by injection Ho as <-. }
  apply bind_ok in H as (gslot & _ & H).
  apply bind_ok in H as (gc & _ & H).
  apply bind_ok in H as (fslot & _ & H).
  apply bind_ok in H as (fc & _ & H).
  apply bind_ok in H as (b & _ & H).
  set (x1' := transfer_nodes.set_biases_ _ _) in H.
  set (net1 := put_nodes q (Transfer x1') cur) in H.
  assert (bframe rank (rank q) cur net1) as F1.
  { apply bframe_put_nodes. intros o Ho. rewrite Hx in Ho.
    by injection Ho as <-. }
  apply bind_ok in H as (ins & Hins%at_index_ok & H).
  apply bind_ok in H as (net2 & Hloop & H).
  apply bind_ok in H as (x2 & Hx2%get_transfer_nodes_inv & [= <-]).
  eapply (dispatch_frame rank fuel q n ins net1) in Hloop;
    [|done|by eapply bframe_ranked| |].
  - eapply bframe_trans; [done|]. eapply bframe_trans.
    + eapply bframe_mono; [|done]. lia.
    + apply bframe_put_nodes. intros o Ho. rewrite Hx2 in Ho.
      by injection Ho as <-.
  - rewrite (bframe_c_in _ _ _ _ _ _ F1).
    by apply (c_in_node_obj _ _ _ _ _ Hx).
  - intros e s s' Hb.
    apply bind_ok in Hb as (? & _ & Hb). apply bind_ok in Hb as (c & _ & Hb).
    by exists c.
Qed.

Lemma nodes_backward_frame fuel : nodes_backward_framed rank fuel.
Proof.
  induction fuel as [|fuel IH]; intros q n g cur cur' U H; [done|].
  cbn [nodes_backward] in H.
  apply bind_ok in H as (o & Ho & H). destruct o as [x|x|x].
  - injection H as <-. apply bframe_refl.
  - by eapply summing_backward_frame.
  - by eapply transfer_backward_frame.
Qed.

(** a backward pass writes no edge object: the [last_input] a convolution
    edge stored on [forward] is still there when its [backward] runs *)
Lemma network_backward_edge_arena fout net ret net' :
  upstream_ranked rank net →
  network_backward fout net = Ok (ret, net') →
  edge_arena net' = edge_arena net.
Proof.
  intros U H. unfold network_backward in H.
  apply bind_ok in H as (_ & _ & H).
  apply bind_ok in H as (net1 & Hloop & [= _ <-]).
  enough (edge_arena net1 = edge_arena net ∧ upstream_ranked rank net1)
    as [? _] by done.
  apply (for_each_inv
    (λ s, edge_arena s = edge_arena net ∧ upstream_ranked rank s) _ _ _ _
    (conj eq_refl U)) in Hloop; [done|].
  intros [k v] s s' _ [E Us] Hb. cbn [fst snd] in Hb.
  apply bind_ok in Hb as (_ & _ & Hb).
  apply bind_ok in Hb as (layer & _ & Hb).
  apply bind_ok in Hb as (obj & _ & Hb).
  apply bind_ok in Hb as (_ & _ & Hb).
  unfold for_channels in Hb.
  apply (for_each_inv
    (λ t, edge_arena t = edge_arena net ∧ upstream_ranked rank t) _ _ _ _
    (conj E Us)) in Hb; [done|].
  intros [i c] t t' _ [Et Ut] Hc. cbn [fst snd] in Hc.
  apply nodes_backward_frame in Hc; [|done].
  split; [by rewrite (bf_edges _ _ _ _ Hc)|by eapply bframe_ranked].
Qed.

End BackwardFrameSpec.

(** ** Convolution edges *)

Section FilterEdge.
Context `{Ext : Externals}.

Lemma kernel_ok {A} (r : option A) a : kernel r = Ok a ↔ r = Some a.
Proof. destruct r; simpl; split; congruence. Qed.
Lemma deref_ok {A} (r : option A) a : deref r = Ok a ↔ r = Some a.
Proof. destruct r; simpl; split; congruence. Qed.

Lemma filter_edge_forward_iff e f filters e' r :
  filter_edge_forward e f filters = Ok (e', r) ↔
  ∃ c flt,
    f = Some c ∧ filters !! filter_edge.filter_ e = Some flt ∧
    convolve_sparse c (filter_W flt) (filter_edge.filter_stride e) = Some r ∧
    e' = filter_edge.set_last_input f e.
Proof.
  unfold filter_edge_forward. split.
  - intros (c & ->%deref_ok & H)%bind_ok.
    apply bind_ok in H as (flt & Hflt%at_ptr_ok & H).
    apply bind_ok in H as (r' & Hr%kernel_ok & [= <- <-]).
    by exists c, flt.
  - intros (c & flt & -> & Hflt & Hr & ->). simpl.
    unfold at_ptr. simpl. rewrite Hflt. simpl. by rewrite Hr.
Qed.

Lemma filter_edge_backward_iff e g filters filters' ret :
  filter_edge_backward e g filters = Ok (filters', ret) ↔
  ∃ last gc flt dEdW,
    filter_edge.last_input e = Some last ∧ g = Some gc ∧
    filters !! filter_edge.filter_ e = Some flt ∧
    convolve_sparse_flipped last gc (filter_edge.filter_stride e)
      = Some dEdW ∧
    convolve_sparse_inverse gc (filter_W flt) (filter_edge.filter_stride e)
      = Some ret ∧
    filters' = <[filter_edge.filter_ e := filter_update flt dEdW]> filters.
Proof.
  unfold filter_edge_backward. split.
  - intros (_ & _ & H)%bind_ok.
    apply bind_ok in H as (last & Hl%deref_ok & H).
    apply bind_ok in H as (gc & ->%deref_ok & H).
    apply bind_ok in H as (dEdW & Hd%kernel_ok & H).
    apply bind_ok in H as (flt & Hflt%at_ptr_ok & H).
    apply bind_ok in H as (r' & Hr%kernel_ok & [= <- <-]).
    by exists last, gc, flt, dEdW.
  - intros (last & gc & flt & dEdW & Hl & -> & Hflt & Hd & Hr & ->).
    rewrite Hl. cbn [deref mbind result_bind].
    rewrite bool_decide_eq_true_2 by (by eexists).
    cbn [ZI_ASSERT mbind result_bind]. rewrite Hd. cbn [kernel mbind result_bind].
    unfold at_ptr. rewrite Hflt. cbn [mbind result_bind]. by rewrite Hr.
Qed.

End FilterEdge.

Ltac tn_simpl :=
  cbn [transfer_nodes.size_ transfer_nodes.biases_ transfer_nodes.func_
       transfer_nodes.inputs_ transfer_nodes.outputs_
       transfer_nodes.received_ transfer_nodes.fs_ transfer_nodes.gs_
       transfer_nodes.options_ transfer_nodes.set_biases_
       transfer_nodes.set_inputs_ transfer_nodes.set_outputs_
       transfer_nodes.set_received_ transfer_nodes.set_fs_
       transfer_nodes.set_gs_ mbind result_bind deref ZI_ASSERT].

(** ** [transfer_nodes::backward] *)

Section TransferBackward.
Context `{Ext : Externals}.

Lemma transfer_dispatch_loop (eb : edge_method) self n x1 G' {A}
    (K : transfer_nodes.t → network → result A) (I : network → Prop) ins :
  transfer_nodes.gs_ x1 !! n = Some (Some G') →
  (∀ e c cur cur', e ∈ ins → I cur → eb e c cur = Ok cur' →
     I cur' ∧ node_obj cur' self = node_obj cur self) →
  ∀ cur,
    I cur → node_obj cur self = Some (Transfer x1) →
    (net2 ← for_each
               (λ e cur,
                  x ← get_transfer_nodes cur self;
                  c ← at_index (transfer_nodes.gs_ x) n;
                  eb e c cur) ins cur;
     x ← get_transfer_nodes net2 self; K x net2)
    = (net2 ← for_each (λ e cur, eb e (Some G') cur) ins cur; K x1 net2).
Proof.
  intros Hgs. induction ins as [|e ins IH]; intros Hframe cur HI Hobj;
    cbn [for_each mbind result_bind].
  - by rewrite (get_transfer_nodes_ok _ _ _ Hobj).
  - rewrite (get_transfer_nodes_ok _ _ _ Hobj). cbn [mbind result_bind].
    unfold at_index, at_ptr. rewrite Hgs. cbn [mbind result_bind].
    destruct (eb e (Some G') cur) as [cur'|err] eqn:Heb; [|done].
    cbn [mbind result_bind].
    destruct (Hframe _ _ _ _ (list_elem_of_here _ _) HI Heb) as [HI' Hsame].
    apply IH; [|done|by rewrite Hsame].
    intros e' c cur1 cur2 He'. apply Hframe. by apply list_elem_of_further.
Qed.

Lemma transfer_backward_fire_eq (eb : edge_method) (I : network → Prop)
    self n g net x r outs ins gs1 G F b :
  node_obj net self = Some (Transfer x) →
  n < transfer_nodes.size_ x →
  transfer_nodes.received_ x !! n = Some r →
  transfer_nodes.outputs_ x !! n = Some outs →
  transfer_nodes.inputs_ x !! n = Some ins →
  S r = length outs ∨ length outs = 0 →
  accumulate r (transfer_nodes.gs_ x) n g = Ok gs1 →
  gs1 !! n = Some (Some G) →
  transfer_nodes.fs_ x !! n = Some (Some F) →
  transfer_nodes.biases_ x !! n = Some b →
  let G' := tf_apply_grad (transfer_nodes.func_ x) G F in
  let x1 := transfer_fired x n r gs1 G' b in
  I (put_nodes self (Transfer x1) net) →
  (∀ e c cur cur', e ∈ ins → I cur → eb e c cur = Ok cur' →
     I cur' ∧ node_obj cur' self = node_obj cur self) →
  transfer_nodes_backward eb self n g net =
    (net2 ← for_each (λ e cur, eb e (Some G') cur) ins
               (put_nodes self (Transfer x1) net);
     Ok (put_nodes self (Transfer (transfer_released x1 n)) net2)).
Proof.
  intros Hobj Hn Hr Houts Hins Hfire Hacc HG HF Hb G' x1 HI Hframe.
  unfold transfer_nodes_backward.
  rewrite (get_transfer_nodes_ok _ _ _ Hobj). cbn [mbind result_bind].
  rewrite (proj2 (Nat.ltb_lt _ _) Hn). cbn [ZI_ASSERT mbind result_bind].
  unfold at_index, at_ptr. rewrite Hr. cbn [mbind result_bind].
  rewrite Hacc. tn_simpl.
  tn_simpl. rewrite Houts. tn_simpl.
  assert ((S r =? length outs) || (length outs =? 0) = true) as ->.
  { apply orb_true_iff. destruct Hfire as [H|H]; [left|right];
      by apply Nat.eqb_eq. }
  rewrite HG. tn_simpl. rewrite HF. tn_simpl. rewrite Hb. tn_simpl. rewrite Hins. tn_simpl.
  apply (transfer_dispatch_loop eb self n x1 G'
           (λ x net2, Ok (put_nodes self (Transfer (transfer_released x n)) net2))
           I ins); [|done|done|].
  - unfold x1, transfer_fired. cbn [transfer_nodes.gs_
      transfer_nodes.set_biases_ transfer_nodes.set_gs_].
    apply list_lookup_insert_eq. by eapply lookup_lt_Some.
  - apply node_obj_put_nodes_eq. by eapply node_obj_valid.
Qed.

(** the same for the method as [nodes::backward] dispatches it, in a graph
    whose edges run upwards in [rank] *)
Lemma transfer_backward_fire_ranked rank fuel self n g net x r outs ins gs1
    G F b :
  upstream_ranked rank net →
  node_obj net self = Some (Transfer x) →
  n < transfer_nodes.size_ x →
  transfer_nodes.received_ x !! n = Some r →
  transfer_nodes.outputs_ x !! n = Some outs →
  transfer_nodes.inputs_ x !! n = Some ins →
  S r = length outs ∨ length outs = 0 →
  accumulate r (transfer_nodes.gs_ x) n g = Ok gs1 →
  gs1 !! n = Some (Some G) →
  transfer_nodes.fs_ x !! n = Some (Some F) →
  transfer_nodes.biases_ x !! n = Some b →
  let G' := tf_apply_grad (transfer_nodes.func_ x) G F in
  let x1 := transfer_fired x n r gs1 G' b in
  nodes_backward (S fuel) self n g net =
    (net2 ← for_each
               (λ e cur,
                  edge_of_backward (nodes_backward fuel) e (Some G') cur)
               ins (put_nodes self (Transfer x1) net);
     Ok (put_nodes self (Transfer (transfer_released x1 n)) net2)).
Proof.
  intros U Hobj Hn Hr Houts Hins Hfire Hacc HG HF Hb G' x1.
  cbn [nodes_backward].
  rewrite (proj2 (get_nodes_node_obj _ _ _) Hobj). cbn [mbind result_bind].
  assert (bframe rank (rank self) net (put_nodes self (Transfer x1) net))
    as F1.
  { apply bframe_put_nodes. intros o Ho. rewrite Hobj in Ho.
    by injection Ho as <-. }
  apply (transfer_backward_fire_eq _
    (λ cur, upstream_ranked rank cur ∧ c_in cur self n = ins)
    self n g net x r outs ins gs1 G F b); try done.
  - split; [by eapply bframe_ranked|].
    rewrite (bframe_c_in _ _ _ _ _ _ F1).
    by apply (c_in_node_obj _ _ (Transfer x)).
  - intros e c cur cur' He [Uc Hc] Heb.
    apply (edge_backward_frame rank) in Heb;
      [|apply nodes_backward_frame|done].
    split; [split|].
    + by eapply bframe_ranked.
    + by rewrite (bframe_c_in _ _ _ _ _ _ Heb).
    + apply (bf_above _ _ _ _ Heb). apply (Uc self n). by rewrite Hc.
Qed.

End TransferBackward.

(** ** Edge groups: the wiring *)

Section Occurrences.
Lemma occurrences_app e l1 l2 :
  occurrences e (l1 ++ l2) = occurrences e l1 + occurrences e l2.
Proof. unfold occurrences. by rewrite filter_app, length_app. Qed.
Lemma occurrences_notin e l : e ∉ l → occurrences e l = 0.
Proof.
  unfold occurrences. induction l as [|x l IH]; [done|].
  intros [Hx Hl]%not_elem_of_cons. rewrite filter_cons.
  rewrite decide_False by done. by apply IH.
Qed.
Lemma occurrences_nodup e l : NoDup l → e ∈ l → occurrences e l = 1.
Proof.
  induction l as [|x l IH]; [by intros _ ?%elem_of_nil|].
  intros [Hx Hnd]%NoDup_cons [->|He]%elem_of_cons; unfold occurrences;
    rewrite filter_cons.
  - rewrite decide_True by done. simpl. f_equal. by apply (occurrences_notin x l).
  - rewrite decide_False by (intros ->; done). by apply IH.
Qed.
End Occurrences.

Section EdgeCtor.
Context `{Ext : Externals}.

Lemma push_at_lookup v i e j l :
  v !! i = Some l →
  push_at v i e !! j = if decide (j = i) then Some (l ++ [e]) else v !! j.
Proof.
  intros H. unfold push_at. rewrite H. case_decide as Hj.
  - subst. apply list_lookup_insert_eq. by eapply lookup_lt_Some.
  - by apply list_lookup_insert_ne.
Qed.
Lemma push_at_length v i e : length (push_at v i e) = length v.
Proof. unfold push_at. destruct (v !! i); [apply length_insert|done]. Qed.

Lemma attach_out_edge_ok o i e o' :
  attach_out_edge o i e = Ok o' →
  i < num_out_nodes o ∧
  outputs_of o' = push_at (outputs_of o) i e ∧
  inputs_of o' = inputs_of o ∧
  num_out_nodes o' = num_out_nodes o ∧ is_input o' = is_input o.
Proof.
  destruct o as [x|x|x]; simpl; intros (_ & Hi%assert_ok%Nat.ltb_lt & [= <-])%bind_ok;
    done.
Qed.
Lemma attach_in_edge_ok o i e o' :
  attach_in_edge o i e = Ok o' →
  i < num_out_nodes o ∧ is_input o = false ∧
  inputs_of o' = push_at (inputs_of o) i e ∧
  outputs_of o' = outputs_of o ∧
  num_out_nodes o' = num_out_nodes o ∧ is_input o' = is_input o.
Proof.
  destruct o as [x|x|x]; simpl; [done|..];
    intros (_ & Hi%assert_ok%Nat.ltb_lt & [= <-])%bind_ok; done.
Qed.

Lemma node_obj_set_edge_arena v net p :
  node_obj (set_edge_arena v net) p = node_obj net p.
Proof. done. Qed.

Lemma edge_arena_put_nodes p o net :
  edge_arena (put_nodes p o net) = edge_arena net.
Proof. unfold put_nodes. by destruct (nnodes_arena net !! p). Qed.
Lemma filter_arena_put_nodes p o net :
  filter_arena (put_nodes p o net) = filter_arena net.
Proof. unfold put_nodes. by destruct (nnodes_arena net !! p). Qed.

Lemma edge_of_ctor_spec in_ inn out outn impl net this net' :
  vectors_ok net →
  edge_of_ctor in_ inn out outn impl net = Ok (this, net') →
  this = length (edge_arena net) ∧
  edge_arena net' = edge_arena net ++ [edge_of.Build in_ inn out outn impl] ∧
  filter_arena net' = filter_arena net ∧
  vectors_ok net' ∧
  (∀ p, c_size net' p = c_size net p) ∧
  inn < c_size net in_ ∧ outn < c_size net out ∧
  (∀ p i, c_out net' p i =
     c_out net p i ++ (if decide (p = in_ ∧ i = inn) then [this] else [])) ∧
  (∀ p i, c_in net' p i =
     c_in net p i ++ (if decide (p = out ∧ i = outn) then [this] else [])).
Proof.
  intros V H. unfold edge_of_ctor in H.
  set (net0 := set_edge_arena _ net) in H.
  apply bind_ok in H as (o1 & Ho1%get_nodes_node_obj & H).
  apply bind_ok in H as (o1' & Ha1%attach_out_edge_ok & H).
  set (net1 := put_nodes in_ o1' net0) in H.
  apply bind_ok in H as (o2 & Ho2%get_nodes_node_obj & H).
  apply bind_ok in H as (o2' & Ha2%attach_in_edge_ok & [= <- <-]).
  destruct Ha1 as (Hi1 & Hout1 & Hin1 & Hsz1 & Hk1).
  destruct Ha2 as (Hi2 & Hni2 & Hin2 & Hout2 & Hsz2 & Hk2).
  change (node_obj net0 in_) with (node_obj net in_) in Ho1.
  pose proof (node_obj_valid _ _ _ Ho1) as Hv1.
  pose proof (node_obj_valid _ _ _ Ho2) as Hv2.
  assert (node_obj net1 in_ = Some o1') as Ho1'
    by (by apply node_obj_put_nodes_eq).
  assert (∀ q, q ≠ in_ → node_obj net1 q = node_obj net q) as Hoth1
    by (intros; unfold net1; by rewrite node_obj_put_nodes_ne).
  set (net2 := put_nodes out o2' net1).
  assert (node_obj net2 out = Some o2') as Ho2'
    by (by apply node_obj_put_nodes_eq).
  assert (∀ q, q ≠ out → node_obj net2 q = node_obj net1 q) as Hoth2
    by (intros; by apply node_obj_put_nodes_ne).
  (* the object at [out] before the second attachment *)
  assert (∃ o2o, node_obj net out = Some o2o ∧
            num_out_nodes o2 = num_out_nodes o2o ∧
            inputs_of o2 = inputs_of o2o ∧ is_input o2 = is_input o2o ∧
            outputs_of o2 =
              (if decide (out = in_) then push_at (outputs_of o2o) inn
                                            (length (edge_arena net))
               else outputs_of o2o)) as (o2o & Ho2o & Hsz2o & Hin2o & Hk2o & Hout2o).
  { destruct (decide (out = in_)) as [->|Hne].
    - rewrite Ho1' in Ho2. injection Ho2 as <-. exists o1. done.
    - rewrite Hoth1 in Ho2 by done. exists o2. done. }
  destruct (V _ _ Ho1) as [Vo1 Vi1]. destruct (V _ _ Ho2o) as [Vo2 Vi2].
  fold net2.
  split; [done|]. split; [by unfold net2, net1; rewrite !edge_arena_put_nodes|].
  split; [by unfold net2, net1; rewrite !filter_arena_put_nodes|].
  split; [|split; [|split; [|split; [|split]]]].
  - intros p o Ho. destruct (decide (p = out)) as [->|Hpo].
    + rewrite Ho2' in Ho. injection Ho as <-.
      rewrite Hout2, Hsz2, Hin2, Hk2, push_at_length, Hout2o, Hsz2o, Hin2o, Hk2o.
      destruct (decide (out = in_)); rewrite ?push_at_length; done.
    + rewrite Hoth2 in Ho by done. destruct (decide (p = in_)) as [->|Hpi].
      * rewrite Ho1' in Ho. injection Ho as <-.
        rewrite Hout1, Hin1, Hsz1, Hk1, push_at_length. done.
      * rewrite Hoth1 in Ho by done. by apply (V p).
  - intros p. unfold c_size. destruct (decide (p = out)) as [->|Hpo].
    + rewrite Ho2', Ho2o. simpl. congruence.
    + rewrite Hoth2 by done. destruct (decide (p = in_)) as [->|Hpi].
      * rewrite Ho1', Ho1. simpl. done.
      * by rewrite Hoth1.
  - unfold c_size. rewrite Ho1. done.
  - unfold c_size. rewrite Ho2o. simpl. lia.
  - intros p i. unfold c_out.
    destruct (lookup_lt_is_Some_2 (outputs_of o1) inn ltac:(lia)) as [l Hl].
    destruct (decide (p = out)) as [->|Hpo].
    + rewrite Ho2', Ho2o. simpl. rewrite Hout2, Hout2o.
      destruct (decide (out = in_)) as [->|Hne].
      * rewrite Ho1 in Ho2o. injection Ho2o as <-.
        rewrite (push_at_lookup _ _ _ _ _ Hl).
        destruct (decide (i = inn)) as [->|Hi].
        -- rewrite decide_True by done. by rewrite Hl.
        -- rewrite decide_False by (intros [_ ?]; done). by rewrite app_nil_r.
      * rewrite decide_False by (intros [? _]; done). by rewrite app_nil_r.
    + rewrite Hoth2 by done. destruct (decide (p = in_)) as [->|Hpi].
      * rewrite Ho1', Ho1. simpl. rewrite Hout1, (push_at_lookup _ _ _ _ _ Hl).
        destruct (decide (i = inn)) as [->|Hi].
        -- rewrite decide_True by done. by rewrite Hl.
        -- rewrite decide_False by (intros [_ ?]; done). by rewrite app_nil_r.
      * rewrite Hoth1 by done.
        rewrite decide_False by (intros [? _]; done). by rewrite app_nil_r.
  - intros p i. unfold c_in.
    assert (outn < length (inputs_of o2o)) as Hlt.
    { rewrite Vi2; [lia|congruence]. }
    destruct (lookup_lt_is_Some_2 (inputs_of o2o) outn Hlt) as [l Hl].
    destruct (decide (p = out)) as [->|Hpo].
    + rewrite Ho2', Ho2o. simpl. rewrite Hin2, Hin2o.
      rewrite (push_at_lookup _ _ _ _ _ Hl).
      destruct (decide (i = outn)) as [->|Hi].
      * rewrite decide_True by done. by rewrite Hl.
      * rewrite decide_False by (intros [_ ?]; done). by rewrite app_nil_r.
    + rewrite Hoth2 by done.
      rewrite decide_False by (intros [? _]; done). rewrite app_nil_r.
      destruct (decide (p = in_)) as [->|Hpi].
      * rewrite Ho1', Ho1. simpl. by rewrite Hin1.
      * by rewrite Hoth1.
Qed.

End EdgeCtor.

Section Created.
Context `{Ext : Externals}.

Lemma tally_nil len0 sel e : tally len0 [] sel e = 0.
Proof. unfold tally. by case_decide. Qed.

Lemma tally_snoc len0 objs o sel e :
  tally len0 (objs ++ [o]) sel e =
  tally len0 objs sel e
    + (if sel o then occurrences e [len0 + length objs] else 0).
Proof.
  unfold tally, occurrences. rewrite filter_cons, filter_nil.
  destruct (decide (len0 ≤ e)) as [Hle|Hle].
  - destruct (decide (e - len0 < length objs)) as [Hlt|Hge].
    + rewrite lookup_app_l by done.
      rewrite decide_False by lia. simpl. destruct (sel o); lia.
    + rewrite lookup_app_r by lia.
      rewrite (lookup_ge_None_2 objs) by lia.
      destruct (decide (e - len0 = length objs)) as [Heq|Hne].
      * rewrite Heq, Nat.sub_diag. simpl.
        rewrite decide_True by lia. simpl. destruct (sel o); lia.
      * rewrite decide_False by lia.
        rewrite lookup_ge_None_2 by (simpl; lia). simpl. destruct (sel o); lia.
  - rewrite decide_False by lia. destruct (sel o); simpl; lia.
Qed.

Lemma tally_at len0 objs sel k o :
  objs !! k = Some o → sel o = true → tally len0 objs sel (len0 + k) = 1.
Proof.
  intros Hk Hs. unfold tally. rewrite decide_True by lia.
  replace (len0 + k - len0) with k by lia. by rewrite Hk, Hs.
Qed.

Lemma created_refl net : vectors_ok net → created net net [].
Proof.
  intros V. split; [by rewrite app_nil_r|done|done|..];
    intros; by rewrite tally_nil, Nat.add_0_r.
Qed.

Lemma created_set_filter_arena net0 net objs v :
  created net0 net objs → created net0 (set_filter_arena v net) objs.
Proof. intros []. by split. Qed.

Lemma created_step net0 net objs in_ inn out outn impl this net' :
  created net0 net objs →
  edge_of_ctor in_ inn out outn impl net = Ok (this, net') →
  this = length (edge_arena net0) + length objs ∧
  inn < c_size net0 in_ ∧ outn < c_size net0 out ∧
  filter_arena net' = filter_arena net ∧
  created net0 net' (objs ++ [edge_of.Build in_ inn out outn impl]).
Proof.
  intros [Ha V Hs Ho Hi] H.
  apply edge_of_ctor_spec in H
    as (Hthis & Ha' & Hf & V' & Hs' & Hinn & Houtn & Ho' & Hi'); [|done].
  assert (this = length (edge_arena net0) + length objs) as Hthis'.
  { rewrite Hthis, Ha, length_app. done. }
  rewrite <-!Hs. repeat (split; [done|]). split.
  - by rewrite Ha', Ha, <-app_assoc.
  - done.
  - intros p. by rewrite Hs'.
  - intros p i e. rewrite Ho', occurrences_app, Ho, tally_snoc, <-Nat.add_assoc.
    f_equal. f_equal. unfold leaves. simpl.
    destruct (decide (p = in_ ∧ i = inn)) as [[-> ->]|Hne].
    + rewrite bool_decide_eq_true_2 by done. by rewrite Hthis'.
    + rewrite bool_decide_eq_false_2; [done|]. intros [<- <-]. by apply Hne.
  - intros p i e. rewrite Hi', occurrences_app, Hi, tally_snoc, <-Nat.add_assoc.
    f_equal. f_equal. unfold enters. simpl.
    destruct (decide (p = out ∧ i = outn)) as [[-> ->]|Hne].
    + rewrite bool_decide_eq_true_2 by done. by rewrite Hthis'.
    + rewrite bool_decide_eq_false_2; [done|]. intros [<- <-]. by apply Hne.
Qed.

(** A loop whose body constructs one edge per element [x], related to [x]
    by [J]. *)
Section CreatingLoop.
Context {S X : Type} (enet : S → network) (eedges : S → list ptr).
Context (body : X → S → result S) (J : X → edge_of.t → Prop).
Context (net0 : network).

Hypothesis body_creates : ∀ x s s' objs,
  created net0 (enet s) objs → body x s = Ok s' →
  ∃ o, J x o ∧ created net0 (enet s') (objs ++ [o]) ∧
       eedges s' =
         eedges s ++ [length (edge_arena net0) + length objs].

Lemma creating_loop xs : ∀ s s' objs,
  created net0 (enet s) objs → for_each body xs s = Ok s' →
  ∃ objs', Forall2 J xs objs' ∧
    created net0 (enet s') (objs ++ objs') ∧
    eedges s' =
      eedges s ++
        ((λ k, length (edge_arena net0) + length objs + k)
           <$> seq 0 (length xs)).
Proof using body_creates.
  induction xs as [|x xs IH]; intros s s' objs Hc H; simpl in H.
  - injection H as <-. exists []. rewrite !app_nil_r.
    split; [constructor|]. split; [done|]. done.
  - apply bind_ok in H as (s1 & Hb & H).
    destruct (body_creates _ _ _ _ Hc Hb) as (o & Hj & Hc1 & He1).
    destruct (IH _ _ _ Hc1 H) as (objs' & HF & Hc' & He').
    exists (o :: objs'). split; [by constructor|].
    split; [by rewrite <-app_assoc in Hc'|].
    rewrite He', He1, <-app_assoc. f_equal. simpl. f_equal; [lia|].
    rewrite <-fmap_S_seq, <-list_fmap_compose. apply list_fmap_ext.
    intros ? k _. simpl. rewrite length_app. simpl. lia.
Qed.
End CreatingLoop.

End Created.

Section EdgeGroups.
Context `{Ext : Externals}.

Lemma pairs_from_length a n m : length (pairs_from a n m) = n * m.
Proof.
  unfold pairs_from. revert a. induction n as [|n IH]; intros a; [done|].
  simpl. rewrite length_app, length_fmap, length_seq, IH. done.
Qed.

Lemma pairs_from_lookup m : ∀ n a i j,
  i < n → j < m → pairs_from a n m !! (i * m + j) = Some (a + i, j).
Proof.
  unfold pairs_from.
  induction n as [|n IH]; intros a i j Hi Hj; [lia|]. simpl.
  destruct i as [|i].
  - rewrite lookup_app_l by (rewrite length_fmap, length_seq; simpl; lia).
    simpl. rewrite list_lookup_fmap, lookup_seq_lt by done. simpl.
    by rewrite Nat.add_0_r.
  - rewrite lookup_app_r by (rewrite length_fmap, length_seq; simpl; lia).
    rewrite length_fmap, length_seq.
    replace (S i * m + j - m) with (i * m + j) by (simpl; lia).
    rewrite IH by lia. do 2 f_equal. lia.
Qed.

Lemma for_each_app {S X} (body : X → S → result S) l1 l2 s :
  for_each body (l1 ++ l2) s = (s' ← for_each body l1 s; for_each body l2 s').
Proof.
  revert s. induction l1 as [|x l1 IH]; intros s; simpl; [done|].
  destruct (body x s); simpl; [apply IH|done].
Qed.
Lemma for_each_fmap {S X Y} (body : Y → S → result S) (f : X → Y) l s :
  for_each body (f <$> l) s = for_each (λ x, body (f x)) l s.
Proof.
  revert s. induction l as [|x l IH]; intros s; simpl; [done|].
  destruct (body (f x) s); simpl; [apply IH|done].
Qed.
Lemma for_each_nested {S} (g : nat → nat → S → result S) a n m s :
  for_each (λ i st, for_each (g i) (seq 0 m) st) (seq a n) s =
  for_each (λ ij, g ij.1 ij.2) (pairs_from a n m) s.
Proof.
  unfold pairs_from.
  revert a s. induction n as [|n IH]; intros a s; simpl; [done|].
  rewrite for_each_app, for_each_fmap. simpl.
  destruct (for_each (g a) (seq 0 m) s); simpl; [apply IH|done].
Qed.

Lemma created_wires net0 net objs in_ out xs k x :
  arena_closed net0 → created net0 net objs →
  Forall2 (joins net0 in_ out) xs objs → xs !! k = Some x →
  wires net (length (edge_arena net0) + k) in_ x.1 out x.2.
Proof.
  intros Hcl [Ha V Hs Ho Hi] HF Hk.
  destruct (Forall2_lookup_l _ _ _ _ _ HF Hk)
    as (o & Hok & Hin & Hinn & Hout & Houtn & Hb1 & Hb2).
  assert (edge_arena net !! (length (edge_arena net0) + k) = Some o) as Hl.
  { rewrite Ha, lookup_app_r by lia.
    by replace (length (edge_arena net0) + k - length (edge_arena net0))
      with k by lia. }
  split.
  - unfold valid_edge. by eapply lookup_lt_Some.
  - unfold ed_in. by rewrite Hl.
  - unfold ed_in_num. by rewrite Hl.
  - unfold ed_out. by rewrite Hl.
  - unfold ed_out_num. by rewrite Hl.
  - by rewrite Hs.
  - by rewrite Hs.
  - rewrite Ho, occurrences_notin.
    + simpl. apply (tally_at _ _ _ _ o); [done|].
      unfold leaves. by apply bool_decide_eq_true_2.
    + intros Hel. specialize (Hcl in_ x.1 _ (or_introl Hel)). lia.
  - rewrite Hi, occurrences_notin.
    + simpl. apply (tally_at _ _ _ _ o); [done|].
      unfold enters. by apply bool_decide_eq_true_2.
    + intros Hel. specialize (Hcl out x.2 _ (or_intror Hel)). lia.
Qed.

Lemma fmap_offset_seq a n :
  [] ++ ((λ k, a + 0 + k) <$> seq 0 n) = seq a n.
Proof.
  simpl. transitivity (seq (a + 0) n); [|f_equal; lia].
  rewrite <-fmap_add_seq. apply list_fmap_ext. intros; simpl; lia.
Qed.

Lemma created_length net0 net objs :
  created net0 net objs →
  length (edge_arena net) = length (edge_arena net0) + length objs.
Proof. intros [Ha _ _ _ _]. by rewrite Ha, length_app. Qed.

Lemma diagonal_edges_created in_ out impl n net edges net' :
  vectors_ok net →
  diagonal_edges in_ out impl n net = Ok (edges, net') →
  ∃ objs, Forall2 (joins net in_ out) ((λ i, (i, i)) <$> seq 0 n) objs ∧
    created net net' objs ∧ edges = seq (length (edge_arena net)) n.
Proof.
  intros V H. unfold diagonal_edges in H.
  eapply (creating_loop (S:=list ptr * network) snd fst _
            (λ i, joins net in_ out (i, i)) net) with (objs := [])
    in H as (objs & HF & Hc & He).
  - exists objs. split; [apply Forall2_fmap_l; exact HF|]. split; [exact Hc|].
    simpl in He. rewrite He, length_seq.
    apply fmap_offset_seq.
  - intros i [es cur] s' objs Hc Hb. simpl in *.
    apply bind_ok in Hb as ([this cur'] & Hctor & [= <-]).
    eapply created_step in Hctor as (-> & H1 & H2 & _ & Hc'); [|done].
    eexists. split; [|split; [exact Hc'|done]]. by repeat split.
  - by apply created_refl.
Qed.

Lemma filter_edges_wire_created in_ out n m sz stride eta mom wd net
    filters edges net' :
  vectors_ok net →
  filter_edges_wire in_ out n m sz stride eta mom wd net
    = Ok (filters, edges, net') →
  ∃ objs, Forall2 (joins net in_ out) (pairs_from 0 n m) objs ∧
    created net net' objs ∧ edges = seq (length (edge_arena net)) (n * m).
Proof.
  intros V H. unfold filter_edges_wire in H.
  rewrite (for_each_nested
    (λ i j (st : list ptr * list ptr * network),
       let '(filters, edges, net) := st in
       let f := length (filter_arena net) in
       let net :=
         set_filter_arena (filter_arena net ++ [filter_new sz eta mom wd])
                          net in
       r ← edge_of_ctor in_ i out j (filter_e (filter_edge.ctor stride f)) net;
       Ok (filters ++ [f], edges ++ [r.1], r.2))) in H.
  eapply (creating_loop (S:=list ptr * list ptr * network) snd (λ s, s.1.2) _
            (joins net in_ out) net) with (objs := [])
    in H as (objs & HF & Hc & He).
  - exists objs. split; [exact HF|]. split; [exact Hc|].
    simpl in He. rewrite He, pairs_from_length.
    apply fmap_offset_seq.
  - intros [i j] [[fs es] cur] s' objs Hc Hb. simpl in *.
    apply bind_ok in Hb as ([this cur'] & Hctor & [= <-]).
    eapply created_step in Hctor as (-> & H1 & H2 & _ & Hc');
      [|by apply created_set_filter_arena].
    eexists. split; [|split; [exact Hc'|done]]. by repeat split.
  - by apply created_refl.
Qed.

Lemma created_put_filters net0 net objs (l : list (ptr * filter)) :
  created net0 net objs →
  created net0 (foldl (λ net fo, put_filter fo.1 fo.2 net) net l) objs.
Proof.
  revert net. induction l as [|[f x] l IH]; intros net Hc; simpl; [done|].
  apply IH. by apply created_set_filter_arena.
Qed.

Lemma get_nodes_c_size net p o :
  get_nodes net p = Ok o → c_size net p = num_out_nodes o ∧ valid_node net p.
Proof.
  intros H%get_nodes_node_obj. split; [|by eapply node_obj_valid].
  unfold c_size. by rewrite H.
Qed.

Lemma diagonal_edges_wired in_ out impl net edges net' :
  vectors_ok net → arena_closed net →
  c_size net in_ = c_size net out →
  diagonal_edges in_ out impl (c_size net in_) net = Ok (edges, net') →
  diagonal_wired in_ out net edges net'.
Proof.
  intros V Hcl Heq H.
  apply diagonal_edges_created in H as (objs & HF & Hc & ->); [|done].
  split; [done|]. split; [|split; [done|]].
  - rewrite (created_length _ _ _ Hc). f_equal.
    apply Forall2_length in HF. by rewrite length_fmap, length_seq in HF.
  - intros i Hi.
    apply (created_wires _ _ _ _ _ _ i (i, i) Hcl Hc HF).
    by rewrite list_lookup_fmap, lookup_seq_lt.
Qed.

Lemma dummy_edges_ctor_wired in_ out opts net g net' :
  vectors_ok net → arena_closed net →
  dummy_edges_ctor in_ out opts net = Ok (g, net') →
  diagonal_wired in_ out net (dummy_edges.edges_ g) net'.
Proof.
  intros V Hcl H. unfold dummy_edges_ctor in H.
  apply bind_ok in H as (oi & [Hn _]%get_nodes_c_size & H).
  apply bind_ok in H as (oo & [Hm _]%get_nodes_c_size & H).
  apply bind_ok in H as (_ & Heq%assert_ok%Nat.eqb_eq & H).
  apply bind_ok in H as ([edges net1] & Hd & [= <- <-]). simpl.
  unfold num_in_nodes in Heq. rewrite <-Hn in Hd.
  eapply diagonal_edges_wired; [done..|congruence|done].
Qed.

Lemma max_pooling_edges_ctor_wired in_ out opts stride net g net' :
  vectors_ok net → arena_closed net →
  max_pooling_edges_ctor in_ out opts stride net = Ok (g, net') →
  diagonal_wired in_ out net (max_pooling_edges.edges_ g) net'.
Proof.
  intros V Hcl H. unfold max_pooling_edges_ctor in H.
  apply bind_ok in H as (oi & [Hn _]%get_nodes_c_size & H).
  apply bind_ok in H as (oo & [Hm _]%get_nodes_c_size & H).
  apply bind_ok in H as (_ & Heq%assert_ok%Nat.eqb_eq & H).
  apply bind_ok in H as (sz & _ & H).
  apply bind_ok in H as ([edges net1] & Hd & [= <- <-]). simpl.
  unfold num_in_nodes in Heq. rewrite <-Hn in Hd.
  eapply diagonal_edges_wired; [done..|congruence|done].
Qed.

Lemma filter_edges_ctor_wired in_ out opts stride net g net' :
  vectors_ok net → arena_closed net →
  filter_edges_ctor in_ out opts stride net = Ok (g, net') →
  cartesian_wired in_ out net (filter_edges.edges_ g) net'.
Proof.
  intros V Hcl H. unfold filter_edges_ctor in H.
  apply bind_ok in H as (oi & [Hn _]%get_nodes_c_size & H).
  apply bind_ok in H as (oo & [Hm _]%get_nodes_c_size & H).
  apply bind_ok in H as (? & _ & H). apply bind_ok in H as (eta & _ & H).
  apply bind_ok in H as (mom & _ & H). apply bind_ok in H as (wd & _ & H).
  apply bind_ok in H as (sz & _ & H).
  apply bind_ok in H as ([[filters edges] net1] & Hw & H).
  apply bind_ok in H as (fv & _ & H).
  apply bind_ok in H as (objs0 & _ & H).
  apply bind_ok in H as (objs1 & _ & [= <- <-]). simpl.
  unfold num_in_nodes in Hw. rewrite <-Hn, <-Hm in Hw.
  apply filter_edges_wire_created in Hw as (objs & HF & Hc & ->); [|done].
  apply (created_put_filters _ _ _ (zip filters objs1)) in Hc.
  split; [|split; [done|]].
  - rewrite (created_length _ _ _ Hc). f_equal.
    apply Forall2_length in HF. by rewrite pairs_from_length in HF.
  - intros i j Hi Hj.
    apply (created_wires _ _ _ _ _ _ (i * c_size net out + j) (i, j) Hcl Hc HF).
    by rewrite pairs_from_lookup.
Qed.

Lemma diagonal_ctors_unequal in_ out opts stride net :
  valid_node net in_ → valid_node net out →
  c_size net in_ ≠ c_size net out →
  dummy_edges_ctor in_ out opts net = Err AssertionFailed ∧
  max_pooling_edges_ctor in_ out opts stride net = Err AssertionFailed.
Proof.
  intros Hi Ho Hne.
  destruct (lookup_lt_is_Some_2 _ _ Hi) as [ni Hni].
  destruct (lookup_lt_is_Some_2 _ _ Ho) as [no Hno].
  unfold c_size, node_obj in Hne. rewrite Hni, Hno in Hne. simpl in Hne.
  apply Nat.eqb_neq in Hne.
  unfold dummy_edges_ctor, max_pooling_edges_ctor, get_nodes, get_nnodes,
    at_ptr, num_in_nodes.
  rewrite Hni, Hno. simpl. by rewrite Hne.
Qed.

(** the diagonal edge groups are constructed *)
Lemma attach_out_edge_succeeds o i e :
  i < num_out_nodes o → ∃ o', attach_out_edge o i e = Ok o'.
Proof.
  intros Hi%Nat.ltb_lt. destruct o as [x|x|x]; simpl in *; rewrite Hi;
    simpl; eauto.
Qed.

Lemma attach_in_edge_succeeds o i e :
  is_input o = false → i < num_out_nodes o →
  ∃ o', attach_in_edge o i e = Ok o'.
Proof.
  intros Hk Hi%Nat.ltb_lt. destruct o as [x|x|x]; simpl in *; [done|..];
    rewrite Hi; simpl; eauto.
Qed.

(** the constructor of an edge object returns when both channels exist
    and the downstream node group takes in-edges *)
Lemma edge_of_ctor_succeeds in_ inn out outn impl net :
  valid_node net in_ → valid_node net out → ¬ input_at net out →
  inn < c_size net in_ → outn < c_size net out →
  ∃ this net', edge_of_ctor in_ inn out outn impl net = Ok (this, net') ∧
    (∀ p, valid_node net' p ↔ valid_node net p) ∧
    (∀ p, input_at net' p ↔ input_at net p).
Proof.
  intros Hvi Hvo Hni Hi Ho. unfold edge_of_ctor.
  set (net0 := set_edge_arena _ net).
  destruct (lookup_lt_is_Some_2 _ _ Hvi) as [ni Hli].
  assert (node_obj net0 in_ = Some (nnodes.nodes_obj ni)) as Hoi
    by (unfold node_obj; cbn; by rewrite Hli).
  rewrite (proj2 (get_nodes_node_obj _ _ _) Hoi). cbn [mbind result_bind].
  assert (c_size net in_ = num_out_nodes (nnodes.nodes_obj ni)) as Hsi
    by (unfold c_size, node_obj; by rewrite Hli).
  destruct (attach_out_edge_succeeds (nnodes.nodes_obj ni) inn
              (length (edge_arena net))) as [o1 Ha1]; [lia|].
  rewrite Ha1. cbn [mbind result_bind].
  apply attach_out_edge_ok in Ha1 as (_ & _ & _ & Hsz1 & Hk1).
  set (net1 := put_nodes in_ o1 net0).
  assert (∃ o2, node_obj net1 out = Some o2 ∧ is_input o2 = false ∧
                num_out_nodes o2 = c_size net out) as (o2 & Ho2 & Hk2 & Hs2).
  { destruct (decide (out = in_)) as [->|Hne].
    - exists o1. unfold net1. rewrite node_obj_put_nodes_eq by done.
      split; [done|]. split; [|lia].
      rewrite Hk1. unfold input_at, node_obj in Hni. rewrite Hli in Hni.
      simpl in Hni. destruct (is_input _); [by destruct Hni|done].
    - unfold net1. rewrite node_obj_put_nodes_ne by done.
      destruct (lookup_lt_is_Some_2 _ _ Hvo) as [no Hlo].
      exists (nnodes.nodes_obj no).
      assert (node_obj net out = Some (nnodes.nodes_obj no)) as Hoo
        by (unfold node_obj; by rewrite Hlo).
      split; [done|]. unfold input_at, c_size in *. rewrite Hoo in *.
      simpl in *. split; [|done].
      destruct (is_input _); [by destruct Hni|done]. }
  rewrite (proj2 (get_nodes_node_obj _ _ _) Ho2). cbn [mbind result_bind].
  destruct (attach_in_edge_succeeds o2 outn (length (edge_arena net)))
    as [o3 Ha3]; [done|lia|].
  rewrite Ha3. cbn [mbind result_bind].
  apply attach_in_edge_ok in Ha3 as (_ & _ & _ & _ & _ & Hk3).
  eexists _, _. split; [done|].
  assert (∀ p, valid_node (put_nodes out o3 net1) p ↔ valid_node net p) as Hv.
  { intros p. unfold valid_node, net1, put_nodes, put_nnodes,
      set_nnodes_arena.
    repeat (destruct (_ !! _); cbn [nnodes_arena];
            rewrite ?length_insert); done. }
  split; [done|]. intros p. unfold input_at.
  destruct (decide (p = out)) as [->|Hpo].
  - assert (valid_node net1 out) as Hvo1.
    { unfold valid_node, net1, put_nodes, put_nnodes, set_nnodes_arena.
      destruct (_ !! _); cbn [nnodes_arena]; rewrite ?length_insert; done. }
    rewrite node_obj_put_nodes_eq by done. simpl. rewrite Hk3.
    destruct (decide (out = in_)) as [->|Hne].
    + unfold net1 in Ho2. rewrite node_obj_put_nodes_eq in Ho2 by done.
      injection Ho2 as <-. rewrite Hk1. unfold node_obj. by rewrite Hli.
    + unfold net1 in Ho2. rewrite node_obj_put_nodes_ne in Ho2 by done.
      change (node_obj net0 out) with (node_obj net out) in Ho2.
      by rewrite Ho2.
  - rewrite node_obj_put_nodes_ne by done. unfold net1.
    destruct (decide (p = in_)) as [->|Hpi].
    + rewrite node_obj_put_nodes_eq by done. simpl. rewrite Hk1.
      unfold node_obj. by rewrite Hli.
    + by rewrite node_obj_put_nodes_ne by done.
Qed.

(** the loop of a diagonal edge group returns when its channels exist *)
Lemma diagonal_edges_succeeds in_ out impl net :
  vectors_ok net → valid_node net in_ → valid_node net out →
  ¬ input_at net out →
  ∀ n, n ≤ c_size net in_ → n ≤ c_size net out →
  ∃ r, diagonal_edges in_ out impl n net = Ok r.
Proof.
  intros V Hvi Hvo Hni n Hn1 Hn2. unfold diagonal_edges.
  assert (∀ is_ (st : list ptr * network),
            (∀ i, i ∈ is_ → i < n) →
            vectors_ok st.2 →
            (∀ p, c_size st.2 p = c_size net p) →
            (∀ p, valid_node st.2 p ↔ valid_node net p) →
            (∀ p, input_at st.2 p ↔ input_at net p) →
            ∃ r, for_each
                   (λ i (st : list ptr * network),
                      r ← edge_of_ctor in_ i out i impl st.2;
                      Ok (st.1 ++ [r.1], r.2)) is_ st = Ok r) as Hloop.
  { induction is_ as [|i is_ IH]; intros [l cur] Hlt Vc Hsz Hval Hinp.
    { eexists. reflexivity. }
    cbn [for_each snd fst] in *.
    assert (i < n) as Hi by (apply Hlt; left).
    destruct (edge_of_ctor_succeeds in_ i out i impl cur)
      as (this & cur' & Hrun & Hval' & Hinp').
    { by apply Hval. } { by apply Hval. } { by rewrite Hinp. }
    { rewrite Hsz. lia. } { rewrite Hsz. lia. }
    rewrite Hrun. cbn [mbind result_bind fst snd].
    destruct (edge_of_ctor_spec _ _ _ _ _ _ _ _ Vc Hrun)
      as (_ & _ & _ & Vc' & Hsz' & _).
    apply IH; cbn [snd].
    - intros j Hj. apply Hlt. by right.
    - done.
    - intros p. by rewrite Hsz'.
    - intros p. by rewrite Hval'.
    - intros p. by rewrite Hinp'. }
  apply Hloop; try done.
  intros i Hi%elem_of_seq. lia.
Qed.

Lemma dummy_edges_ctor_succeeds in_ out opts net :
  vectors_ok net → valid_node net in_ → valid_node net out →
  ¬ input_at net out → c_size net in_ = c_size net out →
  ∃ r, dummy_edges_ctor in_ out opts net = Ok r.
Proof.
  intros V Hvi Hvo Hni Heq. unfold dummy_edges_ctor.
  destruct (lookup_lt_is_Some_2 _ _ Hvi) as [ni Hli].
  destruct (lookup_lt_is_Some_2 _ _ Hvo) as [no Hlo].
  assert (node_obj net in_ = Some (nnodes.nodes_obj ni)) as Hoi
    by (unfold node_obj; by rewrite Hli).
  assert (node_obj net out = Some (nnodes.nodes_obj no)) as Hoo
    by (unfold node_obj; by rewrite Hlo).
  rewrite (proj2 (get_nodes_node_obj _ _ _) Hoi),
    (proj2 (get_nodes_node_obj _ _ _) Hoo). cbn [mbind result_bind].
  unfold c_size in Heq. rewrite Hoi, Hoo in Heq. simpl in Heq.
  unfold num_in_nodes. rewrite (proj2 (Nat.eqb_eq _ _) Heq).
  cbn [ZI_ASSERT mbind result_bind].
  destruct (diagonal_edges_succeeds in_ out dummy_edge net V Hvi Hvo Hni
              (num_out_nodes (nnodes.nodes_obj ni))) as [r Hr].
  { unfold c_size. by rewrite Hoi. }
  { unfold c_size. rewrite Hoo. simpl. lia. }
  rewrite Hr. cbn [mbind result_bind]. eauto.
Qed.

Lemma max_pooling_edges_ctor_succeeds in_ out opts stride sz net :
  vectors_ok net → valid_node net in_ → valid_node net out →
  ¬ input_at net out → c_size net in_ = c_size net out →
  opt.require_vec opts "size" = Ok sz →
  ∃ r, max_pooling_edges_ctor in_ out opts stride net = Ok r.
Proof.
  intros V Hvi Hvo Hni Heq Hsz. unfold max_pooling_edges_ctor.
  destruct (lookup_lt_is_Some_2 _ _ Hvi) as [ni Hli].
  destruct (lookup_lt_is_Some_2 _ _ Hvo) as [no Hlo].
  assert (node_obj net in_ = Some (nnodes.nodes_obj ni)) as Hoi
    by (unfold node_obj; by rewrite Hli).
  assert (node_obj net out = Some (nnodes.nodes_obj no)) as Hoo
    by (unfold node_obj; by rewrite Hlo).
  rewrite (proj2 (get_nodes_node_obj _ _ _) Hoi),
    (proj2 (get_nodes_node_obj _ _ _) Hoo). cbn [mbind result_bind].
  unfold c_size in Heq. rewrite Hoi, Hoo in Heq. simpl in Heq.
  unfold num_in_nodes. rewrite (proj2 (Nat.eqb_eq _ _) Heq).
  cbn [ZI_ASSERT mbind result_bind]. rewrite Hsz. cbn [mbind result_bind].
  destruct (diagonal_edges_succeeds in_ out
              (max_pooling (max_pooling_edge.ctor sz stride)) net V Hvi Hvo
              Hni (num_out_nodes (nnodes.nodes_obj ni))) as [r Hr].
  { unfold c_size. by rewrite Hoi. }
  { unfold c_size. rewrite Hoo. simpl. lia. }
  rewrite Hr. cbn [mbind result_bind]. eauto.
Qed.

End EdgeGroups.

(** ** The constructor registers every edge *)

Section InitFrame.
Context `{Ext : Externals}.

Lemma same_objects_refl a : same_objects a a.
Proof. by split. Qed.
Lemma same_objects_trans a b c :
  same_objects a b → same_objects b c → same_objects a c.
Proof.
  intros [E1 O1] [E2 O2]. split; [by rewrite E2|].
  intros p. by rewrite O2.
Qed.

Lemma same_objects_c_out a b p i : same_objects a b → c_out b p i = c_out a p i.
Proof. intros [_ O]. unfold c_out. by rewrite O. Qed.
Lemma same_objects_c_in a b p i : same_objects a b → c_in b p i = c_in a p i.
Proof. intros [_ O]. unfold c_in. by rewrite O. Qed.

Lemma same_objects_unwired a b : same_objects a b → unwired a → unwired b.
Proof.
  intros [E O] [Ea Ha]. split; [by rewrite E|].
  intros p o Ho. rewrite O in Ho. by apply (Ha p).
Qed.
Lemma same_objects_vectors_ok a b :
  same_objects a b → vectors_ok a → vectors_ok b.
Proof. intros [E O] V p o Ho. rewrite O in Ho. by apply (V p). Qed.
Lemma same_objects_registered a b :
  same_objects a b → registered a → registered b.
Proof.
  intros S [V R]. split; [by eapply same_objects_vectors_ok|].
  intros p i e. rewrite (same_objects_c_out _ _ _ _ S),
    (same_objects_c_in _ _ _ _ S), (proj1 S). apply R.
Qed.

Lemma same_objects_put_nnodes n x net :
  (∀ nn, nnodes_arena net !! n = Some nn →
     nnodes.nodes_obj x = nnodes.nodes_obj nn) →
  same_objects net (put_nnodes n x net).
Proof.
  intros H. split; [done|]. intros p. unfold node_obj, put_nnodes.
  cbn [nnodes_arena set_nnodes_arena].
  destruct (decide (p = n)) as [->|Hne].
  - destruct (nnodes_arena net !! n) as [nn|] eqn:E.
    + rewrite list_lookup_insert_eq by (by eapply lookup_lt_Some).
      simpl. f_equal. by apply H.
    + rewrite list_insert_ge by (by apply lookup_ge_None). by rewrite E.
  - by rewrite list_lookup_insert_ne.
Qed.

Lemma same_objects_put_nedges e x net : same_objects net (put_nedges e x net).
Proof. by split. Qed.

Lemma get_nnodes_lookup net n nn :
  get_nnodes net n = Ok nn ↔ nnodes_arena net !! n = Some nn.
Proof. apply at_ptr_ok. Qed.

(** neither pass of [init] touches an object *)
Lemma stride_pass_same_objects fuel : ∀ n s net net',
  stride_pass fuel n s net = Ok net' → same_objects net net'.
Proof.
  induction fuel as [|fuel IH]; intros n s net net' H; [done|].
  cbn [stride_pass] in H.
  apply bind_ok in H as (nn & Hnn%get_nnodes_lookup & H).
  destruct (vec3i_ops.neqb _ _).
  { apply bind_ok in H as (_ & _ & [= <-]). apply same_objects_refl. }
  eapply same_objects_trans.
  { apply (same_objects_put_nnodes n (nnodes.set_stride s nn)).
    intros nn' Hnn'. rewrite Hnn in Hnn'. by injection Hnn' as <-. }
  apply (for_each_inv
    (same_objects (put_nnodes n (nnodes.set_stride s nn) net)) _ _ _ _
    (same_objects_refl _) ) in H; [done|].
  intros e cur cur' _ Hc Hb.
  apply bind_ok in Hb as (ne & _ & Hb). apply IH in Hb.
  eapply same_objects_trans; [done|].
  eapply same_objects_trans; [|done]. apply same_objects_put_nedges.
Qed.

Lemma fov_pass_same_objects fuel : ∀ n fov fsize net net',
  fov_pass fuel n fov fsize net = Ok net' → same_objects net net'.
Proof.
  induction fuel as [|fuel IH]; intros n fov fsize net net' H; [done|].
  cbn [fov_pass] in H.
  apply bind_ok in H as (nn & Hnn%get_nnodes_lookup & H).
  destruct (vec3i_ops.neqb _ _).
  { apply bind_ok in H as (_ & _ & H).
    apply bind_ok in H as (_ & _ & [= <-]). apply same_objects_refl. }
  apply bind_ok in H as (net1 & H1 & H).
  assert (same_objects net net1) as S1.
  { apply (for_each_inv (same_objects net) _ _ _ _ (same_objects_refl _))
      in H1; [done|].
    intros e cur cur' _ Hc Hb. apply bind_ok in Hb as (ne & _ & [= <-]).
    eapply same_objects_trans; [done|]. apply same_objects_put_nedges. }
  set (net2 := put_nnodes n _ net1) in H.
  assert (same_objects net net2) as S2.
  { eapply same_objects_trans; [done|]. apply same_objects_put_nnodes.
    intros nn' Hnn'.
    assert (node_obj net1 n = node_obj net n) as Ho by apply S1.
    unfold node_obj in Ho. rewrite Hnn, Hnn' in Ho. simpl in Ho.
    injection Ho as Ho. by rewrite Ho. }
  apply (for_each_inv (same_objects net) _ _ _ _ S2) in H; [done|].
  intros e cur cur' _ Hc Hb.
  apply bind_ok in Hb as (ne & _ & Hb). apply IH in Hb.
  by eapply same_objects_trans.
Qed.

Lemma init_same_objects outsz net net' :
  init outsz net = Ok net' → same_objects net net'.
Proof.
  unfold init. intros H.
  apply bind_ok in H as (net1 & H1 & H).
  apply bind_ok in H as (net2 & H2 & H).
  assert (same_objects net net1) as S1.
  { apply (for_each_inv (same_objects net) _ _ _ _ (same_objects_refl _))
      in H1; [done|].
    intros o cur cur' _ Hc Hb. apply bind_ok in Hb as (nn & _ & Hb).
    destruct (_ =? _); injection Hb as <-; [|done].
    eapply same_objects_trans; [done|]. by split. }
  assert (same_objects net net2) as S2.
  { apply (for_each_inv (same_objects net) _ _ _ _ S1) in H2; [done|].
    intros o cur cur' _ Hc Hb. apply stride_pass_same_objects in Hb.
    by eapply same_objects_trans. }
  apply (for_each_inv (same_objects net) _ _ _ _ S2) in H; [done|].
  intros o cur cur' _ Hc Hb. apply fov_pass_same_objects in Hb.
  by eapply same_objects_trans.
Qed.

End InitFrame.

Section Registered.
Context `{Ext : Externals}.

Lemma node_obj_snoc net x p :
  node_obj (set_nnodes_arena (nnodes_arena net ++ [x]) net) p =
  if decide (p = length (nnodes_arena net)) then Some (nnodes.nodes_obj x)
  else node_obj net p.
Proof.
  unfold node_obj. cbn [nnodes_arena set_nnodes_arena].
  case_decide as Hp.
  - subst. rewrite lookup_app_r by done. by rewrite Nat.sub_diag.
  - destruct (decide (p < length (nnodes_arena net))).
    + by rewrite lookup_app_l.
    + rewrite !lookup_ge_None_2; [done|lia|rewrite length_app; simpl; lia].
Qed.

Lemma transfer_nodes_ctor_fresh op t :
  transfer_nodes.ctor op = Ok t →
  transfer_nodes.outputs_ t = replicate (transfer_nodes.size_ t) [] ∧
  transfer_nodes.inputs_ t = replicate (transfer_nodes.size_ t) [].
Proof.
  unfold transfer_nodes.ctor. intros H.
  apply bind_ok in H as (sz & _ & H). apply bind_ok in H as (fn & _ & H).
  apply bind_ok in H as (eta & _ & H). apply bind_ok in H as (mom & _ & H).
  apply bind_ok in H as (wd & _ & H). apply bind_ok in H as (bv & _ & H).
  apply bind_ok in H as (bs & _ & [= <-]). done.
Qed.

Lemma add_nodes_unwired op net net' :
  unwired net → add_nodes op net = Ok net' → unwired net'.
Proof.
  intros [E U] H. unfold add_nodes in H.
  apply bind_ok in H as (name & _ & H). apply bind_ok in H as (type & _ & H).
  apply bind_ok in H as (sz & _ & H). apply bind_ok in H as (_ & _ & H).
  apply bind_ok in H as (_ & _ & H).
  assert (∀ (o : nodes) (base : network),
            edge_arena base = [] →
            (∀ p, node_obj base p = node_obj net p) →
            length (nnodes_arena base) = length (nnodes_arena net) →
            outputs_of o = replicate (num_out_nodes o) [] →
            (is_input o = false →
             inputs_of o = replicate (num_out_nodes o) []) →
            unwired (set_nnodes_arena
                       (nnodes_arena base ++
                          [nnodes.Build vec3i_ops.zero vec3i_ops.zero
                             vec3i_ops.zero o [] []]) base)) as Hnew.
  { intros o base Eb Ob Lb Ho Hi. split; [done|]. intros p o' Ho'.
    rewrite node_obj_snoc in Ho'. case_decide.
    - injection Ho' as <-. done.
    - rewrite Ob in Ho'. by apply (U p). }
  destruct (String.eqb type "input").
  { injection H as <-.
    by apply (Hnew (Input _) (set_input_nodes_ _ (set_nodes_ _ net))). }
  destruct (String.eqb type "sum").
  { injection H as <-. by apply (Hnew (Summing _) (set_nodes_ _ net)). }
  destruct (String.eqb type "transfer"); [|done].
  apply bind_ok in H as (t & [Ht1 Ht2]%transfer_nodes_ctor_fresh & [= <-]).
  by apply (Hnew (Transfer t) (set_nodes_ _ net)).
Qed.

Lemma add_edges_same_objects op net net' :
  add_edges op net = Ok net' → same_objects net net'.
Proof.
  unfold add_edges. intros H.
  apply bind_ok in H as (name & _ & H). apply bind_ok in H as (type & _ & H).
  apply bind_ok in H as (i & _ & H). apply bind_ok in H as (o & _ & H).
  apply bind_ok in H as (_ & _ & H). apply bind_ok in H as (_ & _ & H).
  apply bind_ok in H as (pin & _ & H). apply bind_ok in H as (pout & _ & H).
  set (net1 := set_nedges_arena _ net) in H.
  apply bind_ok in H as (nin & Hnin%get_nnodes_lookup & H).
  set (net2 := put_nnodes pin _ net1) in H.
  apply bind_ok in H as (nout & Hnout%get_nnodes_lookup & H).
  set (net3 := put_nnodes pout _ net2) in H.
  assert (same_objects net net1) as S1 by (by split).
  assert (same_objects net1 net2) as S2.
  { apply same_objects_put_nnodes. intros nn Hnn.
    rewrite Hnin in Hnn. by injection Hnn as <-. }
  assert (same_objects net2 net3) as S3.
  { apply same_objects_put_nnodes. intros nn Hnn.
    rewrite Hnout in Hnn. by injection Hnn as <-. }
  assert (same_objects net (set_edges_ (StdMap.insert name
            (length (nedges_arena net)) (edges_ net3)) net3)) as S4.
  { eapply same_objects_trans; [exact S1|].
    eapply same_objects_trans; [exact S2|].
    eapply same_objects_trans; [exact S3|]. by split. }
  destruct (String.eqb type "max_filter").
  { apply bind_ok in H as (w & _ & H). apply bind_ok in H as (s & _ & [= <-]).
    eapply same_objects_trans; [exact S4|]. apply same_objects_put_nedges. }
  destruct (String.eqb type "conv").
  { apply bind_ok in H as (w & _ & H). apply bind_ok in H as (s & _ & [= <-]).
    eapply same_objects_trans; [exact S4|]. apply same_objects_put_nedges. }
  destruct (String.eqb type "dummy"); [|done].
  injection H as <-. exact S4.
Qed.

Lemma unwired_registered net : unwired net → registered net.
Proof.
  intros [E U]. split.
  - intros p o Ho. destruct (U p o Ho) as [Hout Hin]. split.
    + by rewrite Hout, length_replicate.
    + intros Hi. by rewrite (Hin Hi), length_replicate.
  - intros p i e. rewrite E, !tally_nil.
    unfold c_out, c_in. destruct (node_obj net p) as [o|] eqn:Ho; [|done].
    destruct (U p o Ho) as [Hout Hin]. simpl. rewrite Hout. split.
    + destruct (replicate _ _ !! i) as [l|] eqn:El; [|done].
      by apply lookup_replicate in El as [-> _].
    + destruct o as [x|x|x]; [done|..]; rewrite (Hin eq_refl);
        (destruct (replicate _ _ !! i) as [l|] eqn:El; [|done]);
        by apply lookup_replicate in El as [-> _].
Qed.

Lemma tally_app l1 l2 sel e :
  tally 0 (l1 ++ l2) sel e = tally 0 l1 sel e + tally (length l1) l2 sel e.
Proof.
  unfold tally. rewrite Nat.sub_0_r. repeat case_decide; try lia.
  - rewrite lookup_app_r by lia. rewrite (lookup_ge_None_2 l1) by lia. done.
  - rewrite lookup_app_l by lia.
    destruct (l1 !! e) as [o|]; [destruct (sel o)|]; lia.
Qed.

Lemma created_registered net0 net objs :
  registered net0 → created net0 net objs → registered net.
Proof.
  intros [_ R] [Ha V _ Ho Hi]. split; [done|].
  intros p i e. rewrite Ho, Hi, Ha, !tally_app.
  destruct (R p i e) as [-> ->]. done.
Qed.

Lemma tally_pos len0 objs sel e :
  0 < tally len0 objs sel e → len0 ≤ e < len0 + length objs.
Proof.
  unfold tally. case_decide; [|lia].
  destruct (objs !! (e - len0)) eqn:E; [|lia].
  intros _. apply lookup_lt_Some in E. lia.
Qed.

Lemma occurrences_pos e l : e ∈ l → 0 < occurrences e l.
Proof.
  unfold occurrences. induction l as [|x l IH]; [by intros ?%elem_of_nil|].
  rewrite filter_cons. intros [->|Hl]%elem_of_cons.
  - rewrite decide_True by done. simpl. lia.
  - case_decide; simpl; [lia|by apply IH].
Qed.

Lemma registered_arena_closed net : registered net → arena_closed net.
Proof.
  intros [_ R] p i e [H|H]; apply occurrences_pos in H.
  - rewrite (proj1 (R p i e)) in H. apply tally_pos in H. lia.
  - rewrite (proj2 (R p i e)) in H. apply tally_pos in H. lia.
Qed.

Lemma occurrences_elem e l : 0 < occurrences e l → e ∈ l.
Proof.
  unfold occurrences. induction l as [|x l IH]; [simpl; lia|].
  rewrite filter_cons. case_decide as Hx.
  - subst. intros _. apply list_elem_of_here.
  - intros H. apply list_elem_of_further. by apply IH.
Qed.

Lemma c_out_in_range net p i e :
  vectors_ok net → e ∈ c_out net p i → i < c_size net p.
Proof.
  intros V H. unfold c_out, c_size in *.
  destruct (node_obj net p) as [o|] eqn:Ho; [|by apply elem_of_nil in H].
  simpl in *. destruct (outputs_of o !! i) as [l|] eqn:El;
    [|by apply elem_of_nil in H].
  apply lookup_lt_Some in El. by rewrite (proj1 (V p o Ho)) in El.
Qed.
Lemma c_in_in_range net p i e :
  vectors_ok net → e ∈ c_in net p i → i < c_size net p.
Proof.
  intros V H. unfold c_in, c_size in *.
  destruct (node_obj net p) as [o|] eqn:Ho; [|by apply elem_of_nil in H].
  simpl in *. destruct (inputs_of o !! i) as [l|] eqn:El;
    [|by apply elem_of_nil in H].
  apply lookup_lt_Some in El.
  destruct o as [x|x|x]; [simpl in El; lia|..];
    by rewrite (proj2 (V p _ Ho) eq_refl) in El.
Qed.

(** in a registered graph every edge object is wired *)
Lemma registered_wires net e :
  registered net → valid_edge net e →
  wires net e (ed_in net e) (ed_in_num net e) (ed_out net e)
        (ed_out_num net e).
Proof.
  intros [V R] He.
  destruct (lookup_lt_is_Some_2 _ _ He) as [eo Heo].
  assert (tally 0 (edge_arena net)
            (leaves (ed_in net e) (ed_in_num net e)) e = 1) as T1.
  { apply (tally_at 0 _ _ e eo); [done|].
    unfold leaves, ed_in, ed_in_num. rewrite Heo. simpl.
    by apply bool_decide_eq_true_2. }
  assert (tally 0 (edge_arena net)
            (enters (ed_out net e) (ed_out_num net e)) e = 1) as T2.
  { apply (tally_at 0 _ _ e eo); [done|].
    unfold enters, ed_out, ed_out_num. rewrite Heo. simpl.
    by apply bool_decide_eq_true_2. }
  rewrite <-(proj1 (R _ _ _)) in T1. rewrite <-(proj2 (R _ _ _)) in T2.
  split; try done.
  - apply (c_out_in_range net _ _ e V). apply occurrences_elem. lia.
  - apply (c_in_in_range net _ _ e V). apply occurrences_elem. lia.
Qed.

End Registered.

Section CtorRegistered.
Context `{Ext : Externals}.

Lemma diagonal_edges_registered in_ out impl n net edges net' :
  registered net →
  diagonal_edges in_ out impl n net = Ok (edges, net') → registered net'.
Proof.
  intros R H.
  apply diagonal_edges_created in H as (objs & _ & Hc & _); [|apply R].
  by eapply created_registered.
Qed.

Lemma dummy_edges_ctor_registered in_ out opts net g net' :
  registered net →
  dummy_edges_ctor in_ out opts net = Ok (g, net') → registered net'.
Proof.
  intros R H. unfold dummy_edges_ctor in H.
  apply bind_ok in H as (oi & _ & H). apply bind_ok in H as (oo & _ & H).
  apply bind_ok in H as (_ & _ & H).
  apply bind_ok in H as ([edges net1] & Hd & [= _ <-]).
  by eapply diagonal_edges_registered.
Qed.

Lemma max_pooling_edges_ctor_registered in_ out opts stride net g net' :
  registered net →
  max_pooling_edges_ctor in_ out opts stride net = Ok (g, net') →
  registered net'.
Proof.
  intros R H. unfold max_pooling_edges_ctor in H.
  apply bind_ok in H as (oi & _ & H). apply bind_ok in H as (oo & _ & H).
  apply bind_ok in H as (_ & _ & H). apply bind_ok in H as (sz & _ & H).
  apply bind_ok in H as ([edges net1] & Hd & [= _ <-]).
  by eapply diagonal_edges_registered.
Qed.

Lemma filter_edges_ctor_registered in_ out opts stride net g net' :
  registered net →
  filter_edges_ctor in_ out opts stride net = Ok (g, net') →
  registered net'.
Proof.
  intros R H. unfold filter_edges_ctor in H.
  apply bind_ok in H as (oi & _ & H). apply bind_ok in H as (oo & _ & H).
  apply bind_ok in H as (? & _ & H). apply bind_ok in H as (eta & _ & H).
  apply bind_ok in H as (mom & _ & H). apply bind_ok in H as (wd & _ & H).
  apply bind_ok in H as (sz & _ & H).
  apply bind_ok in H as ([[filters edges] net1] & Hw & H).
  apply bind_ok in H as (fv & _ & H).
  apply bind_ok in H as (objs0 & _ & H).
  apply bind_ok in H as (objs1 & _ & [= _ <-]).
  apply filter_edges_wire_created in Hw as (objs & _ & Hc & _); [|apply R].
  apply (created_put_filters _ _ _ (zip filters objs1)) in Hc.
  by eapply created_registered.
Qed.

Lemma create_edges_registered net net' :
  registered net → create_edges net = Ok net' → registered net'.
Proof.
  unfold create_edges. generalize (edges_ net). intros l R H.
  apply (for_each_inv registered _ _ _ _ R) in H; [done|].
  intros [k e] cur cur' _ Rc Hb. cbn [fst snd] in Hb.
  apply bind_ok in Hb as (ne & _ & Hb). apply bind_ok in Hb as (opts & _ & Hb).
  apply bind_ok in Hb as (type & _ & Hb).
  apply bind_ok in Hb as ([g cur1] & Hg & Hb). cbn [fst snd] in Hb.
  apply bind_ok in Hb as (ne' & _ & [= <-]).
  apply (same_objects_registered cur1); [apply same_objects_put_nedges|].
  destruct (String.eqb type "max_filter").
  { apply bind_ok in Hg as ([g0 n0] & Hg & [= _ <-]).
    by eapply max_pooling_edges_ctor_registered. }
  destruct (String.eqb type "conv").
  { apply bind_ok in Hg as ([g0 n0] & Hg & [= _ <-]).
    by eapply filter_edges_ctor_registered. }
  destruct (String.eqb type "dummy"); [|done].
  apply bind_ok in Hg as ([g0 n0] & Hg & [= _ <-]).
  by eapply dummy_edges_ctor_registered.
Qed.

Lemma unwired_empty : unwired empty_network.
Proof. split; [done|]. intros p o Ho. by destruct p. Qed.

(** the graph [network::network] returns is registered *)
Lemma network_ctor_registered ns es outsz net :
  network_ctor ns es outsz = Ok net → registered net.
Proof.
  unfold network_ctor. intros H.
  apply bind_ok in H as (net1 & H1 & H). apply bind_ok in H as (net2 & H2 & H).
  apply bind_ok in H as (net3 & H3 & H).
  apply (for_each_inv unwired _ _ _ _ unwired_empty) in H1.
  2:{ intros op cur cur' _ U Hb. by eapply add_nodes_unwired. }
  apply (for_each_inv unwired _ _ _ _ H1) in H2.
  2:{ intros op cur cur' _ U Hb. apply add_edges_same_objects in Hb.
      by eapply same_objects_unwired. }
  apply init_same_objects in H3.
  apply (create_edges_registered net3); [|done].
  apply unwired_registered. by eapply same_objects_unwired.
Qed.

End CtorRegistered.

(** ** The example graphs are well formed *)

Import Examples.

(** membership in a list that computes to a literal *)
Ltac members H :=
  vm_compute in H;
  repeat (apply elem_of_cons in H as [H|H]; [try subst|]);
  try (apply elem_of_nil in H; destruct H).

Ltac member :=
  vm_compute;
  repeat (first [apply list_elem_of_here | apply list_elem_of_further]).

Ltac literal_nodup :=
  vm_compute;
  repeat (apply NoDup_cons; split; [intros H; members H; done|]);
  apply NoDup_nil; done.

Ltac wired_at_node e :=
  let H := fresh in
  split;
  [ intros H; members H; vm_compute; split; (lia || done)
  | intros [He Hin]; destruct e as [|[|e]]; vm_compute in He; try lia;
    vm_compute in Hin; try done; member ].

(** well-formedness of a literal graph of three node groups in a line *)
Ltac graph_wf_line net :=
  split;
  [ split;
    [ intros [|[|e]] He; vm_compute in He; try lia; vm_compute; lia
    | intros [|[|[|p]]] e Hp; vm_compute in Hp; try lia; wired_at_node e
    | intros [|[|[|p]]] e Hp; vm_compute in Hp; try lia; wired_at_node e
    | intros [|[|e]] He; vm_compute in He; try lia; vm_compute;
        repeat split; lia ]
  | intros [|[|e]] He; vm_compute in He; try lia; vm_compute; lia
  | intros [|[|[|p]]] Hp; vm_compute in Hp; try lia; vm_compute; lia
  | intros p; split;
    [ intros Hp; destruct p as [|[|[|p]]]; vm_compute in Hp; try lia; member
    | let H := fresh in intros H; members H; vm_compute; lia ]
  | unfold StdMap.wf; literal_nodup
  | let H := fresh in
    intros k p H; members H; injection H as -> ->; vm_compute; lia
  | assert (reachable net 0) as R0
      by (apply (reachable_input _ "in"); member);
    assert (reachable net 1) as R1
      by (refine (reachable_step net 0 _ _); [vm_compute; lia|exact R0]);
    assert (reachable net 2) as R2
      by (refine (reachable_step net 1 _ _); [vm_compute; lia|exact R1]);
    intros [|[|[|p]]] Hp; vm_compute in Hp; try lia; done
  | done
  | intros [|[|[|p]]]; vm_compute; done ].

Lemma pool_conv_graph_wf : graph_wf pool_conv_graph id.
Proof. graph_wf_line pool_conv_graph. Qed.

Lemma far_graph_wf : graph_wf far_graph id.
Proof. graph_wf_line far_graph. Qed.

(** the geometry of [pool_conv_init] bounds itself *)
Lemma pool_conv_graph_fits :
  fits pool_conv_graph vec3i_ops.one (n_stride pool_conv_init)
       (n_fov pool_conv_init) (n_fsize pool_conv_init).
Proof.
  split.
  - intros [|[|[|p]]]; repeat split; vm_compute; done.
  - intros k p H. members H. injection H as -> ->.
    repeat split; vm_compute; done.
  - intros [|[|[|p]]] Hp Ho; vm_compute in Hp; try lia;
      try (vm_compute in Ho; discriminate Ho).
    repeat split; vm_compute; done.
  - intros [|[|e]] He; vm_compute in He; try lia;
      repeat split; vm_compute; done.
  - intros [|[|e]] He; vm_compute in He; try lia;
      repeat split; vm_compute; done.
  - intros [|[|e]] He; vm_compute in He; try lia;
      repeat split; vm_compute; done.
Qed.

(** well-formedness of a literal graph of two single-channel node groups and
    one edge *)
Ltac run_wf_chain :=
  split;
  [ intros [|[|p]] [|i] e H; members H; vm_compute; repeat split; lia
  | intros [|[|p]] [|i] e H; members H; vm_compute; repeat split; lia
  | intros [|e] He; vm_compute in He; try lia; split; member
  | intros [|[|p]] [|i]; literal_nodup
  | intros [|[|p]] [|i]; literal_nodup
  | intros [|e] He; vm_compute in He; try lia; vm_compute; lia
  | intros [|[|p]] Hp; vm_compute in Hp; try lia; vm_compute; lia
  | intros [|[|p]] Hp; vm_compute in Hp; try lia; vm_compute; lia
  | intros [|[|p]] o Ho; unfold node_obj in Ho; cbn in Ho;
    [injection Ho as <-; reflexivity ..|discriminate Ho]
  | intros [|[|p]] i Hp Hin Hi; vm_compute in Hp; try lia;
    [ destruct Hin; done
    | vm_compute in Hi; assert (i = 0) as -> by lia; vm_compute; done ]
  | unfold StdMap.wf; literal_nodup
  | literal_nodup
  | intros [|[|p]]; split; intros H; try member; try done; members H; done ].

Lemma chain_net_wf : run_wf chain_net id.
Proof. run_wf_chain. Qed.

Lemma sum_net_wf : run_wf sum_net id.
Proof. run_wf_chain. Qed.

Lemma sum_net_quiescent : quiescent sum_net.
Proof. intros [|[|p]] [|i]; vm_compute; done. Qed.

Lemma chain_net_quiescent : quiescent chain_net.
Proof. intros [|[|p]] [|i]; vm_compute; done. Qed.

Lemma chain_net_fed_ranked : upstream_ranked id chain_net_fed.
Proof. intros [|[|p]] [|i] e H; members H; vm_compute; lia. Qed.

Lemma twin_graph_registered : registered twin_graph.
Proof.
  apply unwired_registered. split; [reflexivity|].
  intros [|[|p]] o Ho; unfold node_obj in Ho; cbn in Ho;
    [injection Ho as <-; split; [reflexivity|by intros] ..|discriminate Ho].
Qed.

Lemma fan_graph_registered : registered fan_graph.
Proof.
  apply unwired_registered. split; [reflexivity|].
  intros [|[|p]] o Ho; unfold node_obj in Ho; cbn in Ho;
    [injection Ho as <-; split; [reflexivity|by intros] ..|discriminate Ho].
Qed.

(** * The properties of the specification *)

(** C1: a convolution edge with filter [filter_] and dilation
    [filter_stride].  [forward(f)] succeeds exactly when [f] is a cube the
    kernel accepts; it then returns [convolve_sparse(f, W, stride)] and
    leaves [f] in [last_input].  [backward(g)] succeeds exactly when an input
    was stored and the kernels accept; it returns
    [convolve_sparse_inverse(g, W, stride)] and replaces the filter by
    [update(convolve_sparse_flipped(last_input, g, stride))].  A [backward]
    that follows a [forward(f)] therefore computes the weight gradient from
    [f], and no backward pass of the network writes an edge object in
    between. *)
Theorem filter_edge_contract `{Ext : Externals} (e : filter_edge.t)
    (filters : list filter) :
  (∀ f e' r,
     filter_edge_forward e f filters = Ok (e', r) ↔
     ∃ c flt,
       f = Some c ∧ filters !! filter_edge.filter_ e = Some flt ∧
       convolve_sparse c (filter_W flt) (filter_edge.filter_stride e)
         = Some r ∧
       e' = filter_edge.set_last_input f e) ∧
  (∀ g filters' ret,
     filter_edge_backward e g filters = Ok (filters', ret) ↔
     ∃ last gc flt dEdW,
       filter_edge.last_input e = Some last ∧ g = Some gc ∧
       filters !! filter_edge.filter_ e = Some flt ∧
       convolve_sparse_flipped last gc (filter_edge.filter_stride e)
         = Some dEdW ∧
       convolve_sparse_inverse gc (filter_W flt) (filter_edge.filter_stride e)
         = Some ret ∧
       filters' = <[filter_edge.filter_ e := filter_update flt dEdW]> filters) ∧
  (∀ f e' r,
     filter_edge_forward e f filters = Ok (e', r) →
     filter_edge.last_input e' = f ∧
     ∀ g filters1 filters2 ret,
       filter_edge_backward e' g filters1 = Ok (filters2, ret) →
       ∃ c gc flt dEdW,
         f = Some c ∧ g = Some gc ∧
         filters1 !! filter_edge.filter_ e = Some flt ∧
         convolve_sparse_flipped c gc (filter_edge.filter_stride e)
           = Some dEdW ∧
         filters2 =
           <[filter_edge.filter_ e := filter_update flt dEdW]> filters1) ∧
  (∀ rank fout net ret net',
     upstream_ranked rank net →
     network_backward fout net = Ok (ret, net') →
     edge_arena net' = edge_arena net).
Proof.
  split; [intros; apply filter_edge_forward_iff|].
  split; [intros; apply filter_edge_backward_iff|]. split.
  - intros f e' r (c & flt & -> & Hflt & Hr & ->)%filter_edge_forward_iff.
    split; [done|]. intros g filters1 filters2 ret.
    intros (last & gc & flt1 & dEdW & Hl & -> & Hf1 & Hd & _ & ->)
      %filter_edge_backward_iff.
    simpl in *. injection Hl as <-. by exists c, gc, flt1, dEdW.
  - intros rank fout net ret net'. apply network_backward_edge_arena.
Qed.

Lemma filter_edge_contract_witness :
  let e := filter_edge.ctor vec3i_ops.one 0 in
  filter_edge_forward e (Some (voxel 3)) [weight 2]
    = Ok (filter_edge.set_last_input (Some (voxel 3)) e, voxel 6) ∧
  filter_edge_backward (filter_edge.set_last_input (Some (voxel 3)) e)
      (Some (voxel 5)) [weight 2]
    = Ok ([filter_update (weight 2) (voxel 15)], voxel 10).
Proof.
  intros e. split.
  - apply (proj1 (filter_edge_contract e [weight 2])).
    exists (voxel 3), (weight 2). repeat split; reflexivity.
  - apply (proj1 (proj2 (filter_edge_contract
             (filter_edge.set_last_input (Some (voxel 3)) e) [weight 2]))).
    exists (voxel 3), (voxel 5), (weight 2), (voxel 15).
    repeat split; reflexivity.
Defined.

(** C10: in [filter_edge::backward] both gradients are computed before the
    filter is touched: the weight gradient from [last_input] and [g] alone,
    the returned gradient from the weights [W] found in the store when the
    call starts; the store the call leaves behind differs from that one
    exactly by [update(dEdW)] at this edge's filter. *)
Theorem filter_edge_backward_old_weights `{Ext : Externals}
    (e : filter_edge.t) (g : option cube) (filters filters' : list filter)
    (ret : cube) :
  filter_edge_backward e g filters = Ok (filters', ret) →
  ∃ last gc before dEdW,
    filter_edge.last_input e = Some last ∧ g = Some gc ∧
    filters !! filter_edge.filter_ e = Some before ∧
    convolve_sparse_flipped last gc (filter_edge.filter_stride e)
      = Some dEdW ∧
    convolve_sparse_inverse gc (filter_W before)
      (filter_edge.filter_stride e) = Some ret ∧
    filters' !! filter_edge.filter_ e = Some (filter_update before dEdW) ∧
    ∀ k, k ≠ filter_edge.filter_ e → filters' !! k = filters !! k.
Proof.
  intros (last & gc & flt & dEdW & Hl & -> & Hf & Hd & Hr & ->)
    %filter_edge_backward_iff.
  exists last, gc, flt, dEdW. repeat (split; [done|]). split.
  - apply list_lookup_insert_eq. by eapply lookup_lt_Some.
  - intros k Hk. by apply list_lookup_insert_ne.
Qed.

(** on one voxel: weight [2], stored input [3], gradient [5]; the returned
    gradient is [2 * 5], although the weight the call leaves behind is
    [1/2] *)
Lemma filter_edge_backward_old_weights_witness :
  let e := filter_edge.set_last_input (Some (voxel 3))
             (filter_edge.ctor vec3i_ops.one 0) in
  ∃ after,
    filter_edge_backward e (Some (voxel 5)) [weight 2]
      = Ok ([after], voxel 10) ∧
    filter_W after = voxel (1 # 2) ∧
    convolve_sparse_inverse (voxel 5) (filter_W (weight 2)) vec3i_ops.one
      = Some (voxel 10) ∧
    convolve_sparse_inverse (voxel 5) (filter_W after) vec3i_ops.one
      = Some (voxel (5 # 2)).
Proof.
  intros e. eexists. split; [reflexivity|].
  destruct (filter_edge_backward_old_weights e (Some (voxel 5)) [weight 2]
              _ _ eq_refl)
    as (last & gc & before & dEdW & Hl & Hg & Hb & Hd & Hr & Ha & _).
  repeat split; reflexivity.
Defined.

(** C4: channel [n] of a transfer node group fires on [backward] when the
    arrival being counted is the last one ([S r = |outputs_[n]|]) or the
    channel has no out-edge.  In a graph whose edges run upwards in [rank]
    the call is then, step for step: the accumulated gradient [G] becomes
    [G' = apply_grad(G, F)] with [F] the feature map kept since the forward
    pass; bias [n] is updated with [sum(G')]; with the node group in this
    state ([transfer_fired]: [fs_[n]] still [F], [gs_[n] = G'], the counter
    raised) [G'] is handed to every in-edge, in order; only then are
    [fs_[n]] and [gs_[n]] released and [received_[n]] reset
    ([transfer_released]). *)
Theorem transfer_backward_fires `{Ext : Externals} (rank : ptr → nat)
    (fuel : nat) (self : ptr) (n : nat) (g : option cube) (net : network)
    (x : transfer_nodes.t) (r : nat) (outs ins : list ptr)
    (gs1 : list (option cube)) (G F : cube) (b : bias) :
  upstream_ranked rank net →
  node_obj net self = Some (Transfer x) →
  n < transfer_nodes.size_ x →
  transfer_nodes.received_ x !! n = Some r →
  transfer_nodes.outputs_ x !! n = Some outs →
  transfer_nodes.inputs_ x !! n = Some ins →
  S r = length outs ∨ length outs = 0 →
  accumulate r (transfer_nodes.gs_ x) n g = Ok gs1 →
  gs1 !! n = Some (Some G) →
  transfer_nodes.fs_ x !! n = Some (Some F) →
  transfer_nodes.biases_ x !! n = Some b →
  let G' := tf_apply_grad (transfer_nodes.func_ x) G F in
  let x1 := transfer_fired x n r gs1 G' b in
  nodes_backward (S fuel) self n g net =
    (net2 ← for_each
               (λ e cur,
                  edge_of_backward (nodes_backward fuel) e (Some G') cur)
               ins (put_nodes self (Transfer x1) net);
     Ok (put_nodes self (Transfer (transfer_released x1 n)) net2)) ∧
  transfer_nodes.biases_ x1 !! n = Some (bias_update b (sum G')) ∧
  transfer_nodes.fs_ x1 !! n = Some (Some F) ∧
  transfer_nodes.gs_ x1 !! n = Some (Some G') ∧
  transfer_nodes.fs_ (transfer_released x1 n) !! n = Some None ∧
  transfer_nodes.gs_ (transfer_released x1 n) !! n = Some None ∧
  transfer_nodes.received_ (transfer_released x1 n) !! n = Some 0.
Proof.
  intros U Hobj Hn Hr Houts Hins Hfire Hacc HG HF Hb G' x1.
  split; [by eapply transfer_backward_fire_ranked|].
  unfold x1, transfer_released, transfer_fired. tn_simpl.
  pose proof (lookup_lt_Some _ _ _ Hb). pose proof (lookup_lt_Some _ _ _ HF).
  pose proof (lookup_lt_Some _ _ _ HG). pose proof (lookup_lt_Some _ _ _ Hr).
  repeat split;
    first [ apply list_lookup_insert_eq; by rewrite ?length_insert | done ].
Qed.

(** the output channel of [chain_net] after a forward pass on [5], hit by
    the gradient [28]: the bias moves by [-eta * 28] *)
Lemma transfer_backward_fires_witness :
  ∃ net',
    nodes_backward 2 1 0 (Some (voxel 28)) chain_net_fed = Ok net' ∧
    fs net' 1 0 = None ∧ gs net' 1 0 = None ∧ received net' 1 0 = 0.
Proof.
  eexists. split.
  - etrans.
    + eapply (proj1 (transfer_backward_fires id 1 1 0 (Some (voxel 28))
                       chain_net_fed _ 0 [] [0] _ (voxel 28) (voxel 5) _
                       chain_net_fed_ranked eq_refl (Nat.lt_0_succ 0)
                       eq_refl eq_refl eq_refl (or_intror eq_refl)
                       eq_refl eq_refl eq_refl eq_refl)).
    + reflexivity.
  - repeat split; reflexivity.
Defined.

(** C6: [network::backward] does not compare the number of gradient lists
    with the number of output node groups but with the number of input node
    groups: a map with one entry per output node group is turned down by
    the first check whenever the graph has a different number of input
    node groups. *)
Theorem network_backward_counts_inputs `{Ext : Externals}
    (fout : StdMap.t (list (option cube))) (net : network) :
  StdMap.keys fout = StdMap.keys (output_nodes_ net) →
  StdMap.size (output_nodes_ net) ≠ StdMap.size (input_nodes_ net) →
  network_backward fout net = Err AssertionFailed.
Proof.
  intros Hk Hne.
  assert (StdMap.size fout = StdMap.size (output_nodes_ net)) as Hsz.
  { unfold StdMap.size. unfold StdMap.keys in Hk.
    by rewrite <-(length_fmap fst (output_nodes_ net)), <-Hk, length_fmap. }
  unfold network_backward. rewrite Hsz.
  apply Nat.eqb_neq in Hne. by rewrite Hne.
Qed.

(** two input node groups, one output node group *)
Lemma network_backward_counts_inputs_witness :
  network_backward [("out", [Some (voxel 1)])] join_net
    = Err AssertionFailed.
Proof.
  apply network_backward_counts_inputs; [reflexivity|].
  vm_compute. lia.
Defined.

(** C7: without a ["filters"] entry the constructor of a convolution edge
    group never completes: the array the initializer has filled is deleted
    before it is read. *)
Theorem filter_edges_ctor_needs_filters `{Ext : Externals} (in_ out : ptr)
    (opts : options) (stride : vec3i) (net : network) :
  opt.contains opts "filters" = false →
  ∀ r, filter_edges_ctor in_ out opts stride net ≠ Ok r.
Proof.
  intros Hc r H. unfold filter_edges_ctor in H.
  apply bind_ok in H as (oi & _ & H). apply bind_ok in H as (oo & _ & H).
  apply bind_ok in H as (? & _ & H). apply bind_ok in H as (eta & _ & H).
  apply bind_ok in H as (mom & _ & H). apply bind_ok in H as (wd & _ & H).
  apply bind_ok in H as (sz & _ & H).
  apply bind_ok in H as ([[filters edges] net'] & _ & H).
  rewrite Hc in H. apply bind_ok in H as (fv & Hfv & _).
  apply bind_ok in Hfv as (initf & _ & Hread).
  (* [Hread]: the deleted array was read *)
  discriminate Hread.
Qed.

Lemma filter_edges_ctor_needs_filters_witness :
  filter_edges_ctor 0 1 (edges_conv_init "e" "in" "out") vec3i_ops.one
    fan_graph = Err DanglingPointer ∧
  ∀ r, filter_edges_ctor 0 1 (edges_conv_init "e" "in" "out") vec3i_ops.one
         fan_graph ≠ Ok r.
Proof.
  split; [reflexivity|].
  apply filter_edges_ctor_needs_filters. reflexivity.
Defined.

(** C8: in every state the constructor of a network goes through, each
    edge object is listed exactly once by the channel it leaves and by the
    channel it enters ([registered]).  Constructed in such a state between
    an upstream node group with [n] channels and a downstream one with [m],
    a convolution edge group allocates exactly [n * m] edge objects, the
    one at position [i * m + j] running from channel [i] to channel [j]
    and occurring exactly once in [outputs_[i]] upstream and in
    [inputs_[j]] downstream; a pooling or a dummy edge group allocates
    exactly [n] edge objects, the [i]-th joining channel [i] to channel
    [i], and cannot be constructed -- the assertion fails -- unless
    [n = m].  When [n = m] and the downstream node group is not an input
    node group, a dummy edge group is constructed, and so is a pooling
    edge group whose options carry a window.  In the network the
    constructor returns every edge object is wired in this way. *)
Theorem edge_groups_wired `{Ext : Externals} :
  (∀ (in_ out : ptr) (net : network),
     registered net →
     (∀ opts stride g net',
        filter_edges_ctor in_ out opts stride net = Ok (g, net') →
        cartesian_wired in_ out net (filter_edges.edges_ g) net' ∧
        registered net') ∧
     (∀ opts stride g net',
        max_pooling_edges_ctor in_ out opts stride net = Ok (g, net') →
        diagonal_wired in_ out net (max_pooling_edges.edges_ g) net' ∧
        registered net') ∧
     (∀ opts g net',
        dummy_edges_ctor in_ out opts net = Ok (g, net') →
        diagonal_wired in_ out net (dummy_edges.edges_ g) net' ∧
        registered net') ∧
     (valid_node net in_ → valid_node net out →
      c_size net in_ ≠ c_size net out →
      ∀ opts stride,
        dummy_edges_ctor in_ out opts net = Err AssertionFailed ∧
        max_pooling_edges_ctor in_ out opts stride net
          = Err AssertionFailed) ∧
     (valid_node net in_ → valid_node net out → ¬ input_at net out →
      c_size net in_ = c_size net out →
      (∀ opts, ∃ g net', dummy_edges_ctor in_ out opts net = Ok (g, net')) ∧
      (∀ opts stride sz,
         opt.require_vec opts "size" = Ok sz →
         ∃ g net',
           max_pooling_edges_ctor in_ out opts stride net = Ok (g, net')))) ∧
  (∀ ns es outsz net,
     network_ctor ns es outsz = Ok net →
     registered net ∧
     ∀ e, valid_edge net e →
       wires net e (ed_in net e) (ed_in_num net e) (ed_out net e)
             (ed_out_num net e)).
Proof.
  split.
  - intros in_ out net R.
    pose proof (proj1 R) as V. pose proof (registered_arena_closed _ R) as C.
    split; [|split; [|split; [|split]]].
    + intros opts stride g net' H.
      split; [by apply (filter_edges_ctor_wired _ _ opts stride)|].
      by eapply filter_edges_ctor_registered.
    + intros opts stride g net' H.
      split; [by apply (max_pooling_edges_ctor_wired _ _ opts stride)|].
      by eapply max_pooling_edges_ctor_registered.
    + intros opts g net' H.
      split; [by apply (dummy_edges_ctor_wired _ _ opts)|].
      by eapply dummy_edges_ctor_registered.
    + intros Hi Ho Hne opts stride. by apply diagonal_ctors_unequal.
    + intros Hi Ho Hni Heq. split.
      * intros opts.
        destruct (dummy_edges_ctor_succeeds in_ out opts net V Hi Ho Hni Heq)
          as [[g net'] H]. by exists g, net'.
      * intros opts stride sz Hsz.
        destruct (max_pooling_edges_ctor_succeeds in_ out opts stride sz net
                    V Hi Ho Hni Heq Hsz) as [[g net'] H]. by exists g, net'.
  - intros ns es outsz net H.
    pose proof (network_ctor_registered _ _ _ _ H) as R.
    split; [done|]. intros e He. by apply registered_wires.
Qed.

(** two channels into three: six convolution edges, and no diagonal group;
    two channels into two: a pooling group, and a dummy group, of two
    edges, the second joining channel one to channel one *)
Lemma edge_groups_wired_witness :
  filter_edges_ctor 0 1
    (edges_conv "e" "in" "out" vec3i_ops.one [1; 2; 3; 4; 5; 6]%Q)
    vec3i_ops.one fan_graph = Ok fan_wired ∧
  filter_edges.edges_ fan_wired.1 = [0; 1; 2; 3; 4; 5] ∧
  wires fan_wired.2 4 0 1 1 1 ∧
  dummy_edges_ctor 0 1 (edges_dummy "e" "in" "out") fan_graph
    = Err AssertionFailed ∧
  max_pooling_edges_ctor 0 1 (edges_pool "p" "in" "out") vec3i_ops.one
    twin_graph = Ok twin_pooled ∧
  max_pooling_edges.edges_ twin_pooled.1 = [0; 1] ∧
  wires twin_pooled.2 1 0 1 1 1 ∧
  dummy_edges_ctor 0 1 (edges_dummy "e" "in" "out") twin_graph
    = Ok twin_joined ∧
  dummy_edges.edges_ twin_joined.1 = [0; 1] ∧
  wires twin_joined.2 1 0 1 1 1.
Proof.
  destruct (proj1 edge_groups_wired 0 1 fan_graph fan_graph_registered)
    as (Hc & _ & _ & Hd & _).
  destruct (proj1 edge_groups_wired 0 1 twin_graph twin_graph_registered)
    as (_ & Hp & Hj & _ & _).
  assert (filter_edges_ctor 0 1
            (edges_conv "e" "in" "out" vec3i_ops.one [1; 2; 3; 4; 5; 6]%Q)
            vec3i_ops.one fan_graph = Ok (fan_wired.1, fan_wired.2)) as E
    by (vm_cast_no_check (eq_refl (Ok fan_wired))).
  assert (max_pooling_edges_ctor 0 1 (edges_pool "p" "in" "out")
            vec3i_ops.one twin_graph = Ok (twin_pooled.1, twin_pooled.2))
    as Ep by (vm_cast_no_check (eq_refl (Ok twin_pooled))).
  assert (dummy_edges_ctor 0 1 (edges_dummy "e" "in" "out") twin_graph
          = Ok (twin_joined.1, twin_joined.2))
    as Ej by (vm_cast_no_check (eq_refl (Ok twin_joined))).
  split; [exact E|]. split; [reflexivity|]. split.
  { apply (proj2 (proj2 (proj1 (Hc _ _ _ _ E))) 1 1); vm_compute; lia. }
  split.
  { refine (proj1 (Hd _ _ _ _ vec3i_ops.one)); vm_compute; lia. }
  split; [exact Ep|]. split; [reflexivity|]. split.
  { apply (proj2 (proj2 (proj2 (proj1 (Hp _ _ _ _ Ep)))) 1).
    vm_compute; lia. }
  split; [exact Ej|]. split; [reflexivity|].
  apply (proj2 (proj2 (proj2 (proj1 (Hj _ _ _ Ej)))) 1). vm_compute; lia.
Defined.

Section Revisit.
Context `{Ext : Externals}.

Lemma stride_pass_revisit fuel n s net nn :
  nnodes_arena net !! n = Some nn →
  nnodes.stride nn ≠ vec3i_ops.zero →
  (nnodes.stride nn = s → stride_pass (S fuel) n s net = Ok net) ∧
  (nnodes.stride nn ≠ s → stride_pass (S fuel) n s net = Err AssertionFailed).
Proof.
  intros Hn Hv. cbn [stride_pass]. unfold get_nnodes, at_ptr. rewrite Hn.
  cbn [mbind result_bind]. rewrite (proj2 (neqb_true _ _) Hv). split.
  - intros Heq. by rewrite (proj2 (eqb_true _ _) Heq).
  - intros Hne. destruct (vec3i_ops.eqb _ _) eqn:E; [|done].
    by apply eqb_true in E.
Qed.

Lemma fov_pass_revisit fuel n fov fsize net nn :
  nnodes_arena net !! n = Some nn →
  nnodes.fov nn ≠ vec3i_ops.zero →
  (nnodes.fov nn = fov → nnodes.fsize nn = fsize →
   fov_pass (S fuel) n fov fsize net = Ok net) ∧
  (nnodes.fov nn ≠ fov ∨ nnodes.fsize nn ≠ fsize →
   fov_pass (S fuel) n fov fsize net = Err AssertionFailed).
Proof.
  intros Hn Hv. cbn [fov_pass]. unfold get_nnodes, at_ptr. rewrite Hn.
  cbn [mbind result_bind]. rewrite (proj2 (neqb_true _ _) Hv). split.
  - intros Hf Hs.
    by rewrite (proj2 (eqb_true _ _) Hf), (proj2 (eqb_true _ _) Hs).
  - intros Hne.
    destruct (vec3i_ops.eqb (nnodes.fsize nn) fsize) eqn:E1; [|done].
    destruct (vec3i_ops.eqb (nnodes.fov nn) fov) eqn:E2; [|done].
    apply eqb_true in E1, E2. by destruct Hne.
Qed.

Lemma init_edge_relations rank net outsz bs bf bz net' e :
  graph_wf net rank → init_post outsz bs bf bz net net' →
  valid_nedges net' e →
  e ∈ n_out net' (e_in net' e) ∧ e ∈ n_in net' (e_out net' e) ∧
  valid_node net (e_in net' e) ∧ valid_node net (e_out net' e).
Proof.
  intros WF [SW _ _ _ _] He.
  apply (sw_valid_nedges _ _ SW) in He.
  destruct (wired_ends _ (wf_wired _ _ WF) e He) as [Hi Ho].
  rewrite (sw_n_out _ _ SW), (sw_n_in _ _ SW), (sw_e_in _ _ SW),
    (sw_e_out _ _ SW).
  split; [by apply (wired_out _ (wf_wired _ _ WF))|].
  split; [by apply (wired_in _ (wf_wired _ _ WF))|]. done.
Qed.

(** either pass writes nothing but the fields its eraser clears *)
Lemma stride_pass_erase fuel : ∀ n s net net',
  stride_pass fuel n s net = Ok net' → erase_stride net' = erase_stride net.
Proof.
  induction fuel as [|fuel IH]; intros n s net net' H; [done|].
  cbn [stride_pass] in H.
  apply bind_ok in H as (nn & Hnn%get_nnodes_lookup & H).
  destruct (vec3i_ops.neqb _ _).
  { by apply bind_ok in H as (_ & _ & [= <-]). }
  apply (for_each_inv (λ cur, erase_stride cur = erase_stride net)) in H;
    [done|by apply erase_stride_put_nnodes|].
  intros e cur cur' _ Hc Hb.
  apply bind_ok in Hb as (ne & Hne%at_ptr_ok & Hb). apply IH in Hb.
  rewrite Hb, <-Hc. by apply erase_stride_put_nedges.
Qed.

Lemma fov_pass_erase fuel : ∀ n fov fsize net net',
  fov_pass fuel n fov fsize net = Ok net' → erase_fov net' = erase_fov net.
Proof.
  induction fuel as [|fuel IH]; intros n fov fsize net net' H; [done|].
  cbn [fov_pass] in H.
  apply bind_ok in H as (nn & Hnn%get_nnodes_lookup & H).
  destruct (vec3i_ops.neqb _ _).
  { apply bind_ok in H as (_ & _ & H).
    by apply bind_ok in H as (_ & _ & [= <-]). }
  apply bind_ok in H as (net1 & H1 & H).
  apply (for_each_inv (λ cur, erase_fov cur = erase_fov net)) in H1; [|done|].
  2:{ intros e cur cur' _ Hc Hb.
      apply bind_ok in Hb as (ne & Hne%at_ptr_ok & [= <-]).
      rewrite <-Hc. by apply erase_fov_put_nedges. }
  assert (∃ nn1, nnodes_arena net1 !! n = Some nn1) as [nn1 Hnn1].
  { apply lookup_lt_is_Some_2.
    pose proof (sbf_len _ _ (erase_fov_same _ _ H1)) as ->.
    by eapply lookup_lt_Some. }
  assert (nnodes.set_fsize fsize (nnodes.set_fov fov nn)
          = nnodes.set_fsize fsize (nnodes.set_fov fov nn1)) as Hsame.
  { apply (f_equal (λ x, nnodes_arena x !! n)) in H1.
    rewrite !erase_fov_nnodes_arena, !list_lookup_fmap, Hnn, Hnn1 in H1.
    simpl in H1. injection H1 as H1.
    destruct nn, nn1; unfold nnodes.set_fsize, nnodes.set_fov in *;
      simpl in *. by simplify_eq. }
  rewrite Hsame in H.
  apply (for_each_inv (λ cur, erase_fov cur = erase_fov net)) in H; [done| |].
  { rewrite <-H1. by apply erase_fov_put_nnodes. }
  intros e cur cur' _ Hc Hb.
  apply bind_ok in Hb as (ne & _ & Hb). apply IH in Hb. by rewrite Hb.
Qed.

End Revisit.

(** C2 (amended): a [vec3i] holds 64-bit integers, so [init] computes the
    geometry only as far as it fits: [bs], [bf] and [bz] bound the strides,
    fields of view and sizes of the graph ([fits]).  On a well-formed graph
    whose geometry fits, [init] either fails an assertion -- some node
    group was reached with two different strides, fields of view or
    sizes -- or leaves the wiring as it was and a geometry in which every
    node group has positive [stride], [fov] and [fsize]; input node groups
    have stride one; node groups without out-edges have [fov] one and
    [fsize = outsz]; and along every edge group
    [out.stride = in.stride * stride] and
    [in.fov = (out.fov - 1) * stride + width], where the right-hand sides,
    as the program computes them, are the values over the integers.
    Either pass, reaching a node group it has visited with a value that
    differs from the one recorded, fails its assertion. *)
Theorem init_geometry `{Ext : Externals} (rank : ptr → nat) (net : network)
    (outsz : vec3i) (bs bf bz : ptr → vec3i) :
  graph_wf net rank → vec3i_ops.positive outsz →
  fits net outsz bs bf bz →
  (∀ net', init outsz net = Ok net' →
     same_wiring net net' ∧
     (∀ p, valid_node net' p →
        vec3i_ops.positive (n_stride net' p) ∧
        vec3i_ops.positive (n_fov net' p) ∧
        vec3i_ops.positive (n_fsize net' p)) ∧
     (∀ k p, (k, p) ∈ input_nodes_ net' →
        n_stride net' p = vec3i_ops.one) ∧
     (∀ p, valid_node net' p → n_out net' p = [] →
        n_fov net' p = vec3i_ops.one ∧ n_fsize net' p = outsz) ∧
     (∀ e, valid_nedges net' e →
        n_stride net' (e_out net' e)
          = (n_stride net' (e_in net' e) * e_stride net' e)%V ∧
        (n_stride net' (e_in net' e) * e_stride net' e)%V
          = vec3i_ops.exact_mul (n_stride net' (e_in net' e))
                                (e_stride net' e) ∧
        n_fov net' (e_in net' e)
          = ((n_fov net' (e_out net' e) - vec3i_ops.one) * e_stride net' e
             + e_width net' e)%V ∧
        ((n_fov net' (e_out net' e) - vec3i_ops.one) * e_stride net' e
         + e_width net' e)%V
          = vec3i_ops.exact_add
              (vec3i_ops.exact_mul
                 (vec3i_ops.exact_sub (n_fov net' (e_out net' e))
                                      vec3i_ops.one)
                 (e_stride net' e))
              (e_width net' e))) ∧
  (∀ err, init outsz net = Err err → err = AssertionFailed) ∧
  (∀ fuel n nn s fov fsize cur,
     nnodes_arena cur !! n = Some nn →
     (nnodes.stride nn ≠ vec3i_ops.zero → nnodes.stride nn ≠ s →
      stride_pass (S fuel) n s cur = Err AssertionFailed) ∧
     (nnodes.fov nn ≠ vec3i_ops.zero →
      nnodes.fov nn ≠ fov ∨ nnodes.fsize nn ≠ fsize →
      fov_pass (S fuel) n fov fsize cur = Err AssertionFailed)).
Proof.
  intros WF Hsz F.
  pose proof (init_spec outsz bs bf bz net rank WF Hsz F) as H.
  split; [|split].
  - intros net' E. rewrite E in H.
    pose proof H as [SW Hst Hfov Hin Hout].
    split; [done|]. split; [|split; [|split]].
    + intros p Hp%(sw_valid_node _ _ SW).
      destruct (Hst p Hp) as [_ [? _]].
      destruct (Hfov p Hp) as (_ & [? _] & [? _]). done.
    + intros k p Hk. rewrite (sw_input_nodes_ _ _ SW) in Hk. by eapply Hin.
    + intros p Hp%(sw_valid_node _ _ SW) Ho. rewrite (sw_n_out _ _ SW) in Ho.
      by apply Hout.
    + intros e He.
      destruct (init_edge_relations rank net outsz bs bf bz net' e WF H He)
        as (Ho & Hi & Hvi & Hvo).
      destruct (init_post_exact outsz bs bf bz net rank net' e WF F H)
        as (X1 & X2 & _); [by apply (sw_valid_nedges _ _ SW)|].
      rewrite <-(sw_e_in _ _ SW), <-(sw_e_stride _ _ SW) in X1.
      rewrite <-(sw_e_out _ _ SW), <-(sw_e_stride _ _ SW),
        <-(sw_e_width _ _ SW) in X2.
      split; [by apply (proj1 (Hst _ Hvi))|]. split; [done|].
      split; [by apply (proj1 (proj1 (Hfov _ Hvo)))|done].
  - intros err E. by rewrite E in H.
  - intros fuel n nn s fov fsize cur Hn. split.
    + intros Hv Hne. by apply (stride_pass_revisit fuel n s cur nn).
    + intros Hv Hne. by apply (fov_pass_revisit fuel n fov fsize cur nn).
Qed.

(** the graph of scenario S3: pooling [2/2], then a convolution of window
    [2]; the field of view of the input node group is [(4,4,4)] *)
Lemma init_geometry_witness :
  init vec3i_ops.one pool_conv_graph = Ok pool_conv_init ∧
  n_stride pool_conv_init 2
    = (n_stride pool_conv_init 1 * e_stride pool_conv_init 1)%V ∧
  n_fov pool_conv_init 0 = Vec3 4 4 4.
Proof.
  assert (init vec3i_ops.one pool_conv_graph = Ok pool_conv_init) as E
    by (vm_cast_no_check (eq_refl (Ok pool_conv_init))).
  split; [exact E|].
  destruct (proj1 (init_geometry id pool_conv_graph vec3i_ops.one _ _ _
                     pool_conv_graph_wf positive_one pool_conv_graph_fits)
              _ E)
    as (_ & _ & _ & _ & H).
  split; [|reflexivity].
  apply (proj1 (H 1 ltac:(vm_compute; lia))).
Defined.

(** two pooling edge groups of stride [2^32] in a row: every declared
    value fits, the graph is well formed and [init] returns, but the stride
    of the last node group, [2^64], has been reduced to zero *)
Lemma stride_wraps_to_zero :
  graph_wf far_graph id ∧
  vec3i_ops.positive vec3i_ops.one ∧
  init vec3i_ops.one far_graph = Ok far_init ∧
  valid_node far_init 2 ∧
  n_stride far_init 1 = Vec3 4294967296 4294967296 4294967296 ∧
  e_stride far_init 1 = Vec3 4294967296 4294967296 4294967296 ∧
  n_stride far_init 2 = vec3i_ops.zero ∧
  ¬ vec3i_ops.positive (n_stride far_init 2).
Proof.
  split; [apply far_graph_wf|]. split; [apply positive_one|].
  split; [vm_cast_no_check (eq_refl (Ok far_init))|].
  split; [vm_compute; lia|]. repeat split; try reflexivity.
  vm_compute. intros (? & _). done.
Qed.

(** C9 (amended): after [init] on a well-formed graph whose geometry fits
    into 64-bit integers every edge group carries the stride and the
    feature-map size of its upstream node group, [in_stride = in.stride]
    and [in_fsize = in.fsize]; the latter is
    [(width - 1) * in_stride + out.fsize], computed without a reduction,
    not [out.fsize].  The FOV pass itself leaves [in_stride], which the
    stride pass has recorded, untouched; on a node group it has visited it
    returns at once when the [fov] and [fsize] it brings are the recorded
    ones, and fails its assertion otherwise. *)
Theorem init_records_upstream `{Ext : Externals} (rank : ptr → nat)
    (net : network) (outsz : vec3i) (bs bf bz : ptr → vec3i)
    (net' : network) :
  graph_wf net rank → vec3i_ops.positive outsz →
  fits net outsz bs bf bz →
  init outsz net = Ok net' →
  (∀ e, valid_nedges net' e →
     e_in_stride net' e = n_stride net' (e_in net' e) ∧
     e_in_fsize net' e = n_fsize net' (e_in net' e) ∧
     e_in_fsize net' e
       = ((e_width net' e - vec3i_ops.one) * e_in_stride net' e
          + n_fsize net' (e_out net' e))%V ∧
     ((e_width net' e - vec3i_ops.one) * e_in_stride net' e
      + n_fsize net' (e_out net' e))%V
       = vec3i_ops.exact_add
           (vec3i_ops.exact_mul
              (vec3i_ops.exact_sub (e_width net' e) vec3i_ops.one)
              (e_in_stride net' e))
           (n_fsize net' (e_out net' e))) ∧
  (∀ fuel n fov fsize cur cur',
     fov_pass fuel n fov fsize cur = Ok cur' →
     ∀ e, e_in_stride cur' e = e_in_stride cur e) ∧
  (∀ fuel n nn fov fsize cur,
     nnodes_arena cur !! n = Some nn →
     nnodes.fov nn ≠ vec3i_ops.zero →
     (nnodes.fov nn = fov → nnodes.fsize nn = fsize →
      fov_pass (S fuel) n fov fsize cur = Ok cur) ∧
     (nnodes.fov nn ≠ fov ∨ nnodes.fsize nn ≠ fsize →
      fov_pass (S fuel) n fov fsize cur = Err AssertionFailed)).
Proof.
  intros WF Hsz F E. split; [|split].
  - pose proof (init_spec outsz bs bf bz net rank WF Hsz F) as H.
    rewrite E in H.
    pose proof H as [SW Hst Hfov Hin Hout].
    intros e He.
    destruct (init_edge_relations rank net outsz bs bf bz net' e WF H He)
      as (Ho & Hi & Hvi & Hvo).
    destruct (Hst _ Hvi) as [Hsc _]. destruct (Hfov _ Hvi) as [[_ Hfi] _].
    destruct (Hfov _ Hvo) as [[Hfo _] _].
    destruct (Hsc e Ho) as [_ H1]. specialize (Hfi e Ho).
    destruct (Hfo e Hi) as [_ H2].
    destruct (init_post_exact outsz bs bf bz net rank net' e WF F H)
      as (_ & _ & X); [by apply (sw_valid_nedges _ _ SW)|].
    rewrite <-(sw_e_in _ _ SW), <-(sw_e_out _ _ SW), <-(sw_e_width _ _ SW),
      <-H1 in X.
    split; [done|]. split; [done|]. split; [by rewrite Hfi, H2|done].
  - intros fuel n fov fsize cur cur' Hrun e.
    apply fov_pass_erase in Hrun.
    apply (sbf_e_in_stride _ _ (erase_fov_same _ _ Hrun)).
  - intros fuel n nn fov fsize cur Hn Hv.
    by apply (fov_pass_revisit fuel n fov fsize cur nn).
Qed.

Lemma init_records_upstream_witness :
  e_in_stride pool_conv_init 1 = Vec3 2 2 2 ∧
  e_in_stride pool_conv_init 1 = n_stride pool_conv_init 1 ∧
  e_in_fsize pool_conv_init 1 = n_fsize pool_conv_init 1.
Proof.
  split; [reflexivity|].
  assert (init vec3i_ops.one pool_conv_graph = Ok pool_conv_init) as E
    by (vm_cast_no_check (eq_refl (Ok pool_conv_init))).
  destruct (proj1 (init_records_upstream id pool_conv_graph vec3i_ops.one
                     _ _ _ pool_conv_init pool_conv_graph_wf positive_one
                     pool_conv_graph_fits E)
              1 ltac:(vm_compute; lia)) as (H1 & H2 & _).
  split; [exact H1|exact H2].
Defined.

(** the convolution edge group of scenario S3: [in_fsize] is the size at
    [mid], three voxels a side, while [out] has one *)
Lemma in_fsize_is_not_downstream :
  graph_wf pool_conv_graph id ∧
  init vec3i_ops.one pool_conv_graph = Ok pool_conv_init ∧
  valid_nedges pool_conv_init 1 ∧
  e_in_fsize pool_conv_init 1 = Vec3 3 3 3 ∧
  n_fsize pool_conv_init (e_in pool_conv_init 1) = Vec3 3 3 3 ∧
  n_fsize pool_conv_init (e_out pool_conv_init 1) = Vec3 1 1 1 ∧
  e_in_fsize pool_conv_init 1
    ≠ n_fsize pool_conv_init (e_out pool_conv_init 1).
Proof.
  split; [apply pool_conv_graph_wf|].
  split; [vm_cast_no_check (eq_refl (Ok pool_conv_init))|].
  split; [vm_compute; lia|]. repeat split; try reflexivity.
  vm_compute. discriminate.
Qed.

Section Returned.
Context `{Ext : Externals}.

(** the entries of the map [network::forward] returns *)
Lemma returned_entries net outs : ∀ acc ret,
  for_each
    (λ (l : string * ptr) ret,
       o ← get_nodes net l.2;
       fm ← get_featuremaps o;
       Ok (StdMap.insert l.1 fm ret)) outs acc = Ok ret →
  ∀ k fm, (k, fm) ∈ ret →
    (k, fm) ∈ acc ∨
    ∃ p o, (k, p) ∈ outs ∧ node_obj net p = Some o ∧
           get_featuremaps o = Ok fm.
Proof.
  induction outs as [|[k0 p0] outs IH]; intros acc ret H k fm Hin.
  - injection H as <-. by left.
  - cbn [for_each] in H. apply bind_ok in H as (acc1 & Hb & H).
    apply bind_ok in Hb as (o & Ho%get_nodes_node_obj & Hb).
    apply bind_ok in Hb as (fm0 & Hfm & [= <-]).
    destruct (IH _ _ H k fm Hin) as [Hacc|(p & o' & Hp & Ho' & Hfm')].
    + apply stdmap_insert_elem in Hacc as [[= -> ->]|Hacc]; [|by left].
      right. exists p0, o. split; [apply list_elem_of_here|done].
    + right. exists p, o'. split; [by apply list_elem_of_further|done].
Qed.

Lemma summing_at_obj net p :
  summing_at net p → ∃ x, node_obj net p = Some (Summing x).
Proof.
  unfold summing_at. destruct (node_obj net p) as [[x|x|x]|]; try done.
  by exists x.
Qed.

End Returned.

(** C3 (amended): a forward pass on a well-formed graph with no arrival
    pending never exhausts the recursion bound, and when it returns, every
    channel of every node group has [received_ = 0] and the gradient
    buffer it had; every channel of a summing node group has released its
    feature buffer; every channel of a transfer node group still holds
    its feature map, which [backward] needs. *)
Theorem forward_resets_counters `{Ext : Externals} (rank : ptr → nat)
    (net : network) (fin : StdMap.t (list (option cube))) :
  run_wf net rank → quiescent net → StdMap.wf fin →
  network_forward fin net ≠ Err OutOfFuel ∧
  ∀ ret net', network_forward fin net = Ok (ret, net') →
    ∀ p i, valid_node net p → i < c_size net p →
      received net' p i = 0 ∧
      gs net' p i = gs net p i ∧
      (summing_at net p → fs net' p i = None) ∧
      (transfer_at net p → is_Some (fs net' p i)).
Proof.
  intros W Q Hfin. split; [by apply (forward_no_fuel rank)|].
  intros ret net' Hrun p i Hp Hi.
  destruct (forward_post rank net fin ret net' W Q Hfin Hrun) as [E H].
  destruct (H p i Hp Hi) as (H1 & H2 & H3).
  split; [done|]. split; [|done].
  by rewrite <-(erase_gs net'), E, erase_gs.
Qed.

Lemma forward_resets_counters_witness :
  network_forward [("in", [Some (voxel 5)])] chain_net
    = Ok ([("out", [Some (voxel 5)])], chain_net_fed) ∧
  received chain_net_fed 1 0 = 0 ∧
  is_Some (fs chain_net_fed 1 0).
Proof.
  assert (network_forward [("in", [Some (voxel 5)])] chain_net
            = Ok ([("out", [Some (voxel 5)])], chain_net_fed)) as E
    by (vm_cast_no_check
          (eq_refl (Ok ([("out", [Some (voxel 5)])], chain_net_fed)))).
  split; [exact E|].
  assert (StdMap.wf [("in", [Some (voxel 5)])]) as Hfin
    by (unfold StdMap.wf; literal_nodup).
  destruct (proj2 (forward_resets_counters id chain_net
                     [("in", [Some (voxel 5)])]
                     chain_net_wf chain_net_quiescent Hfin)
              _ _ E 1 0 ltac:(vm_compute; lia) ltac:(vm_compute; lia))
    as (H1 & _ & _ & H2).
  split; [exact H1|]. apply H2. reflexivity.
Defined.

(** after a forward pass through [chain_net] the transfer node group
    still holds the feature map [5] *)
Lemma forward_keeps_feature_maps :
  run_wf chain_net id ∧ quiescent chain_net ∧
  network_forward [("in", [Some (voxel 5)])] chain_net
    = Ok ([("out", [Some (voxel 5)])], chain_net_fed) ∧
  fs chain_net_fed 1 0 = Some (voxel 5) ∧
  ¬ all_released chain_net_fed.
Proof.
  split; [apply chain_net_wf|]. split; [apply chain_net_quiescent|].
  split; [vm_cast_no_check
            (eq_refl (Ok ([("out", [Some (voxel 5)])], chain_net_fed)))|].
  split; [reflexivity|].
  intros H. destruct (H 1 0) as [H1 _]. discriminate H1.
Qed.

(** C5: what [network::forward] returns for a summing output node group
    is the vector of the feature buffers the group has just released:
    no channel of it holds a cube. *)
Theorem forward_returns_released_sums `{Ext : Externals} (rank : ptr → nat)
    (net : network) (fin ret : StdMap.t (list (option cube)))
    (net' : network) :
  run_wf net rank → quiescent net → StdMap.wf fin →
  network_forward fin net = Ok (ret, net') →
  ∀ k fm, (k, fm) ∈ ret →
    ∃ p, (k, p) ∈ output_nodes_ net ∧
      (summing_at net p →
       ∀ i c, i < c_size net p → fm !! i ≠ Some (Some c)).
Proof.
  intros W Q Hfin Hrun k fm Hin.
  destruct (forward_post rank net fin ret net' W Q Hfin Hrun) as [E H].
  pose proof (erase_forward_same _ _ E) as S.
  unfold network_forward in Hrun.
  apply bind_ok in Hrun as (_ & _ & Hrun).
  apply bind_ok in Hrun as (net1 & _ & Hrun).
  apply bind_ok in Hrun as (ret1 & Hret & [= -> ->]).
  destruct (returned_entries _ _ _ _ Hret k fm Hin)
    as [Hnil|(p & o & Hp & Ho & Hfm)]; [by apply elem_of_nil in Hnil|].
  rewrite (st_output_nodes_ _ _ S) in Hp.
  exists p. split; [done|]. intros Hs i c Hi Hfmi.
  assert (valid_node net p) as Hv.
  { apply (st_valid_node _ _ S). by eapply node_obj_valid. }
  destruct (H p i Hv Hi) as (_ & Hnone & _). specialize (Hnone Hs).
  apply (st_summing_at _ _ S) in Hs.
  destruct (summing_at_obj _ _ Hs) as [x Hx]. rewrite Hx in Ho.
  injection Ho as <-. injection Hfm as <-.
  unfold fs in Hnone. rewrite Hx in Hnone. simpl in Hnone.
  by rewrite Hfmi in Hnone.
Qed.

(** [in] -dummy-> [out](sum): the voxel [2] goes in, a null pointer comes
    out *)
Lemma forward_returns_released_sums_witness :
  network_forward [("in", [Some (voxel 2)])] sum_net = Ok sum_net_fed ∧
  sum_net_fed.1 = [("out", [None])].
Proof.
  assert (network_forward [("in", [Some (voxel 2)])] sum_net
            = Ok (sum_net_fed.1, sum_net_fed.2)) as E
    by (vm_cast_no_check (eq_refl (Ok sum_net_fed))).
  split; [exact E|].
  assert (StdMap.wf [("in", [Some (voxel 2)])]) as Hfin
    by (unfold StdMap.wf; literal_nodup).
  destruct (forward_returns_released_sums id sum_net _ _ _
              sum_net_wf sum_net_quiescent Hfin E "out" [None]
              ltac:(vm_compute; apply list_elem_of_here))
    as (p & _ & _).
  reflexivity.
Defined.

(** * Further properties of the code *)

Section PoolingEdge.
Context `{Ext : Externals}.

Lemma max_pooling_edge_forward_iff e f e' r :
  max_pooling_edge_forward e f = Ok (e', r) ↔
  ∃ c idx,
    f = Some c ∧
    pooling_filter c (max_pooling_edge.filter_size e)
      (max_pooling_edge.filter_stride e) = Some (r, idx) ∧
    e' = max_pooling_edge.Build (max_pooling_edge.filter_size e)
           (max_pooling_edge.filter_stride e) (Some idx) (size c).
Proof.
  unfold max_pooling_edge_forward. split.
  - intros H. apply bind_ok in H as (c & ->%deref_ok & H).
    apply bind_ok in H as ([r' idx] & Hk%kernel_ok & [= <- <-]).
    by exists c, idx.
  - intros (c & idx & -> & Hk & ->). simpl. by rewrite Hk.
Qed.

Lemma max_pooling_edge_backward_iff e g ret :
  max_pooling_edge_backward e g = Ok ret ↔
  ∃ idx c,
    max_pooling_edge.indices e = Some idx ∧ g = Some c ∧
    max_pooling_edge.insize e
      = (size c + (max_pooling_edge.filter_size e - vec3i_ops.one)
                  * max_pooling_edge.filter_stride e)%V ∧
    pooling_backprop (max_pooling_edge.insize e) c idx = Some ret.
Proof.
  unfold max_pooling_edge_backward. split.
  - intros H. apply bind_ok in H as (_ & _ & H).
    apply bind_ok in H as (idx & ->%deref_ok & H).
    apply bind_ok in H as (c & ->%deref_ok & H).
    apply bind_ok in H as ([] & Hs%assert_ok%eqb_true & Hk%kernel_ok).
    by exists idx, c.
  - intros (idx & c & -> & -> & Hs & Hk). simpl.
    try (rewrite bool_decide_eq_true_2 by by eexists); simpl.
    rewrite (proj2 (eqb_true _ _) Hs). simpl. by rewrite Hk.
Qed.

Lemma max_pooling_edge_backward_shape e g idx c :
  max_pooling_edge.indices e = Some idx → g = Some c →
  max_pooling_edge.insize e
    ≠ (size c + (max_pooling_edge.filter_size e - vec3i_ops.one)
                * max_pooling_edge.filter_stride e)%V →
  max_pooling_edge_backward e g = Err AssertionFailed.
Proof.
  intros Hi -> Hne. unfold max_pooling_edge_backward. rewrite Hi. simpl.
  try (rewrite bool_decide_eq_true_2 by by eexists); simpl.
  destruct (vec3i_ops.eqb _ _) eqn:E; [|done]. by apply eqb_true in E.
Qed.

End PoolingEdge.

(** X1: a pooling edge with window [filter_size] and dilation
    [filter_stride].  [forward(f)] succeeds exactly when [f] is a cube the
    pooling kernel accepts; it returns the pooled cube and records the
    size of [f] and the positions the kernel selected.  [backward(g)]
    succeeds exactly when positions were recorded, the recorded input size
    is [size(g) + (filter_size - 1) * filter_stride], and
    [pooling_backprop] accepts.  A [backward] on an edge that has never
    run [forward] fails its first assertion; after [forward(f)] a gradient
    of any other size than [size(f) - (filter_size - 1) * filter_stride]
    fails the second, and a gradient of that size is routed through the
    positions selected for [f]. *)
Theorem max_pooling_edge_contract `{Ext : Externals} (e : max_pooling_edge.t) :
  (∀ f e' r,
     max_pooling_edge_forward e f = Ok (e', r) ↔
     ∃ c idx,
       f = Some c ∧
       pooling_filter c (max_pooling_edge.filter_size e)
         (max_pooling_edge.filter_stride e) = Some (r, idx) ∧
       e' = max_pooling_edge.Build (max_pooling_edge.filter_size e)
              (max_pooling_edge.filter_stride e) (Some idx) (size c)) ∧
  (∀ g ret,
     max_pooling_edge_backward e g = Ok ret ↔
     ∃ idx c,
       max_pooling_edge.indices e = Some idx ∧ g = Some c ∧
       max_pooling_edge.insize e
         = (size c + (max_pooling_edge.filter_size e - vec3i_ops.one)
                     * max_pooling_edge.filter_stride e)%V ∧
       pooling_backprop (max_pooling_edge.insize e) c idx = Some ret) ∧
  (∀ sz stride g,
     max_pooling_edge_backward (max_pooling_edge.ctor sz stride) g
       = Err AssertionFailed) ∧
  (∀ c e' r gc,
     max_pooling_edge_forward e (Some c) = Ok (e', r) →
     (size c ≠ (size gc + (max_pooling_edge.filter_size e - vec3i_ops.one)
                          * max_pooling_edge.filter_stride e)%V →
      max_pooling_edge_backward e' (Some gc) = Err AssertionFailed) ∧
     (size c = (size gc + (max_pooling_edge.filter_size e - vec3i_ops.one)
                          * max_pooling_edge.filter_stride e)%V →
      ∃ idx,
        pooling_filter c (max_pooling_edge.filter_size e)
          (max_pooling_edge.filter_stride e) = Some (r, idx) ∧
        max_pooling_edge_backward e' (Some gc)
          = kernel (pooling_backprop (size c) gc idx))).
Proof.
  split; [intros; apply max_pooling_edge_forward_iff|].
  split; [intros; apply max_pooling_edge_backward_iff|].
  split; [done|].
  intros c e' r gc (c' & idx & [= <-] & Hk & ->)%max_pooling_edge_forward_iff.
  split.
  - intros Hne. by eapply max_pooling_edge_backward_shape.
  - intros Heq. exists idx. split; [done|].
    unfold max_pooling_edge_backward. simpl.
    try (rewrite bool_decide_eq_true_2 by by eexists); simpl.
    by rewrite (proj2 (eqb_true _ _) Heq).
Qed.

(** on one voxel, with a window of one voxel: the cube [3] goes through,
    the gradient [5] comes back; with a window of two the gradient is
    turned down *)
Lemma max_pooling_edge_contract_witness :
  let e := max_pooling_edge.ctor vec3i_ops.one vec3i_ops.one in
  let e' := max_pooling_edge.Build vec3i_ops.one vec3i_ops.one (Some (tt : @icube OneVoxel.ext))
              vec3i_ops.one in
  max_pooling_edge_forward e (Some (voxel 3)) = Ok (e', voxel 3) ∧
  max_pooling_edge_backward e' (Some (voxel 5)) = Ok (voxel 5) ∧
  max_pooling_edge_backward e (Some (voxel 5)) = Err AssertionFailed.
Proof.
  intros e e'.
  assert (max_pooling_edge_forward e (Some (voxel 3)) = Ok (e', voxel 3)) as E.
  { apply (proj1 (max_pooling_edge_contract e)).
    exists (voxel 3), (tt : @icube OneVoxel.ext). repeat split; reflexivity. }
  split; [exact E|]. split.
  - destruct (proj2 (proj2 (proj2 (proj2 (max_pooling_edge_contract e)))
                (voxel 3) e' (voxel 3) (voxel 5) E) eq_refl)
      as (idx & _ & H).
    rewrite H. reflexivity.
  - apply (proj1 (proj2 (proj2 (max_pooling_edge_contract e)))).
Defined.

Section WindowSize.
Context `{Ext : Externals}.
Variables (outsz : vec3i) (bs bf bz : ptr → vec3i).

Lemma window_step_exact (w s S fovd : vec3i) :
  vec3i_ops.exact_add
    (vec3i_ops.exact_mul (vec3i_ops.exact_sub w vec3i_ops.one) S)
    (vec3i_ops.exact_add outsz
       (vec3i_ops.exact_mul (vec3i_ops.exact_sub fovd vec3i_ops.one)
          (vec3i_ops.exact_mul S s)))
  = vec3i_ops.exact_add outsz
      (vec3i_ops.exact_mul
         (vec3i_ops.exact_sub
            (vec3i_ops.exact_add
               (vec3i_ops.exact_mul
                  (vec3i_ops.exact_sub fovd vec3i_ops.one) s) w)
            vec3i_ops.one) S).
Proof.
  destruct outsz, w, s, S, fovd.
  unfold vec3i_ops.exact_add, vec3i_ops.exact_sub, vec3i_ops.exact_mul; simpl.
  f_equal; ring.
Qed.

Lemma window_output_exact (s : vec3i) :
  outsz = vec3i_ops.exact_add outsz
            (vec3i_ops.exact_mul
               (vec3i_ops.exact_sub vec3i_ops.one vec3i_ops.one) s).
Proof.
  destruct outsz, s.
  unfold vec3i_ops.exact_add, vec3i_ops.exact_sub, vec3i_ops.exact_mul; simpl.
  f_equal; ring.
Qed.

Lemma wrap64_window o f s :
  (0 < o → 0 < f → 0 < s → o + (f - 1) * s ≤ int64_max →
   wrap64 (o + wrap64 (wrap64 (f - 1) * s)) = o + (f - 1) * s)%Z.
Proof.
  intros. unfold int64_max in *.
  assert (0 ≤ (f - 1) * s)%Z by nia.
  assert (f - 1 ≤ (f - 1) * s)%Z by nia.
  by unwrap64.
Qed.

(** a window that fits is computed without a reduction *)
Lemma window_reduced (fov stride b : vec3i) :
  vec3i_ops.positive outsz → vec3i_ops.positive fov →
  vec3i_ops.positive stride →
  vec3i_ops.le
    (vec3i_ops.exact_add outsz
       (vec3i_ops.exact_mul (vec3i_ops.exact_sub fov vec3i_ops.one) stride))
    b →
  vec3i_ops.le b vec3i_ops.top →
  (outsz + (fov - vec3i_ops.one) * stride)%V
  = vec3i_ops.exact_add outsz
      (vec3i_ops.exact_mul (vec3i_ops.exact_sub fov vec3i_ops.one) stride).
Proof.
  destruct outsz as [o1 o2 o3], fov as [f1 f2 f3], stride as [s1 s2 s3],
    b as [b1 b2 b3].
  intros (?&?&?) (?&?&?) (?&?&?) (?&?&?) (?&?&?). simpl in *.
  unfold vec3i_ops.add, vec3i_ops.mul, vec3i_ops.sub, vec3i_ops.reduce,
    vec3i_ops.exact_add, vec3i_ops.exact_mul, vec3i_ops.exact_sub. simpl.
  rewrite !wrap64_window by lia. done.
Qed.

Lemma window_input (fov : vec3i) :
  (outsz + (fov - vec3i_ops.one) * vec3i_ops.one)%V
  = (outsz + fov - vec3i_ops.one)%V.
Proof.
  destruct outsz, fov.
  unfold vec3i_ops.add, vec3i_ops.sub, vec3i_ops.mul, vec3i_ops.reduce,
    vec3i_ops.exact_add, vec3i_ops.exact_sub, vec3i_ops.exact_mul; simpl.
  f_equal; ring64.
Qed.

Lemma init_post_window rank net net' :
  graph_wf net rank → fits net outsz bs bf bz →
  init_post outsz bs bf bz net net' →
  ∀ k p, valid_node net p → length (nnodes_arena net) ≤ k + rank p →
    n_fsize net' p
    = vec3i_ops.exact_add outsz
        (vec3i_ops.exact_mul
           (vec3i_ops.exact_sub (n_fov net' p) vec3i_ops.one)
           (n_stride net' p)).
Proof.
  intros WF F P. pose proof (wf_wired _ _ WF) as W.
  pose proof (ip_wiring _ _ _ _ _ _ P) as SW.
  induction k as [|k IH]; intros p Hp Hk.
  { pose proof (wf_rank_bound _ _ WF p Hp). lia. }
  destruct (n_out net p) as [|e l] eqn:Ho.
  - destruct (ip_outputs _ _ _ _ _ _ P p Hp Ho) as [-> ->].
    apply window_output_exact.
  - assert (e ∈ n_out net p) as He by (rewrite Ho; apply list_elem_of_here).
    apply (wired_out _ W p e Hp) in He as He'. destruct He' as [Hv Hin].
    destruct (wired_ends _ W e Hv) as [_ Hd].
    pose proof (wf_rank _ _ WF e Hv) as Hr. rewrite Hin in Hr.
    specialize (IH (e_out net e) Hd ltac:(lia)).
    destruct (ip_stride _ _ _ _ _ _ P p Hp) as [Hsc _].
    rewrite <-(sw_n_out _ _ SW) in He.
    destruct (Hsc e He) as [Hs1 Hs2].
    destruct (ip_fov _ _ _ _ _ _ P _ Hd) as [[Hfc _] _].
    assert (e ∈ n_in net' (e_out net e)) as Hi.
    { rewrite (sw_n_in _ _ SW). by apply (wired_in _ W). }
    destruct (Hfc e Hi) as [Hf1 Hf2].
    destruct (init_post_exact outsz bs bf bz net rank net' e WF F P Hv)
      as (X1 & X2 & X3).
    rewrite (sw_e_in _ _ SW), (sw_e_stride _ _ SW), (sw_e_width _ _ SW), Hin
      in Hf1.
    rewrite (sw_e_in _ _ SW), (sw_e_width _ _ SW), Hin in Hf2.
    rewrite (sw_e_out _ _ SW), (sw_e_stride _ _ SW) in Hs1.
    rewrite Hin in X1, X3. rewrite Hs2, X3 in Hf2.
    rewrite X1 in Hs1. rewrite X2 in Hf1.
    rewrite Hf2, Hf1, IH, Hs1. apply window_step_exact.
Qed.

End WindowSize.

(** X2: a [vec3i] holds 64-bit integers; on a well-formed graph whose
    geometry fits into them ([fits]), every node group holds after [init]
    [fsize = outsz + (fov - 1) * stride], computed without a reduction: its
    feature maps are larger than the output by the reach of its field of
    view, measured in its own dilation.  At an input node group, whose
    stride is one, this is [fsize = outsz + fov - 1] in the arithmetic of
    the program, and [fov()] reports the field of view of the input node
    group that comes first in the order of the names. *)
Theorem init_window_size `{Ext : Externals} (rank : ptr → nat)
    (net : network) (outsz : vec3i) (bs bf bz : ptr → vec3i)
    (net' : network) :
  graph_wf net rank → vec3i_ops.positive outsz →
  fits net outsz bs bf bz →
  init outsz net = Ok net' →
  (∀ p, valid_node net' p →
     n_fsize net' p
     = (outsz + (n_fov net' p - vec3i_ops.one) * n_stride net' p)%V ∧
     (outsz + (n_fov net' p - vec3i_ops.one) * n_stride net' p)%V
     = vec3i_ops.exact_add outsz
         (vec3i_ops.exact_mul
            (vec3i_ops.exact_sub (n_fov net' p) vec3i_ops.one)
            (n_stride net' p))) ∧
  (∀ k p, (k, p) ∈ input_nodes_ net' →
     n_fsize net' p = (outsz + n_fov net' p - vec3i_ops.one)%V) ∧
  (∀ k p rest, input_nodes_ net' = (k, p) :: rest →
     network_fov net' = Ok (n_fov net' p) ∧
     n_fsize net' p = (outsz + n_fov net' p - vec3i_ops.one)%V).
Proof.
  intros WF Hsz F E.
  pose proof (init_spec outsz bs bf bz net rank WF Hsz F) as P.
  rewrite E in P.
  pose proof (ip_wiring _ _ _ _ _ _ P) as SW.
  assert (∀ p, valid_node net' p →
            n_fsize net' p
            = (outsz + (n_fov net' p - vec3i_ops.one) * n_stride net' p)%V ∧
            (outsz + (n_fov net' p - vec3i_ops.one) * n_stride net' p)%V
            = vec3i_ops.exact_add outsz
                (vec3i_ops.exact_mul
                   (vec3i_ops.exact_sub (n_fov net' p) vec3i_ops.one)
                   (n_stride net' p)))
    as Hall.
  { intros p Hp%(sw_valid_node _ _ SW).
    pose proof (init_post_window outsz bs bf bz rank net net' WF F P
                  (length (nnodes_arena net)) p Hp ltac:(lia)) as X.
    destruct (ip_stride _ _ _ _ _ _ P p Hp) as [_ [Hps _]].
    destruct (ip_fov _ _ _ _ _ _ P p Hp) as (_ & [Hpf _] & [_ Hz]).
    assert ((outsz + (n_fov net' p - vec3i_ops.one) * n_stride net' p)%V
            = vec3i_ops.exact_add outsz
                (vec3i_ops.exact_mul
                   (vec3i_ops.exact_sub (n_fov net' p) vec3i_ops.one)
                   (n_stride net' p))) as Y.
    { apply (window_reduced outsz _ _ (bz p)); [done..| |].
      - by rewrite <-X.
      - apply (fit_top _ _ _ _ _ F). }
    split; [by rewrite Y|done]. }
  assert (∀ k p, (k, p) ∈ input_nodes_ net' →
            valid_node net' p ∧
            n_fsize net' p = (outsz + n_fov net' p - vec3i_ops.one)%V)
    as Hin.
  { intros k p Hk. rewrite (sw_input_nodes_ _ _ SW) in Hk.
    pose proof (wf_inputs _ _ WF k p Hk) as Hp.
    apply (sw_valid_node _ _ SW) in Hp as Hp'. split; [done|].
    rewrite (proj1 (Hall p Hp')), (ip_inputs _ _ _ _ _ _ P k p Hk).
    apply window_input. }
  split; [done|]. split; [intros k p Hk; by apply (Hin k p)|].
  intros k p rest Hi.
  destruct (Hin k p) as [Hp Hsize]; [rewrite Hi; apply list_elem_of_here|].
  split; [|done].
  unfold network_fov. rewrite Hi.
  destruct (get_nnodes_valid _ _ Hp) as (nn & -> & _ & _ & _ & _ & -> & _).
  done.
Qed.

(** the graph of scenario S3 for an output of one voxel: the field of view
    is four voxels a side, and so is the input *)
Lemma init_window_size_witness :
  network_fov pool_conv_init = Ok (Vec3 4 4 4) ∧
  n_fsize pool_conv_init 0 = Vec3 4 4 4 ∧
  n_fsize pool_conv_init 1
  = (vec3i_ops.one
     + (n_fov pool_conv_init 1 - vec3i_ops.one) * n_stride pool_conv_init 1)%V.
Proof.
  assert (init vec3i_ops.one pool_conv_graph = Ok pool_conv_init) as E
    by (vm_cast_no_check (eq_refl (Ok pool_conv_init))).
  destruct (init_window_size id pool_conv_graph vec3i_ops.one _ _ _
              pool_conv_init pool_conv_graph_wf positive_one
              pool_conv_graph_fits E) as (H1 & _ & H3).
  split; [|split].
  - apply (H3 "in" 0 []). reflexivity.
  - reflexivity.
  - apply H1. vm_compute. lia.
Defined.

Section InitWrites.
Context `{Ext : Externals}.

Lemma erase_fov_stride_comm net :
  erase_fov (erase_stride net) = erase_stride (erase_fov net).
Proof.
  destruct net. unfold erase_fov, erase_stride, set_nedges_arena,
    set_nnodes_arena. cbn. f_equal.
  - rewrite <-!list_fmap_compose. apply list_fmap_ext. by intros _ [] _.
  - rewrite <-!list_fmap_compose. apply list_fmap_ext. by intros _ [] _.
Qed.

Lemma erase_init_stride a b :
  erase_stride b = erase_stride a → erase_init b = erase_init a.
Proof. unfold erase_init. by intros ->. Qed.

Lemma erase_init_fov a b :
  erase_fov b = erase_fov a → erase_init b = erase_init a.
Proof. unfold erase_init. rewrite !erase_fov_stride_comm. by intros ->. Qed.

Lemma erase_init_outputs v net :
  erase_init (set_output_nodes_ v net) = erase_init net.
Proof. by destruct net. Qed.

Lemma init_erase outsz net net' :
  init outsz net = Ok net' → erase_init net' = erase_init net.
Proof.
  unfold init. intros H.
  apply bind_ok in H as (net1 & H1 & H).
  apply bind_ok in H as (net2 & H2 & H).
  apply (for_each_inv (λ cur, erase_init cur = erase_init net)) in H1;
    [|done|].
  2:{ intros o cur cur' _ Hc Hb. apply bind_ok in Hb as (nn & _ & Hb).
      destruct (_ =? _); injection Hb as <-; [|done].
      by rewrite erase_init_outputs. }
  apply (for_each_inv (λ cur, erase_init cur = erase_init net)) in H2;
    [|done|].
  2:{ intros o cur cur' _ Hc Hb. apply stride_pass_erase in Hb.
      by rewrite (erase_init_stride _ _ Hb). }
  apply (for_each_inv (λ cur, erase_init cur = erase_init net)) in H;
    [done|done|].
  intros o cur cur' _ Hc Hb. apply fov_pass_erase in Hb.
  by rewrite (erase_init_fov _ _ Hb).
Qed.

(** what [erase_init] keeps *)
Lemma erase_init_nnodes_arena net :
  nnodes_arena (erase_init net)
  = (λ x, nnodes.set_fsize vec3i_ops.zero
            (nnodes.set_fov vec3i_ops.zero
               (nnodes.set_stride vec3i_ops.zero x))) <$> nnodes_arena net.
Proof.
  unfold erase_init, erase_fov, erase_stride. cbn.
  by rewrite <-list_fmap_compose.
Qed.

Lemma erase_init_nedges_arena net :
  nedges_arena (erase_init net)
  = (λ x, nedges.set_in_fsize vec3i_ops.zero
            (nedges.set_in_stride vec3i_ops.zero x)) <$> nedges_arena net.
Proof.
  unfold erase_init, erase_fov, erase_stride. cbn.
  by rewrite <-list_fmap_compose.
Qed.

Lemma erase_init_node_obj net p : node_obj (erase_init net) p = node_obj net p.
Proof.
  unfold node_obj. rewrite erase_init_nnodes_arena, list_lookup_fmap.
  by destruct (_ !! _) as [[]|].
Qed.

Ltac erase_init_accessor :=
  unfold n_out, n_in, e_in, e_out, e_width, e_stride;
  rewrite ?erase_init_nnodes_arena, ?erase_init_nedges_arena,
    list_lookup_fmap;
  by destruct (_ !! _) as [[]|].

Lemma erase_init_n_out net p : n_out (erase_init net) p = n_out net p.
Proof. erase_init_accessor. Qed.
Lemma erase_init_n_in net p : n_in (erase_init net) p = n_in net p.
Proof. erase_init_accessor. Qed.
Lemma erase_init_e_in net e : e_in (erase_init net) e = e_in net e.
Proof. erase_init_accessor. Qed.
Lemma erase_init_e_out net e : e_out (erase_init net) e = e_out net e.
Proof. erase_init_accessor. Qed.
Lemma erase_init_e_width net e : e_width (erase_init net) e = e_width net e.
Proof. erase_init_accessor. Qed.
Lemma erase_init_e_stride net e : e_stride (erase_init net) e = e_stride net e.
Proof. erase_init_accessor. Qed.

Lemma init_output_nodes outsz net net' :
  (∀ o, o ∈ nodes_ net → valid_node net o.2) →
  init outsz net = Ok net' →
  output_nodes_ net' = collect_outputs net (nodes_ net) (output_nodes_ net).
Proof.
  intros Hv. unfold init. rewrite (init_collect net); [|done..].
  cbn [mbind result_bind]. intros H.
  apply bind_ok in H as (net2 & H2 & H).
  apply (for_each_inv (λ cur, output_nodes_ cur
           = collect_outputs net (nodes_ net) (output_nodes_ net))) in H2;
    [|done|].
  2:{ intros o cur cur' _ Hc Hb. apply stride_pass_erase in Hb.
      by rewrite (sbs_output_nodes_ _ _ (erase_stride_same _ _ Hb)). }
  apply (for_each_inv (λ cur, output_nodes_ cur
           = collect_outputs net (nodes_ net) (output_nodes_ net))) in H;
    [done|done|].
  intros o cur cur' _ Hc Hb. apply fov_pass_erase in Hb.
  by rewrite (sbf_output_nodes_ _ _ (erase_fov_same _ _ Hb)).
Qed.

End InitWrites.

(** X3: [init] writes the geometry and the registry of the output node
    groups, and nothing else: the objects of the node groups and of the
    edges, the filters, the three other registries, the edge lists of
    every node group and the end points, window and stride of every edge
    group are after [init] what they were before, whatever the graph. *)
Theorem init_writes_geometry_only `{Ext : Externals} (outsz : vec3i)
    (net net' : network) :
  init outsz net = Ok net' →
  edge_arena net' = edge_arena net ∧
  filter_arena net' = filter_arena net ∧
  edges_ net' = edges_ net ∧
  nodes_ net' = nodes_ net ∧
  input_nodes_ net' = input_nodes_ net ∧
  (∀ p, node_obj net' p = node_obj net p ∧
        n_out net' p = n_out net p ∧ n_in net' p = n_in net p) ∧
  (∀ e, e_in net' e = e_in net e ∧ e_out net' e = e_out net e ∧
        e_width net' e = e_width net e ∧ e_stride net' e = e_stride net e).
Proof.
  intros E%init_erase.
  split; [by apply (f_equal edge_arena) in E|].
  split; [by apply (f_equal filter_arena) in E|].
  split; [by apply (f_equal edges_) in E|].
  split; [by apply (f_equal nodes_) in E|].
  split; [by apply (f_equal input_nodes_) in E|].
  split.
  - intros p. split; [|split].
    + by rewrite <-erase_init_node_obj, E, erase_init_node_obj.
    + by rewrite <-erase_init_n_out, E, erase_init_n_out.
    + by rewrite <-erase_init_n_in, E, erase_init_n_in.
  - intros e. split; [|split; [|split]].
    + by rewrite <-erase_init_e_in, E, erase_init_e_in.
    + by rewrite <-erase_init_e_out, E, erase_init_e_out.
    + by rewrite <-erase_init_e_width, E, erase_init_e_width.
    + by rewrite <-erase_init_e_stride, E, erase_init_e_stride.
Qed.

Lemma init_writes_geometry_only_witness :
  nodes_ pool_conv_init = nodes_ pool_conv_graph ∧
  n_out pool_conv_init 1 = n_out pool_conv_graph 1 ∧
  e_width pool_conv_init 0 = e_width pool_conv_graph 0.
Proof.
  assert (init vec3i_ops.one pool_conv_graph = Ok pool_conv_init) as E
    by (vm_cast_no_check (eq_refl (Ok pool_conv_init))).
  destruct (init_writes_geometry_only vec3i_ops.one pool_conv_graph
              pool_conv_init E) as (_ & _ & _ & H1 & _ & H2 & H3).
  split; [exact H1|]. split; [apply H2|apply H3].
Defined.

(** X4: on a graph whose registered node groups exist and bear distinct
    names, and in which no output has been registered yet, [init]
    registers as outputs exactly the node groups that have no out-edge,
    each under its own name. *)
Theorem init_registers_outputs `{Ext : Externals} (outsz : vec3i)
    (net net' : network) :
  StdMap.wf (nodes_ net) →
  (∀ k p, (k, p) ∈ nodes_ net → valid_node net p) →
  output_nodes_ net = StdMap.empty →
  init outsz net = Ok net' →
  ∀ k p, (k, p) ∈ output_nodes_ net' ↔ (k, p) ∈ nodes_ net ∧ n_out net p = [].
Proof.
  intros Hwf Hv Hempty E k p.
  rewrite (init_output_nodes outsz net net'); [|by intros [??] ?; eapply Hv|done].
  rewrite Hempty. split.
  - intros [H|H]%collect_outputs_sound; [by apply elem_of_nil in H|done].
  - intros H. apply collect_outputs_complete; [done|by right].
Qed.

Lemma init_registers_outputs_witness :
  output_nodes_ pool_conv_init = [("out", 2)] ∧
  (("out", 2) ∈ output_nodes_ pool_conv_init ↔
   ("out", 2) ∈ nodes_ pool_conv_graph ∧ n_out pool_conv_graph 2 = []).
Proof.
  split; [reflexivity|].
  apply (init_registers_outputs vec3i_ops.one pool_conv_graph).
  - apply (wf_nodes_keys _ _ pool_conv_graph_wf).
  - intros k p H. apply (wf_nodes_ _ _ pool_conv_graph_wf).
    apply list_elem_of_fmap. by exists (k, p).
  - reflexivity.
  - vm_cast_no_check (eq_refl (Ok pool_conv_init)).
Defined.

Section ForEach.

Lemma for_each_visits {S X} (I : S → Prop) (body : X → S → result S) xs :
  ∀ s s', I s →
    (∀ x s s', x ∈ xs → I s → body x s = Ok s' → I s') →
    for_each body xs s = Ok s' →
    ∀ x, x ∈ xs → ∃ s1 s2, I s1 ∧ body x s1 = Ok s2.
Proof.
  induction xs as [|x0 xs IH]; intros s s' Hs Hb H x Hx; simpl in H.
  - by apply elem_of_nil in Hx.
  - apply bind_ok in H as (s1 & H1 & H).
    apply elem_of_cons in Hx as [->|Hx]; [by exists s, s1|].
    apply (IH s1 s'); [|intros y ???; apply Hb; by apply list_elem_of_further|
                       done..].
    eapply Hb; [apply list_elem_of_here|done..].
Qed.

End ForEach.

Section StdMapInsert.
Context {V : Type}.
Implicit Types m : StdMap.t V.

Lemma stdmap_find_insert k v m k' :
  StdMap.find k' (StdMap.insert k v m)
  = if String.eqb k' k then Some v else StdMap.find k' m.
Proof.
  induction m as [|[k0 v0] m IH]; simpl; [done|].
  destruct (String.eqb_spec k k0) as [->|Hk].
  - simpl. by destruct (String.eqb k' k0).
  - destruct (String.ltb k k0); simpl.
    + by destruct (String.eqb k' k).
    + rewrite IH. destruct (String.eqb_spec k' k0) as [->|]; [|done].
      destruct (String.eqb_spec k0 k); [congruence|done].
Qed.

Lemma stdmap_find_keys k m :
  is_Some (StdMap.find k m) ↔ k ∈ StdMap.keys m.
Proof.
  unfold StdMap.keys. induction m as [|[k0 v0] m IH]; simpl.
  - split; [by intros [??]|by intros ?%elem_of_nil].
  - destruct (String.eqb_spec k k0) as [->|Hk].
    + split; [intros; by left|by eexists].
    + rewrite IH. split; [by right|].
      by intros [?|?]%elem_of_cons.
Qed.

End StdMapInsert.

Section ForwardWrites.
Context `{Ext : Externals}.

Lemma edge_forward_erase (nf : nodes_method) :
  (∀ p i f net net', nf p i f net = Ok net' →
     erase_forward net' = erase_forward net) →
  ∀ e f net net', edge_of_forward nf e f net = Ok net' →
    erase_forward net' = erase_forward net.
Proof.
  intros IH e f net net' H. unfold edge_of_forward in H.
  apply bind_ok in H as (eo & Heo%at_ptr_ok & H).
  apply bind_ok in H as (r & _ & H). apply IH in H.
  rewrite H. by apply erase_forward_put_edge.
Qed.

(** [nodes::forward] writes counters, feature buffers and the state of
    edge kernels, and nothing else *)
Lemma nodes_forward_erase fuel : ∀ p i f net net',
  nodes_forward fuel p i f net = Ok net' →
  erase_forward net' = erase_forward net.
Proof.
  induction fuel as [|fuel IH]; intros p i f net net' H; [done|].
  cbn [nodes_forward] in H.
  apply bind_ok in H as (o & Ho & H). destruct o as [x0|x0|x0].
  - unfold input_nodes_forward in H.
    apply bind_ok in H as (x & _ & H). apply bind_ok in H as (_ & _ & H).
    apply bind_ok in H as (outs & _ & H).
    apply (for_each_inv (λ cur, erase_forward cur = erase_forward net)) in H;
      [done|done|].
    intros e cur cur' _ Hc Hb.
    apply edge_forward_erase in Hb; [by rewrite Hb|apply IH].
  - unfold summing_nodes_forward in H.
    apply bind_ok in H as (x & Hx%get_summing_nodes_inv & H).
    apply bind_ok in H as (_ & _ & H).
    apply bind_ok in H as (r & _ & H).
    apply bind_ok in H as (fs1 & _ & H).
    set (x1 := summing_nodes.set_received_ _ _) in H.
    set (net1 := put_nodes p (Summing x1) net) in H.
    assert (erase_forward net1 = erase_forward net) as E1.
    { apply (erase_forward_put_nodes _ _ (Summing x)); [done|]. by destruct x. }
    apply bind_ok in H as (ins & _ & H).
    destruct (_ =? _); [|by injection H as <-].
    apply bind_ok in H as (outs & _ & H).
    apply bind_ok in H as (net2 & Hloop & H).
    apply bind_ok in H as (x2 & Hx2%get_summing_nodes_inv & [= <-]).
    apply (for_each_inv (λ cur, erase_forward cur = erase_forward net))
      in Hloop; [|done|].
    2:{ intros e cur cur' _ Hc Hb.
        apply bind_ok in Hb as (? & _ & Hb).
        apply bind_ok in Hb as (c & _ & Hb).
        apply edge_forward_erase in Hb; [by rewrite Hb|apply IH]. }
    rewrite <-Hloop.
    apply (erase_forward_put_nodes _ _ (Summing x2)); [done|]. by destruct x2.
  - unfold transfer_nodes_forward in H.
    apply bind_ok in H as (x & Hx%get_transfer_nodes_inv & H).
    apply bind_ok in H as (_ & _ & H).
    apply bind_ok in H as (r & _ & H).
    apply bind_ok in H as (fs1 & _ & H).
    set (x1 := transfer_nodes.set_received_ _ _) in H.
    apply bind_ok in H as (ins & _ & H).
    destruct (_ =? _).
    2:{ injection H as <-.
        apply (erase_forward_put_nodes _ _ (Transfer x)); [done|].
        by destruct x. }
    apply bind_ok in H as (slot & _ & H).
    apply bind_ok in H as (c & _ & H).
    apply bind_ok in H as (b & _ & H).
    set (x1' := transfer_nodes.set_fs_ _ x1) in H.
    set (net1 := put_nodes p (Transfer x1') net) in H.
    assert (erase_forward net1 = erase_forward net) as E1.
    { apply (erase_forward_put_nodes _ _ (Transfer x)); [done|].
      by destruct x. }
    apply bind_ok in H as (outs & _ & H).
    apply bind_ok in H as (net2 & Hloop & H).
    apply bind_ok in H as (x2 & Hx2%get_transfer_nodes_inv & [= <-]).
    apply (for_each_inv (λ cur, erase_forward cur = erase_forward net))
      in Hloop; [|done|].
    2:{ intros e cur cur' _ Hc Hb.
        apply bind_ok in Hb as (? & _ & Hb).
        apply bind_ok in Hb as (c' & _ & Hb).
        apply edge_forward_erase in Hb; [by rewrite Hb|apply IH]. }
    rewrite <-Hloop.
    apply (erase_forward_put_nodes _ _ (Transfer x2)); [done|]. by destruct x2.
Qed.

Lemma forward_entry_erase i net net' :
  forward_entry i net = Ok net' → erase_forward net' = erase_forward net.
Proof.
  unfold forward_entry. intros H.
  apply bind_ok in H as (_ & _ & H). apply bind_ok in H as (layer & _ & H).
  apply bind_ok in H as (o & _ & H). apply bind_ok in H as (_ & _ & H).
  unfold for_channels in H.
  apply (for_each_inv (λ cur, erase_forward cur = erase_forward net)) in H;
    [done|done|].
  intros [j c] cur cur' _ Hc Hb. apply nodes_forward_erase in Hb.
  by rewrite Hb.
Qed.

(** the two loops of [network::forward] *)
Lemma network_forward_loops fin net ret net' :
  network_forward fin net = Ok (ret, net') ↔
  StdMap.size fin = StdMap.size (input_nodes_ net) ∧
  for_each forward_entry fin net = Ok net' ∧
  for_each
    (λ (l : string * ptr) ret,
       o ← get_nodes net' l.2;
       fm ← get_featuremaps o;
       Ok (StdMap.insert l.1 fm ret))
    (output_nodes_ net') StdMap.empty = Ok ret.
Proof.
  unfold network_forward. fold forward_entry. split.
  - intros H. apply bind_ok in H as (_ & Hs%assert_ok%Nat.eqb_eq & H).
    apply bind_ok in H as (net1 & H1 & H).
    apply bind_ok in H as (ret1 & H2 & [= <- <-]). done.
  - intros (Hs & H1 & H2). apply Nat.eqb_eq in Hs. rewrite Hs. simpl.
    change (for_each _ fin net) with (for_each forward_entry fin net).
    rewrite H1. simpl. by rewrite H2.
Qed.

Lemma network_forward_erase fin net ret net' :
  network_forward fin net = Ok (ret, net') →
  erase_forward net' = erase_forward net.
Proof.
  intros (_ & H & _)%network_forward_loops.
  apply (for_each_inv (λ cur, erase_forward cur = erase_forward net)) in H;
    [done|done|].
  intros i cur cur' _ Hc Hb. apply forward_entry_erase in Hb. by rewrite Hb.
Qed.

Lemma erase_nodes_transfer o x' :
  erase_nodes o = erase_nodes (Transfer x') →
  ∃ x, o = Transfer x ∧
       transfer_nodes.biases_ x' = transfer_nodes.biases_ x ∧
       transfer_nodes.func_ x' = transfer_nodes.func_ x.
Proof.
  destruct o as [x|x|x]; try done. intros H. exists x.
  destruct x, x'; simpl in *. by simplify_eq.
Qed.

(** the entries of the returned map *)
Lemma returned_find net outs : ∀ acc ret,
  NoDup outs.*1 →
  for_each
    (λ (l : string * ptr) ret,
       o ← get_nodes net l.2;
       fm ← get_featuremaps o;
       Ok (StdMap.insert l.1 fm ret)) outs acc = Ok ret →
  ∀ k, StdMap.find k ret =
    match StdMap.find k outs with
    | Some p => o ← node_obj net p; Some (fs_of o)
    | None => StdMap.find k acc
    end.
Proof.
  induction outs as [|[k0 p0] outs IH]; intros acc ret Hnd H k.
  - by injection H as <-.
  - cbn [for_each] in H. apply bind_ok in H as (acc1 & Hb & H).
    apply bind_ok in Hb as (o & Ho%get_nodes_node_obj & Hb).
    apply bind_ok in Hb as (fm & Hfm & [= <-]).
    apply NoDup_cons in Hnd as [Hk0 Hnd]. cbn [fst snd] in *.
    rewrite (IH _ _ Hnd H k). cbn [StdMap.find].
    destruct (String.eqb_spec k k0) as [->|Hne].
    + destruct (StdMap.find k0 outs) as [p|] eqn:Hf.
      { destruct Hk0. apply stdmap_find_elem in Hf.
        apply list_elem_of_fmap. by exists (k0, p). }
      rewrite stdmap_find_insert, String.eqb_refl, Ho. simpl.
      destruct o; simpl in Hfm; [discriminate Hfm|injection Hfm as <-..]; done.
    + destruct (StdMap.find k outs); [done|].
      rewrite stdmap_find_insert.
      by destruct (String.eqb_spec k k0).
Qed.

End ForwardWrites.

(** X5: a forward pass writes the arrival counters and feature buffers of
    node groups and the state kept by edge kernels, and nothing else,
    whatever the graph and the input: when [network::forward] returns, no
    filter and no bias has changed, every gradient buffer, every edge list
    and every end point of an edge is what it was, and so are the graph
    records with their geometry and the four registries. *)
Theorem forward_writes_buffers_only `{Ext : Externals}
    (fin ret : StdMap.t (list (option cube))) (net net' : network) :
  network_forward fin net = Ok (ret, net') →
  erase_forward net' = erase_forward net ∧
  filter_arena net' = filter_arena net ∧
  nedges_arena net' = nedges_arena net ∧
  (∀ p x', node_obj net' p = Some (Transfer x') →
     ∃ x, node_obj net p = Some (Transfer x) ∧
          transfer_nodes.biases_ x' = transfer_nodes.biases_ x ∧
          transfer_nodes.func_ x' = transfer_nodes.func_ x) ∧
  (∀ p i, gs net' p i = gs net p i ∧
          c_out net' p i = c_out net p i ∧ c_in net' p i = c_in net p i) ∧
  (∀ p, c_size net' p = c_size net p ∧
        (input_at net' p ↔ input_at net p) ∧
        n_fov net' p = n_fov net p ∧ n_stride net' p = n_stride net p ∧
        n_fsize net' p = n_fsize net p) ∧
  (∀ e, ed_in net' e = ed_in net e ∧ ed_in_num net' e = ed_in_num net e ∧
        ed_out net' e = ed_out net e ∧ ed_out_num net' e = ed_out_num net e).
Proof.
  intros E%network_forward_erase.
  pose proof (erase_forward_same _ _ E) as S.
  split; [done|]. split; [apply (st_filter_arena _ _ S)|].
  split; [by apply (f_equal nedges_arena) in E|]. split; [|split; [|split]].
  - intros p x' Hx'.
    pose proof (node_obj_erase net' p) as H. rewrite E, node_obj_erase, Hx' in H.
    destruct (node_obj net p) as [o|]; [|done]. injection H as H.
    destruct (erase_nodes_transfer _ _ H) as (x & -> & ? & ?). by exists x.
  - intros p i. split; [apply (st_gs _ _ S)|].
    split; [apply (st_c_out _ _ S)|apply (st_c_in _ _ S)].
  - intros p. split; [apply (st_c_size _ _ S)|].
    split; [apply (st_input_at _ _ S)|].
    assert (∀ f : nnodes.t → vec3i,
              (∀ x o, f (nnodes.set_nodes_obj o x) = f x) →
              from_option f vec3i_ops.zero (nnodes_arena net' !! p)
              = from_option f vec3i_ops.zero (nnodes_arena net !! p)) as Hg.
    { intros f Hf.
      apply (f_equal (λ n, from_option f vec3i_ops.zero (nnodes_arena n !! p)))
        in E.
      rewrite !erase_forward_nnodes_arena, !list_lookup_fmap in E.
      destruct (nnodes_arena net' !! p), (nnodes_arena net !! p);
        simpl in E; by rewrite ?Hf in E. }
    split; [|split]; apply Hg; by intros [].
  - intros e. split; [apply (st_ed_in _ _ S)|].
    split; [apply (st_ed_in_num _ _ S)|].
    split; [apply (st_ed_out _ _ S)|apply (st_ed_out_num _ _ S)].
Qed.

Lemma forward_writes_buffers_only_witness :
  filter_arena chain_net_fed = filter_arena chain_net ∧
  gs chain_net_fed 1 0 = gs chain_net 1 0 ∧
  c_in chain_net_fed 1 0 = c_in chain_net 1 0.
Proof.
  assert (network_forward [("in", [Some (voxel 5)])] chain_net
            = Ok ([("out", [Some (voxel 5)])], chain_net_fed)) as E
    by (vm_cast_no_check
          (eq_refl (Ok ([("out", [Some (voxel 5)])], chain_net_fed)))).
  destruct (forward_writes_buffers_only _ _ _ _ E)
    as (_ & H1 & _ & _ & H2 & _).
  split; [exact H1|]. split; [apply H2|apply H2].
Defined.

(** X6: [network::forward] collects the feature maps of every registered
    output node group, and an input node group has none to give
    ([get_featuremaps] is not implemented for it): on a network in which
    an input node group is registered as an output -- which is what [init]
    does with an input node group that no edge leaves -- no forward pass
    completes, whatever the input. *)
Theorem forward_needs_feature_maps `{Ext : Externals}
    (fin : StdMap.t (list (option cube))) (net : network) (k : string)
    (p : ptr) :
  (k, p) ∈ output_nodes_ net → input_at net p →
  ∀ r, network_forward fin net ≠ Ok r.
Proof.
  intros Hk Hp [ret net'] H.
  pose proof (erase_forward_same _ _ (network_forward_erase _ _ _ _ H)) as S.
  apply network_forward_loops in H as (_ & _ & H).
  rewrite (st_output_nodes_ _ _ S) in H.
  destruct (for_each_visits (λ _, True) _ _ _ _ I (λ _ _ _ _ _ _, I) H
              (k, p) Hk) as (acc & acc' & _ & Hb).
  apply bind_ok in Hb as (o & Ho%get_nodes_node_obj & Hb).
  apply bind_ok in Hb as (fm & Hfm & _).
  apply (st_input_at _ _ S) in Hp. unfold input_at in Hp.
  cbn [snd] in Ho. rewrite Ho in Hp. by destruct o.
Qed.

Lemma forward_needs_feature_maps_witness :
  network_forward [("in", [Some (voxel 1)])] lone_net = Err Unimplemented ∧
  ∀ r, network_forward [("in", [Some (voxel 1)])] lone_net ≠ Ok r.
Proof.
  split; [reflexivity|].
  apply (forward_needs_feature_maps _ lone_net "in" 0).
  - apply list_elem_of_here.
  - reflexivity.
Defined.

(** X7: what [network::forward] accepts.  A call that returns was given
    exactly one list of cubes for every input node group and none for any
    other name, each list as long as its node group has channels; and the
    map it returns holds, for every output node group, the vector of
    feature buffers of that group as the pass has left it. *)
Theorem forward_checks_inputs `{Ext : Externals}
    (fin ret : StdMap.t (list (option cube))) (net net' : network) :
  StdMap.wf fin →
  network_forward fin net = Ok (ret, net') →
  StdMap.size fin = StdMap.size (input_nodes_ net) ∧
  (∀ k v, (k, v) ∈ fin →
     ∃ p, StdMap.find k (input_nodes_ net) = Some p ∧ length v = c_size net p) ∧
  (StdMap.wf (input_nodes_ net) →
   ∀ k, k ∈ StdMap.keys (input_nodes_ net) ↔ k ∈ StdMap.keys fin) ∧
  (StdMap.wf (output_nodes_ net) →
   ∀ k, StdMap.find k ret =
        (p ← StdMap.find k (output_nodes_ net);
         o ← node_obj net' p; Some (fs_of o))).
Proof.
  intros Hwf H.
  pose proof (erase_forward_same _ _ (network_forward_erase _ _ _ _ H)) as S.
  apply network_forward_loops in H as (Hsz & Hfeed & Hret).
  assert (∀ k v, (k, v) ∈ fin →
            ∃ p, StdMap.find k (input_nodes_ net) = Some p ∧
                 length v = c_size net p) as Hall.
  { intros k v Hkv.
    destruct (for_each_visits
                (λ cur, erase_forward cur = erase_forward net) _ _ _ _
                eq_refl
                (λ i cur cur' _ Hc Hb,
                   eq_trans (forward_entry_erase i cur cur' Hb) Hc)
                Hfeed (k, v) Hkv) as (cur & cur' & Hc & Hb).
    pose proof (erase_forward_same _ _ Hc) as Sc.
    unfold forward_entry in Hb. cbn [fst snd] in Hb.
    apply bind_ok in Hb as (_ & _ & Hb).
    apply bind_ok in Hb as (p & Hp%deref_ok & Hb).
    apply bind_ok in Hb as (o & Ho%get_nodes_node_obj & Hb).
    apply bind_ok in Hb as (_ & Hlen%assert_ok%Nat.eqb_eq & _).
    exists p. rewrite <-(st_input_nodes_ _ _ Sc). split; [done|].
    rewrite <-(st_c_size _ _ Sc). unfold c_size. rewrite Ho. by simpl. }
  split; [done|]. split; [done|]. split.
  - intros Hin k. split.
    + apply incl_keys;
        [done|done|unfold StdMap.keys; rewrite !length_fmap; exact Hsz|].
      intros k' [[k'' v] [-> Hkv]]%list_elem_of_fmap.
      destruct (Hall _ _ Hkv) as (p & Hp & _).
      apply stdmap_find_keys. by eexists.
    + intros [[k' v] [-> Hkv]]%list_elem_of_fmap.
      destruct (Hall _ _ Hkv) as (p & Hp & _).
      apply stdmap_find_keys. by eexists.
  - intros Hout k. rewrite (st_output_nodes_ _ _ S) in Hret.
    rewrite (returned_find _ _ _ _ Hout Hret k).
    by destruct (StdMap.find k (output_nodes_ net)).
Qed.

Lemma forward_checks_inputs_witness :
  StdMap.find "out" [("out", [Some (voxel 5)])]
    = (p ← StdMap.find "out" (output_nodes_ chain_net);
       o ← node_obj chain_net_fed p; Some (fs_of o)) ∧
  ∃ p, StdMap.find "in" (input_nodes_ chain_net) = Some p ∧
       length [Some (voxel 5)] = c_size chain_net p.
Proof.
  assert (network_forward [("in", [Some (voxel 5)])] chain_net
            = Ok ([("out", [Some (voxel 5)])], chain_net_fed)) as E
    by (vm_cast_no_check
          (eq_refl (Ok ([("out", [Some (voxel 5)])], chain_net_fed)))).
  assert (StdMap.wf [("in", [Some (voxel 5)])]) as Hfin
    by (unfold StdMap.wf; literal_nodup).
  destruct (forward_checks_inputs _ _ _ _ Hfin E) as (_ & H1 & _ & H2).
  split.
  - apply H2. unfold StdMap.wf. literal_nodup.
  - apply (H1 "in" [Some (voxel 5)]). apply list_elem_of_here.
Defined.

Section BackwardWrites.
Context `{Ext : Externals}.

Lemma erase_backward_nnodes_arena net :
  nnodes_arena (erase_backward net) =
  (λ x, nnodes.set_nodes_obj (erase_grads (nnodes.nodes_obj x)) x)
    <$> nnodes_arena net.
Proof. done. Qed.

Lemma node_obj_erase_backward net p :
  node_obj (erase_backward net) p = erase_grads <$> node_obj net p.
Proof.
  unfold node_obj. rewrite erase_backward_nnodes_arena, list_lookup_fmap.
  by destruct (_ !! _) as [[]|].
Qed.

Lemma erase_backward_put_nodes net p o o' :
  node_obj net p = Some o → erase_grads o' = erase_grads o →
  erase_backward (put_nodes p o' net) = erase_backward net.
Proof.
  unfold node_obj, put_nodes. intros H E.
  destruct (nnodes_arena net !! p) as [nn|] eqn:Hnn; [|done].
  injection H as <-.
  unfold erase_backward, put_nnodes, set_filter_arena, set_nnodes_arena.
  cbn [nnodes_arena nedges_arena edge_arena filter_arena edges_ nodes_
       input_nodes_ output_nodes_].
  f_equal. rewrite list_fmap_insert. apply list_insert_id.
  rewrite list_lookup_fmap, Hnn. destruct nn; simpl in *. by rewrite E.
Qed.

Lemma erase_backward_set_filter_arena v net :
  erase_backward (set_filter_arena v net) = erase_backward net.
Proof. done. Qed.

Lemma impl_backward_erase i g net net' c :
  impl_backward i g net = Ok (net', c) →
  erase_backward net' = erase_backward net.
Proof.
  destruct i as [|e|e]; simpl; intros H.
  - by apply bind_ok in H as (? & _ & [= <- _]).
  - by apply bind_ok in H as (? & _ & [= <- _]).
  - by apply bind_ok in H as (? & _ & [= <- _]).
Qed.

Lemma edge_backward_erase (nb : nodes_method) :
  (∀ p i g net net', nb p i g net = Ok net' →
     erase_backward net' = erase_backward net) →
  ∀ e g net net', edge_of_backward nb e g net = Ok net' →
    erase_backward net' = erase_backward net.
Proof.
  intros IH e g net net' H. unfold edge_of_backward in H.
  apply bind_ok in H as (eo & _ & H).
  apply bind_ok in H as ([net1 c] & Hi%impl_backward_erase & H).
  apply IH in H. by rewrite H.
Qed.

(** [nodes::backward] writes filters, biases, counters, gradient buffers
    and the feature buffers of transfer node groups, and nothing else *)
Lemma nodes_backward_erase fuel : ∀ p i g net net',
  nodes_backward fuel p i g net = Ok net' →
  erase_backward net' = erase_backward net.
Proof.
  induction fuel as [|fuel IH]; intros p i g net net' H; [done|].
  cbn [nodes_backward] in H.
  apply bind_ok in H as (o & Ho & H). destruct o as [x0|x0|x0].
  - by injection H as <-.
  - unfold summing_nodes_backward in H.
    apply bind_ok in H as (x & Hx%get_summing_nodes_inv & H).
    apply bind_ok in H as (_ & _ & H).
    apply bind_ok in H as (r & _ & H).
    apply bind_ok in H as (gs1 & _ & H).
    set (x1 := summing_nodes.set_received_ _ _) in H.
    set (net1 := put_nodes p (Summing x1) net) in H.
    assert (erase_backward net1 = erase_backward net) as E1.
    { apply (erase_backward_put_nodes _ _ (Summing x)); [done|].
      by destruct x. }
    apply bind_ok in H as (outs & _ & H).
    destruct (_ || _); [|by injection H as <-].
    apply bind_ok in H as (ins & _ & H).
    apply bind_ok in H as (net2 & Hloop & H).
    apply bind_ok in H as (x2 & Hx2%get_summing_nodes_inv & [= <-]).
    apply (for_each_inv (λ cur, erase_backward cur = erase_backward net))
      in Hloop; [|done|].
    2:{ intros e cur cur' _ Hc Hb.
        apply bind_ok in Hb as (? & _ & Hb).
        apply bind_ok in Hb as (c & _ & Hb).
        apply edge_backward_erase in Hb; [by rewrite Hb|apply IH]. }
    rewrite <-Hloop.
    apply (erase_backward_put_nodes _ _ (Summing x2)); [done|]. by destruct x2.
  - unfold transfer_nodes_backward in H.
    apply bind_ok in H as (x & Hx%get_transfer_nodes_inv & H).
    apply bind_ok in H as (_ & _ & H).
    apply bind_ok in H as (r & _ & H).
    apply bind_ok in H as (gs1 & _ & H).
    set (x1 := transfer_nodes.set_received_ _ _) in H.
    apply bind_ok in H as (outs & _ & H).
    destruct (_ || _).
    2:{ injection H as <-.
        apply (erase_backward_put_nodes _ _ (Transfer x)); [done|].
        by destruct x. }
    apply bind_ok in H as (gslot & _ & H).
    apply bind_ok in H as (gc & _ & H).
    apply bind_ok in H as (fslot & _ & H).
    apply bind_ok in H as (fc & _ & H).
    apply bind_ok in H as (b & _ & H).
    set (x1' := transfer_nodes.set_biases_ _ _) in H.
    set (net1 := put_nodes p (Transfer x1') net) in H.
    assert (erase_backward net1 = erase_backward net) as E1.
    { apply (erase_backward_put_nodes _ _ (Transfer x)); [done|].
      by destruct x. }
    apply bind_ok in H as (ins & _ & H).
    apply bind_ok in H as (net2 & Hloop & H).
    apply bind_ok in H as (x2 & Hx2%get_transfer_nodes_inv & [= <-]).
    apply (for_each_inv (λ cur, erase_backward cur = erase_backward net))
      in Hloop; [|done|].
    2:{ intros e cur cur' _ Hc Hb.
        apply bind_ok in Hb as (? & _ & Hb).
        apply bind_ok in Hb as (c' & _ & Hb).
        apply edge_backward_erase in Hb; [by rewrite Hb|apply IH]. }
    rewrite <-Hloop.
    apply (erase_backward_put_nodes _ _ (Transfer x2)); [done|]. by destruct x2.
Qed.

Lemma backward_entry_erase o net net' :
  backward_entry o net = Ok net' → erase_backward net' = erase_backward net.
Proof.
  unfold backward_entry. intros H.
  apply bind_ok in H as (_ & _ & H). apply bind_ok in H as (layer & _ & H).
  apply bind_ok in H as (obj & _ & H). apply bind_ok in H as (_ & _ & H).
  unfold for_channels in H.
  apply (for_each_inv (λ cur, erase_backward cur = erase_backward net)) in H;
    [done|done|].
  intros [j c] cur cur' _ Hc Hb. apply nodes_backward_erase in Hb.
  by rewrite Hb.
Qed.

(** the two loops of [network::backward] *)
Lemma network_backward_loops fout net ret net' :
  network_backward fout net = Ok (ret, net') ↔
  StdMap.size fout = StdMap.size (input_nodes_ net) ∧
  for_each backward_entry fout net = Ok net' ∧
  ret = foldl (λ ret (l : string * ptr), StdMap.insert l.1 [] ret)
          StdMap.empty (input_nodes_ net').
Proof.
  unfold network_backward. fold backward_entry. split.
  - intros H. apply bind_ok in H as (_ & Hs%assert_ok%Nat.eqb_eq & H).
    apply bind_ok in H as (net1 & H1 & [= <- <-]). done.
  - intros (Hs & H1 & ->). apply Nat.eqb_eq in Hs. rewrite Hs. simpl.
    change (for_each _ fout net) with (for_each backward_entry fout net).
    by rewrite H1.
Qed.

Lemma network_backward_erase fout net ret net' :
  network_backward fout net = Ok (ret, net') →
  erase_backward net' = erase_backward net.
Proof.
  intros (_ & H & _)%network_backward_loops.
  apply (for_each_inv (λ cur, erase_backward cur = erase_backward net)) in H;
    [done|done|].
  intros i cur cur' _ Hc Hb. apply backward_entry_erase in Hb. by rewrite Hb.
Qed.

(** what [erase_backward] keeps *)
Lemma erase_grads_outputs o : outputs_of (erase_grads o) = outputs_of o.
Proof. by destruct o. Qed.
Lemma erase_grads_inputs o : inputs_of (erase_grads o) = inputs_of o.
Proof. by destruct o. Qed.
Lemma erase_grads_size o : num_out_nodes (erase_grads o) = num_out_nodes o.
Proof. by destruct o. Qed.
Lemma erase_grads_is_input o : is_input (erase_grads o) = is_input o.
Proof. by destruct o. Qed.
Lemma erase_grads_is_summing o : is_summing (erase_grads o) = is_summing o.
Proof. by destruct o. Qed.
Lemma erase_grads_is_transfer o : is_transfer (erase_grads o) = is_transfer o.
Proof. by destruct o. Qed.

Lemma erase_backward_c_out net p i :
  c_out (erase_backward net) p i = c_out net p i.
Proof.
  unfold c_out. rewrite node_obj_erase_backward.
  destruct (node_obj net p); [|done]. simpl. by rewrite erase_grads_outputs.
Qed.
Lemma erase_backward_c_in net p i :
  c_in (erase_backward net) p i = c_in net p i.
Proof.
  unfold c_in. rewrite node_obj_erase_backward.
  destruct (node_obj net p); [|done]. simpl. by rewrite erase_grads_inputs.
Qed.
Lemma erase_backward_c_size net p :
  c_size (erase_backward net) p = c_size net p.
Proof.
  unfold c_size. rewrite node_obj_erase_backward.
  destruct (node_obj net p); [|done]. simpl. by rewrite erase_grads_size.
Qed.
Lemma erase_backward_input_at net p :
  input_at (erase_backward net) p ↔ input_at net p.
Proof.
  unfold input_at. rewrite node_obj_erase_backward.
  destruct (node_obj net p); [|done]. simpl. by rewrite erase_grads_is_input.
Qed.
Lemma erase_backward_summing_at net p :
  summing_at (erase_backward net) p ↔ summing_at net p.
Proof.
  unfold summing_at. rewrite node_obj_erase_backward.
  destruct (node_obj net p); [|done]. simpl. by rewrite erase_grads_is_summing.
Qed.
Lemma erase_backward_transfer_at net p :
  transfer_at (erase_backward net) p ↔ transfer_at net p.
Proof.
  unfold transfer_at. rewrite node_obj_erase_backward.
  destruct (node_obj net p); [|done]. simpl.
  by rewrite erase_grads_is_transfer.
Qed.
Lemma erase_backward_summing_fs net p i :
  summing_at net p → fs (erase_backward net) p i = fs net p i.
Proof.
  unfold summing_at, fs. rewrite node_obj_erase_backward.
  by destruct (node_obj net p) as [[]|].
Qed.

(** the map [network::backward] returns *)
Lemma returned_gradients (l : list (string * ptr)) :
  ∀ (acc : StdMap.t (list cube_p)) k,
    StdMap.find k
      (foldl (λ ret (l : string * ptr), StdMap.insert l.1 [] ret) acc l)
    = match StdMap.find k l with
      | Some _ => Some []
      | None => StdMap.find k acc
      end.
Proof.
  induction l as [|[k0 p0] l IH]; intros acc k; [done|].
  cbn [foldl fst StdMap.find]. rewrite IH, stdmap_find_insert.
  destruct (StdMap.find k l); by destruct (String.eqb k k0).
Qed.

End BackwardWrites.

(** X8: a backward pass writes filters, biases, the arrival counters and
    gradient buffers of node groups and the feature buffers of transfer
    node groups, and nothing else, whatever the graph and the gradients:
    when [network::backward] returns, every edge object -- with the input
    a convolution edge has stored and the positions a pooling edge has
    recorded -- is what it was, and so are the feature buffers of summing
    node groups, every edge list, the kind and width of every node group,
    the graph records and the four registries. *)
Theorem backward_writes_gradients_only `{Ext : Externals}
    (fout ret : StdMap.t (list (option cube))) (net net' : network) :
  network_backward fout net = Ok (ret, net') →
  erase_backward net' = erase_backward net ∧
  edge_arena net' = edge_arena net ∧
  nedges_arena net' = nedges_arena net ∧
  edges_ net' = edges_ net ∧ nodes_ net' = nodes_ net ∧
  input_nodes_ net' = input_nodes_ net ∧
  output_nodes_ net' = output_nodes_ net ∧
  (∀ p i, c_out net' p i = c_out net p i ∧ c_in net' p i = c_in net p i ∧
          (summing_at net p → fs net' p i = fs net p i)) ∧
  (∀ p, c_size net' p = c_size net p ∧
        (input_at net' p ↔ input_at net p) ∧
        (summing_at net' p ↔ summing_at net p) ∧
        (transfer_at net' p ↔ transfer_at net p)).
Proof.
  intros E%network_backward_erase.
  split; [done|]. split; [by apply (f_equal edge_arena) in E|].
  split; [by apply (f_equal nedges_arena) in E|].
  split; [by apply (f_equal edges_) in E|].
  split; [by apply (f_equal nodes_) in E|].
  split; [by apply (f_equal input_nodes_) in E|].
  split; [by apply (f_equal output_nodes_) in E|].
  assert (∀ p, summing_at net' p ↔ summing_at net p) as Hs.
  { intros p.
    by rewrite <-erase_backward_summing_at, E, erase_backward_summing_at. }
  split.
  - intros p i. split; [|split].
    + by rewrite <-erase_backward_c_out, E, erase_backward_c_out.
    + by rewrite <-erase_backward_c_in, E, erase_backward_c_in.
    + intros Hp.
      rewrite <-(erase_backward_summing_fs net') by by apply Hs.
      by rewrite E, erase_backward_summing_fs.
  - intros p. split; [|split; [|split]].
    + by rewrite <-erase_backward_c_size, E, erase_backward_c_size.
    + by rewrite <-erase_backward_input_at, E, erase_backward_input_at.
    + apply Hs.
    + by rewrite <-erase_backward_transfer_at, E, erase_backward_transfer_at.
Qed.

Lemma backward_writes_gradients_only_witness :
  network_backward [("out", [Some (voxel 28)])] chain_net_fed
    = Ok chain_net_trained ∧
  edge_arena chain_net_trained.2 = edge_arena chain_net_fed ∧
  c_in chain_net_trained.2 1 0 = c_in chain_net_fed 1 0.
Proof.
  assert (network_backward [("out", [Some (voxel 28)])] chain_net_fed
            = Ok (chain_net_trained.1, chain_net_trained.2)) as E
    by (vm_cast_no_check (eq_refl (Ok chain_net_trained))).
  split; [exact E|].
  destruct (backward_writes_gradients_only _ _ _ _ E)
    as (_ & H1 & _ & _ & _ & _ & _ & H2 & _).
  split; [exact H1|apply H2].
Defined.

(** X9: what [network::backward] accepts and returns.  A call that returns
    was given as many gradient lists as the network has input node groups,
    each under the name of an output node group and as long as that group
    has channels; the map it returns holds an empty vector for every input
    node group and nothing else: no gradient with respect to the input
    leaves the network. *)
Theorem backward_returns_no_gradient `{Ext : Externals}
    (fout ret : StdMap.t (list (option cube))) (net net' : network) :
  network_backward fout net = Ok (ret, net') →
  StdMap.size fout = StdMap.size (input_nodes_ net) ∧
  (∀ k v, (k, v) ∈ fout →
     ∃ p, StdMap.find k (output_nodes_ net) = Some p ∧
          length v = c_size net p) ∧
  (∀ k, StdMap.find k ret = (_ ← StdMap.find k (input_nodes_ net); Some [])).
Proof.
  intros H.
  pose proof (network_backward_erase _ _ _ _ H) as E.
  apply network_backward_loops in H as (Hsz & Hfeed & ->).
  split; [done|]. split.
  - intros k v Hkv.
    destruct (for_each_visits
                (λ cur, erase_backward cur = erase_backward net) _ _ _ _
                eq_refl
                (λ i cur cur' _ Hc Hb,
                   eq_trans (backward_entry_erase i cur cur' Hb) Hc)
                Hfeed (k, v) Hkv) as (cur & cur' & Hc & Hb).
    unfold backward_entry in Hb. cbn [fst snd] in Hb.
    apply bind_ok in Hb as (_ & _ & Hb).
    apply bind_ok in Hb as (p & Hp%deref_ok & Hb).
    apply bind_ok in Hb as (o & Ho%get_nodes_node_obj & Hb).
    apply bind_ok in Hb as (_ & Hlen%assert_ok%Nat.eqb_eq & _).
    exists p. split.
    + assert (output_nodes_ cur = output_nodes_ net) as <-
        by apply (f_equal output_nodes_ Hc).
      done.
    + rewrite <-erase_backward_c_size, <-Hc, erase_backward_c_size.
      unfold c_size. rewrite Ho. by simpl.
  - intros k. rewrite returned_gradients.
    rewrite (f_equal input_nodes_ E : input_nodes_ net' = input_nodes_ net).
    by destruct (StdMap.find k (input_nodes_ net)).
Qed.

Lemma backward_returns_no_gradient_witness :
  network_backward [("out", [Some (voxel 28)])] chain_net_fed
    = Ok chain_net_trained ∧
  chain_net_trained.1 = [("in", [])] ∧
  StdMap.find "in" chain_net_trained.1
    = (_ ← StdMap.find "in" (input_nodes_ chain_net_fed); Some []).
Proof.
  assert (network_backward [("out", [Some (voxel 28)])] chain_net_fed
            = Ok (chain_net_trained.1, chain_net_trained.2)) as E
    by (vm_cast_no_check (eq_refl (Ok chain_net_trained))).
  split; [exact E|]. split; [reflexivity|].
  apply (proj2 (proj2 (backward_returns_no_gradient _ _ _ _ E))).
Defined.

Section ForEachPrefix.

Lemma for_each_prefix {S X} (P : list X → S → Prop)
    (body : X → S → result S) xs :
  ∀ done_ s s',
    P done_ s →
    (∀ done_ x s s', P done_ s → body x s = Ok s' → P (done_ ++ [x]) s') →
    for_each body xs s = Ok s' → P (done_ ++ xs) s'.
Proof.
  induction xs as [|x xs IH]; intros done_ s s' Hs Hb H; simpl in H.
  - injection H as <-. by rewrite app_nil_r.
  - apply bind_ok in H as (s1 & H1 & H).
    rewrite (cons_middle x done_ xs), app_assoc.
    apply (IH _ s1); [by eapply Hb|done..].
Qed.

End ForEachPrefix.

Section StdMapFresh.
Context {V : Type}.
Implicit Types m : StdMap.t V.

Lemma stdmap_find_none k m : StdMap.find k m = None ↔ k ∉ StdMap.keys m.
Proof.
  rewrite <-stdmap_find_keys. destruct (StdMap.find k m) as [v|].
  - split; [done|]. intros H. destruct H. by eexists.
  - split; [|done]. intros _ [? ?]. done.
Qed.

Lemma stdmap_insert_fresh k v m :
  StdMap.find k m = None → StdMap.insert k v m ≡ₚ (k, v) :: m.
Proof.
  induction m as [|[k0 v0] m IH]; simpl; [done|].
  destruct (String.eqb k k0); [done|]. intros Hf.
  destruct (String.ltb k k0); [done|].
  rewrite (IH Hf). apply Permutation_swap.
Qed.

Lemma stdmap_insert_fresh_elem k v m kv :
  StdMap.find k m = None →
  kv ∈ StdMap.insert k v m ↔ kv = (k, v) ∨ kv ∈ m.
Proof.
  intros Hf. rewrite (stdmap_insert_fresh k v m Hf). apply elem_of_cons.
Qed.

Lemma stdmap_insert_fresh_values k v m x :
  StdMap.find k m = None →
  x ∈ StdMap.values (StdMap.insert k v m) ↔ x = v ∨ x ∈ StdMap.values m.
Proof.
  intros Hf. unfold StdMap.values.
  rewrite (stdmap_insert_fresh k v m Hf). simpl. apply elem_of_cons.
Qed.

Lemma stdmap_insert_fresh_wf k v m :
  StdMap.find k m = None → StdMap.wf m → StdMap.wf (StdMap.insert k v m).
Proof.
  intros Hf Hwf. unfold StdMap.wf, StdMap.keys.
  rewrite (stdmap_insert_fresh k v m Hf). simpl.
  apply NoDup_cons. split; [by apply stdmap_find_none|done].
Qed.

Lemma stdmap_insert_fresh_inj k v m :
  StdMap.find k m = None → v ∉ StdMap.values m →
  NoDup (StdMap.values m) → NoDup (StdMap.values (StdMap.insert k v m)).
Proof.
  intros Hf Hv Hnd. unfold StdMap.values.
  rewrite (stdmap_insert_fresh k v m Hf). simpl.
  apply NoDup_cons. done.
Qed.

Lemma stdmap_count_zero k m :
  (StdMap.count k m =? 0) = true ↔ StdMap.find k m = None.
Proof. unfold StdMap.count. by destruct (StdMap.find k m). Qed.

Lemma stdmap_count_pos k m :
  (0 <? StdMap.count k m) = true ↔ is_Some (StdMap.find k m).
Proof.
  unfold StdMap.count. destruct (StdMap.find k m); simpl; split; done.
Qed.

End StdMapFresh.

Section Declarations.
Context `{Ext : Externals}.

Lemma transfer_nodes_ctor_size op t :
  transfer_nodes.ctor op = Ok t →
  opt.require_size op "size" = Ok (transfer_nodes.size_ t).
Proof.
  unfold transfer_nodes.ctor. intros H.
  apply bind_ok in H as (sz & Hsz & H). apply bind_ok in H as (fn & _ & H).
  apply bind_ok in H as (eta & _ & H). apply bind_ok in H as (mom & _ & H).
  apply bind_ok in H as (wd & _ & H). apply bind_ok in H as (bv & _ & H).
  apply bind_ok in H as (bs & _ & [= <-]). done.
Qed.

(** [add_nodes], when it returns: one node group more, registered under a
    new name *)
Lemma add_nodes_effect op net net' :
  add_nodes op net = Ok net' →
  ∃ name type sz o,
    opt.require_string op "name" = Ok name ∧
    opt.require_string op "type" = Ok type ∧
    opt.require_size op "size" = Ok sz ∧ 0 < sz ∧
    StdMap.find name (nodes_ net) = None ∧
    num_out_nodes o = sz ∧
    (type = "input" ∧ is_input o = true ∨
     type = "sum" ∧ is_summing o = true ∨
     type = "transfer" ∧ is_transfer o = true) ∧
    net' =
      Network
        (nnodes_arena net
           ++ [nnodes.Build vec3i_ops.zero vec3i_ops.zero vec3i_ops.zero
                 o [] []])
        (nedges_arena net) (edge_arena net) (filter_arena net) (edges_ net)
        (StdMap.insert name (length (nnodes_arena net)) (nodes_ net))
        (if is_input o
         then StdMap.insert name (length (nnodes_arena net)) (input_nodes_ net)
         else input_nodes_ net)
        (output_nodes_ net).
Proof.
  unfold add_nodes. intros H.
  apply bind_ok in H as (name & Hname & H).
  apply bind_ok in H as (type & Htype & H).
  apply bind_ok in H as (sz & Hsz & H).
  apply bind_ok in H as (_ & Hpos%assert_ok%Nat.ltb_lt & H).
  apply bind_ok in H as (_ & Hfresh%assert_ok%stdmap_count_zero & H).
  exists name, type, sz.
  destruct (String.eqb_spec type "input") as [->|_].
  { injection H as <-. exists (Input (input_nodes.ctor sz op)).
    repeat (split; [done|]). split; [by left|done]. }
  destruct (String.eqb_spec type "sum") as [->|_].
  { injection H as <-. exists (Summing (summing_nodes.ctor sz op)).
    repeat (split; [done|]). split; [right; by left|done]. }
  destruct (String.eqb_spec type "transfer") as [->|_]; [|done].
  apply bind_ok in H as (t & Ht & [= <-]). exists (Transfer t).
  apply transfer_nodes_ctor_size in Ht. rewrite Hsz in Ht.
  injection Ht as ->.
  repeat (split; [done|]). split; [right; by right|done].
Qed.

(** [add_edges], when it returns: one edge group more, registered under a
    new name and listed by the two node groups it names *)
Lemma add_edges_effect op net net' :
  add_edges op net = Ok net' →
  ∃ name type in_ out pin pout nin nout w s,
    opt.require_string op "name" = Ok name ∧
    opt.require_string op "type" = Ok type ∧
    opt.require_string op "input" = Ok in_ ∧
    opt.require_string op "output" = Ok out ∧
    StdMap.find name (edges_ net) = None ∧
    StdMap.find in_ (nodes_ net) = Some pin ∧
    StdMap.find out (nodes_ net) = Some pout ∧
    nnodes_arena net !! pin = Some nin ∧
    <[pin := nnodes.set_out
               (nnodes.out nin ++ [length (nedges_arena net)]) nin]>
      (nnodes_arena net) !! pout = Some nout ∧
    (type = "max_filter" ∧
       opt.require_vec op "size" = Ok w ∧
       opt.require_vec op "stride" = Ok s ∨
     type = "conv" ∧
       opt.require_vec op "size" = Ok w ∧
       opt.optional_vec op "stride" vec3i_ops.one = Ok s ∨
     type = "dummy" ∧ w = vec3i_ops.one ∧ s = vec3i_ops.one) ∧
    net' =
      Network
        (<[pout := nnodes.set_in_
                     (nnodes.in_ nout ++ [length (nedges_arena net)]) nout]>
           (<[pin := nnodes.set_out
                       (nnodes.out nin ++ [length (nedges_arena net)]) nin]>
              (nnodes_arena net)))
        (nedges_arena net
           ++ [nedges.Build w s vec3i_ops.zero vec3i_ops.zero pin pout
                 (Some op) None])
        (edge_arena net) (filter_arena net)
        (StdMap.insert name (length (nedges_arena net)) (edges_ net))
        (nodes_ net) (input_nodes_ net) (output_nodes_ net).
Proof.
  unfold add_edges. intros H.
  apply bind_ok in H as (name & Hname & H).
  apply bind_ok in H as (type & Htype & H).
  apply bind_ok in H as (in_ & Hin & H).
  apply bind_ok in H as (out & Hout & H).
  apply bind_ok in H as (_ & Hfresh%assert_ok%stdmap_count_zero & H).
  apply bind_ok in H as (_ & _ & H).
  apply bind_ok in H as (pin & Hpin%deref_ok & H).
  apply bind_ok in H as (pout & Hpout%deref_ok & H).
  apply bind_ok in H as (nin & Hnin%get_nnodes_lookup & H).
  apply bind_ok in H as (nout & Hnout%get_nnodes_lookup & H).
  cbn in Hnin, Hnout.
  exists name, type, in_, out, pin, pout, nin, nout.
  assert (∀ w s,
    put_nedges (length (nedges_arena net))
      (nedges.set_stride s
         (nedges.set_width w
            (nedges.Build vec3i_ops.one vec3i_ops.one vec3i_ops.zero
               vec3i_ops.zero pin pout (Some op) None)))
      (set_edges_
         (StdMap.insert name (length (nedges_arena net))
            (edges_
               (put_nnodes pout
                  (nnodes.set_in_
                     (nnodes.in_ nout ++ [length (nedges_arena net)]) nout)
                  (put_nnodes pin
                     (nnodes.set_out
                        (nnodes.out nin ++ [length (nedges_arena net)]) nin)
                     (set_nedges_arena
                        (nedges_arena net
                           ++ [nedges.Build vec3i_ops.one vec3i_ops.one
                                 vec3i_ops.zero vec3i_ops.zero pin pout
                                 (Some op) None]) net)))))
         (put_nnodes pout
            (nnodes.set_in_
               (nnodes.in_ nout ++ [length (nedges_arena net)]) nout)
            (put_nnodes pin
               (nnodes.set_out
                  (nnodes.out nin ++ [length (nedges_arena net)]) nin)
               (set_nedges_arena
                  (nedges_arena net
                     ++ [nedges.Build vec3i_ops.one vec3i_ops.one
                           vec3i_ops.zero vec3i_ops.zero pin pout
                           (Some op) None]) net))))
    = Network
        (<[pout := nnodes.set_in_
                     (nnodes.in_ nout ++ [length (nedges_arena net)]) nout]>
           (<[pin := nnodes.set_out
                       (nnodes.out nin ++ [length (nedges_arena net)]) nin]>
              (nnodes_arena net)))
        (nedges_arena net
           ++ [nedges.Build w s vec3i_ops.zero vec3i_ops.zero pin pout
                 (Some op) None])
        (edge_arena net) (filter_arena net)
        (StdMap.insert name (length (nedges_arena net)) (edges_ net))
        (nodes_ net) (input_nodes_ net) (output_nodes_ net)) as Hput.
  { intros w s. unfold put_nedges, put_nnodes, set_edges_, set_nedges_arena,
      set_nnodes_arena. cbn. f_equal.
    rewrite insert_app_r_alt by done. by rewrite Nat.sub_diag. }
  destruct (String.eqb_spec type "max_filter") as [->|_].
  { apply bind_ok in H as (w & Hw & H). apply bind_ok in H as (s & Hs & H).
    injection H as <-. exists w, s. repeat (split; [done|]).
    split; [by left|apply Hput]. }
  destruct (String.eqb_spec type "conv") as [->|_].
  { apply bind_ok in H as (w & Hw & H). apply bind_ok in H as (s & Hs & H).
    injection H as <-. exists w, s. repeat (split; [done|]).
    split; [right; by left|apply Hput]. }
  destruct (String.eqb_spec type "dummy") as [->|_]; [|done].
  injection H as <-. exists vec3i_ops.one, vec3i_ops.one.
  repeat (split; [done|]). split; [right; by right|done].
Qed.

End Declarations.

Section DeclaredNodes.
Context `{Ext : Externals}.

Lemma lookup_snoc {A} (l : list A) x p :
  (l ++ [x]) !! p = if decide (p = length l) then Some x else l !! p.
Proof.
  case_decide as Hp.
  - subst. rewrite lookup_app_r by done. by rewrite Nat.sub_diag.
  - destruct (decide (p < length l)).
    + by rewrite lookup_app_l.
    + rewrite !lookup_ge_None_2; [done|lia|rewrite length_app; simpl; lia].
Qed.

Lemma add_nodes_declared_wf op net net' :
  declared_wf net → add_nodes op net = Ok net' → declared_wf net'.
Proof.
  intros W H.
  destruct (add_nodes_effect _ _ _ H)
    as (name & type & sz & o & Hname & Htype & Hsz & Hpos & Hfresh & Ho
        & Hkind & ->).
  set (len := length (nnodes_arena net)).
  set (new := nnodes.Build vec3i_ops.zero vec3i_ops.zero vec3i_ops.zero
                o [] []).
  set (net' := Network _ _ _ _ _ _ _ _).
  assert (∀ p, valid_node net' p ↔ p = len ∨ valid_node net p) as Hvalid.
  { intros p. unfold valid_node, net'. cbn [nnodes_arena].
    rewrite length_app. simpl. fold len. lia. }
  assert (∀ p, nnodes_arena net' !! p
               = if decide (p = len) then Some new else nnodes_arena net !! p)
    as Hlook by (intros p; apply lookup_snoc).
  assert (nnodes_arena net !! len = None) as Hnone
    by (by apply lookup_ge_None_2).
  assert (∀ e, valid_nedges net e → e_in net e ≠ len ∧ e_out net e ≠ len)
    as Hends.
  { intros e He. destruct (dw_ends _ W e He) as [H1 H2].
    unfold valid_node in H1, H2. fold len in H1, H2. lia. }
  assert (∀ k p, (k, p) ∈ nodes_ net → p ≠ len ∧ k ≠ name) as Hold.
  { intros k p Hkp. split.
    - assert (valid_node net p) as Hp.
      { apply (dw_nodes_ _ W). apply list_elem_of_fmap. by exists (k, p). }
      unfold valid_node in Hp. fold len in Hp. lia.
    - intros ->. apply stdmap_find_none in Hfresh. apply Hfresh.
      apply list_elem_of_fmap. by exists (name, p). }
  assert (StdMap.find name (input_nodes_ net) = None) as Hfresh_in.
  { destruct (StdMap.find name (input_nodes_ net)) as [p|] eqn:E; [|done].
    apply stdmap_find_elem, (dw_inputs _ W) in E as [E _].
    by destruct (Hold _ _ E). }
  assert (∀ p, input_at net' p ↔
               (p = len ∧ is_input o = true) ∨ (p ≠ len ∧ input_at net p))
    as Hinput.
  { intros p. unfold input_at, node_obj. rewrite Hlook. case_decide as Hp.
    - subst p. simpl. split.
      + intros [= ->]. by left.
      + intros [[_ ->]|[? _]]; done.
    - split; [by right|]. by intros [[? _]|[_ ?]]. }
  split.
  - intros e He. apply (dw_ends _ W) in He as [H1 H2].
    split; apply Hvalid; by right.
  - intros p e Hp. unfold n_out. rewrite Hlook. case_decide as Hpl.
    + subst p. simpl. split; [by intros ?%elem_of_nil|].
      intros [He Hin]. by destruct (Hends e He).
    + apply Hvalid in Hp as [?|Hp]; [done|]. by apply (dw_out _ W).
  - intros p e Hp. unfold n_in. rewrite Hlook. case_decide as Hpl.
    + subst p. simpl. split; [by intros ?%elem_of_nil|].
      intros [He Hin]. by destruct (Hends e He).
    + apply Hvalid in Hp as [?|Hp]; [done|]. by apply (dw_in _ W).
  - intros p. unfold n_out. rewrite Hlook. case_decide.
    + apply NoDup_nil_2.
    + apply (dw_out_nodup _ W).
  - intros p. unfold n_in. rewrite Hlook. case_decide.
    + apply NoDup_nil_2.
    + apply (dw_in_nodup _ W).
  - intros p. rewrite Hvalid. unfold net'. cbn [nodes_].
    rewrite (stdmap_insert_fresh_values _ _ _ _ Hfresh).
    by rewrite (dw_nodes_ _ W).
  - apply stdmap_insert_fresh_wf; [done|apply (dw_nodes_keys _ W)].
  - apply stdmap_insert_fresh_inj; [done| |apply (dw_nodes_inj _ W)].
    intros Hin%(dw_nodes_ _ W). unfold valid_node in Hin. fold len in Hin.
    lia.
  - apply (dw_edges_ _ W).
  - apply (dw_edges_keys _ W).
  - intros k p. rewrite Hinput. unfold net'. cbn [nodes_ input_nodes_].
    rewrite (stdmap_insert_fresh_elem _ _ _ _ Hfresh).
    pose proof (dw_inputs _ W k p) as Hdi.
    destruct (is_input o) eqn:Hio.
    + rewrite (stdmap_insert_fresh_elem _ _ _ _ Hfresh_in). split.
      * intros [[= -> ->]|[Hkp Hi]%Hdi].
        -- split; [by left|by left].
        -- split; [by right|]. right. split; [|done].
           by destruct (Hold _ _ Hkp).
      * intros [[[= -> ->]|Hkp] [[Hp _]|[Hp Hi]]]; try done.
        -- by left.
        -- subst p. by destruct (Hold _ _ Hkp).
        -- right. by apply Hdi.
    + split.
      * intros [Hkp Hi]%Hdi. split; [by right|]. right. split; [|done].
        by destruct (Hold _ _ Hkp).
      * intros [[[= -> ->]|Hkp] [[Hp ?]|[Hp Hi]]]; try done. by apply Hdi.
  - unfold net'. cbn [input_nodes_]. destruct (is_input o).
    + apply stdmap_insert_fresh_wf; [done|apply (dw_inputs_keys _ W)].
    + apply (dw_inputs_keys _ W).
  - apply (dw_no_outputs _ W).
  - intros p. unfold n_stride, n_fov. rewrite Hlook. case_decide; [done|].
    apply (dw_fresh _ W).
  - intros p Hp. unfold c_size, node_obj. rewrite Hlook. case_decide.
    + simpl. lia.
    + apply Hvalid in Hp as [?|Hp]; [done|]. by apply (dw_sizes _ W).
Qed.

End DeclaredNodes.

Section DeclaredEdges.
Context `{Ext : Externals}.

(** the graph records after [add_edges], read through the accessors *)
Lemma add_edges_reads op net net' :
  declared_wf net → add_edges op net = Ok net' →
  ∃ name type in_ out pin pout w s,
    opt.require_string op "name" = Ok name ∧
    opt.require_string op "type" = Ok type ∧
    opt.require_string op "input" = Ok in_ ∧
    opt.require_string op "output" = Ok out ∧
    StdMap.find name (edges_ net) = None ∧
    StdMap.find in_ (nodes_ net) = Some pin ∧
    StdMap.find out (nodes_ net) = Some pout ∧
    valid_node net pin ∧ valid_node net pout ∧
    (type = "max_filter" ∧
       opt.require_vec op "size" = Ok w ∧
       opt.require_vec op "stride" = Ok s ∨
     type = "conv" ∧
       opt.require_vec op "size" = Ok w ∧
       opt.optional_vec op "stride" vec3i_ops.one = Ok s ∨
     type = "dummy" ∧ w = vec3i_ops.one ∧ s = vec3i_ops.one) ∧
    let es := length (nedges_arena net) in
    edges_ net' = StdMap.insert name es (edges_ net) ∧
    nodes_ net' = nodes_ net ∧ input_nodes_ net' = input_nodes_ net ∧
    output_nodes_ net' = output_nodes_ net ∧
    (∀ p, valid_node net' p ↔ valid_node net p) ∧
    (∀ p, node_obj net' p = node_obj net p ∧
          n_stride net' p = n_stride net p ∧ n_fov net' p = n_fov net p ∧
          n_out net' p
            = (if decide (p = pin) then n_out net p ++ [es] else n_out net p) ∧
          n_in net' p
            = (if decide (p = pout) then n_in net p ++ [es] else n_in net p)) ∧
    (∀ e, valid_nedges net' e ↔ e = es ∨ valid_nedges net e) ∧
    (∀ e, e_in net' e = (if decide (e = es) then pin else e_in net e) ∧
          e_out net' e = (if decide (e = es) then pout else e_out net e) ∧
          e_width net' e = (if decide (e = es) then w else e_width net e) ∧
          e_stride net' e = (if decide (e = es) then s else e_stride net e)).
Proof.
  intros W H.
  destruct (add_edges_effect _ _ _ H)
    as (name & type & in_ & out & pin & pout & nin & nout & w & s & Hname
        & Htype & Hin & Hout & Hfresh & Hpin & Hpout & Hnin & Hnout & Hkind
        & ->).
  exists name, type, in_, out, pin, pout, w, s.
  assert (valid_node net pin) as Hvi by (by eapply lookup_lt_Some).
  assert (valid_node net pout) as Hvo.
  { apply lookup_lt_Some in Hnout. by rewrite length_insert in Hnout. }
  refine (conj Hname (conj Htype (conj Hin (conj Hout (conj Hfresh
            (conj Hpin (conj Hpout (conj Hvi (conj Hvo (conj Hkind _)))))))))).
  intros es. do 4 (split; [reflexivity|]).
  set (Y := nnodes.set_out (nnodes.out nin ++ [es]) nin) in *.
  set (X := nnodes.set_in_ (nnodes.in_ nout ++ [es]) nout).
  assert ((pout = pin → nout = Y) ∧
          (pout ≠ pin → nnodes_arena net !! pout = Some nout)) as [Hn1 Hn2].
  { split.
    - intros ->. rewrite list_lookup_insert_eq in Hnout by done.
      by injection Hnout as <-.
    - intros Hne. by rewrite list_lookup_insert_ne in Hnout. }
  assert (∀ p, <[pout := X]> (<[pin := Y]> (nnodes_arena net)) !! p
               = if decide (p = pout) then Some X
                 else if decide (p = pin) then Some Y
                      else nnodes_arena net !! p) as Hlook.
  { intros p. destruct (decide (p = pout)) as [->|Hp1].
    - rewrite list_lookup_insert_eq; [done|]. by rewrite length_insert.
    - rewrite list_lookup_insert_ne by done.
      destruct (decide (p = pin)) as [->|Hp2].
      + by rewrite list_lookup_insert_eq.
      + by rewrite list_lookup_insert_ne. }
  split; [|split; [|split]].
  - intros p. unfold valid_node. cbn [nnodes_arena].
    by rewrite !length_insert.
  - intros p. unfold node_obj, n_stride, n_fov, n_out, n_in.
    cbn [nnodes_arena]. rewrite Hlook.
    destruct (decide (p = pout)) as [->|Hp1].
    + destruct (decide (pout = pin)) as [Heq|Hne].
      * subst X. rewrite (Hn1 Heq). subst Y. rewrite Heq, Hnin.
        by destruct nin.
      * rewrite (Hn2 Hne). subst X. by destruct nout.
    + destruct (decide (p = pin)) as [->|Hp2]; [|done].
      rewrite Hnin. subst Y. by destruct nin.
  - intros e. unfold valid_nedges. cbn [nedges_arena].
    rewrite length_app. simpl. fold es. lia.
  - intros e. unfold e_in, e_out, e_width, e_stride. cbn [nedges_arena].
    rewrite lookup_snoc. fold es. by case_decide.
Qed.

Lemma add_edges_declared_wf op net net' :
  declared_wf net → add_edges op net = Ok net' → declared_wf net'.
Proof.
  intros W H.
  destruct (add_edges_reads _ _ _ W H)
    as (name & type & in_ & out & pin & pout & w & s & Hname & Htype & Hin
        & Hout & Hfresh & Hpin & Hpout & Hvi & Hvo & Hkind & He_ & Hn_
        & Hi_ & Ho_ & Hvalid & Hnode & Hvalid_e & Hedge).
  set (es := length (nedges_arena net)) in *.
  assert (∀ e, valid_nedges net e → e ≠ es) as Hold.
  { intros e He. unfold valid_nedges in He. fold es in He. lia. }
  assert (∀ p, valid_node net p → (es ∉ n_out net p) ∧ (es ∉ n_in net p))
    as Hnew.
  { intros p Hp. split.
    - intros He. apply (dw_out _ W p es Hp) in He as [He _].
      by apply (Hold es).
    - intros He. apply (dw_in _ W p es Hp) in He as [He _].
      by apply (Hold es). }
  split.
  - intros e [->|He]%Hvalid_e.
    + destruct (Hedge es) as (-> & -> & _). rewrite !decide_True by done.
      by rewrite !Hvalid.
    + destruct (Hedge e) as (-> & -> & _).
      rewrite !decide_False by by apply Hold.
      rewrite !Hvalid. by apply (dw_ends _ W).
  - intros p e Hp%Hvalid. destruct (Hnode p) as (_ & _ & _ & -> & _).
    destruct (Hedge e) as (-> & _). rewrite Hvalid_e.
    pose proof (dw_out _ W p e Hp) as Hw.
    destruct (decide (p = pin)) as [->|Hne].
    + rewrite elem_of_app, list_elem_of_singleton, Hw.
      destruct (decide (e = es)) as [->|Hes]; [by intuition|].
      by intuition.
    + rewrite Hw. destruct (decide (e = es)) as [->|Hes].
      * split; [intros [He _]; by destruct (Hold es)|by intros [_ ?]].
      * by intuition.
  - intros p e Hp%Hvalid. destruct (Hnode p) as (_ & _ & _ & _ & ->).
    destruct (Hedge e) as (_ & -> & _). rewrite Hvalid_e.
    pose proof (dw_in _ W p e Hp) as Hw.
    destruct (decide (p = pout)) as [->|Hne].
    + rewrite elem_of_app, list_elem_of_singleton, Hw.
      destruct (decide (e = es)) as [->|Hes]; [by intuition|].
      by intuition.
    + rewrite Hw. destruct (decide (e = es)) as [->|Hes].
      * split; [intros [He _]; by destruct (Hold es)|by intros [_ ?]].
      * by intuition.
  - intros p. destruct (Hnode p) as (_ & _ & _ & -> & _).
    case_decide as Hp; [|apply (dw_out_nodup _ W)]. subst p.
    apply NoDup_app. split; [apply (dw_out_nodup _ W)|].
    split; [|apply NoDup_singleton].
    intros e He ->%list_elem_of_singleton. by destruct (Hnew pin Hvi).
  - intros p. destruct (Hnode p) as (_ & _ & _ & _ & ->).
    case_decide as Hp; [|apply (dw_in_nodup _ W)]. subst p.
    apply NoDup_app. split; [apply (dw_in_nodup _ W)|].
    split; [|apply NoDup_singleton].
    intros e He ->%list_elem_of_singleton. by destruct (Hnew pout Hvo).
  - intros p. rewrite Hvalid, Hn_. apply (dw_nodes_ _ W).
  - rewrite Hn_. apply (dw_nodes_keys _ W).
  - rewrite Hn_. apply (dw_nodes_inj _ W).
  - intros e. rewrite Hvalid_e, He_.
    rewrite (stdmap_insert_fresh_values _ _ _ _ Hfresh).
    by rewrite (dw_edges_ _ W).
  - rewrite He_. apply stdmap_insert_fresh_wf; [done|apply (dw_edges_keys _ W)].
  - intros k p. rewrite Hi_, Hn_. unfold input_at.
    destruct (Hnode p) as (-> & _). apply (dw_inputs _ W).
  - rewrite Hi_. apply (dw_inputs_keys _ W).
  - rewrite Ho_. apply (dw_no_outputs _ W).
  - intros p. destruct (Hnode p) as (_ & -> & -> & _). apply (dw_fresh _ W).
  - intros p Hp%Hvalid. unfold c_size. destruct (Hnode p) as (-> & _).
    by apply (dw_sizes _ W).
Qed.

Lemma declared_wf_empty : declared_wf empty_network.
Proof.
  split; try done.
  - intros e He. unfold valid_nedges in He. simpl in He. lia.
  - intros p e Hp. unfold valid_node in Hp. simpl in Hp. lia.
  - intros p e Hp. unfold valid_node in Hp. simpl in Hp. lia.
  - intros p. apply NoDup_nil_2.
  - intros p. apply NoDup_nil_2.
  - intros p. unfold valid_node. simpl. split; [lia|by intros ?%elem_of_nil].
  - apply NoDup_nil_2.
  - apply NoDup_nil_2.
  - intros p. unfold valid_nedges. simpl. split; [lia|by intros ?%elem_of_nil].
  - apply NoDup_nil_2.
  - intros k p. split; [by intros ?%elem_of_nil|by intros [?%elem_of_nil _]].
  - apply NoDup_nil_2.
  - intros p Hp. unfold valid_node in Hp. simpl in Hp. lia.
Qed.

End DeclaredEdges.

Section DeclarationLoops.
Context `{Ext : Externals}.

Lemma node_declared_add_nodes op' i op net net' :
  declared_wf net → add_nodes op net = Ok net' →
  node_declared op' i net → node_declared op' i net'.
Proof.
  intros W H (name' & type' & sz' & o' & Hn & Ht & Hs & Hpos & Hf & Ho & Hsz
              & Hfi & Hk).
  destruct (add_nodes_effect _ _ _ H)
    as (name & type & sz & o & Hname & Htype & Hsize & _ & Hfresh & _ & _ & ->).
  assert (name' ≠ name) as Hne by (intros ->; congruence).
  assert (i ≠ length (nnodes_arena net)) as Hi.
  { apply node_obj_valid in Ho. unfold valid_node in Ho. lia. }
  exists name', type', sz', o'. repeat (split; [done|]).
  cbn [nodes_ input_nodes_].
  split; [|split; [|split; [|split]]]; try done.
  - rewrite stdmap_find_insert. by destruct (String.eqb_spec name' name).
  - unfold node_obj. cbn [nnodes_arena]. rewrite lookup_snoc.
    by rewrite decide_False.
  - rewrite <-Hfi. destruct (is_input o); [|done].
    rewrite stdmap_find_insert. by destruct (String.eqb_spec name' name).
Qed.

Lemma node_declared_new op net net' :
  declared_wf net → add_nodes op net = Ok net' →
  node_declared op (length (nnodes_arena net)) net'.
Proof.
  intros W H.
  destruct (add_nodes_effect _ _ _ H)
    as (name & type & sz & o & Hname & Htype & Hsize & Hpos & Hfresh & Hsz
        & Hkind & ->).
  exists name, type, sz, o. repeat (split; [done|]).
  cbn [nodes_ input_nodes_].
  split; [|split; [|split; [|split]]]; try done.
  - by rewrite stdmap_find_insert, String.eqb_refl.
  - unfold node_obj. cbn [nnodes_arena]. rewrite lookup_snoc.
    by rewrite decide_True.
  - destruct (is_input o); [by rewrite stdmap_find_insert, String.eqb_refl|].
    destruct (StdMap.find name (input_nodes_ net)) as [p|] eqn:E; [|done].
    apply stdmap_find_elem, (dw_inputs _ W) in E as [E _].
    apply stdmap_find_none in Hfresh. destruct Hfresh.
    apply list_elem_of_fmap. by exists (name, p).
Qed.

(** the first loop of the constructor *)
Lemma add_nodes_loop ns net :
  for_each add_nodes ns empty_network = Ok net →
  declared_wf net ∧ nedges_arena net = [] ∧
  length (nnodes_arena net) = length ns ∧
  ∀ i op, ns !! i = Some op → node_declared op i net.
Proof.
  intros H.
  apply (for_each_prefix
    (λ done_ net,
       declared_wf net ∧ nedges_arena net = [] ∧
       length (nnodes_arena net) = length done_ ∧
       ∀ i op, done_ !! i = Some op → node_declared op i net)
    add_nodes ns [] empty_network net); [| |done].
  { split; [apply declared_wf_empty|]. split; [done|]. split; [done|].
    intros i op Hi. by rewrite lookup_nil in Hi. }
  intros done_ op s s' (W & He & Hlen & Hall) Hs.
  split; [by eapply add_nodes_declared_wf|].
  destruct (add_nodes_effect _ _ _ Hs)
    as (name & type & sz & o & _ & _ & _ & _ & _ & _ & _ & Heq).
  split; [by rewrite Heq|].
  split; [rewrite Heq; cbn [nnodes_arena]; rewrite !length_app; simpl; lia|].
  intros i op' Hi. rewrite lookup_snoc in Hi. case_decide as Hd.
  - injection Hi as <-. subst i. rewrite <-Hlen.
    by apply node_declared_new.
  - eapply node_declared_add_nodes; [done..|]. by apply Hall.
Qed.

(** the first loop creates node groups only *)
Lemma add_nodes_fresh ns net :
  for_each add_nodes ns empty_network = Ok net →
  nedges_arena net = [] ∧ edge_arena net = [] ∧ ∀ p, node_fresh net p.
Proof.
  intros H.
  assert (unwired net) as [Ha U].
  { apply (for_each_inv unwired _ _ _ _ unwired_empty) in H; [done|].
    intros op cur cur' _ Uc Hb. by eapply add_nodes_unwired. }
  assert (nedges_arena net = [] ∧
          ∀ p, n_in net p = [] ∧ n_out net p = [] ∧
               n_stride net p = vec3i_ops.zero ∧
               n_fov net p = vec3i_ops.zero ∧
               n_fsize net p = vec3i_ops.zero) as [He G].
  { apply (for_each_inv
      (λ net, nedges_arena net = [] ∧
              ∀ p, n_in net p = [] ∧ n_out net p = [] ∧
                   n_stride net p = vec3i_ops.zero ∧
                   n_fov net p = vec3i_ops.zero ∧
                   n_fsize net p = vec3i_ops.zero)) in H; [done| |].
    { split; [done|]. by intros [|p]. }
    intros op cur cur' _ [Hc Gc] Hb.
    destruct (add_nodes_effect _ _ _ Hb)
      as (name & type & sz & o & _ & _ & _ & _ & _ & _ & _ & ->).
    split; [done|]. intros p. specialize (Gc p).
    unfold n_in, n_out, n_stride, n_fov, n_fsize in *. cbn [nnodes_arena].
    rewrite lookup_snoc. by case_decide. }
  split; [done|]. split; [done|]. intros p.
  destruct (G p) as (? & ? & ? & ? & ?). repeat (split; [done|]).
  intros i. unfold c_out, c_in.
  destruct (node_obj net p) as [o|] eqn:Ho; [|done]. simpl.
  destruct (U p o Ho) as [Hout Hin]. rewrite Hout. split.
  - destruct (replicate _ _ !! i) as [l|] eqn:El; [|done].
    by apply lookup_replicate in El as [-> _].
  - destruct o as [x|x|x]; [done|..]; rewrite (Hin eq_refl);
      (destruct (replicate _ _ !! i) as [l|] eqn:El; [|done]);
      by apply lookup_replicate in El as [-> _].
Qed.

Lemma node_declared_add_edges op' i op net net' :
  declared_wf net → add_edges op net = Ok net' →
  node_declared op' i net → node_declared op' i net'.
Proof.
  intros W H (name' & type' & sz' & o' & Hn & Ht & Hs & Hpos & Hf & Ho & Hsz
              & Hfi & Hk).
  destruct (add_edges_reads _ _ _ W H)
    as (name & type & in_ & out & pin & pout & w & s & _ & _ & _ & _ & _ & _
        & _ & _ & _ & _ & _ & Hn_ & Hi_ & _ & _ & Hnode & _).
  exists name', type', sz', o'. repeat (split; [done|]).
  rewrite Hn_, Hi_. destruct (Hnode i) as (-> & _). done.
Qed.

Lemma edge_declared_add_edges op' i op net net' :
  declared_wf net → add_edges op net = Ok net' →
  edge_declared op' i net → edge_declared op' i net'.
Proof.
  intros W H (name' & type' & in' & out' & pin' & pout' & Hn & Ht & Hi & Ho
              & Hf & Hfi & Hfo & Hei & Heo & Hmo & Hmi & Hk).
  destruct (add_edges_reads _ _ _ W H)
    as (name & type & in_ & out & pin & pout & w & s & _ & _ & _ & _ & Hfresh
        & _ & _ & _ & _ & _ & He_ & Hn_ & _ & _ & _ & Hnode & _ & Hedge).
  set (es := length (nedges_arena net)) in *.
  assert (name' ≠ name) as Hne by (intros ->; congruence).
  assert (i ≠ es) as Hes.
  { assert (valid_nedges net i) as Hv.
    { apply (dw_edges_ _ W). by eapply stdmap_find_value. }
    unfold valid_nedges in Hv. fold es in Hv. lia. }
  destruct (Hedge i) as (Ei & Eo & Ew & Es).
  rewrite decide_False in Ei by done. rewrite decide_False in Eo by done.
  rewrite decide_False in Ew by done. rewrite decide_False in Es by done.
  exists name', type', in', out', pin', pout'.
  repeat (split; [done|]). rewrite He_, Hn_, Ei, Eo, Ew, Es.
  split; [|split; [|split; [|split; [|split; [|split; [|split]]]]]];
    try done.
  - rewrite stdmap_find_insert. by destruct (String.eqb_spec name' name).
  - destruct (Hnode pin') as (_ & _ & _ & -> & _).
    case_decide; [apply elem_of_app; by left|done].
  - destruct (Hnode pout') as (_ & _ & _ & _ & ->).
    case_decide; [apply elem_of_app; by left|done].
Qed.

Lemma edge_declared_new op net net' :
  declared_wf net → add_edges op net = Ok net' →
  edge_declared op (length (nedges_arena net)) net'.
Proof.
  intros W H.
  destruct (add_edges_reads _ _ _ W H)
    as (name & type & in_ & out & pin & pout & w & s & Hname & Htype & Hin
        & Hout & Hfresh & Hpin & Hpout & _ & _ & Hkind & He_ & Hn_ & _ & _
        & _ & Hnode & _ & Hedge).
  set (es := length (nedges_arena net)) in *.
  destruct (Hedge es) as (Ei & Eo & Ew & Es).
  rewrite decide_True in Ei by done. rewrite decide_True in Eo by done.
  rewrite decide_True in Ew by done. rewrite decide_True in Es by done.
  exists name, type, in_, out, pin, pout.
  repeat (split; [done|]). rewrite He_, Hn_, Ei, Eo, Ew, Es.
  split; [|split; [|split; [|split; [|split; [|split; [|split]]]]]];
    try done.
  - by rewrite stdmap_find_insert, String.eqb_refl.
  - destruct (Hnode pin) as (_ & _ & _ & -> & _).
    rewrite decide_True by done. apply elem_of_app. right.
    apply list_elem_of_here.
  - destruct (Hnode pout) as (_ & _ & _ & _ & ->).
    rewrite decide_True by done. apply elem_of_app. right.
    apply list_elem_of_here.
Qed.

(** the second loop of the constructor *)
Lemma add_edges_loop ns es net1 net :
  for_each add_nodes ns empty_network = Ok net1 →
  for_each add_edges es net1 = Ok net →
  declared_wf net ∧
  length (nnodes_arena net) = length ns ∧
  length (nedges_arena net) = length es ∧
  (∀ i op, ns !! i = Some op → node_declared op i net) ∧
  (∀ i op, es !! i = Some op → edge_declared op i net).
Proof.
  intros (W1 & He1 & Hl1 & Hn1)%add_nodes_loop H.
  apply (for_each_prefix
    (λ done_ net,
       declared_wf net ∧
       length (nnodes_arena net) = length ns ∧
       length (nedges_arena net) = length done_ ∧
       (∀ i op, ns !! i = Some op → node_declared op i net) ∧
       (∀ i op, done_ !! i = Some op → edge_declared op i net))
    add_edges es [] net1 net); [| |done].
  { split; [done|]. split; [done|]. split; [by rewrite He1|].
    split; [done|]. intros i op Hi. by rewrite lookup_nil in Hi. }
  intros done_ op s s' (W & Hln & Hle & Hns & Hes) Hs.
  split; [by eapply add_edges_declared_wf|].
  destruct (add_edges_effect _ _ _ Hs)
    as (name & type & in_ & out & pin & pout & nin & nout & w & sd & _ & _
        & _ & _ & _ & _ & _ & _ & _ & _ & Heq).
  split; [rewrite Heq; cbn [nnodes_arena]; by rewrite !length_insert|].
  split; [rewrite Heq; cbn [nedges_arena]; rewrite !length_app; simpl; lia|].
  split.
  - intros i op' Hi. eapply node_declared_add_edges; [done..|].
    by apply Hns.
  - intros i op' Hi. rewrite lookup_snoc in Hi. case_decide as Hd.
    + injection Hi as <-. subst i. rewrite <-Hle.
      by apply edge_declared_new.
    + eapply edge_declared_add_edges; [done..|]. by apply Hes.
Qed.

Lemma opt_get_elem (o : options) k x : opt.get o k = Some x → (k, x) ∈ o.
Proof.
  induction o as [|[k' v'] o IH]; simpl; [done|].
  destruct (String.eqb_spec k k') as [->|]; [intros [= ->]; by left|].
  intros. right. by apply IH.
Qed.

Lemma declared_positive es net :
  length (nedges_arena net) = length es →
  (∀ i op, es !! i = Some op → edge_declared op i net) →
  (∀ op k v, op ∈ es → opt.get op k = Some (OVec v) → vec3i_ops.positive v) →
  ∀ e, valid_nedges net e →
    vec3i_ops.positive (e_width net e) ∧ vec3i_ops.positive (e_stride net e).
Proof.
  intros Hlen Hall Hpos e He. unfold valid_nedges in He. rewrite Hlen in He.
  destruct (lookup_lt_is_Some_2 _ _ He) as [op Hop].
  assert (op ∈ es) as Hin by (by eapply list_elem_of_lookup_2).
  destruct (Hall e op Hop)
    as (name & type & in_ & out & pin & pout & _ & _ & _ & _ & _ & _ & _ & _
        & _ & _ & _ & Hk).
  assert (∀ k v, opt.require_vec op k = Ok v → vec3i_ops.positive v) as Hreq.
  { intros k v Hv. unfold opt.require_vec in Hv.
    destruct (opt.get op k) as [[]|] eqn:E; try done.
    injection Hv as <-. by apply (Hpos op k). }
  destruct Hk as [(_ & Hw & Hs)|[(_ & Hw & Hs)|(_ & -> & ->)]].
  - split; by eapply Hreq.
  - split; [by eapply Hreq|]. unfold opt.optional_vec in Hs.
    destruct (opt.get op "stride") as [[]|] eqn:E; try done.
    + injection Hs as <-. by apply (Hpos op "stride").
    + injection Hs as <-. apply positive_one.
  - split; apply positive_one.
Qed.

End DeclarationLoops.

(** X10: the first loop of the constructor.  When every node declaration
    has been accepted, the [i]-th of them has become the node group at
    [i]: of the declared kind, with the declared number of channels, which
    is positive, registered under the declared name and, if and only if it
    is an input node group, as an input.  There is no edge group and no
    edge object yet, and every node group is fresh: it lists no edge
    group, its channels list no edge, and its stride, field of view and
    size are zero.  No two declarations bear the same name. *)
Theorem node_declarations `{Ext : Externals} (ns : list options)
    (net : network) :
  for_each add_nodes ns empty_network = Ok net →
  length (nnodes_arena net) = length ns ∧
  (∀ i op, ns !! i = Some op → node_declared op i net) ∧
  nedges_arena net = [] ∧ edge_arena net = [] ∧
  (∀ p, node_fresh net p) ∧
  (∀ i j opi opj name,
     ns !! i = Some opi → ns !! j = Some opj →
     opt.require_string opi "name" = Ok name →
     opt.require_string opj "name" = Ok name → i = j).
Proof.
  intros H. destruct (add_nodes_fresh _ _ H) as (He & Ha & Hf).
  apply add_nodes_loop in H as (W & _ & Hlen & Hall).
  split; [done|]. split; [done|]. split; [done|]. split; [done|].
  split; [done|].
  intros i j opi opj name Hi Hj Hni Hnj.
  destruct (Hall i opi Hi) as (n1 & ? & ? & ? & Hn1 & _ & _ & _ & Hf1 & _).
  destruct (Hall j opj Hj) as (n2 & ? & ? & ? & Hn2 & _ & _ & _ & Hf2 & _).
  congruence.
Qed.

Lemma node_declarations_witness :
  node_declared (nodes_transfer "mid" 1) 1 pool_conv_nodes ∧
  node_fresh pool_conv_nodes 1 ∧
  length (nnodes_arena pool_conv_nodes) = 3.
Proof.
  assert (for_each add_nodes
            [nodes_input "in" 1; nodes_transfer "mid" 1;
             nodes_transfer "out" 1] empty_network = Ok pool_conv_nodes) as E
    by (vm_cast_no_check (eq_refl (Ok pool_conv_nodes))).
  destruct (node_declarations _ _ E) as (H1 & H2 & _ & _ & H3 & _).
  split; [by apply H2|]. split; [apply H3|exact H1].
Defined.



(** X12: the graph the two declaration loops of the constructor leave is
    consistent ([declared_wf]): every edge group joins two existing node
    groups and is listed exactly once by each, every node group and edge
    group is registered, exactly the input node groups are registered as
    inputs, no geometry is set.  If moreover the declared windows and
    strides are positive the graph is [wired]; if it is also acyclic and
    every node group is fed from an input node group it is well formed in
    the sense [init] needs. *)
Theorem declarations_well_formed `{Ext : Externals} (ns es : list options)
    (net1 net : network) :
  for_each add_nodes ns empty_network = Ok net1 →
  for_each add_edges es net1 = Ok net →
  declared_wf net ∧
  ((∀ op k v, op ∈ es → opt.get op k = Some (OVec v) →
      vec3i_ops.positive v) →
   wired net ∧
   ∀ rank : ptr → nat,
     (∀ e, valid_nedges net e → rank (e_in net e) < rank (e_out net e)) →
     (∀ p, valid_node net p → rank p < length ns) →
     (∀ p, valid_node net p → reachable net p) →
     graph_wf net rank).
Proof.
  intros H1 H2.
  destruct (add_edges_loop _ _ _ _ H1 H2) as (W & Hln & Hle & Hns & Hes).
  split; [done|]. intros Hpos.
  assert (wired net) as Hw.
  { split.
    - apply (dw_ends _ W).
    - apply (dw_out _ W).
    - apply (dw_in _ W).
    - by apply (declared_positive es). }
  split; [done|]. intros rank Hrank Hbound Hreach. split; try done.
  - intros p Hp. rewrite Hln. by apply Hbound.
  - apply (dw_nodes_ _ W).
  - apply (dw_nodes_keys _ W).
  - intros k p Hk. apply (dw_inputs _ W) in Hk as [Hk _].
    apply (dw_nodes_ _ W). apply list_elem_of_fmap. by exists (k, p).
  - apply (dw_no_outputs _ W).
  - apply (dw_fresh _ W).
Qed.

Lemma declarations_well_formed_witness :
  declared_wf pool_conv_graph ∧ wired pool_conv_graph ∧
  graph_wf pool_conv_graph id.
Proof.
  assert (for_each add_nodes
            [nodes_input "in" 1; nodes_transfer "mid" 1;
             nodes_transfer "out" 1] empty_network = Ok pool_conv_nodes) as E1
    by (vm_cast_no_check (eq_refl (Ok pool_conv_nodes))).
  assert (for_each add_edges
            [edges_pool "p" "in" "mid";
             edges_conv "c" "mid" "out" (Vec3 2 2 2) [1%Q]] pool_conv_nodes
          = Ok pool_conv_graph) as E2
    by (vm_cast_no_check (eq_refl (Ok pool_conv_graph))).
  destruct (declarations_well_formed _ _ _ _ E1 E2) as [W H].
  split; [exact W|].
  destruct H as [Hw Hg].
  { intros op k v Hop Hget%opt_get_elem.
    apply elem_of_cons in Hop as [->|Hop];
      [|apply elem_of_cons in Hop as [->|Hop];
          [|by apply elem_of_nil in Hop]].
    - unfold edges_pool in Hget.
      repeat (apply elem_of_cons in Hget as [Hget|Hget];
              [first [discriminate Hget
                     |injection Hget as ? ->; vm_compute; by repeat split]|]).
      by apply elem_of_nil in Hget.
    - unfold edges_conv in Hget.
      repeat (apply elem_of_cons in Hget as [Hget|Hget];
              [first [discriminate Hget
                     |injection Hget as ? ->; vm_compute; by repeat split]|]).
      by apply elem_of_nil in Hget. }
  split; [exact Hw|]. apply Hg.
  - intros [|[|e]] He; vm_compute in He; try lia; vm_compute; lia.
  - intros [|[|[|p]]] Hp; vm_compute in Hp; try lia; vm_compute; lia.
  - assert (reachable pool_conv_graph 0) as R0.
    { apply (reachable_input _ "in"). member. }
    assert (reachable pool_conv_graph 1) as R1.
    { refine (reachable_step pool_conv_graph 0 _ _); [|exact R0].
      vm_compute; lia. }
    assert (reachable pool_conv_graph 2) as R2.
    { refine (reachable_step pool_conv_graph 1 _ _); [|exact R1].
      vm_compute; lia. }
    intros [|[|[|p]]] Hp; vm_compute in Hp; try lia; done.
Defined.

Section Refused.
Context `{Ext : Externals}.

Lemma bind_err {A B} (m : result A) (f : A → result B) e :
  m ≫= f = Err e ↔ m = Err e ∨ ∃ a, m = Ok a ∧ f a = Err e.
Proof.
  destruct m as [a|e']; simpl; split.
  - intros H. right. exists a. split; [done|exact H].
  - intros [H|(a' & H & H')]; [discriminate H|]. injection H as <-. exact H'.
  - intros H. left. injection H as ->. reflexivity.
  - intros [H|(a' & H & _)]; [|discriminate H]. injection H as ->.
    reflexivity.
Qed.

Lemma require_string_not_assert o k :
  opt.require_string o k ≠ Err AssertionFailed.
Proof. unfold opt.require_string. by repeat case_match. Qed.
Lemma require_size_not_assert o k :
  opt.require_size o k ≠ Err AssertionFailed.
Proof. unfold opt.require_size. by repeat case_match. Qed.
Lemma require_vec_not_assert o k : opt.require_vec o k ≠ Err AssertionFailed.
Proof. unfold opt.require_vec. by repeat case_match. Qed.
Lemma require_blob_not_assert o k : opt.require_blob o k ≠ Err AssertionFailed.
Proof. unfold opt.require_blob. by repeat case_match. Qed.
Lemma optional_vec_not_assert o k d :
  opt.optional_vec o k d ≠ Err AssertionFailed.
Proof. unfold opt.optional_vec. by repeat case_match. Qed.
Lemma optional_real_not_assert o k d :
  opt.optional_real o k d ≠ Err AssertionFailed.
Proof. unfold opt.optional_real. by repeat case_match. Qed.
Lemma external_not_assert {A} (r : option A) : external r ≠ Err AssertionFailed.
Proof. by destruct r. Qed.
Lemma deref_not_assert {A} (r : option A) : deref r ≠ Err AssertionFailed.
Proof. by destruct r. Qed.
Lemma at_ptr_not_assert {A} (l : list A) p : at_ptr l p ≠ Err AssertionFailed.
Proof. unfold at_ptr. by destruct (l !! p). Qed.

Lemma bind_not_assert {A B} (m : result A) (f : A → result B) :
  m ≠ Err AssertionFailed → (∀ a, m = Ok a → f a ≠ Err AssertionFailed) →
  m ≫= f ≠ Err AssertionFailed.
Proof.
  destruct m as [a|e]; cbn [mbind result_bind]; intros H1 H2;
    [by apply H2|].
  intros H. apply H1. injection H as ->. reflexivity.
Qed.

(** the constructor of a transfer node group asserts nothing *)
Lemma transfer_nodes_ctor_not_assert op :
  transfer_nodes.ctor op ≠ Err AssertionFailed.
Proof.
  unfold transfer_nodes.ctor, get_transfer_function, get_initializator.
  repeat first
    [ apply bind_not_assert; [|intros ? _]
    | apply require_size_not_assert | apply require_string_not_assert
    | apply optional_real_not_assert | apply external_not_assert
    | apply require_blob_not_assert
    | done
    | case_match ].
Qed.

Lemma add_nodes_refused op net :
  add_nodes op net = Err AssertionFailed ↔
  ∃ name type sz,
    opt.require_string op "name" = Ok name ∧
    opt.require_string op "type" = Ok type ∧
    opt.require_size op "size" = Ok sz ∧
    (sz = 0 ∨ is_Some (StdMap.find name (nodes_ net))).
Proof.
  unfold add_nodes. split.
  - intros H.
    apply bind_err in H as [H|(name & Hname & H)];
      [by apply require_string_not_assert in H|].
    apply bind_err in H as [H|(type & Htype & H)];
      [by apply require_string_not_assert in H|].
    apply bind_err in H as [H|(sz & Hsz & H)];
      [by apply require_size_not_assert in H|].
    exists name, type, sz. repeat (split; [done|]).
    destruct sz as [|sz]; [by left|]. right. simpl in H.
    destruct (StdMap.find name (nodes_ net)) as [p|] eqn:Hf; [by eexists|].
    exfalso. unfold StdMap.count in H. rewrite Hf in H. simpl in H.
    destruct (String.eqb type "input"); [done|].
    destruct (String.eqb type "sum"); [done|].
    destruct (String.eqb type "transfer"); [|done].
    apply bind_err in H as [H|(t & _ & H)]; [|done].
    by apply transfer_nodes_ctor_not_assert in H.
  - intros (name & type & sz & -> & -> & -> & H). simpl.
    destruct H as [->|[p Hp]]; [done|].
    destruct sz as [|sz]; [done|]. simpl.
    unfold StdMap.count. by rewrite Hp.
Qed.

Lemma add_edges_refused op net :
  add_edges op net = Err AssertionFailed ↔
  ∃ name type in_ out,
    opt.require_string op "name" = Ok name ∧
    opt.require_string op "type" = Ok type ∧
    opt.require_string op "input" = Ok in_ ∧
    opt.require_string op "output" = Ok out ∧
    (is_Some (StdMap.find name (edges_ net)) ∨
     StdMap.find in_ (nodes_ net) = None ∨
     StdMap.find out (nodes_ net) = None).
Proof.
  unfold add_edges. split.
  - intros H.
    apply bind_err in H as [H|(name & Hname & H)];
      [by apply require_string_not_assert in H|].
    apply bind_err in H as [H|(type & Htype & H)];
      [by apply require_string_not_assert in H|].
    apply bind_err in H as [H|(in_ & Hin & H)];
      [by apply require_string_not_assert in H|].
    apply bind_err in H as [H|(out & Hout & H)];
      [by apply require_string_not_assert in H|].
    exists name, type, in_, out. repeat (split; [done|]).
    destruct (StdMap.find name (edges_ net)) as [e|] eqn:Hf;
      [left; by eexists|]. right.
    destruct (StdMap.find in_ (nodes_ net)) as [pin|] eqn:Hfi; [|by left].
    right.
    destruct (StdMap.find out (nodes_ net)) as [pout|] eqn:Hfo; [|done].
    exfalso. unfold StdMap.count in H. rewrite Hf, Hfi, Hfo in H.
    cbn [ZI_ASSERT Nat.eqb Nat.ltb Nat.leb andb mbind result_bind deref] in H.
    revert H.
    repeat first
      [ apply bind_not_assert; [|intros ? _]
      | apply at_ptr_not_assert | apply require_vec_not_assert
      | apply optional_vec_not_assert
      | done
      | case_match ].
  - intros (name & type & in_ & out & -> & -> & -> & -> & H). simpl.
    unfold StdMap.count.
    destruct H as [(e & ->)|H]; [done|].
    destruct (StdMap.find name (edges_ net)); [done|]. simpl.
    destruct H as [-> | ->]; [done|].
    by destruct (StdMap.find in_ (nodes_ net)).
Qed.

End Refused.

(** X13: when a declaration is turned down by an assertion.  [add_nodes]
    fails an assertion exactly when the declaration carries a name, a type
    and a size and either the size is zero or a node group of that name is
    registered already; [add_edges] exactly when the declaration carries a
    name, a type, an input and an output and either an edge group of that
    name is registered already or one of the two node groups it names is
    not registered. *)
Theorem declarations_refused `{Ext : Externals} (op : options)
    (net : network) :
  (add_nodes op net = Err AssertionFailed ↔
   ∃ name type sz,
     opt.require_string op "name" = Ok name ∧
     opt.require_string op "type" = Ok type ∧
     opt.require_size op "size" = Ok sz ∧
     (sz = 0 ∨ is_Some (StdMap.find name (nodes_ net)))) ∧
  (add_edges op net = Err AssertionFailed ↔
   ∃ name type in_ out,
     opt.require_string op "name" = Ok name ∧
     opt.require_string op "type" = Ok type ∧
     opt.require_string op "input" = Ok in_ ∧
     opt.require_string op "output" = Ok out ∧
     (is_Some (StdMap.find name (edges_ net)) ∨
      StdMap.find in_ (nodes_ net) = None ∨
      StdMap.find out (nodes_ net) = None)).
Proof. split; [apply add_nodes_refused|apply add_edges_refused]. Qed.

Ltac sn_simpl :=
  cbn [summing_nodes.size_ summing_nodes.inputs_ summing_nodes.outputs_
       summing_nodes.received_ summing_nodes.fs_ summing_nodes.gs_
       summing_nodes.opts_ summing_nodes.set_inputs_
       summing_nodes.set_outputs_ summing_nodes.set_received_
       summing_nodes.set_fs_ summing_nodes.set_gs_ mbind result_bind deref
       ZI_ASSERT].

Section SummingBackward.
Context `{Ext : Externals}.

Lemma summing_dispatch_loop (eb : edge_method) self n x1 G {A}
    (K : summing_nodes.t → network → result A) (I : network → Prop) ins :
  summing_nodes.gs_ x1 !! n = Some G →
  (∀ e c cur cur', e ∈ ins → I cur → eb e c cur = Ok cur' →
     I cur' ∧ node_obj cur' self = node_obj cur self) →
  ∀ cur,
    I cur → node_obj cur self = Some (Summing x1) →
    (net2 ← for_each
               (λ e cur,
                  x ← get_summing_nodes cur self;
                  c ← at_index (summing_nodes.gs_ x) n;
                  eb e c cur) ins cur;
     x ← get_summing_nodes net2 self; K x net2)
    = (net2 ← for_each (λ e cur, eb e G cur) ins cur; K x1 net2).
Proof.
  intros Hgs. induction ins as [|e ins IH]; intros Hframe cur HI Hobj;
    cbn [for_each mbind result_bind].
  - by rewrite (get_summing_nodes_ok _ _ _ Hobj).
  - rewrite (get_summing_nodes_ok _ _ _ Hobj). cbn [mbind result_bind].
    unfold at_index, at_ptr. rewrite Hgs. cbn [mbind result_bind].
    destruct (eb e G cur) as [cur'|err] eqn:Heb; [|done].
    cbn [mbind result_bind].
    destruct (Hframe _ _ _ _ (list_elem_of_here _ _) HI Heb) as [HI' Hsame].
    apply IH; [|done|by rewrite Hsame].
    intros e' c cur1 cur2 He'. apply Hframe. by apply list_elem_of_further.
Qed.

Lemma summing_backward_fire_eq (eb : edge_method) (I : network → Prop)
    self n g net x r outs ins gs1 G :
  node_obj net self = Some (Summing x) →
  n < summing_nodes.size_ x →
  summing_nodes.received_ x !! n = Some r →
  summing_nodes.outputs_ x !! n = Some outs →
  summing_nodes.inputs_ x !! n = Some ins →
  S r = length outs ∨ length outs = 0 →
  accumulate r (summing_nodes.gs_ x) n g = Ok gs1 →
  gs1 !! n = Some G →
  let x1 := summing_arrived x n r gs1 in
  I (put_nodes self (Summing x1) net) →
  (∀ e c cur cur', e ∈ ins → I cur → eb e c cur = Ok cur' →
     I cur' ∧ node_obj cur' self = node_obj cur self) →
  summing_nodes_backward eb self n g net =
    (net2 ← for_each (λ e cur, eb e G cur) ins
               (put_nodes self (Summing x1) net);
     Ok (put_nodes self (Summing (summing_released x1 n)) net2)).
Proof.
  intros Hobj Hn Hr Houts Hins Hfire Hacc HG x1 HI Hframe.
  unfold summing_nodes_backward.
  rewrite (get_summing_nodes_ok _ _ _ Hobj). cbn [mbind result_bind].
  rewrite (proj2 (Nat.ltb_lt _ _) Hn). cbn [ZI_ASSERT mbind result_bind].
  unfold at_index, at_ptr. rewrite Hr. cbn [mbind result_bind].
  rewrite Hacc. sn_simpl. rewrite Houts. sn_simpl.
  assert ((S r =? length outs) || (length outs =? 0) = true) as ->.
  { apply orb_true_iff. destruct Hfire as [H|H]; [left|right];
      by apply Nat.eqb_eq. }
  rewrite Hins. sn_simpl.
  apply (summing_dispatch_loop eb self n x1 G
           (λ x net2, Ok (put_nodes self (Summing (summing_released x n)) net2))
           I ins); [done|done|done|].
  apply node_obj_put_nodes_eq. by eapply node_obj_valid.
Qed.

Lemma summing_backward_hold_eq (eb : edge_method) self n g net x r outs gs1 :
  node_obj net self = Some (Summing x) →
  n < summing_nodes.size_ x →
  summing_nodes.received_ x !! n = Some r →
  summing_nodes.outputs_ x !! n = Some outs →
  S r ≠ length outs → length outs ≠ 0 →
  accumulate r (summing_nodes.gs_ x) n g = Ok gs1 →
  summing_nodes_backward eb self n g net
  = Ok (put_nodes self (Summing (summing_arrived x n r gs1)) net).
Proof.
  intros Hobj Hn Hr Houts Hne1 Hne2 Hacc.
  unfold summing_nodes_backward.
  rewrite (get_summing_nodes_ok _ _ _ Hobj). cbn [mbind result_bind].
  rewrite (proj2 (Nat.ltb_lt _ _) Hn). cbn [ZI_ASSERT mbind result_bind].
  unfold at_index, at_ptr. rewrite Hr. cbn [mbind result_bind].
  rewrite Hacc. sn_simpl. rewrite Houts. sn_simpl.
  assert ((S r =? length outs) || (length outs =? 0) = false) as ->.
  { apply orb_false_iff. split; by apply Nat.eqb_neq. }
  done.
Qed.

End SummingBackward.

(** X14: [summing_nodes::backward] on channel [n].  The arrival is counted
    and accumulated into [gs_[n]].  If it is not the last one
    ([S r <> |outputs_[n]|], and the channel has out-edges) nothing else
    happens.  If it is the last one, or the channel has no out-edge, then
    -- in a graph whose edges run upwards in [rank] -- the accumulated
    gradient is handed to every in-edge, in order, with the node group in
    the state [summing_arrived]; only then is [gs_[n]] released and
    [received_[n]] reset.  The feature buffers of the node group are not
    touched. *)
Theorem summing_backward_fires `{Ext : Externals} (rank : ptr → nat)
    (fuel : nat) (self : ptr) (n : nat) (g : option cube) (net : network)
    (x : summing_nodes.t) (r : nat) (outs ins : list ptr)
    (gs1 : list (option cube)) (G : option cube) :
  upstream_ranked rank net →
  node_obj net self = Some (Summing x) →
  n < summing_nodes.size_ x →
  summing_nodes.received_ x !! n = Some r →
  summing_nodes.outputs_ x !! n = Some outs →
  summing_nodes.inputs_ x !! n = Some ins →
  accumulate r (summing_nodes.gs_ x) n g = Ok gs1 →
  gs1 !! n = Some G →
  let x1 := summing_arrived x n r gs1 in
  (S r = length outs ∨ length outs = 0 →
   nodes_backward (S fuel) self n g net =
     (net2 ← for_each
                (λ e cur, edge_of_backward (nodes_backward fuel) e G cur)
                ins (put_nodes self (Summing x1) net);
      Ok (put_nodes self (Summing (summing_released x1 n)) net2))) ∧
  (S r ≠ length outs → length outs ≠ 0 →
   nodes_backward (S fuel) self n g net
   = Ok (put_nodes self (Summing x1) net)) ∧
  summing_nodes.received_ x1 !! n = Some (S r) ∧
  summing_nodes.gs_ x1 !! n = Some G ∧
  summing_nodes.fs_ x1 = summing_nodes.fs_ x ∧
  summing_nodes.gs_ (summing_released x1 n) !! n = Some None ∧
  summing_nodes.received_ (summing_released x1 n) !! n = Some 0 ∧
  summing_nodes.fs_ (summing_released x1 n) = summing_nodes.fs_ x.
Proof.
  intros U Hobj Hn Hr Houts Hins Hacc HG x1.
  pose proof (lookup_lt_Some _ _ _ HG). pose proof (lookup_lt_Some _ _ _ Hr).
  split; [|split].
  - intros Hfire. cbn [nodes_backward].
    rewrite (proj2 (get_nodes_node_obj _ _ _) Hobj). cbn [mbind result_bind].
    assert (bframe rank (rank self) net (put_nodes self (Summing x1) net))
      as F1.
    { apply bframe_put_nodes. intros o Ho. rewrite Hobj in Ho.
      by injection Ho as <-. }
    apply (summing_backward_fire_eq _
      (λ cur, upstream_ranked rank cur ∧ c_in cur self n = ins)
      self n g net x r outs ins gs1 G); try done.
    + split; [by eapply bframe_ranked|].
      rewrite (bframe_c_in _ _ _ _ _ _ F1).
      by apply (c_in_node_obj _ _ (Summing x)).
    + intros e c cur cur' He [Uc Hc] Heb.
      apply (edge_backward_frame rank) in Heb;
        [|apply nodes_backward_frame|done].
      split; [split|].
      * by eapply bframe_ranked.
      * by rewrite (bframe_c_in _ _ _ _ _ _ Heb).
      * apply (bf_above _ _ _ _ Heb). apply (Uc self n). by rewrite Hc.
  - intros Hne1 Hne2. cbn [nodes_backward].
    rewrite (proj2 (get_nodes_node_obj _ _ _) Hobj). cbn [mbind result_bind].
    by eapply summing_backward_hold_eq.
  - unfold x1, summing_released, summing_arrived. sn_simpl.
    repeat split;
      first [ apply list_lookup_insert_eq; by rewrite ?length_insert | done ].
Qed.

(** the output channel of [sum_net], which has no out-edge, hit by the
    gradient [7]: it fires at once and is left released *)
Lemma summing_backward_fires_witness :
  nodes_backward 2 1 0 (Some (voxel 7)) sum_net = Ok sum_net_back ∧
  gs sum_net_back 1 0 = None ∧ received sum_net_back 1 0 = 0.
Proof.
  split; [|split; reflexivity].
  etrans.
  - eapply (proj1 (summing_backward_fires id 1 1 0 (Some (voxel 7)) sum_net
                     _ 0 [] [0] _ (Some (voxel 7))
                     (run_wf_upstream_ranked id _ sum_net_wf) eq_refl
                     (Nat.lt_0_succ 0) eq_refl eq_refl eq_refl eq_refl
                     eq_refl)).
    by right.
  - vm_cast_no_check (eq_refl (Ok sum_net_back)).
Defined.

Section CreateEdgesFrame.
Context `{Ext : Externals}.

Lemma erase_edges_nnodes_arena net :
  nnodes_arena (erase_edges net) =
  (λ x, nnodes.set_nodes_obj (erase_wires (nnodes.nodes_obj x)) x)
    <$> nnodes_arena net.
Proof. done. Qed.
Lemma erase_edges_nedges_arena net :
  nedges_arena (erase_edges net) =
  (λ x, nedges.set_opts None (nedges.set_edges None x)) <$> nedges_arena net.
Proof. done. Qed.

Lemma erase_edges_put_nodes net p o o' :
  node_obj net p = Some o → erase_wires o' = erase_wires o →
  erase_edges (put_nodes p o' net) = erase_edges net.
Proof.
  unfold node_obj, put_nodes. intros H E.
  destruct (nnodes_arena net !! p) as [nn|] eqn:Hnn; [|done].
  injection H as <-.
  unfold erase_edges, put_nnodes, set_filter_arena, set_edge_arena,
    set_nedges_arena, set_nnodes_arena.
  cbn [nnodes_arena nedges_arena edge_arena filter_arena edges_ nodes_
       input_nodes_ output_nodes_].
  f_equal. rewrite list_fmap_insert. apply list_insert_id.
  rewrite list_lookup_fmap, Hnn. destruct nn; simpl in *. by rewrite E.
Qed.

Lemma erase_edges_put_nedges net e ne o g :
  nedges_arena net !! e = Some ne →
  erase_edges (put_nedges e (nedges.set_opts o (nedges.set_edges g ne)) net)
  = erase_edges net.
Proof.
  intros H.
  unfold erase_edges, put_nedges, set_filter_arena, set_edge_arena,
    set_nedges_arena, set_nnodes_arena.
  cbn [nnodes_arena nedges_arena edge_arena filter_arena edges_ nodes_
       input_nodes_ output_nodes_].
  f_equal. rewrite list_fmap_insert. apply list_insert_id.
  rewrite list_lookup_fmap, H. by destruct ne.
Qed.

Lemma erase_edges_set_edge_arena v net :
  erase_edges (set_edge_arena v net) = erase_edges net.
Proof. done. Qed.
Lemma erase_edges_set_filter_arena v net :
  erase_edges (set_filter_arena v net) = erase_edges net.
Proof. done. Qed.

Lemma attach_out_edge_erase o i e o' :
  attach_out_edge o i e = Ok o' → erase_wires o' = erase_wires o.
Proof.
  destruct o as [x|x|x]; simpl; intros (_ & _ & [= <-])%bind_ok; by destruct x.
Qed.
Lemma attach_in_edge_erase o i e o' :
  attach_in_edge o i e = Ok o' → erase_wires o' = erase_wires o.
Proof.
  destruct o as [x|x|x]; simpl; [done|..];
    intros (_ & _ & [= <-])%bind_ok; by destruct x.
Qed.

Lemma edge_of_ctor_erase in_ inn out outn impl net this net' :
  edge_of_ctor in_ inn out outn impl net = Ok (this, net') →
  erase_edges net' = erase_edges net.
Proof.
  unfold edge_of_ctor. intros H.
  set (net0 := set_edge_arena _ net) in H.
  apply bind_ok in H as (o1 & Ho1%get_nodes_node_obj & H).
  apply bind_ok in H as (o1' & Ha1%attach_out_edge_erase & H).
  set (net1 := put_nodes in_ o1' net0) in H.
  apply bind_ok in H as (o2 & Ho2%get_nodes_node_obj & H).
  apply bind_ok in H as (o2' & Ha2%attach_in_edge_erase & [= _ <-]).
  rewrite (erase_edges_put_nodes _ _ o2) by done.
  unfold net1. rewrite (erase_edges_put_nodes _ _ o1) by done. done.
Qed.

Lemma diagonal_edges_erase in_ out impl n net edges net' :
  diagonal_edges in_ out impl n net = Ok (edges, net') →
  erase_edges net' = erase_edges net.
Proof.
  unfold diagonal_edges. intros H.
  apply (for_each_inv (λ s : list ptr * network,
                         erase_edges s.2 = erase_edges net)) in H;
    [done|done|].
  intros i [es cur] s' _ Hc Hb. simpl in *.
  apply bind_ok in Hb as ([this cur'] & Hctor%edge_of_ctor_erase & [= <-]).
  simpl. by rewrite Hctor.
Qed.

Lemma filter_edges_wire_erase in_ out n m sz stride eta mom wd net
    filters edges net' :
  filter_edges_wire in_ out n m sz stride eta mom wd net
    = Ok (filters, edges, net') →
  erase_edges net' = erase_edges net.
Proof.
  unfold filter_edges_wire. intros H.
  apply (for_each_inv (λ s : list ptr * list ptr * network,
                         erase_edges s.2 = erase_edges net)) in H;
    [done|done|].
  intros i st st' _ Hc Hb.
  apply (for_each_inv (λ s : list ptr * list ptr * network,
                         erase_edges s.2 = erase_edges net)) in Hb;
    [done|done|].
  intros j [[fs es] cur] s' _ Hc' Hb'. simpl in *.
  apply bind_ok in Hb' as ([this cur'] & Hctor%edge_of_ctor_erase & [= <-]).
  simpl. by rewrite Hctor.
Qed.

Lemma put_filters_erase (l : list (ptr * filter)) : ∀ net,
  erase_edges (foldl (λ net fo, put_filter fo.1 fo.2 net) net l)
  = erase_edges net.
Proof.
  induction l as [|[f x] l IH]; intros net; simpl; [done|]. by rewrite IH.
Qed.

(** the three constructors [create_edges] chooses from *)
Lemma dummy_edges_ctor_erase in_ out opts net g net' :
  dummy_edges_ctor in_ out opts net = Ok (g, net') →
  erase_edges net' = erase_edges net.
Proof.
  unfold dummy_edges_ctor. intros H.
  apply bind_ok in H as (oi & _ & H). apply bind_ok in H as (oo & _ & H).
  apply bind_ok in H as (_ & _ & H).
  apply bind_ok in H as ([edges net1] & Hd & [= _ <-]).
  by eapply diagonal_edges_erase.
Qed.
Lemma max_pooling_edges_ctor_erase in_ out opts stride net g net' :
  max_pooling_edges_ctor in_ out opts stride net = Ok (g, net') →
  erase_edges net' = erase_edges net.
Proof.
  unfold max_pooling_edges_ctor. intros H.
  apply bind_ok in H as (oi & _ & H). apply bind_ok in H as (oo & _ & H).
  apply bind_ok in H as (_ & _ & H). apply bind_ok in H as (sz & _ & H).
  apply bind_ok in H as ([edges net1] & Hd & [= _ <-]).
  by eapply diagonal_edges_erase.
Qed.
Lemma filter_edges_ctor_erase in_ out opts stride net g net' :
  filter_edges_ctor in_ out opts stride net = Ok (g, net') →
  erase_edges net' = erase_edges net.
Proof.
  unfold filter_edges_ctor. intros H.
  apply bind_ok in H as (oi & _ & H). apply bind_ok in H as (oo & _ & H).
  apply bind_ok in H as (? & _ & H). apply bind_ok in H as (eta & _ & H).
  apply bind_ok in H as (mom & _ & H). apply bind_ok in H as (wd & _ & H).
  apply bind_ok in H as (sz & _ & H).
  apply bind_ok in H as ([[filters edges] net1] & Hw & H).
  apply bind_ok in H as (fv & _ & H).
  apply bind_ok in H as (objs0 & _ & H).
  apply bind_ok in H as (objs1 & _ & [= _ <-]).
  rewrite put_filters_erase. by eapply filter_edges_wire_erase.
Qed.

(** what [erase_edges] keeps *)
Lemma erase_wires_size o : num_out_nodes (erase_wires o) = num_out_nodes o.
Proof. by destruct o. Qed.
Lemma erase_wires_is_input o : is_input (erase_wires o) = is_input o.
Proof. by destruct o. Qed.
Lemma erase_wires_received o : received_of (erase_wires o) = received_of o.
Proof. by destruct o. Qed.
Lemma erase_wires_fs o : fs_of (erase_wires o) = fs_of o.
Proof. by destruct o. Qed.
Lemma erase_wires_gs o : gs_of (erase_wires o) = gs_of o.
Proof. by destruct o. Qed.

Lemma node_obj_erase_edges net p :
  node_obj (erase_edges net) p = erase_wires <$> node_obj net p.
Proof.
  unfold node_obj. rewrite erase_edges_nnodes_arena, list_lookup_fmap.
  by destruct (_ !! _) as [[]|].
Qed.

Lemma erase_edges_c_size net p : c_size (erase_edges net) p = c_size net p.
Proof.
  unfold c_size. rewrite node_obj_erase_edges.
  destruct (node_obj net p); [|done]. simpl. by rewrite erase_wires_size.
Qed.
Lemma erase_edges_input_at net p :
  input_at (erase_edges net) p ↔ input_at net p.
Proof.
  unfold input_at. rewrite node_obj_erase_edges.
  destruct (node_obj net p); [|done]. simpl. by rewrite erase_wires_is_input.
Qed.
Lemma erase_edges_received net p i :
  received (erase_edges net) p i = received net p i.
Proof.
  unfold received. rewrite node_obj_erase_edges.
  destruct (node_obj net p); [|done]. simpl. by rewrite erase_wires_received.
Qed.
Lemma erase_edges_fs net p i : fs (erase_edges net) p i = fs net p i.
Proof.
  unfold fs. rewrite node_obj_erase_edges.
  destruct (node_obj net p); [|done]. simpl. by rewrite erase_wires_fs.
Qed.
Lemma erase_edges_gs net p i : gs (erase_edges net) p i = gs net p i.
Proof.
  unfold gs. rewrite node_obj_erase_edges.
  destruct (node_obj net p); [|done]. simpl. by rewrite erase_wires_gs.
Qed.

Ltac erase_edges_accessor :=
  unfold n_out, n_in, n_stride, n_fov, n_fsize, e_in, e_out, e_width,
    e_stride, e_in_stride, e_in_fsize;
  rewrite ?erase_edges_nnodes_arena, ?erase_edges_nedges_arena,
    list_lookup_fmap;
  by destruct (_ !! _) as [[]|].

Lemma erase_edges_n_in net p : n_in (erase_edges net) p = n_in net p.
Proof. erase_edges_accessor. Qed.
Lemma erase_edges_n_out net p : n_out (erase_edges net) p = n_out net p.
Proof. erase_edges_accessor. Qed.
Lemma erase_edges_e_in net e : e_in (erase_edges net) e = e_in net e.
Proof. erase_edges_accessor. Qed.
Lemma erase_edges_e_out net e : e_out (erase_edges net) e = e_out net e.
Proof. erase_edges_accessor. Qed.
Lemma erase_edges_valid_node net p :
  valid_node (erase_edges net) p ↔ valid_node net p.
Proof.
  unfold valid_node. by rewrite erase_edges_nnodes_arena, length_fmap.
Qed.
Lemma erase_edges_valid_nedges net e :
  valid_nedges (erase_edges net) e ↔ valid_nedges net e.
Proof.
  unfold valid_nedges. by rewrite erase_edges_nedges_arena, length_fmap.
Qed.

Lemma erase_edges_same a b : erase_edges b = erase_edges a → same_graph a b.
Proof.
  intros E. split; intros.
  - by rewrite <-erase_edges_n_in, E, erase_edges_n_in.
  - by rewrite <-erase_edges_n_out, E, erase_edges_n_out.
  - by rewrite <-erase_edges_e_in, E, erase_edges_e_in.
  - by rewrite <-erase_edges_e_out, E, erase_edges_e_out.
  - by rewrite <-erase_edges_valid_node, E, erase_edges_valid_node.
  - by rewrite <-erase_edges_valid_nedges, E, erase_edges_valid_nedges.
  - by rewrite <-erase_edges_c_size, E, erase_edges_c_size.
  - by rewrite <-erase_edges_input_at, E, erase_edges_input_at.
  - by rewrite <-erase_edges_received, E, erase_edges_received.
  - by rewrite <-erase_edges_fs, E, erase_edges_fs.
  - by rewrite <-erase_edges_gs, E, erase_edges_gs.
  - by apply (f_equal edges_) in E.
  - by apply (f_equal nodes_) in E.
  - by apply (f_equal input_nodes_) in E.
Qed.

Lemma same_graph_trans a b c : same_graph a b → same_graph b c → same_graph a c.
Proof.
  intros H1 H2. split; intros.
  - by rewrite (sg_n_in _ _ H2), (sg_n_in _ _ H1).
  - by rewrite (sg_n_out _ _ H2), (sg_n_out _ _ H1).
  - by rewrite (sg_e_in _ _ H2), (sg_e_in _ _ H1).
  - by rewrite (sg_e_out _ _ H2), (sg_e_out _ _ H1).
  - by rewrite (sg_valid_node _ _ H2), (sg_valid_node _ _ H1).
  - by rewrite (sg_valid_nedges _ _ H2), (sg_valid_nedges _ _ H1).
  - by rewrite (sg_c_size _ _ H2), (sg_c_size _ _ H1).
  - by rewrite (sg_input_at _ _ H2), (sg_input_at _ _ H1).
  - by rewrite (sg_received _ _ H2), (sg_received _ _ H1).
  - by rewrite (sg_fs _ _ H2), (sg_fs _ _ H1).
  - by rewrite (sg_gs _ _ H2), (sg_gs _ _ H1).
  - by rewrite (sg_edges_ _ _ H2), (sg_edges_ _ _ H1).
  - by rewrite (sg_nodes_ _ _ H2), (sg_nodes_ _ _ H1).
  - by rewrite (sg_input_nodes_ _ _ H2), (sg_input_nodes_ _ _ H1).
Qed.

Lemma init_same_graph outsz a b : init outsz a = Ok b → same_graph a b.
Proof.
  intros E%init_erase.
  assert (∀ p, node_obj b p = node_obj a p) as Ho.
  { intros p. by rewrite <-erase_init_node_obj, E, erase_init_node_obj. }
  split; intros.
  - by rewrite <-erase_init_n_in, E, erase_init_n_in.
  - by rewrite <-erase_init_n_out, E, erase_init_n_out.
  - by rewrite <-erase_init_e_in, E, erase_init_e_in.
  - by rewrite <-erase_init_e_out, E, erase_init_e_out.
  - apply (f_equal (λ n, length (nnodes_arena n))) in E.
    rewrite !erase_init_nnodes_arena, !length_fmap in E.
    unfold valid_node. by rewrite E.
  - apply (f_equal (λ n, length (nedges_arena n))) in E.
    rewrite !erase_init_nedges_arena, !length_fmap in E.
    unfold valid_nedges. by rewrite E.
  - unfold c_size. by rewrite Ho.
  - unfold input_at. by rewrite Ho.
  - unfold received. by rewrite Ho.
  - unfold fs. by rewrite Ho.
  - unfold gs. by rewrite Ho.
  - by apply (f_equal edges_) in E.
  - by apply (f_equal nodes_) in E.
  - by apply (f_equal input_nodes_) in E.
Qed.

End CreateEdgesFrame.

Section GroupCtor.
Context `{Ext : Externals}.

Lemma diagonal_group_created in_ out impl net edges net' :
  vectors_ok net → c_size net in_ = c_size net out →
  diagonal_edges in_ out impl (c_size net in_) net = Ok (edges, net') →
  group_created in_ out net net'.
Proof.
  intros V Heq H.
  apply diagonal_edges_created in H as (objs & HF & Hc & _); [|done].
  eexists _, objs. split; [done|]. split; [done|]. split.
  - intros j Hj. exists j. apply list_elem_of_fmap. exists j. split; [done|].
    apply elem_of_seq. lia.
  - intros i Hi. exists i. apply list_elem_of_fmap. exists i. split; [done|].
    apply elem_of_seq. lia.
Qed.

Lemma dummy_edges_ctor_created in_ out opts net g net' :
  vectors_ok net →
  dummy_edges_ctor in_ out opts net = Ok (g, net') →
  group_created in_ out net net'.
Proof.
  intros V H. unfold dummy_edges_ctor in H.
  apply bind_ok in H as (oi & [Hn _]%get_nodes_c_size & H).
  apply bind_ok in H as (oo & [Hm _]%get_nodes_c_size & H).
  apply bind_ok in H as (_ & Heq%assert_ok%Nat.eqb_eq & H).
  apply bind_ok in H as ([edges net1] & Hd & [= _ <-]).
  unfold num_in_nodes in Heq. rewrite <-Hn in Hd.
  eapply diagonal_group_created; [done|congruence|done].
Qed.

Lemma max_pooling_edges_ctor_created in_ out opts stride net g net' :
  vectors_ok net →
  max_pooling_edges_ctor in_ out opts stride net = Ok (g, net') →
  group_created in_ out net net'.
Proof.
  intros V H. unfold max_pooling_edges_ctor in H.
  apply bind_ok in H as (oi & [Hn _]%get_nodes_c_size & H).
  apply bind_ok in H as (oo & [Hm _]%get_nodes_c_size & H).
  apply bind_ok in H as (_ & Heq%assert_ok%Nat.eqb_eq & H).
  apply bind_ok in H as (sz & _ & H).
  apply bind_ok in H as ([edges net1] & Hd & [= _ <-]).
  unfold num_in_nodes in Heq. rewrite <-Hn in Hd.
  eapply diagonal_group_created; [done|congruence|done].
Qed.

Lemma filter_edges_ctor_created in_ out opts stride net g net' :
  vectors_ok net →
  filter_edges_ctor in_ out opts stride net = Ok (g, net') →
  group_created in_ out net net'.
Proof.
  intros V H. unfold filter_edges_ctor in H.
  apply bind_ok in H as (oi & [Hn _]%get_nodes_c_size & H).
  apply bind_ok in H as (oo & [Hm _]%get_nodes_c_size & H).
  apply bind_ok in H as (? & Hpos%assert_ok%andb_true_iff & H).
  destruct Hpos as [Hpn%Nat.ltb_lt Hpm%Nat.ltb_lt].
  apply bind_ok in H as (eta & _ & H).
  apply bind_ok in H as (mom & _ & H). apply bind_ok in H as (wd & _ & H).
  apply bind_ok in H as (sz & _ & H).
  apply bind_ok in H as ([[filters edges] net1] & Hw & H).
  apply bind_ok in H as (fv & _ & H).
  apply bind_ok in H as (objs0 & _ & H).
  apply bind_ok in H as (objs1 & _ & [= _ <-]).
  unfold num_in_nodes in Hw, Hpm. rewrite <-Hn, <-Hm in Hw.
  apply filter_edges_wire_created in Hw as (objs & HF & Hc & _); [|done].
  apply (created_put_filters _ _ _ (zip filters objs1)) in Hc.
  rewrite <-Hn in Hpn. rewrite <-Hm in Hpm.
  eexists _, objs. split; [done|]. split; [done|]. split.
  - intros j Hj. exists 0. eapply list_elem_of_lookup_2.
    by apply (pairs_from_lookup (c_size net out) (c_size net in_) 0 0 j).
  - intros i Hi. exists 0. eapply list_elem_of_lookup_2.
    by apply (pairs_from_lookup (c_size net out) (c_size net in_) 0 i 0).
Qed.

(** the body of the loop of [create_edges] *)
Lemma create_edges_step net0 done_ (kg : string * ptr) cur cur' :
  built_inv net0 cur done_ →
  (ne ← get_nedges cur kg.2;
   opts ← deref (nedges.opts ne);
   type ← opt.require_string opts "type";
   let in_ := nedges.in_ ne in
   let out := nedges.out ne in
   r ← (if String.eqb type "max_filter" then
          r ← max_pooling_edges_ctor in_ out opts (nedges.in_stride ne) cur;
          Ok (MaxPoolingEdges r.1, r.2)
        else if String.eqb type "conv" then
          r ← filter_edges_ctor in_ out opts (nedges.in_stride ne) cur;
          Ok (FilterEdges r.1, r.2)
        else if String.eqb type "dummy" then
          r ← dummy_edges_ctor in_ out opts cur;
          Ok (DummyEdges r.1, r.2)
        else Err LogicError);
   let net := r.2 in
   ne ← get_nedges net kg.2;
   Ok (put_nedges kg.2
         (nedges.set_opts None (nedges.set_edges (Some r.1) ne)) net))
  = Ok cur' →
  built_inv net0 cur' (done_ ++ [kg.2]).
Proof.
  destruct kg as [k g]. cbn [snd].
  intros [Hsame R Hfollow Hcover Hcoverin] Hb.
  pose proof (erase_edges_same _ _ Hsame) as S.
  apply bind_ok in Hb as (ne & Hne%at_ptr_ok & Hb).
  apply bind_ok in Hb as (opts & _ & Hb).
  apply bind_ok in Hb as (type & _ & Hb).
  apply bind_ok in Hb as ([grp cur1] & Hg & Hb). cbn [fst snd] in Hb.
  apply bind_ok in Hb as (ne' & Hne'%at_ptr_ok & [= <-]).
  assert (group_created (nedges.in_ ne) (nedges.out ne) cur cur1 ∧
          erase_edges cur1 = erase_edges cur) as [Hgc Hframe].
  { destruct (String.eqb type "max_filter").
    { apply bind_ok in Hg as ([g0 n0] & Hg & [= _ <-]).
      split; [by eapply max_pooling_edges_ctor_created; [apply R|]|].
      by eapply max_pooling_edges_ctor_erase. }
    destruct (String.eqb type "conv").
    { apply bind_ok in Hg as ([g0 n0] & Hg & [= _ <-]).
      split; [by eapply filter_edges_ctor_created; [apply R|]|].
      by eapply filter_edges_ctor_erase. }
    destruct (String.eqb type "dummy"); [|done].
    apply bind_ok in Hg as ([g0 n0] & Hg & [= _ <-]).
    split; [by eapply dummy_edges_ctor_created; [apply R|]|].
    by eapply dummy_edges_ctor_erase. }
  destruct Hgc as (xs & objs & Hc & HF & Hall & Hallin).
  pose proof (cr_arena _ _ _ Hc) as Harena.
  assert (e_in net0 g = nedges.in_ ne ∧ e_out net0 g = nedges.out ne)
    as [Hin Hout].
  { rewrite <-(sg_e_in _ _ S), <-(sg_e_out _ _ S). unfold e_in, e_out.
    by rewrite Hne. }
  assert (∀ e, e < length (edge_arena cur) →
            edge_arena cur1 !! e = edge_arena cur !! e) as Hold.
  { intros e He. rewrite Harena. by apply lookup_app_l. }
  split.
  - rewrite (erase_edges_put_nedges _ _ _ _ _ Hne'). by rewrite Hframe.
  - apply (same_objects_registered cur1); [apply same_objects_put_nedges|].
    by eapply created_registered.
  - intros e He. change (valid_edge cur1 e) in He.
    change (∃ g0, g0 ∈ done_ ++ [g] ∧
                  ed_in cur1 e = e_in net0 g0 ∧ ed_out cur1 e = e_out net0 g0).
    destruct (decide (e < length (edge_arena cur))) as [Hlt|Hge].
    + destruct (Hfollow e Hlt) as (g0 & Hg0 & H1 & H2).
      exists g0. split; [apply elem_of_app; by left|].
      unfold ed_in, ed_out in *. by rewrite (Hold e Hlt).
    + exists g. split; [apply elem_of_app; right; apply list_elem_of_here|].
      unfold valid_edge in He. rewrite Harena, length_app in He.
      destruct (lookup_lt_is_Some_2 objs (e - length (edge_arena cur)))
        as [o Ho]; [lia|].
      destruct (Forall2_lookup_r _ _ _ _ _ HF Ho)
        as (x & _ & Hj1 & _ & Hj2 & _).
      unfold ed_in, ed_out. rewrite Harena, lookup_app_r by lia.
      rewrite Ho. simpl. by rewrite Hin, Hout.
  - intros g0 j [Hg0|Hg0]%elem_of_app Hj;
      [|apply list_elem_of_singleton in Hg0 as ->].
    + destruct (Hcover g0 j Hg0 Hj) as (e & He & H1 & H2).
      exists e. unfold valid_edge, ed_out, ed_out_num in *.
      cbn [edge_arena put_nedges set_nedges_arena].
      rewrite (Hold e He). split; [|done].
      rewrite Harena, length_app. lia.
    + rewrite Hout, <-(sg_c_size _ _ S) in Hj.
      destruct (Hall j Hj) as (i & Hij).
      apply list_elem_of_lookup_1 in Hij as [n Hn].
      destruct (Forall2_lookup_l _ _ _ _ _ HF Hn)
        as (o & Ho & _ & _ & Hj1 & Hj2 & _).
      exists (length (edge_arena cur) + n).
      unfold valid_edge, ed_out, ed_out_num.
      cbn [edge_arena put_nedges set_nedges_arena].
      rewrite Harena, length_app, lookup_app_r by lia.
      replace (length (edge_arena cur) + n - length (edge_arena cur))
        with n by lia.
      rewrite Ho. simpl. apply lookup_lt_Some in Ho.
      split; [lia|]. by rewrite Hout.
  - intros g0 i [Hg0|Hg0]%elem_of_app Hi;
      [|apply list_elem_of_singleton in Hg0 as ->].
    + destruct (Hcoverin g0 i Hg0 Hi) as (e & He & H1 & H2).
      exists e. unfold valid_edge, ed_in, ed_in_num in *.
      cbn [edge_arena put_nedges set_nedges_arena].
      rewrite (Hold e He). split; [|done].
      rewrite Harena, length_app. lia.
    + rewrite Hin, <-(sg_c_size _ _ S) in Hi.
      destruct (Hallin i Hi) as (j & Hij).
      apply list_elem_of_lookup_1 in Hij as [n Hn].
      destruct (Forall2_lookup_l _ _ _ _ _ HF Hn)
        as (o & Ho & Hi1 & Hi2 & _).
      exists (length (edge_arena cur) + n).
      unfold valid_edge, ed_in, ed_in_num.
      cbn [edge_arena put_nedges set_nedges_arena].
      rewrite Harena, length_app, lookup_app_r by lia.
      replace (length (edge_arena cur) + n - length (edge_arena cur))
        with n by lia.
      rewrite Ho. simpl. apply lookup_lt_Some in Ho.
      split; [lia|]. by rewrite Hin.
Qed.

Lemma create_edges_built net0 net :
  registered net0 → edge_arena net0 = [] →
  create_edges net0 = Ok net →
  built_inv net0 net (StdMap.values (edges_ net0)).
Proof.
  intros R Hempty H. unfold create_edges in H.
  apply (for_each_prefix
    (λ (done_ : list (string * ptr)) cur, built_inv net0 cur done_.*2)
    _ (edges_ net0) [] net0 net) in H; [done| |].
  - split; [done|done|..].
    + intros e He. unfold valid_edge in He. rewrite Hempty in He.
      simpl in He. lia.
    + intros g j Hg. by apply elem_of_nil in Hg.
    + intros g j Hg. by apply elem_of_nil in Hg.
  - intros done_ kg cur cur' Hinv Hb. rewrite fmap_app. simpl.
    by eapply create_edges_step.
Qed.

End GroupCtor.

Section Pristine.
Context `{Ext : Externals}.

Lemma default_replicate {A} (d : A) n i : default d (replicate n d !! i) = d.
Proof.
  destruct (replicate n d !! i) as [x|] eqn:E; [|done].
  by apply lookup_replicate in E as [-> _].
Qed.

Lemma transfer_nodes_ctor_pristine op t :
  transfer_nodes.ctor op = Ok t →
  transfer_nodes.received_ t = replicate (transfer_nodes.size_ t) 0 ∧
  transfer_nodes.fs_ t = replicate (transfer_nodes.size_ t) None ∧
  transfer_nodes.gs_ t = replicate (transfer_nodes.size_ t) None.
Proof.
  unfold transfer_nodes.ctor. intros H.
  apply bind_ok in H as (sz & _ & H). apply bind_ok in H as (fn & _ & H).
  apply bind_ok in H as (eta & _ & H). apply bind_ok in H as (mom & _ & H).
  apply bind_ok in H as (wd & _ & H). apply bind_ok in H as (bv & _ & H).
  apply bind_ok in H as (bs & _ & [= <-]). done.
Qed.

Lemma pristine_empty : pristine empty_network.
Proof. intros [|p] i; done. Qed.

Lemma same_objects_pristine a b : same_objects a b → pristine a → pristine b.
Proof.
  intros [_ O] P p i. unfold received, fs, gs. rewrite O. apply P.
Qed.

Lemma add_nodes_pristine op net net' :
  pristine net → add_nodes op net = Ok net' → pristine net'.
Proof.
  intros P H. unfold add_nodes in H.
  apply bind_ok in H as (name & _ & H). apply bind_ok in H as (type & _ & H).
  apply bind_ok in H as (sz & _ & H). apply bind_ok in H as (_ & _ & H).
  apply bind_ok in H as (_ & _ & H).
  assert (∀ (o : nodes) n (base : network),
            (∀ p, node_obj base p = node_obj net p) →
            length (nnodes_arena base) = length (nnodes_arena net) →
            received_of o = replicate n 0 →
            fs_of o = replicate n None → gs_of o = replicate n None →
            pristine (set_nnodes_arena
                        (nnodes_arena base ++
                           [nnodes.Build vec3i_ops.zero vec3i_ops.zero
                              vec3i_ops.zero o [] []]) base)) as Hnew.
  { intros o n base Ob Lb Hr Hf Hg p i. unfold received, fs, gs.
    rewrite node_obj_snoc. case_decide.
    - simpl. rewrite Hr, Hf, Hg. by rewrite !default_replicate.
    - rewrite Ob. apply P. }
  destruct (String.eqb type "input").
  { injection H as <-.
    by apply (Hnew (Input _) 0 (set_input_nodes_ _ (set_nodes_ _ net))). }
  destruct (String.eqb type "sum").
  { injection H as <-. by apply (Hnew (Summing _) sz (set_nodes_ _ net)). }
  destruct (String.eqb type "transfer"); [|done].
  apply bind_ok in H
    as (t & (Ht1 & Ht2 & Ht3)%transfer_nodes_ctor_pristine & [= <-]).
  by apply (Hnew (Transfer t) (transfer_nodes.size_ t) (set_nodes_ _ net)).
Qed.

End Pristine.

Section RegisteredLists.
Context `{Ext : Externals}.

Lemma tally_selected len0 objs sel e :
  0 < tally len0 objs sel e →
  ∃ o, objs !! (e - len0) = Some o ∧ sel o = true.
Proof.
  unfold tally. case_decide; [|lia].
  destruct (objs !! (e - len0)) as [o|]; [|lia].
  destruct (sel o) eqn:E; [|lia]. intros _. by exists o.
Qed.

Lemma tally_le_one len0 objs sel e : tally len0 objs sel e ≤ 1.
Proof. unfold tally. repeat case_match; lia. Qed.

Lemma nodup_occurrences (l : list nat) :
  (∀ e, occurrences e l ≤ 1) → NoDup l.
Proof.
  induction l as [|x l IH]; intros H; [apply NoDup_nil_2|].
  apply NoDup_cons. split.
  - intros Hx%occurrences_pos. specialize (H x). unfold occurrences in *.
    rewrite filter_cons, decide_True in H by done. simpl in H. lia.
  - apply IH. intros e. specialize (H e). unfold occurrences in *.
    rewrite filter_cons in H. case_decide; simpl in H; lia.
Qed.

Lemma registered_out_sound net p i e :
  registered net → e ∈ c_out net p i →
  valid_edge net e ∧ ed_in net e = p ∧ ed_in_num net e = i.
Proof.
  intros [_ R] H%occurrences_pos. rewrite (proj1 (R p i e)) in H.
  apply tally_selected in H as (o & Ho & Hsel). rewrite Nat.sub_0_r in Ho.
  apply bool_decide_eq_true in Hsel as [H1 H2].
  unfold valid_edge, ed_in, ed_in_num. rewrite Ho. simpl.
  split; [by eapply lookup_lt_Some|done].
Qed.

Lemma registered_in_sound net p i e :
  registered net → e ∈ c_in net p i →
  valid_edge net e ∧ ed_out net e = p ∧ ed_out_num net e = i.
Proof.
  intros [_ R] H%occurrences_pos. rewrite (proj2 (R p i e)) in H.
  apply tally_selected in H as (o & Ho & Hsel). rewrite Nat.sub_0_r in Ho.
  apply bool_decide_eq_true in Hsel as [H1 H2].
  unfold valid_edge, ed_out, ed_out_num. rewrite Ho. simpl.
  split; [by eapply lookup_lt_Some|done].
Qed.

Lemma registered_nodup net p i :
  registered net → NoDup (c_out net p i) ∧ NoDup (c_in net p i).
Proof.
  intros [_ R]. split; apply nodup_occurrences; intros e.
  - rewrite (proj1 (R p i e)). apply tally_le_one.
  - rewrite (proj2 (R p i e)). apply tally_le_one.
Qed.

Lemma registered_complete net e :
  registered net → valid_edge net e →
  e ∈ c_out net (ed_in net e) (ed_in_num net e) ∧
  e ∈ c_in net (ed_out net e) (ed_out_num net e).
Proof.
  intros R He. destruct (registered_wires _ _ R He).
  split; apply occurrences_elem; lia.
Qed.

Lemma nodup_values_inj {V} (l : list (string * V)) k k' v :
  NoDup l.*2 → (k, v) ∈ l → (k', v) ∈ l → k = k'.
Proof.
  induction l as [|[k0 v0] l IH]; simpl; [by intros _ ?%elem_of_nil|].
  intros [Hv Hnd]%NoDup_cons H1 H2.
  apply elem_of_cons in H1 as [H1|H1]; apply elem_of_cons in H2 as [H2|H2].
  - congruence.
  - injection H1 as -> ->. destruct Hv. apply list_elem_of_fmap.
    by exists (k', v0).
  - injection H2 as -> ->. destruct Hv. apply list_elem_of_fmap.
    by exists (k, v0).
  - by apply IH.
Qed.

End RegisteredLists.

Section CollectOutputs.
Context `{Ext : Externals}.

Lemma collect_outputs_wf net (l : list (string * nat)) :
  ∀ acc, NoDup l.*1 → StdMap.wf acc →
    (∀ k, k ∈ StdMap.keys acc → k ∉ l.*1) →
    StdMap.wf (collect_outputs net l acc).
Proof.
  induction l as [|[k p] l IH]; intros acc Hnd Hwf Hfresh; [done|].
  simpl in Hnd. apply NoDup_cons in Hnd as [Hk Hnd]. simpl.
  destruct (length (n_out net p) =? 0).
  - apply IH; [done| |].
    + apply stdmap_insert_fresh_wf; [|done]. apply stdmap_find_none.
      intros Hin. apply (Hfresh k Hin). left.
    + intros k0 ([k1 v] & -> & Hin)%list_elem_of_fmap. simpl.
      apply stdmap_insert_elem in Hin as [[= -> ->]|Hin]; [done|].
      intros Hl. apply (Hfresh k1).
      * apply list_elem_of_fmap. by exists (k1, v).
      * by right.
  - apply IH; [done..|]. intros k0 Hin Hl. apply (Hfresh k0 Hin). by right.
Qed.

End CollectOutputs.

(** X15: the network the constructor returns is ready for training.  If the
    declared graph is acyclic ([rank] numbers the node groups along the
    edge groups) and every node group that is not an input has an in-edge
    group, then the network is well formed at run time ([run_wf]): every
    edge object is listed exactly once by the channel it leaves and by the
    channel it enters, edge objects run upwards in [rank], every channel
    of a summing or transfer node group has an in-edge, exactly the input
    node groups are registered as inputs; the edge vectors of every node
    group are as long as the group is wide; exactly the node groups
    without out-edge are registered as outputs, each under its own name;
    no arrival is pending and no buffer held.  These are the conditions
    under which the two passes are shown to keep their protocol. *)
Theorem constructed_network_ready `{Ext : Externals} (ns es : list options)
    (outsz : vec3i) (net : network) (rank : ptr → nat) :
  network_ctor ns es outsz = Ok net →
  (∀ e, valid_nedges net e → rank (e_in net e) < rank (e_out net e)) →
  (∀ p, valid_node net p → rank p < length (nnodes_arena net)) →
  (∀ p, valid_node net p → ¬ input_at net p → n_in net p ≠ []) →
  ready net rank.
Proof.
  unfold network_ctor. intros H Hrank Hbound Hfed.
  apply bind_ok in H as (net1 & H1 & H). apply bind_ok in H as (net2 & H2 & H).
  apply bind_ok in H as (net3 & H3 & H4).
  destruct (add_edges_loop _ _ _ _ H1 H2) as (W & _).
  assert (unwired net2 ∧ pristine net2) as [U2 P2].
  { assert (unwired net1 ∧ pristine net1) as [U1 P1].
    { apply (for_each_inv (λ s, unwired s ∧ pristine s) _ _ _ _
               (conj unwired_empty pristine_empty)) in H1; [done|].
      intros op cur cur' _ [U P] Hb.
      split; [by eapply add_nodes_unwired|by eapply add_nodes_pristine]. }
    apply (for_each_inv (λ s, unwired s ∧ pristine s) _ _ _ _
             (conj U1 P1)) in H2; [done|].
    intros op cur cur' _ [U P] Hb. apply add_edges_same_objects in Hb.
    split; [by eapply same_objects_unwired|by eapply same_objects_pristine]. }
  pose proof (init_same_objects _ _ _ H3) as O23.
  pose proof (same_objects_unwired _ _ O23 U2) as U3.
  pose proof (create_edges_built net3 net (unwired_registered _ U3)
                (proj1 U3) H4) as [Hsame R Hfollow Hcover Hcoverin].
  pose proof (same_graph_trans _ _ _ (init_same_graph _ _ _ H3)
                (erase_edges_same _ _ Hsame)) as S.
  pose proof (erase_edges_same _ _ Hsame) as S3.
  assert (∀ g, g ∈ StdMap.values (edges_ net3) ↔ valid_nedges net g) as Hgroups.
  { intros g. rewrite (sg_valid_nedges _ _ S), (dw_edges_ _ W).
    by rewrite <-(sg_edges_ _ _ S), (sg_edges_ _ _ S3). }
  assert (∀ g, e_in net3 g = e_in net g ∧ e_out net3 g = e_out net g) as Hg3.
  { intros g. by rewrite (sg_e_in _ _ S3), (sg_e_out _ _ S3). }
  assert (output_nodes_ net = collect_outputs net2 (nodes_ net2) StdMap.empty)
    as Houts.
  { apply (f_equal output_nodes_) in Hsame.
    change (output_nodes_ net = output_nodes_ net3) in Hsame.
    rewrite Hsame, <-(dw_no_outputs _ W).
    apply (init_output_nodes outsz); [|done].
    intros [k p] Hin. apply (dw_nodes_ _ W). apply list_elem_of_fmap.
    by exists (k, p). }
  assert (∀ k p, (k, p) ∈ output_nodes_ net ↔
                 (k, p) ∈ nodes_ net2 ∧ n_out net2 p = []) as Hreg.
  { intros k p. rewrite Houts. split.
    - intros [H|H]%collect_outputs_sound; [by apply elem_of_nil in H|done].
    - intros H. apply collect_outputs_complete; [apply (dw_nodes_keys _ W)|].
      by right. }
  split.
  - split.
    + intros p i e. by apply registered_out_sound.
    + intros p i e. by apply registered_in_sound.
    + intros e. by apply registered_complete.
    + intros p i. by apply registered_nodup.
    + intros p i. by apply registered_nodup.
    + intros e He. destruct (Hfollow e He) as (g & Hg%Hgroups & -> & ->).
      destruct (Hg3 g) as [-> ->]. by apply Hrank.
    + done.
    + intros p Hp%(sg_valid_node _ _ S). rewrite (sg_c_size _ _ S).
      by apply (dw_sizes _ W).
    + intros p o Ho. by apply (proj1 R p o Ho).
    + intros p i Hp Hni Hi.
      destruct (n_in net p) as [|g l] eqn:Hin; [by destruct (Hfed p Hp Hni)|].
      assert (g ∈ n_in net2 p) as Hg.
      { rewrite <-(sg_n_in _ _ S), Hin. apply list_elem_of_here. }
      apply (dw_in _ W p g) in Hg as [Hv Hout];
        [|by apply (sg_valid_node _ _ S)].
      assert (e_out net3 g = p) as Hout3.
      { destruct (Hg3 g) as [_ ->]. by rewrite (sg_e_out _ _ S). }
      destruct (Hcover g i) as (e & He & Heo & Hen).
      { apply Hgroups. by apply (sg_valid_nedges _ _ S). }
      { by rewrite Hout3, <-(sg_c_size _ _ S3). }
      destruct (registered_complete _ _ R He) as [_ Hc].
      rewrite Heo, Hen, Hout3 in Hc. intros Hnil. rewrite Hnil in Hc.
      by apply elem_of_nil in Hc.
    + rewrite (sg_input_nodes_ _ _ S). apply (dw_inputs_keys _ W).
    + rewrite (sg_input_nodes_ _ _ S).
      apply NoDup_fmap_2_strong.
      * intros [k p] [k' p'] Hk Hk' Heq. simpl in Heq. subst p'. f_equal.
        apply (dw_inputs _ W) in Hk as [Hk _].
        apply (dw_inputs _ W) in Hk' as [Hk' _].
        by eapply nodup_values_inj; [apply (dw_nodes_inj _ W)|..].
      * eapply NoDup_fmap_1. apply (dw_inputs_keys _ W).
    + intros p. rewrite (sg_input_at _ _ S), (sg_input_nodes_ _ _ S). split.
      * intros Hi.
        assert (valid_node net2 p) as Hp.
        { unfold input_at in Hi.
          destruct (node_obj net2 p) eqn:Ho; [|done].
          by eapply node_obj_valid. }
        apply (dw_nodes_ _ W) in Hp.
        apply list_elem_of_fmap in Hp as ([k p'] & -> & Hk).
        apply list_elem_of_fmap. exists (k, p'). split; [done|].
        by apply (dw_inputs _ W).
      * intros ([k p'] & -> & Hk)%list_elem_of_fmap.
        by apply (dw_inputs _ W) in Hk as [_ Hk].
  - apply R.
  - split.
    + rewrite Houts. apply collect_outputs_wf;
        [apply (dw_nodes_keys _ W)|apply NoDup_nil; done|].
      intros k Hk. by apply elem_of_nil in Hk.
    + apply NoDup_fmap_2_strong.
      * intros [k p] [k' p'] Hk Hk' Heq. simpl in Heq. subst p'. f_equal.
        apply Hreg in Hk as [Hk _]. apply Hreg in Hk' as [Hk' _].
        by eapply nodup_values_inj; [apply (dw_nodes_inj _ W)|..].
      * eapply NoDup_fmap_1. rewrite Houts.
        apply collect_outputs_wf;
          [apply (dw_nodes_keys _ W)|apply NoDup_nil; done|].
        intros k Hk. by apply elem_of_nil in Hk.
    + intros p i ([k p'] & -> & [Hk Hnil]%Hreg)%list_elem_of_fmap.
      simpl in *.
      assert (valid_node net2 p') as Hp.
      { apply (dw_nodes_ _ W). apply list_elem_of_fmap. by exists (k, p'). }
      destruct (c_out net p' i) as [|e l] eqn:Hc; [done|]. exfalso.
      assert (e ∈ c_out net p' i) as He by (rewrite Hc; left).
      destruct (registered_out_sound _ _ _ _ R He) as (Hve & Hin & _).
      destruct (Hfollow e Hve) as (g & Hg%Hgroups & Hgi & _).
      destruct (Hg3 g) as [Hg3i _].
      assert (g ∈ n_out net2 p') as Hgo.
      { apply (dw_out _ W p' g Hp). split.
        - by apply (sg_valid_nedges _ _ S).
        - rewrite <-(sg_e_in _ _ S). congruence. }
      rewrite Hnil in Hgo. by apply elem_of_nil in Hgo.
    + intros p i Hp Hi Hc.
      apply (sg_valid_node _ _ S) in Hp as Hp2.
      pose proof (proj1 (dw_nodes_ _ W p) Hp2) as Hin.
      apply list_elem_of_fmap in Hin as ([k p'] & -> & Hk). simpl in *.
      apply list_elem_of_fmap. exists (k, p'). split; [done|].
      apply Hreg. split; [done|].
      destruct (n_out net2 p') as [|g l] eqn:Hno; [done|]. exfalso.
      assert (g ∈ n_out net2 p') as Hgo by (rewrite Hno; left).
      apply (dw_out _ W p' g Hp2) in Hgo as [Hg Hgi].
      apply (sg_valid_nedges _ _ S) in Hg.
      destruct (Hg3 g) as [Hg3i _].
      assert (e_in net3 g = p') as Hin3.
      { rewrite Hg3i, (sg_e_in _ _ S). done. }
      destruct (Hcoverin g i) as (e & He & Hei & Hen).
      { by apply Hgroups. }
      { by rewrite Hin3, <-(sg_c_size _ _ S3). }
      destruct (registered_complete _ _ R He) as [Hco _].
      rewrite Hei, Hen, Hin3, Hc in Hco. by apply elem_of_nil in Hco.
  - intros p i. rewrite (sg_received _ _ S). apply P2.
  - intros p i. rewrite (sg_fs _ _ S), (sg_gs _ _ S).
    destruct (P2 p i) as (_ & ? & ?). done.
Qed.


Lemma constructed_network_ready_witness : ready chain_net id.
Proof.
  assert (network_ctor [nodes_input "in" 1; nodes_transfer "out" 1]
            [edges_dummy "e" "in" "out"] (Vec3 2 2 2) = Ok chain_net) as E
    by (vm_cast_no_check (eq_refl (Ok chain_net))).
  apply (constructed_network_ready _ _ _ _ id E).
  - intros [|e] He; vm_compute in He; try lia; vm_compute; lia.
  - intros p Hp. exact Hp.
  - intros [|[|p]] Hp Hi; vm_compute in Hp; try lia.
    + destruct Hi. reflexivity.
    + vm_compute. discriminate.
Defined.

Section ForwardBelow.
Context `{Ext : Externals}.
Variable rank : ptr → nat.

Lemma run_wf_downstream_ranked net :
  run_wf net rank → downstream_ranked rank net.
Proof.
  intros W p i e He.
  destruct (rw_out_sound _ _ W p i e He) as (Hv & <- & _).
  by apply (rw_rank _ _ W).
Qed.

Lemma same_topology_downstream a b :
  same_topology a b → downstream_ranked rank a → downstream_ranked rank b.
Proof.
  intros S D p i e He. rewrite (st_c_out _ _ S) in He.
  rewrite (st_ed_out _ _ S). by apply (D p i e).
Qed.

Lemma edge_forward_below fuel e f cur cur' :
  nodes_forward_below rank fuel → downstream_ranked rank cur →
  edge_of_forward (nodes_forward fuel) e f cur = Ok cur' →
  ∀ q, rank q < rank (ed_out cur e) → node_obj cur' q = node_obj cur q.
Proof.
  intros IH D H q Hq. unfold edge_of_forward in H.
  apply bind_ok in H as (eo & Heo%at_ptr_ok & H).
  apply bind_ok in H as (r & _ & H).
  set (cur1 := put_edge e _ cur) in H.
  assert (erase_forward cur1 = erase_forward cur) as E1
    by (by apply erase_forward_put_edge).
  apply IH in H; [|by eapply same_topology_downstream, D;
                     apply erase_forward_same].
  rewrite H; [done|]. unfold ed_out in Hq. by rewrite Heo in Hq.
Qed.

(** the dispatch loop of a firing channel [n] of [self] writes no node
    group up to [self] *)
Lemma dispatch_below fuel self n outs cur
    (body : ptr → network → result network) :
  nodes_forward_below rank fuel → downstream_ranked rank cur →
  c_out cur self n = outs →
  (∀ e s s', body e s = Ok s' →
     ∃ c, edge_of_forward (nodes_forward fuel) e c s = Ok s') →
  ∀ cur', for_each body outs cur = Ok cur' →
    erase_forward cur' = erase_forward cur ∧
    ∀ q, rank q ≤ rank self → node_obj cur' q = node_obj cur q.
Proof.
  intros IH D Houts Hbody cur' H.
  apply (for_each_inv
    (λ s, erase_forward s = erase_forward cur ∧
          ∀ q, rank q ≤ rank self → node_obj s q = node_obj cur q)
    body outs cur); [done| |done].
  intros e s s' He [Es Hs] Hb. destruct (Hbody _ _ _ Hb) as [c Hc].
  pose proof (erase_forward_same _ _ Es) as S.
  split.
  - rewrite <-Es. by eapply edge_forward_erase, Hc; apply nodes_forward_erase.
  - intros q Hq. rewrite <-(Hs q Hq).
    eapply edge_forward_below; [done|by eapply same_topology_downstream|done|].
    rewrite (st_ed_out _ _ S). rewrite <-Houts in He.
    specialize (D _ _ _ He). lia.
Qed.

Lemma nodes_forward_below_all fuel : nodes_forward_below rank fuel.
Proof.
  induction fuel as [|fuel IH]; intros p i f net net' D H q Hq; [done|].
  cbn [nodes_forward] in H.
  apply bind_ok in H as (o & Ho & H). destruct o as [x0|x0|x0].
  - unfold input_nodes_forward in H.
    apply bind_ok in H as (x & Hx & H). apply bind_ok in H as (_ & _ & H).
    apply bind_ok in H as (outs & Houts%at_index_ok & H).
    assert (node_obj net p = Some (Input x)) as Hobj.
    { unfold get_input_nodes in Hx.
      apply bind_ok in Hx as (o & Ho'%get_nodes_node_obj & Hx).
      destruct o; simplify_eq. done. }
    eapply (dispatch_below fuel p i outs net) in H as [_ H]; [|done|done| |].
    + apply H. lia.
    + unfold c_out. rewrite Hobj. simpl. by rewrite Houts.
    + intros e s s' Hb. by exists f.
  - unfold summing_nodes_forward in H.
    apply bind_ok in H as (x & Hx%get_summing_nodes_inv & H).
    apply bind_ok in H as (_ & _ & H).
    apply bind_ok in H as (r & _ & H).
    apply bind_ok in H as (fs1 & _ & H).
    set (x1 := summing_nodes.set_received_ _ _) in H.
    set (net1 := put_nodes p (Summing x1) net) in H.
    assert (erase_forward net1 = erase_forward net) as E1.
    { apply (erase_forward_put_nodes _ _ (Summing x)); [done|]. by destruct x. }
    assert (node_obj net1 q = node_obj net q) as Hq1.
    { apply node_obj_put_nodes_ne. intros ->. lia. }
    apply bind_ok in H as (ins & _ & H).
    destruct (_ =? _); [|injection H as <-; done].
    apply bind_ok in H as (outs & Houts%at_index_ok & H).
    apply bind_ok in H as (net2 & Hloop & H).
    apply bind_ok in H as (x2 & Hx2 & [= <-]).
    eapply (dispatch_below fuel p i outs net1) in Hloop as [_ Hloop];
      [|done|by eapply same_topology_downstream, D; apply erase_forward_same
       | |].
    + rewrite node_obj_put_nodes_ne by (intros ->; lia).
      rewrite Hloop by lia. done.
    + rewrite (st_c_out _ _ (erase_forward_same _ _ E1)).
      change (summing_nodes.outputs_ x !! i = Some outs) in Houts.
      unfold c_out. rewrite Hx. simpl. by rewrite Houts.
    + intros e s s' Hb. apply bind_ok in Hb as (? & _ & Hb).
      apply bind_ok in Hb as (c & _ & Hb). by exists c.
  - unfold transfer_nodes_forward in H.
    apply bind_ok in H as (x & Hx%get_transfer_nodes_inv & H).
    apply bind_ok in H as (_ & _ & H).
    apply bind_ok in H as (r & _ & H).
    apply bind_ok in H as (fs1 & _ & H).
    set (x1 := transfer_nodes.set_received_ _ _) in H.
    apply bind_ok in H as (ins & _ & H).
    destruct (_ =? _).
    2:{ injection H as <-. apply node_obj_put_nodes_ne. intros ->. lia. }
    apply bind_ok in H as (slot & _ & H).
    apply bind_ok in H as (c & _ & H).
    apply bind_ok in H as (b & _ & H).
    set (x1' := transfer_nodes.set_fs_ _ x1) in H.
    set (net1 := put_nodes p (Transfer x1') net) in H.
    assert (erase_forward net1 = erase_forward net) as E1.
    { apply (erase_forward_put_nodes _ _ (Transfer x)); [done|].
      by destruct x. }
    assert (node_obj net1 q = node_obj net q) as Hq1.
    { apply node_obj_put_nodes_ne. intros ->. lia. }
    apply bind_ok in H as (outs & Houts%at_index_ok & H).
    apply bind_ok in H as (net2 & Hloop & H).
    apply bind_ok in H as (x2 & Hx2 & [= <-]).
    eapply (dispatch_below fuel p i outs net1) in Hloop as [_ Hloop];
      [|done|by eapply same_topology_downstream, D; apply erase_forward_same
       | |].
    + rewrite node_obj_put_nodes_ne by (intros ->; lia).
      rewrite Hloop by lia. done.
    + rewrite (st_c_out _ _ (erase_forward_same _ _ E1)).
      change (transfer_nodes.outputs_ x !! i = Some outs) in Houts.
      unfold c_out. rewrite Hx. simpl. by rewrite Houts.
    + intros e s s' Hb. apply bind_ok in Hb as (? & _ & Hb).
      apply bind_ok in Hb as (c' & _ & Hb). by exists c'.
Qed.

End ForwardBelow.

Section ForwardFires.
Context `{Ext : Externals}.

Lemma summing_forward_loop (ef : edge_method) self n x1 F {A}
    (K : summing_nodes.t → network → result A) (I : network → Prop) outs :
  summing_nodes.fs_ x1 !! n = Some F →
  (∀ e c cur cur', e ∈ outs → I cur → ef e c cur = Ok cur' →
     I cur' ∧ node_obj cur' self = node_obj cur self) →
  ∀ cur,
    I cur → node_obj cur self = Some (Summing x1) →
    (net2 ← for_each
               (λ e cur,
                  x ← get_summing_nodes cur self;
                  c ← at_index (summing_nodes.fs_ x) n;
                  ef e c cur) outs cur;
     x ← get_summing_nodes net2 self; K x net2)
    = (net2 ← for_each (λ e cur, ef e F cur) outs cur; K x1 net2).
Proof.
  intros Hfs. induction outs as [|e outs IH]; intros Hframe cur HI Hobj;
    cbn [for_each mbind result_bind].
  - by rewrite (get_summing_nodes_ok _ _ _ Hobj).
  - rewrite (get_summing_nodes_ok _ _ _ Hobj). cbn [mbind result_bind].
    unfold at_index, at_ptr. rewrite Hfs. cbn [mbind result_bind].
    destruct (ef e F cur) as [cur'|err] eqn:Hef; [|done].
    cbn [mbind result_bind].
    destruct (Hframe _ _ _ _ (list_elem_of_here _ _) HI Hef) as [HI' Hsame].
    apply IH; [|done|by rewrite Hsame].
    intros e' c cur1 cur2 He'. apply Hframe. by apply list_elem_of_further.
Qed.

Lemma transfer_forward_loop (ef : edge_method) self n x1 F {A}
    (K : transfer_nodes.t → network → result A) (I : network → Prop) outs :
  transfer_nodes.fs_ x1 !! n = Some F →
  (∀ e c cur cur', e ∈ outs → I cur → ef e c cur = Ok cur' →
     I cur' ∧ node_obj cur' self = node_obj cur self) →
  ∀ cur,
    I cur → node_obj cur self = Some (Transfer x1) →
    (net2 ← for_each
               (λ e cur,
                  x ← get_transfer_nodes cur self;
                  c ← at_index (transfer_nodes.fs_ x) n;
                  ef e c cur) outs cur;
     x ← get_transfer_nodes net2 self; K x net2)
    = (net2 ← for_each (λ e cur, ef e F cur) outs cur; K x1 net2).
Proof.
  intros Hfs. induction outs as [|e outs IH]; intros Hframe cur HI Hobj;
    cbn [for_each mbind result_bind].
  - by rewrite (get_transfer_nodes_ok _ _ _ Hobj).
  - rewrite (get_transfer_nodes_ok _ _ _ Hobj). cbn [mbind result_bind].
    unfold at_index, at_ptr. rewrite Hfs. cbn [mbind result_bind].
    destruct (ef e F cur) as [cur'|err] eqn:Hef; [|done].
    cbn [mbind result_bind].
    destruct (Hframe _ _ _ _ (list_elem_of_here _ _) HI Hef) as [HI' Hsame].
    apply IH; [|done|by rewrite Hsame].
    intros e' c cur1 cur2 He'. apply Hframe. by apply list_elem_of_further.
Qed.

(** what one edge of the dispatch loop of [self] keeps *)
Lemma forward_dispatch_frame (rank : ptr → nat) fuel self n outs
    e c cur cur' :
  e ∈ outs →
  downstream_ranked rank cur ∧ c_out cur self n = outs →
  edge_of_forward (nodes_forward fuel) e c cur = Ok cur' →
  (downstream_ranked rank cur' ∧ c_out cur' self n = outs) ∧
  node_obj cur' self = node_obj cur self.
Proof.
  intros He [D Hc] Hef.
  assert (erase_forward cur' = erase_forward cur) as E
    by (by eapply edge_forward_erase, Hef; apply nodes_forward_erase).
  pose proof (erase_forward_same _ _ E) as S.
  split; [split|].
  - by eapply same_topology_downstream.
  - by rewrite (st_c_out _ _ S).
  - eapply (edge_forward_below rank); [apply nodes_forward_below_all|done..|].
    apply (D self n). by rewrite Hc.
Qed.

End ForwardFires.

(** X16: [summing_nodes::forward] on channel [n].  The arrival is counted
    and accumulated into [fs_[n]]: stored if it is the first one, added to
    the buffer otherwise.  If it is not the last one
    ([S r <> |inputs_[n]|]) nothing else happens.  If it is the last one
    then -- in a graph whose edges run upwards in [rank] -- the accumulated
    sum is handed to every out-edge of the channel, in order, with the node
    group in the state [summing_fed]; only then is [fs_[n]] released and
    [received_[n]] reset.  The gradient buffers are not touched. *)
Theorem summing_forward_fires `{Ext : Externals} (rank : ptr → nat)
    (fuel : nat) (self : ptr) (n : nat) (f : option cube) (net : network)
    (x : summing_nodes.t) (r : nat) (outs ins : list ptr)
    (fs1 : list (option cube)) (F : option cube) :
  downstream_ranked rank net →
  node_obj net self = Some (Summing x) →
  n < summing_nodes.size_ x →
  summing_nodes.received_ x !! n = Some r →
  summing_nodes.inputs_ x !! n = Some ins →
  summing_nodes.outputs_ x !! n = Some outs →
  accumulate r (summing_nodes.fs_ x) n f = Ok fs1 →
  fs1 !! n = Some F →
  let x1 := summing_fed x n r fs1 in
  (S r = length ins →
   nodes_forward (S fuel) self n f net =
     (net2 ← for_each
                (λ e cur, edge_of_forward (nodes_forward fuel) e F cur)
                outs (put_nodes self (Summing x1) net);
      Ok (put_nodes self (Summing (summing_forwarded x1 n)) net2))) ∧
  (S r ≠ length ins →
   nodes_forward (S fuel) self n f net
   = Ok (put_nodes self (Summing x1) net)) ∧
  (r = 0 → F = f) ∧
  (r ≠ 0 → ∃ a b, summing_nodes.fs_ x !! n = Some (Some a) ∧ f = Some b ∧
                  F = Some (cube_plus a b)) ∧
  summing_nodes.received_ x1 !! n = Some (S r) ∧
  summing_nodes.gs_ x1 = summing_nodes.gs_ x ∧
  summing_nodes.fs_ (summing_forwarded x1 n) !! n = Some None ∧
  summing_nodes.received_ (summing_forwarded x1 n) !! n = Some 0 ∧
  summing_nodes.gs_ (summing_forwarded x1 n) = summing_nodes.gs_ x.
Proof.
  intros D Hobj Hn Hr Hins Houts Hacc HF x1.
  pose proof (lookup_lt_Some _ _ _ HF) as HlF.
  pose proof (lookup_lt_Some _ _ _ Hr) as Hlr.
  assert (erase_forward (put_nodes self (Summing x1) net) = erase_forward net)
    as E1.
  { apply (erase_forward_put_nodes _ _ (Summing x)); [done|]. by destruct x. }
  split; [|split; [|split; [|split]]].
  - intros Hfire. cbn [nodes_forward].
    rewrite (proj2 (get_nodes_node_obj _ _ _) Hobj). cbn [mbind result_bind].
    unfold summing_nodes_forward.
    rewrite (get_summing_nodes_ok _ _ _ Hobj). cbn [mbind result_bind].
    rewrite (proj2 (Nat.ltb_lt _ _) Hn). cbn [ZI_ASSERT mbind result_bind].
    unfold at_index, at_ptr. rewrite Hr. cbn [mbind result_bind].
    rewrite Hacc. sn_simpl. rewrite Hins. sn_simpl.
    rewrite (proj2 (Nat.eqb_eq _ _) Hfire). rewrite Houts. sn_simpl.
    apply (summing_forward_loop _ self n x1 F
             (λ x net2,
                Ok (put_nodes self (Summing (summing_forwarded x n)) net2))
             (λ cur, downstream_ranked rank cur ∧ c_out cur self n = outs)
             outs); [done| | |].
    + intros e c cur cur' He HI Hef.
      by eapply forward_dispatch_frame.
    + pose proof (erase_forward_same _ _ E1) as S.
      split; [by eapply same_topology_downstream|].
      rewrite (st_c_out _ _ S). unfold c_out. rewrite Hobj. simpl.
      by rewrite Houts.
    + apply node_obj_put_nodes_eq. by eapply node_obj_valid.
  - intros Hne. cbn [nodes_forward].
    rewrite (proj2 (get_nodes_node_obj _ _ _) Hobj). cbn [mbind result_bind].
    unfold summing_nodes_forward.
    rewrite (get_summing_nodes_ok _ _ _ Hobj). cbn [mbind result_bind].
    rewrite (proj2 (Nat.ltb_lt _ _) Hn). cbn [ZI_ASSERT mbind result_bind].
    unfold at_index, at_ptr. rewrite Hr. cbn [mbind result_bind].
    rewrite Hacc. sn_simpl. rewrite Hins. sn_simpl.
    by rewrite (proj2 (Nat.eqb_neq _ _) Hne).
  - intros ->. unfold accumulate in Hacc. simpl in Hacc.
    injection Hacc as <-. rewrite length_insert in HlF.
    rewrite list_lookup_insert_eq in HF by done. by injection HF.
  - intros Hr0. unfold accumulate in Hacc.
    rewrite (proj2 (Nat.eqb_neq _ _) Hr0) in Hacc.
    apply bind_ok in Hacc as (slot & Hslot%at_index_ok & Hacc).
    apply bind_ok in Hacc as (a & Ha%deref_ok & Hacc).
    apply bind_ok in Hacc as (b & Hb%deref_ok & [= <-]).
    subst slot f. exists a, b. rewrite length_insert in HlF.
    rewrite list_lookup_insert_eq in HF by done. by injection HF as <-.
  - unfold x1, summing_forwarded, summing_fed. sn_simpl.
    repeat split;
      first [ apply list_lookup_insert_eq; by rewrite ?length_insert | done ].
Qed.

(** the output channel of [sum_net] has one in-edge and no out-edge: the
    arrival of the cube [4] fires it, and leaves it released *)
Lemma summing_forward_fires_witness :
  nodes_forward 1 1 0 (Some (voxel 4)) sum_net = Ok sum_net_pushed ∧
  fs sum_net_pushed 1 0 = None ∧ received sum_net_pushed 1 0 = 0.
Proof.
  split; [|split; reflexivity].
  etrans.
  - eapply (proj1 (summing_forward_fires id 0 1 0 (Some (voxel 4)) sum_net
                     _ 0 [] [0] _ (Some (voxel 4))
                     (run_wf_downstream_ranked id _ sum_net_wf) eq_refl
                     (Nat.lt_0_succ 0) eq_refl eq_refl eq_refl eq_refl
                     eq_refl)).
    reflexivity.
  - vm_cast_no_check (eq_refl (Ok sum_net_pushed)).
Defined.

(** X17: [transfer_nodes::forward] on channel [n].  The arrival is counted
    and accumulated into [fs_[n]].  If it is not the last one nothing else
    happens.  If it is the last one, the transfer function is applied to
    the accumulated sum [a] with the bias of the channel, the result
    replaces [fs_[n]], and -- in a graph whose edges run upwards in [rank]
    -- it is handed to every out-edge of the channel, in order; then
    [received_[n]] is reset.  Unlike a summing node group the channel keeps
    its feature map (the backward pass needs it); biases and gradient
    buffers are not touched. *)
Theorem transfer_forward_fires `{Ext : Externals} (rank : ptr → nat)
    (fuel : nat) (self : ptr) (n : nat) (f : option cube) (net : network)
    (x : transfer_nodes.t) (r : nat) (outs ins : list ptr)
    (fs1 : list (option cube)) (a : cube) (b : bias) :
  downstream_ranked rank net →
  node_obj net self = Some (Transfer x) →
  n < transfer_nodes.size_ x →
  transfer_nodes.received_ x !! n = Some r →
  transfer_nodes.inputs_ x !! n = Some ins →
  transfer_nodes.outputs_ x !! n = Some outs →
  accumulate r (transfer_nodes.fs_ x) n f = Ok fs1 →
  fs1 !! n = Some (Some a) →
  transfer_nodes.biases_ x !! n = Some b →
  let F' := tf_apply (transfer_nodes.func_ x) a (bias_b b) in
  let x1 := transfer_applied x n r fs1 F' in
  (S r = length ins →
   nodes_forward (S fuel) self n f net =
     (net2 ← for_each
                (λ e cur,
                   edge_of_forward (nodes_forward fuel) e (Some F') cur)
                outs (put_nodes self (Transfer x1) net);
      Ok (put_nodes self (Transfer (transfer_forwarded x1 n)) net2))) ∧
  (S r ≠ length ins →
   nodes_forward (S fuel) self n f net
   = Ok (put_nodes self (Transfer (transfer_fed x n r fs1)) net)) ∧
  (r = 0 → f = Some a) ∧
  (r ≠ 0 → ∃ a0 c, transfer_nodes.fs_ x !! n = Some (Some a0) ∧
                   f = Some c ∧ a = cube_plus a0 c) ∧
  transfer_nodes.received_ (transfer_fed x n r fs1) !! n = Some (S r) ∧
  transfer_nodes.fs_ (transfer_fed x n r fs1) !! n = Some (Some a) ∧
  transfer_nodes.fs_ (transfer_forwarded x1 n) !! n = Some (Some F') ∧
  transfer_nodes.received_ (transfer_forwarded x1 n) !! n = Some 0 ∧
  transfer_nodes.gs_ (transfer_forwarded x1 n) = transfer_nodes.gs_ x ∧
  transfer_nodes.biases_ (transfer_forwarded x1 n) = transfer_nodes.biases_ x.
Proof.
  intros D Hobj Hn Hr Hins Houts Hacc HF Hb F' x1.
  pose proof (lookup_lt_Some _ _ _ HF) as HlF.
  pose proof (lookup_lt_Some _ _ _ Hr) as Hlr.
  assert (erase_forward (put_nodes self (Transfer x1) net) = erase_forward net)
    as E1.
  { apply (erase_forward_put_nodes _ _ (Transfer x)); [done|]. by destruct x. }
  split; [|split; [|split; [|split]]].
  - intros Hfire. cbn [nodes_forward].
    rewrite (proj2 (get_nodes_node_obj _ _ _) Hobj). cbn [mbind result_bind].
    unfold transfer_nodes_forward.
    rewrite (get_transfer_nodes_ok _ _ _ Hobj). cbn [mbind result_bind].
    rewrite (proj2 (Nat.ltb_lt _ _) Hn). cbn [ZI_ASSERT mbind result_bind].
    unfold at_index, at_ptr. rewrite Hr. cbn [mbind result_bind].
    rewrite Hacc. tn_simpl. rewrite Hins. tn_simpl.
    rewrite (proj2 (Nat.eqb_eq _ _) Hfire). rewrite HF. tn_simpl.
    rewrite Hb. tn_simpl. rewrite Houts. tn_simpl.
    apply (transfer_forward_loop _ self n x1 (Some F')
             (λ x net2,
                Ok (put_nodes self (Transfer (transfer_forwarded x n)) net2))
             (λ cur, downstream_ranked rank cur ∧ c_out cur self n = outs)
             outs).
    + unfold x1, transfer_applied. tn_simpl.
      by apply list_lookup_insert_eq.
    + intros e c cur cur' He HI Hef.
      by eapply forward_dispatch_frame.
    + pose proof (erase_forward_same _ _ E1) as S.
      split; [by eapply same_topology_downstream|].
      rewrite (st_c_out _ _ S). unfold c_out. rewrite Hobj. simpl.
      by rewrite Houts.
    + apply node_obj_put_nodes_eq. by eapply node_obj_valid.
  - intros Hne. cbn [nodes_forward].
    rewrite (proj2 (get_nodes_node_obj _ _ _) Hobj). cbn [mbind result_bind].
    unfold transfer_nodes_forward.
    rewrite (get_transfer_nodes_ok _ _ _ Hobj). cbn [mbind result_bind].
    rewrite (proj2 (Nat.ltb_lt _ _) Hn). cbn [ZI_ASSERT mbind result_bind].
    unfold at_index, at_ptr. rewrite Hr. cbn [mbind result_bind].
    rewrite Hacc. tn_simpl. rewrite Hins. tn_simpl.
    by rewrite (proj2 (Nat.eqb_neq _ _) Hne).
  - intros ->. unfold accumulate in Hacc. simpl in Hacc.
    injection Hacc as <-. rewrite length_insert in HlF.
    rewrite list_lookup_insert_eq in HF by done. by injection HF.
  - intros Hr0. unfold accumulate in Hacc.
    rewrite (proj2 (Nat.eqb_neq _ _) Hr0) in Hacc.
    apply bind_ok in Hacc as (slot & Hslot%at_index_ok & Hacc).
    apply bind_ok in Hacc as (a0 & Ha%deref_ok & Hacc).
    apply bind_ok in Hacc as (c & Hc%deref_ok & [= <-]).
    subst slot f. exists a0, c. rewrite length_insert in HlF.
    rewrite list_lookup_insert_eq in HF by done. by injection HF as <-.
  - unfold x1, transfer_forwarded, transfer_applied, transfer_fed. tn_simpl.
    repeat split;
      first [ apply list_lookup_insert_eq; by rewrite ?length_insert | done ].
Qed.

Lemma chain_net_biased_ranked : downstream_ranked id chain_net_biased.
Proof. intros [|[|p]] [|i] e H; members H; vm_compute; lia. Qed.

(** the output channel of [chain_net], given the bias [3] and hit by the
    cube [5]: it fires, and keeps the feature map [linear (5) + 3 = 8] *)
Lemma transfer_forward_fires_witness :
  nodes_forward 1 1 0 (Some (voxel 5)) chain_net_biased
    = Ok chain_net_biased_fed ∧
  fs chain_net_biased_fed 1 0 = Some (voxel 8) ∧
  received chain_net_biased_fed 1 0 = 0.
Proof.
  split; [|split; reflexivity].
  etrans.
  - eapply (proj1 (transfer_forward_fires id 0 1 0 (Some (voxel 5))
                     chain_net_biased _ 0 [] [0] _ (voxel 5)
                     (OneVoxel.Bias 3 0 (1 # 10) 0 0)
                     chain_net_biased_ranked eq_refl
                     (Nat.lt_0_succ 0) eq_refl eq_refl eq_refl eq_refl
                     eq_refl eq_refl)).
    reflexivity.
  - vm_cast_no_check (eq_refl (Ok chain_net_biased_fed)).
Defined.

Section BackwardWiring.
Context `{Ext : Externals}.

Lemma erase_backward_valid_node net p :
  valid_node (erase_backward net) p ↔ valid_node net p.
Proof.
  unfold valid_node. by rewrite erase_backward_nnodes_arena, length_fmap.
Qed.
Lemma erase_backward_channels net :
  channels (erase_backward net) = channels net.
Proof.
  unfold channels. rewrite erase_backward_nnodes_arena. f_equal.
  rewrite <-list_fmap_compose. apply list_fmap_ext. intros i [] _. simpl.
  by rewrite erase_grads_size.
Qed.

Lemma erase_backward_same a b :
  erase_backward b = erase_backward a → same_wiring_b a b.
Proof.
  intros E. split; intros.
  - by rewrite <-erase_backward_c_out, E, erase_backward_c_out.
  - by rewrite <-erase_backward_c_in, E, erase_backward_c_in.
  - by rewrite <-erase_backward_c_size, E, erase_backward_c_size.
  - by rewrite <-erase_backward_input_at, E, erase_backward_input_at.
  - by rewrite <-erase_backward_summing_at, E, erase_backward_summing_at.
  - by rewrite <-erase_backward_transfer_at, E, erase_backward_transfer_at.
  - by apply (f_equal edge_arena) in E.
  - by rewrite <-erase_backward_valid_node, E, erase_backward_valid_node.
  - by rewrite <-erase_backward_channels, E, erase_backward_channels.
  - by apply (f_equal input_nodes_) in E.
  - by apply (f_equal output_nodes_) in E.
Qed.

Lemma gs_node_obj a b p i :
  node_obj b p = node_obj a p → gs b p i = gs a p i.
Proof. unfold gs. by intros ->. Qed.

Lemma arrivals_ext (net0 : network) (D D' : gset nat) (F F' : gset (nat * nat)) p i :
  (∀ e, e ∈ c_out net0 p i → (e ∈ D' ↔ e ∈ D)) →
  ((p, i) ∈ F' ↔ (p, i) ∈ F) →
  arrivals net0 D' F' p i = arrivals net0 D F p i.
Proof.
  intros HD HF. unfold arrivals. destruct (decide (c_out net0 p i = [])).
  - destruct (decide ((p, i) ∈ F')), (decide ((p, i) ∈ F)); tauto.
  - by apply delivered_ext.
Qed.

Lemma arrivals_le (net0 : network) (D : gset nat) (F : gset (nat * nat)) p i :
  arrivals net0 D F p i ≤ expected net0 p i.
Proof.
  unfold arrivals, expected. destruct (decide (c_out net0 p i = [])).
  - destruct (decide _); lia.
  - apply delivered_le.
Qed.

Lemma bchan_inv_frame (net0 a b : network) (D D' : gset nat) (F F' : gset (nat * nat))
    q j :
  received b q j = received a q j → gs b q j = gs a q j →
  fs b q j = fs a q j →
  arrivals net0 D' F' q j = arrivals net0 D F q j →
  (∀ e, e ∈ c_in net0 q j → (e ∈ D' ↔ e ∈ D)) →
  bchan_inv net0 a D F q j → bchan_inv net0 b D' F' q j.
Proof.
  intros Hr Hg Hf Ha HD. unfold bchan_inv. rewrite Ha, Hr, Hg, Hf.
  destruct (decide _).
  - intros (H1 & H2 & H3 & H4). repeat split; try done.
    intros e He. rewrite (HD e He). by apply H2.
  - intros (H1 & H2 & H3 & H4 & H5). repeat split; try done.
    intros e He. rewrite (HD e He). by apply H2.
Qed.

Lemma bchan_inv_state (net0 a b : network) (D : gset nat) (F : gset (nat * nat)) q j :
  node_obj b q = node_obj a q →
  bchan_inv net0 a D F q j → bchan_inv net0 b D F q j.
Proof.
  intros H. apply bchan_inv_frame; try done.
  - by apply received_node_obj.
  - by apply gs_node_obj.
  - by apply fs_node_obj.
Qed.

Lemma impl_backward_no_fuel i g net : impl_backward i g net ≠ Err OutOfFuel.
Proof.
  destruct i; simpl.
  - apply bind_no_fuel; [apply deref_no_fuel|done].
  - apply bind_no_fuel; [|done]. unfold max_pooling_edge_backward.
    apply bind_no_fuel; [apply assert_no_fuel|]. intros.
    apply bind_no_fuel; [apply deref_no_fuel|]. intros.
    apply bind_no_fuel; [apply deref_no_fuel|]. intros.
    apply bind_no_fuel; [apply assert_no_fuel|]. intros.
    apply kernel_no_fuel.
  - apply bind_no_fuel; [|done]. unfold filter_edge_backward.
    apply bind_no_fuel; [apply assert_no_fuel|]. intros.
    apply bind_no_fuel; [apply deref_no_fuel|]. intros.
    apply bind_no_fuel; [apply deref_no_fuel|]. intros.
    apply bind_no_fuel; [apply kernel_no_fuel|]. intros.
    apply bind_no_fuel; [apply at_ptr_no_fuel|]. intros.
    apply bind_no_fuel; [apply kernel_no_fuel|done].
Qed.

Lemma impl_backward_node_obj i g net net' c :
  impl_backward i g net = Ok (net', c) →
  ∀ q, node_obj net' q = node_obj net q.
Proof.
  destruct i as [|e|e]; simpl; intros H q.
  - by apply bind_ok in H as (? & _ & [= <- _]).
  - by apply bind_ok in H as (? & _ & [= <- _]).
  - by apply bind_ok in H as (? & _ & [= <- _]).
Qed.

End BackwardWiring.

Section BackwardLoop.
Context `{Ext : Externals}.
Variable rank : nat → nat.

Lemma bfire_loop fuel net0 net1 D0 F p i
    (body : nat → network → result network) :
  nodes_backward_ok rank fuel →
  run_wf net0 rank →
  (∀ e net, ∃ r : result cube_p, r ≠ Err OutOfFuel ∧
     body e net = (r ≫= λ c, edge_of_backward (nodes_backward fuel) e c net)) →
  rank p < S fuel →
  (∀ e, e ∈ c_in net0 p i → e ∉ D0) →
  ∀ es done_ cur D,
    done_ ++ es = c_in net0 p i →
    bloop_inv rank net0 net1 D0 F p cur D done_ →
    match for_each body es cur with
    | Ok net' => ∃ D', bloop_inv rank net0 net1 D0 F p net' D' (done_ ++ es)
    | Err x => x ≠ OutOfFuel
    end.
Proof.
  intros IH W0 Hbody Hfuel HD0 es.
  induction es as [|e es IHes]; intros done_ cur D Hsplit L.
  { simpl. exists D. by rewrite app_nil_r. }
  pose proof (erase_backward_same _ _ (bl_same _ _ _ _ _ _ _ _ _ L)) as S1.
  assert (e ∈ c_in net0 p i) as He.
  { rewrite <-Hsplit. apply elem_of_app. right. left. }
  destruct (rw_in_sound _ _ W0 p i e He) as (Hve & Hdst & Hdstn).
  destruct (rw_complete _ _ W0 e Hve) as [Hsrc _].
  pose proof (rw_rank _ _ W0 e Hve) as Hrk. rewrite Hdst in Hrk.
  assert (e ∉ done_) as Hnd.
  { pose proof (rw_in_nodup _ _ W0 p i) as Hn. rewrite <-Hsplit in Hn.
    apply NoDup_app in Hn as (_ & Hn & _). intros Hin. apply (Hn e Hin). left. }
  assert (e ∉ D) as HeD.
  { intros HeD.
    destruct (bl_new _ _ _ _ _ _ _ _ _ L e HeD (HD0 e He)) as [?|Hr];
      [done|]. rewrite Hdst in Hr. lia. }
  cbn [for_each]. destruct (Hbody e cur) as (r & Hr & ->).
  destruct r as [c|x]; [|simpl; intros ->; by apply Hr].
  cbn [mbind result_bind]. unfold edge_of_backward at 1.
  assert (valid_edge cur e) as Hve'.
  { unfold valid_edge. by rewrite (sb_edge_arena _ _ S1). }
  destruct (get_edge_valid _ _ Hve') as (eo & Hget & Hlk & Hin & Hinn & _ & _).
  rewrite Hget. cbn [mbind result_bind].
  assert (ed_in cur e = ed_in net0 e) as Hin0
    by (unfold ed_in; by rewrite (sb_edge_arena _ _ S1)).
  assert (ed_in_num cur e = ed_in_num net0 e) as Hinn0
    by (unfold ed_in_num; by rewrite (sb_edge_arena _ _ S1)).
  rewrite Hin0 in Hin. rewrite Hinn0 in Hinn.
  pose proof (impl_backward_no_fuel (edge_of.impl eo) c cur) as Himpl.
  destruct (impl_backward (edge_of.impl eo) c cur) as [[cur1 out]|x] eqn:Hib;
    [|simpl; intros ->; by apply Himpl].
  cbn [mbind result_bind fst snd].
  pose proof (impl_backward_erase _ _ _ _ _ Hib) as E1.
  pose proof (impl_backward_node_obj _ _ _ _ _ Hib) as Hobj1.
  assert (erase_backward cur1 = erase_backward net0) as E10
    by (by rewrite E1, (bl_same _ _ _ _ _ _ _ _ _ L)).
  rewrite <-Hin, <-Hinn.
  set (q := ed_in net0 e) in *. set (j := ed_in_num net0 e) in *.
  specialize (IH net0 q j (Some out) cur1 D F e W0 E10 Hsrc HeD).
  assert (∀ q' j', ¬ input_at net0 q' → rank q' ≤ rank q →
            bchan_inv net0 cur1 D F q' j') as Hpre.
  { intros q' j' Hni Hq'. apply (bchan_inv_state net0 cur); [by rewrite Hobj1|].
    apply (bl_inv _ _ _ _ _ _ _ _ _ L); [done|lia]. }
  specialize (IH Hpre ltac:(lia)).
  destruct (nodes_backward fuel q j (Some out) cur1) as [net'|x] eqn:Hnb;
    [|done].
  destruct IH as (D' & Hsub & Hnew & Hinv & Hfr).
  cbn [mbind result_bind].
  replace (done_ ++ e :: es) with ((done_ ++ [e]) ++ es)
    by (by rewrite <-app_assoc).
  apply (IHes (done_ ++ [e]) net' D'); [by rewrite <-app_assoc|].
  pose proof (bl_sub _ _ _ _ _ _ _ _ _ L) as HsubL.
  split.
  - rewrite <-E10. by eapply nodes_backward_erase.
  - set_solver.
  - intros e' [He'|He']%elem_of_app.
    + apply Hsub. apply elem_of_union. right.
      by apply (bl_done _ _ _ _ _ _ _ _ _ L).
    + apply list_elem_of_singleton in He' as ->. apply Hsub. set_solver.
  - intros e' He' He'0. destruct (decide (e' ∈ D)) as [HeD'|HeD'].
    + destruct (bl_new _ _ _ _ _ _ _ _ _ L e' HeD' He'0) as [?|?];
        [|by right]. left. apply elem_of_app. by left.
    + destruct (decide (e' = e)) as [->|Hne].
      * left. apply elem_of_app. right. left.
      * right. assert (e' ∉ ({[e]} ∪ D : gset nat)) as Hn' by set_solver.
        specialize (Hnew e' He' Hn'). lia.
  - intros q' j' Hni Hq'. destruct (decide (rank q' ≤ rank q)) as [Hle|Hgt].
    + by apply Hinv.
    + assert (node_obj net' q' = node_obj cur q') as Hobj
        by (rewrite Hfr by lia; apply Hobj1).
      assert (∀ e', e' ∈ c_in net0 q' j' ∨ e' ∈ c_out net0 q' j' →
                (e' ∈ D' ↔ e' ∈ D)) as Hagree.
      { intros e' He'. split; [|intros; apply Hsub; set_solver].
        intros HeD'. destruct (decide (e' ∈ D)) as [|Hn]; [done|]. exfalso.
        destruct (decide (e' = e)) as [->|Hne].
        - destruct He' as [He'|He'].
          + destruct (rw_in_sound _ _ W0 _ _ _ He') as (_ & Ho & _).
            rewrite Hdst in Ho. subst q'. lia.
          + destruct (rw_out_sound _ _ W0 _ _ _ He') as (_ & Ho & _).
            fold q in Ho. subst q'. lia.
        - assert (e' ∉ ({[e]} ∪ D : gset nat)) as Hn' by set_solver.
          specialize (Hnew e' HeD' Hn'). destruct He' as [He'|He'].
          + destruct (rw_in_sound _ _ W0 _ _ _ He') as (_ & Ho & _).
            rewrite Ho in Hnew. lia.
          + destruct (rw_out_sound _ _ W0 _ _ _ He') as (Hv' & Ho & _).
            pose proof (rw_rank _ _ W0 e' Hv') as Hrk'. rewrite Ho in Hrk'.
            lia. }
      eapply (bchan_inv_frame net0 cur net' D D' F F).
      * by apply received_node_obj.
      * by apply gs_node_obj.
      * by apply fs_node_obj.
      * apply arrivals_ext; [|done]. intros e' He'. apply Hagree. by right.
      * intros e' He'. apply Hagree. by left.
      * apply (bl_inv _ _ _ _ _ _ _ _ _ L); done.
  - intros q' Hq'. rewrite Hfr by lia. rewrite Hobj1.
    by apply (bl_frame _ _ _ _ _ _ _ _ _ L).
Qed.

End BackwardLoop.

(** an error that is not a lack of fuel *)
Ltac no_fuel H :=
  simpl; intros ->; revert H;
  first [ apply at_ptr_no_fuel | apply deref_no_fuel
        | apply accumulate_no_fuel | apply get_nodes_no_fuel
        | apply assert_no_fuel | apply kernel_no_fuel ].

Section BackwardChannel.
Context `{Ext : Externals}.
Variable rank : nat → nat.

(** a delivery by the edge [e0] is an arrival *)
Lemma edge_arrival (net0 : network) (D : gset nat) (F : gset (nat * nat))
    e0 p i :
  run_wf net0 rank → e0 ∈ c_out net0 p i → e0 ∉ D →
  arrival rank net0 D F ({[e0]} ∪ D) F p i.
Proof.
  intros W He0 Hn.
  destruct (rw_out_sound _ _ W _ _ _ He0) as (Hv & Hi & Hin).
  pose proof (rw_rank _ _ W e0 Hv) as Hrk. rewrite Hi in Hrk.
  assert (c_out net0 p i ≠ []) as Hne
    by (intros H; rewrite H in He0; inversion He0).
  split.
  - unfold arrivals, expected. rewrite !decide_False by done.
    by apply (delivered_lt D _ e0).
  - unfold arrivals. rewrite !decide_False by done.
    apply delivered_add; [apply (rw_out_nodup _ _ W)|done..].
  - set_solver.
  - intros q j Hne' Hq. apply arrivals_ext; [|done].
    intros e He. split; [|set_solver].
    intros [->%elem_of_singleton|?]%elem_of_union; [|done]. exfalso.
    destruct (rw_out_sound _ _ W _ _ _ He) as (_ & H1 & H2). congruence.
  - intros q j e Hq He. split; [|set_solver].
    intros [->%elem_of_singleton|?]%elem_of_union; [|done]. exfalso.
    destruct (rw_in_sound _ _ W _ _ _ He) as (_ & H1 & _).
    rewrite H1 in Hrk. lia.
Qed.

(** the gradient of a channel without out-edge, given from outside, is an
    arrival *)
Lemma outside_arrival (net0 : network) (D : gset nat) (F : gset (nat * nat))
    p i :
  c_out net0 p i = [] → (p, i) ∉ F →
  arrival rank net0 D F D ({[(p, i)]} ∪ F) p i.
Proof.
  intros Hout HF. split.
  - unfold arrivals, expected.
    destruct (decide (c_out net0 p i = [])); [|done].
    destruct (decide ((p, i) ∈ F)); [done|lia].
  - unfold arrivals.
    destruct (decide (c_out net0 p i = [])); [|done].
    destruct (decide ((p, i) ∈ F)); [done|].
    destruct (decide ((p, i) ∈ {[(p, i)]} ∪ F)); [done|set_solver].
  - done.
  - intros q j Hne _. apply arrivals_ext; [done|]. set_solver.
  - done.
Qed.

Lemma fire_test (r : nat) (outs : list nat) :
  r < (if decide (outs = []) then 1 else length outs) →
  ((S r =? length outs) || (length outs =? 0))
  = bool_decide (S r = if decide (outs = []) then 1 else length outs).
Proof.
  destruct outs as [|o outs]; simpl.
  - intros Hr. assert (r = 0) as -> by lia. done.
  - intros Hr. rewrite orb_false_r.
    destruct (Nat.eqb_spec r (length outs)) as [->|Hne].
    + by rewrite bool_decide_eq_true_2.
    + rewrite bool_decide_eq_false_2; [done|]. lia.
Qed.

(** the arrival did not complete the channel *)
Lemma bunfired_post (net0 cur : network) (D : gset nat)
    (F : gset (nat * nat)) D1 F1 p i net1 :
  arrival rank net0 D F D1 F1 p i → ¬ input_at net0 p →
  (∀ q j, ¬ input_at net0 q → rank q ≤ rank p →
     bchan_inv net0 cur D F q j) →
  (∀ q, q ≠ p → node_obj net1 q = node_obj cur q) →
  (∀ j, j ≠ i →
     received net1 p j = received cur p j ∧ gs net1 p j = gs cur p j ∧
     fs net1 p j = fs cur p j) →
  received net1 p i = S (received cur p i) →
  fs net1 p i = fs cur p i →
  S (arrivals net0 D F p i) ≠ expected net0 p i →
  bwd_post rank net0 cur D1 F1 p net1 D1.
Proof.
  intros A Hni Hinv Hoth Hsib Hrec Hfs Hne.
  pose proof (ar_pending _ _ _ _ _ _ _ _ A) as Hpend.
  split; [done|]. split; [done|]. split.
  - intros q j Hnq Hq.
    destruct (decide ((q, j) = (p, i))) as [[= -> ->]|Hne'].
    + specialize (Hinv p i Hni (le_n _)). unfold bchan_inv in *.
      rewrite decide_True in Hinv by done.
      destruct Hinv as (H1 & H2 & H3 & H4).
      rewrite (ar_count _ _ _ _ _ _ _ _ A). rewrite decide_True by lia.
      split; [by rewrite Hrec, H1|]. split; [|split; [done|by rewrite Hfs]].
      intros e He. rewrite (ar_in _ _ _ _ _ _ _ _ A p i e (le_n _) He).
      by apply H2.
    + eapply (bchan_inv_frame net0 cur net1 D D1 F F1); [..|by apply Hinv].
      * destruct (decide (q = p)) as [->|Hqp];
          [apply Hsib; congruence|by apply received_node_obj, Hoth].
      * destruct (decide (q = p)) as [->|Hqp];
          [apply Hsib; congruence|by apply gs_node_obj, Hoth].
      * destruct (decide (q = p)) as [->|Hqp];
          [apply Hsib; congruence|by apply fs_node_obj, Hoth].
      * by apply (ar_others _ _ _ _ _ _ _ _ A).
      * intros e He. by apply (ar_in _ _ _ _ _ _ _ _ A q j).
  - intros q Hq. apply Hoth. intros ->. lia.
Qed.

(** the state in which a channel that fires starts its dispatch loop *)
Lemma bloop_start (net0 cur : network) (D : gset nat)
    (F : gset (nat * nat)) D1 F1 p i net1 :
  arrival rank net0 D F D1 F1 p i → ¬ input_at net0 p →
  (∀ q j, ¬ input_at net0 q → rank q ≤ rank p →
     bchan_inv net0 cur D F q j) →
  erase_backward net1 = erase_backward net0 →
  (∀ q, q ≠ p → node_obj net1 q = node_obj cur q) →
  bloop_inv rank net0 net1 D1 F1 p net1 D1 [] ∧
  (∀ e, e ∈ c_in net0 p i → e ∉ D1).
Proof.
  intros A Hni Hinv E1 Hoth.
  pose proof (ar_pending _ _ _ _ _ _ _ _ A) as Hpend.
  split.
  - split; try done.
    + intros e He. inversion He.
    + intros q j Hnq Hq.
      eapply (bchan_inv_frame net0 cur net1 D D1 F F1).
      * apply received_node_obj, Hoth. intros ->. lia.
      * apply gs_node_obj, Hoth. intros ->. lia.
      * apply fs_node_obj, Hoth. intros ->. lia.
      * apply (ar_others _ _ _ _ _ _ _ _ A); [|lia]. intros [= -> ->]. lia.
      * intros e He. apply (ar_in _ _ _ _ _ _ _ _ A q j); [lia|done].
      * apply Hinv; [done|lia].
  - intros e He. rewrite (ar_in _ _ _ _ _ _ _ _ A p i e (le_n _) He).
    specialize (Hinv p i Hni (le_n _)). unfold bchan_inv in Hinv.
    rewrite decide_True in Hinv by done. destruct Hinv as (_ & H2 & _).
    by apply H2.
Qed.

(** the arrival completed the channel, which has dispatched *)
Lemma bfired_post (net0 cur : network) (D : gset nat)
    (F : gset (nat * nat)) D1 F1 p i net1 net2 D2 net' :
  run_wf net0 rank →
  arrival rank net0 D F D1 F1 p i → ¬ input_at net0 p →
  (∀ q j, ¬ input_at net0 q → rank q ≤ rank p →
     bchan_inv net0 cur D F q j) →
  (∀ q, q ≠ p → node_obj net1 q = node_obj cur q) →
  (∀ j, j ≠ i →
     received net1 p j = received cur p j ∧ gs net1 p j = gs cur p j ∧
     fs net1 p j = fs cur p j) →
  S (arrivals net0 D F p i) = expected net0 p i →
  bloop_inv rank net0 net1 D1 F1 p net2 D2 (c_in net0 p i) →
  (∀ q, q ≠ p → node_obj net' q = node_obj net2 q) →
  (∀ j, j ≠ i →
     received net' p j = received net2 p j ∧ gs net' p j = gs net2 p j ∧
     fs net' p j = fs net2 p j) →
  received net' p i = 0 → gs net' p i = None →
  (transfer_at net0 p → fs net' p i = None) →
  (summing_at net0 p → fs net' p i = fs cur p i) →
  bwd_post rank net0 cur D1 F1 p net' D2.
Proof.
  intros W A Hni Hinv Hoth1 Hsib1 Hfull L Hoth' Hsib' Hrec Hgs Htr Hsum.
  pose proof (ar_pending _ _ _ _ _ _ _ _ A) as Hpend.
  pose proof (bl_sub _ _ _ _ _ _ _ _ _ L) as Hsub.
  (* an edge delivered during the dispatch touches no other channel at the
     rank of [p] *)
  assert (∀ q j e, rank q = rank p →
            e ∈ c_out net0 q j ∨ (e ∈ c_in net0 q j ∧ (q, j) ≠ (p, i)) →
            e ∈ D2 → e ∈ D1) as Hsame.
  { intros q j e Hq He HeD2.
    destruct (decide (e ∈ D1)) as [|HnD]; [done|]. exfalso.
    destruct (bl_new _ _ _ _ _ _ _ _ _ L e HeD2 HnD) as [Hd|Hr].
    - destruct (rw_in_sound _ _ W _ _ _ Hd) as (Hve & H1 & H2).
      pose proof (rw_rank _ _ W e Hve) as Hrke.
      destruct He as [He|[He Hne]].
      + destruct (rw_out_sound _ _ W _ _ _ He) as (_ & H3 & _).
        rewrite H1, H3 in Hrke. lia.
      + destruct (rw_in_sound _ _ W _ _ _ He) as (_ & H3 & H4). congruence.
    - destruct He as [He|[He Hne]].
      + destruct (rw_out_sound _ _ W _ _ _ He) as (Hve & H3 & _).
        pose proof (rw_rank _ _ W e Hve) as Hrke. rewrite H3 in Hrke. lia.
      + destruct (rw_in_sound _ _ W _ _ _ He) as (_ & H3 & _).
        rewrite H3 in Hr. lia. }
  split; [done|]. split; [|split].
  - intros e He HeD.
    destruct (bl_new _ _ _ _ _ _ _ _ _ L e He HeD) as [Hd|Hr]; [|lia].
    destruct (rw_in_sound _ _ W _ _ _ Hd) as (_ & -> & _). done.
  - intros q j Hnq Hq.
    destruct (decide (rank q < rank p)) as [Hlt|Hge].
    + apply (bchan_inv_state net0 net2); [apply Hoth'; intros ->; lia|].
      by apply (bl_inv _ _ _ _ _ _ _ _ _ L).
    + assert (rank q = rank p) as Hqp by lia.
      destruct (decide ((q, j) = (p, i))) as [[= -> ->]|Hne].
      * specialize (Hinv p i Hni (le_n _)). unfold bchan_inv in *.
        rewrite decide_True in Hinv by done.
        destruct Hinv as (H1 & H2 & H3 & H4).
        assert (arrivals net0 D2 F1 p i = arrivals net0 D1 F1 p i) as ->.
        { apply arrivals_ext; [|done]. intros e He.
          split; [|by apply Hsub]. apply (Hsame p i); [done|by left]. }
        rewrite (ar_count _ _ _ _ _ _ _ _ A). rewrite decide_False by lia.
        split; [done|]. split; [|split; [done|split; [done|]]].
        -- intros e He. by apply (bl_done _ _ _ _ _ _ _ _ _ L).
        -- intros Hs. by rewrite Hsum, H4.
      * assert (node_obj net2 q = node_obj net1 q) as H21
          by (apply (bl_frame _ _ _ _ _ _ _ _ _ L); lia).
        eapply (bchan_inv_frame net0 cur net' D D2 F F1);
          [..|by apply Hinv].
        -- destruct (decide (q = p)) as [->|Hqp'].
           ++ assert (j ≠ i) as Hji by congruence.
              rewrite (proj1 (Hsib' j Hji)), (received_node_obj net1 net2)
                by done. by apply Hsib1.
           ++ rewrite (received_node_obj net2 net') by (by apply Hoth').
              rewrite (received_node_obj net1 net2) by done.
              by apply received_node_obj, Hoth1.
        -- destruct (decide (q = p)) as [->|Hqp'].
           ++ assert (j ≠ i) as Hji by congruence.
              rewrite (proj1 (proj2 (Hsib' j Hji))), (gs_node_obj net1 net2)
                by done. by apply Hsib1.
           ++ rewrite (gs_node_obj net2 net') by (by apply Hoth').
              rewrite (gs_node_obj net1 net2) by done.
              by apply gs_node_obj, Hoth1.
        -- destruct (decide (q = p)) as [->|Hqp'].
           ++ assert (j ≠ i) as Hji by congruence.
              rewrite (proj2 (proj2 (Hsib' j Hji))), (fs_node_obj net1 net2)
                by done. by apply Hsib1.
           ++ rewrite (fs_node_obj net2 net') by (by apply Hoth').
              rewrite (fs_node_obj net1 net2) by done.
              by apply fs_node_obj, Hoth1.
        -- rewrite <-(ar_others _ _ _ _ _ _ _ _ A q j Hne Hq).
           apply arrivals_ext; [|done]. intros e He.
           split; [|by apply Hsub]. apply (Hsame q j); [done|by left].
        -- intros e He. rewrite <-(ar_in _ _ _ _ _ _ _ _ A q j e Hq He).
           split; [|by apply Hsub]. apply (Hsame q j); [done|by right].
  - intros q Hq. rewrite Hoth' by (intros ->; lia).
    rewrite (bl_frame _ _ _ _ _ _ _ _ _ L) by lia. apply Hoth1. intros ->. lia.
Qed.

End BackwardChannel.

Section BackwardNodes.
Context `{Ext : Externals}.
Variable rank : nat → nat.

(** the body of the dispatch loop of a summing / transfer node group *)
Lemma summing_bbody_shape fuel p i :
  ∀ e net, ∃ r : result cube_p, r ≠ Err OutOfFuel ∧
    (x ← get_summing_nodes net p;
     c ← at_index (summing_nodes.gs_ x) i;
     edge_of_backward (nodes_backward fuel) e c net)
    = (r ≫= λ c, edge_of_backward (nodes_backward fuel) e c net).
Proof.
  intros e net.
  exists (x ← get_summing_nodes net p; at_index (summing_nodes.gs_ x) i).
  split.
  - apply bind_no_fuel; [apply get_summing_nodes_no_fuel|].
    intros. apply at_ptr_no_fuel.
  - destruct (get_summing_nodes net p); [|done]. simpl.
    by destruct (at_index _ _).
Qed.
Lemma transfer_bbody_shape fuel p i :
  ∀ e net, ∃ r : result cube_p, r ≠ Err OutOfFuel ∧
    (x ← get_transfer_nodes net p;
     c ← at_index (transfer_nodes.gs_ x) i;
     edge_of_backward (nodes_backward fuel) e c net)
    = (r ≫= λ c, edge_of_backward (nodes_backward fuel) e c net).
Proof.
  intros e net.
  exists (x ← get_transfer_nodes net p; at_index (transfer_nodes.gs_ x) i).
  split.
  - apply bind_no_fuel; [apply get_transfer_nodes_no_fuel|].
    intros. apply at_ptr_no_fuel.
  - destruct (get_transfer_nodes net p); [|done]. simpl.
    by destruct (at_index _ _).
Qed.

Lemma released_slot (l : list cube_p) i : default None (<[i := None]> l !! i) = None.
Proof.
  destruct (decide (i < length l)) as [Hlt|Hge].
  - by rewrite list_lookup_insert_eq.
  - by rewrite lookup_ge_None_2 by (rewrite length_insert; lia).
Qed.

Lemma summing_backward_ok (fuel : nat) (net0 : network) (p i : nat) (g : cube_p)
    (cur : network) (D : gset nat)
    (F : gset (nat * nat)) D1 F1 x :
  nodes_backward_ok rank fuel →
  node_obj cur p = Some (Summing x) →
  run_wf net0 rank → erase_backward cur = erase_backward net0 →
  arrival rank net0 D F D1 F1 p i →
  (∀ q j, ¬ input_at net0 q → rank q ≤ rank p →
     bchan_inv net0 cur D F q j) →
  rank p < S fuel →
  match
    summing_nodes_backward (edge_of_backward (nodes_backward fuel)) p i g cur
  with
  | Ok net' => ∃ D' : gset nat, bwd_post rank net0 cur D1 F1 p net' D'
  | Err x => x ≠ OutOfFuel
  end.
Proof.
  intros IH Hobj W E0 A Hinv Hfuel.
  pose proof (erase_backward_same _ _ E0) as S0.
  pose proof (node_obj_valid _ _ _ Hobj) as Hvp.
  pose proof (ar_pending _ _ _ _ _ _ _ _ A) as Hpend.
  assert (¬ input_at net0 p) as Hni.
  { rewrite <-(sb_input_at _ _ S0). unfold input_at. by rewrite Hobj. }
  unfold summing_nodes_backward.
  rewrite (get_summing_nodes_ok _ _ _ Hobj). cbn [mbind result_bind].
  destruct (i <? summing_nodes.size_ x); [|done].
  cbn [ZI_ASSERT mbind result_bind].
  destruct (at_index (summing_nodes.received_ x) i) as [r|err] eqn:Hr;
    [|no_fuel Hr].
  apply at_index_ok in Hr. cbn [mbind result_bind].
  destruct (accumulate r (summing_nodes.gs_ x) i g) as [gs'|err] eqn:Hacc;
    [|no_fuel Hacc].
  cbn [mbind result_bind].
  set (x1 := summing_nodes.set_received_ _ (summing_nodes.set_gs_ gs' x)).
  set (net1 := put_nodes p (Summing x1) cur).
  assert (summing_nodes.outputs_ x1 = summing_nodes.outputs_ x) as -> by done.
  destruct (at_index (summing_nodes.outputs_ x) i) as [outs|err] eqn:Houts;
    [|no_fuel Houts].
  apply at_index_ok in Houts. cbn [mbind result_bind].
  assert (c_out net0 p i = outs) as Hcout.
  { rewrite <-(sb_c_out _ _ S0). unfold c_out. rewrite Hobj. simpl.
    by rewrite Houts. }
  assert (received cur p i = r) as Hrec.
  { unfold received. rewrite Hobj. simpl. by rewrite Hr. }
  pose proof (Hinv p i Hni (le_n _)) as Hpi. unfold bchan_inv in Hpi.
  rewrite decide_True in Hpi by done.
  destruct Hpi as (Hra & Hcin & Hg0 & Hfs0).
  assert (expected net0 p i = if decide (outs = []) then 1 else length outs)
    as Hexp.
  { unfold expected. by rewrite Hcout. }
  assert (arrivals net0 D F p i = r) as Har by congruence.
  rewrite (fire_test r outs) by (rewrite <-Hexp, <-Har; done).
  rewrite <-Hexp, <-Har.
  assert (node_obj net1 p = Some (Summing x1)) as Hobj1
    by (by apply node_obj_put_nodes_eq).
  assert (erase_backward net1 = erase_backward cur) as E1.
  { eapply erase_backward_put_nodes; [done|]. by destruct x. }
  assert (∀ q, q ≠ p → node_obj net1 q = node_obj cur q) as Hoth1
    by (intros; by apply node_obj_put_nodes_ne).
  assert (∀ j, j ≠ i →
     received net1 p j = received cur p j ∧ gs net1 p j = gs cur p j ∧
     fs net1 p j = fs cur p j) as Hsib1.
  { intros j Hj. unfold received, gs, fs. rewrite Hobj1, Hobj. simpl.
    rewrite list_lookup_insert_ne by done.
    by rewrite (accumulate_other _ _ _ _ _ _ Hacc Hj). }
  assert (received net1 p i = S (received cur p i)) as Hrec1.
  { rewrite Hrec. unfold received. rewrite Hobj1. simpl.
    rewrite list_lookup_insert_eq; [done|]. by eapply lookup_lt_Some. }
  assert (fs net1 p i = fs cur p i) as Hfs1.
  { unfold fs. by rewrite Hobj1, Hobj. }
  case_bool_decide as Hfire.
  2:{ exists D1. by eapply bunfired_post. }
  assert (summing_nodes.inputs_ x1 = summing_nodes.inputs_ x) as -> by done.
  destruct (at_index (summing_nodes.inputs_ x) i) as [ins|err] eqn:Hins;
    [|no_fuel Hins].
  apply at_index_ok in Hins. cbn [mbind result_bind].
  assert (c_in net0 p i = ins) as Hcin'.
  { rewrite <-(sb_c_in _ _ S0). unfold c_in. rewrite Hobj. simpl.
    by rewrite Hins. }
  destruct (bloop_start rank net0 cur D F D1 F1 p i net1 A Hni Hinv
              ltac:(by rewrite E1) Hoth1) as [L0 Hfresh].
  pose proof (bfire_loop rank fuel net0 net1 D1 F1 p i _ IH W
    (summing_bbody_shape fuel p i) Hfuel Hfresh ins [] net1 D1
    ltac:(done) L0) as HL.
  destruct (for_each _ ins net1) as [net2|err]; [|done].
  destruct HL as [D2 L]. cbn [app] in L. cbn [mbind result_bind].
  assert (node_obj net2 p = Some (Summing x1)) as Hobj2.
  { rewrite (bl_frame _ _ _ _ _ _ _ _ _ L) by lia. done. }
  rewrite (get_summing_nodes_ok _ _ _ Hobj2). cbn [mbind result_bind].
  set (x2 := summing_nodes.set_gs_ _ _).
  set (net' := put_nodes p (Summing x2) net2).
  pose proof (node_obj_valid _ _ _ Hobj2) as Hvp2.
  assert (node_obj net' p = Some (Summing x2)) as Hobj'
    by (by apply node_obj_put_nodes_eq).
  exists D2.
  eapply (bfired_post rank net0 cur D F D1 F1 p i net1 net2 D2 net');
    try done.
  - by rewrite Hcin'.
  - intros; by apply node_obj_put_nodes_ne.
  - intros j Hj. unfold received, gs, fs. rewrite Hobj', Hobj2. simpl.
    by rewrite !list_lookup_insert_ne by done.
  - unfold received. rewrite Hobj'. simpl.
    rewrite list_lookup_insert_eq; [done|]. rewrite length_insert.
    by eapply lookup_lt_Some.
  - unfold gs. rewrite Hobj'. simpl. apply released_slot.
  - intros Ht. apply (sb_transfer_at _ _ S0) in Ht.
    unfold transfer_at in Ht. by rewrite Hobj in Ht.
  - intros _. unfold fs. by rewrite Hobj', Hobj.
Qed.

Lemma transfer_backward_ok (fuel : nat) (net0 : network) (p i : nat) (g : cube_p)
    (cur : network) (D : gset nat)
    (F : gset (nat * nat)) D1 F1 x :
  nodes_backward_ok rank fuel →
  node_obj cur p = Some (Transfer x) →
  run_wf net0 rank → erase_backward cur = erase_backward net0 →
  arrival rank net0 D F D1 F1 p i →
  (∀ q j, ¬ input_at net0 q → rank q ≤ rank p →
     bchan_inv net0 cur D F q j) →
  rank p < S fuel →
  match
    transfer_nodes_backward (edge_of_backward (nodes_backward fuel)) p i g cur
  with
  | Ok net' => ∃ D' : gset nat, bwd_post rank net0 cur D1 F1 p net' D'
  | Err x => x ≠ OutOfFuel
  end.
Proof.
  intros IH Hobj W E0 A Hinv Hfuel.
  pose proof (erase_backward_same _ _ E0) as S0.
  pose proof (node_obj_valid _ _ _ Hobj) as Hvp.
  pose proof (ar_pending _ _ _ _ _ _ _ _ A) as Hpend.
  assert (¬ input_at net0 p) as Hni.
  { rewrite <-(sb_input_at _ _ S0). unfold input_at. by rewrite Hobj. }
  unfold transfer_nodes_backward.
  rewrite (get_transfer_nodes_ok _ _ _ Hobj). cbn [mbind result_bind].
  destruct (i <? transfer_nodes.size_ x); [|done].
  cbn [ZI_ASSERT mbind result_bind].
  destruct (at_index (transfer_nodes.received_ x) i) as [r|err] eqn:Hr;
    [|no_fuel Hr].
  apply at_index_ok in Hr. cbn [mbind result_bind].
  destruct (accumulate r (transfer_nodes.gs_ x) i g) as [gs'|err] eqn:Hacc;
    [|no_fuel Hacc].
  cbn [mbind result_bind].
  set (x1 := transfer_nodes.set_received_ _ (transfer_nodes.set_gs_ gs' x)).
  assert (transfer_nodes.outputs_ x1 = transfer_nodes.outputs_ x) as ->
    by done.
  destruct (at_index (transfer_nodes.outputs_ x) i) as [outs|err] eqn:Houts;
    [|no_fuel Houts].
  apply at_index_ok in Houts. cbn [mbind result_bind].
  assert (c_out net0 p i = outs) as Hcout.
  { rewrite <-(sb_c_out _ _ S0). unfold c_out. rewrite Hobj. simpl.
    by rewrite Houts. }
  assert (received cur p i = r) as Hrec.
  { unfold received. rewrite Hobj. simpl. by rewrite Hr. }
  pose proof (Hinv p i Hni (le_n _)) as Hpi. unfold bchan_inv in Hpi.
  rewrite decide_True in Hpi by done.
  destruct Hpi as (Hra & Hcin & Hg0 & Hfs0).
  assert (expected net0 p i = if decide (outs = []) then 1 else length outs)
    as Hexp.
  { unfold expected. by rewrite Hcout. }
  assert (arrivals net0 D F p i = r) as Har by congruence.
  rewrite (fire_test r outs) by (rewrite <-Hexp, <-Har; done).
  rewrite <-Hexp, <-Har.
  case_bool_decide as Hfire.
  2:{ exists D1.
      set (net1 := put_nodes p (Transfer x1) cur).
      assert (node_obj net1 p = Some (Transfer x1)) as Hobj1
        by (by apply node_obj_put_nodes_eq).
      eapply bunfired_post; try done.
      - intros; by apply node_obj_put_nodes_ne.
      - intros j Hj. unfold received, gs, fs. rewrite Hobj1, Hobj. simpl.
        rewrite list_lookup_insert_ne by done.
        by rewrite (accumulate_other _ _ _ _ _ _ Hacc Hj).
      - rewrite Hrec. unfold received. rewrite Hobj1. simpl.
        rewrite list_lookup_insert_eq; [done|]. by eapply lookup_lt_Some.
      - unfold fs. by rewrite Hobj1, Hobj. }
  destruct (at_index (transfer_nodes.gs_ x1) i) as [gslot|err] eqn:Hgslot;
    [|no_fuel Hgslot].
  cbn [mbind result_bind].
  destruct (deref gslot) as [gc|err] eqn:Hgc; [|no_fuel Hgc].
  cbn [mbind result_bind].
  destruct (at_index (transfer_nodes.fs_ x1) i) as [fslot|err] eqn:Hfslot;
    [|no_fuel Hfslot].
  cbn [mbind result_bind].
  destruct (deref fslot) as [fc|err] eqn:Hfc; [|no_fuel Hfc].
  cbn [mbind result_bind].
  set (x1g := transfer_nodes.set_gs_ _ x1).
  assert (transfer_nodes.biases_ x1g = transfer_nodes.biases_ x) as -> by done.
  destruct (at_index (transfer_nodes.biases_ x) i) as [b|err] eqn:Hb;
    [|no_fuel Hb].
  cbn [mbind result_bind].
  set (x1' := transfer_nodes.set_biases_ _ x1g).
  set (net1 := put_nodes p (Transfer x1') cur).
  assert (transfer_nodes.inputs_ x1' = transfer_nodes.inputs_ x) as -> by done.
  assert (node_obj net1 p = Some (Transfer x1')) as Hobj1
    by (by apply node_obj_put_nodes_eq).
  assert (erase_backward net1 = erase_backward cur) as E1.
  { eapply erase_backward_put_nodes; [done|]. by destruct x. }
  assert (∀ q, q ≠ p → node_obj net1 q = node_obj cur q) as Hoth1
    by (intros; by apply node_obj_put_nodes_ne).
  assert (∀ j, j ≠ i →
     received net1 p j = received cur p j ∧ gs net1 p j = gs cur p j ∧
     fs net1 p j = fs cur p j) as Hsib1.
  { intros j Hj. unfold received, gs, fs. rewrite Hobj1, Hobj. simpl.
    rewrite !list_lookup_insert_ne by done.
    by rewrite (accumulate_other _ _ _ _ _ _ Hacc Hj). }
  destruct (at_index (transfer_nodes.inputs_ x) i) as [ins|err] eqn:Hins;
    [|no_fuel Hins].
  apply at_index_ok in Hins. cbn [mbind result_bind].
  assert (c_in net0 p i = ins) as Hcin'.
  { rewrite <-(sb_c_in _ _ S0). unfold c_in. rewrite Hobj. simpl.
    by rewrite Hins. }
  destruct (bloop_start rank net0 cur D F D1 F1 p i net1 A Hni Hinv
              ltac:(by rewrite E1) Hoth1) as [L0 Hfresh].
  pose proof (bfire_loop rank fuel net0 net1 D1 F1 p i _ IH W
    (transfer_bbody_shape fuel p i) Hfuel Hfresh ins [] net1 D1
    ltac:(done) L0) as HL.
  destruct (for_each _ ins net1) as [net2|err]; [|done].
  destruct HL as [D2 L]. cbn [app] in L. cbn [mbind result_bind].
  assert (node_obj net2 p = Some (Transfer x1')) as Hobj2.
  { rewrite (bl_frame _ _ _ _ _ _ _ _ _ L) by lia. done. }
  rewrite (get_transfer_nodes_ok _ _ _ Hobj2). cbn [mbind result_bind].
  set (x2 := transfer_nodes.set_fs_ _ _).
  set (net' := put_nodes p (Transfer x2) net2).
  pose proof (node_obj_valid _ _ _ Hobj2) as Hvp2.
  assert (node_obj net' p = Some (Transfer x2)) as Hobj'
    by (by apply node_obj_put_nodes_eq).
  exists D2.
  eapply (bfired_post rank net0 cur D F D1 F1 p i net1 net2 D2 net');
    try done.
  - by rewrite Hcin'.
  - intros; by apply node_obj_put_nodes_ne.
  - intros j Hj. unfold received, gs, fs. rewrite Hobj', Hobj2. simpl.
    by rewrite !list_lookup_insert_ne by done.
  - unfold received. rewrite Hobj'. simpl.
    rewrite list_lookup_insert_eq; [done|]. rewrite length_insert.
    by eapply lookup_lt_Some.
  - unfold gs. rewrite Hobj'. simpl. apply released_slot.
  - intros _. unfold fs. rewrite Hobj'. simpl. apply released_slot.
  - intros Hs. apply (sb_summing_at _ _ S0) in Hs.
    unfold summing_at in Hs. by rewrite Hobj in Hs.
Qed.

(** an arrival at a channel of a summing or transfer node group *)
Lemma node_backward_step (fuel : nat) (net0 : network) (p i : nat) (g : cube_p)
    (cur : network) (D : gset nat)
    (F : gset (nat * nat)) D1 F1 :
  nodes_backward_ok rank fuel →
  run_wf net0 rank → erase_backward cur = erase_backward net0 →
  ¬ input_at net0 p →
  arrival rank net0 D F D1 F1 p i →
  (∀ q j, ¬ input_at net0 q → rank q ≤ rank p →
     bchan_inv net0 cur D F q j) →
  rank p < S fuel →
  match nodes_backward (S fuel) p i g cur with
  | Ok net' => ∃ D' : gset nat, bwd_post rank net0 cur D1 F1 p net' D'
  | Err x => x ≠ OutOfFuel
  end.
Proof.
  intros IH W E0 Hni A Hinv Hfuel.
  pose proof (erase_backward_same _ _ E0) as S0.
  cbn [nodes_backward].
  destruct (get_nodes cur p) as [o|err] eqn:Hget; [|no_fuel Hget].
  apply get_nodes_node_obj in Hget. cbn [mbind result_bind].
  destruct o as [x|x|x].
  - exfalso. apply Hni, (sb_input_at _ _ S0). unfold input_at.
    by rewrite Hget.
  - by eapply summing_backward_ok.
  - by eapply transfer_backward_ok.
Qed.

Lemma nodes_backward_spec fuel : nodes_backward_ok rank fuel.
Proof.
  induction fuel as [|fuel IH];
    intros net0 p i g cur D F e0 W E0 He0 Hn Hinv Hfuel; [lia|].
  pose proof (erase_backward_same _ _ E0) as S0.
  pose proof (edge_arrival rank net0 D F e0 p i W He0 Hn) as A.
  destruct (decide (is_input <$> node_obj net0 p = Some true)) as [Hi|Hni].
  - apply (sb_input_at _ _ S0) in Hi as Hi'. cbn [nodes_backward].
    unfold input_at in Hi'.
    destruct (node_obj cur p) as [o|] eqn:Hobj; [|done].
    rewrite (proj2 (get_nodes_node_obj _ _ _) Hobj). cbn [mbind result_bind].
    destruct o as [x|x|x]; try done.
    unfold input_nodes_backward. exists ({[e0]} ∪ D).
    split; [done|]. split; [done|]. split; [|done].
    intros q j Hnq Hq.
    eapply (bchan_inv_frame net0 cur cur D _ F F); try done.
    + apply (ar_others _ _ _ _ _ _ _ _ A); [|done]. intros [= -> ->].
      by apply Hnq.
    + intros e He. by apply (ar_in _ _ _ _ _ _ _ _ A q j).
    + by apply Hinv.
  - by eapply node_backward_step.
Qed.

End BackwardNodes.

Section BackwardOutputs.
Context `{Ext : Externals}.
Variable rank : nat → nat.

Lemma output_fire (fuel : nat) (net0 cur : network) (D : gset nat)
    (F : gset (nat * nat)) (p i : nat) (g : option cube) :
  run_wf net0 rank → btop_inv net0 cur D F →
  c_out net0 p i = [] → (p, i) ∉ F → rank p < fuel →
  match nodes_backward fuel p i g cur with
  | Ok net' => ∃ D', btop_inv net0 net' D' ({[(p, i)]} ∪ F)
  | Err x => x ≠ OutOfFuel
  end.
Proof.
  intros W0 [E Hinv] Hout HF Hfuel.
  pose proof (erase_backward_same _ _ E) as S0.
  pose proof (outside_arrival rank net0 D F p i Hout HF) as A.
  destruct fuel as [|fuel]; [lia|].
  destruct (decide (is_input <$> node_obj net0 p = Some true)) as [Hi|Hni].
  - apply (sb_input_at _ _ S0) in Hi as Hi'. cbn [nodes_backward].
    unfold input_at in Hi'.
    destruct (node_obj cur p) as [o|] eqn:Hobj; [|done].
    rewrite (proj2 (get_nodes_node_obj _ _ _) Hobj). cbn [mbind result_bind].
    destruct o as [x|x|x]; try done.
    unfold input_nodes_backward. exists D. split; [done|].
    intros q j Hnq.
    eapply (bchan_inv_frame net0 cur cur D D F); try done.
    + apply arrivals_ext; [done|].
      assert ((q, j) ≠ (p, i)) by (intros [= -> ->]; by apply Hnq).
      set_solver.
    + by apply Hinv.
  - pose proof (node_backward_step rank fuel net0 p i g cur D F D
                  ({[(p, i)]} ∪ F) (nodes_backward_spec rank fuel) W0 E Hni A
                  (λ q j Hnq _, Hinv q j Hnq) Hfuel) as H.
    destruct (nodes_backward (S fuel) p i g cur) as [net'|err] eqn:Hrun;
      [|done].
    destruct H as (D' & Hsub & Hnew & Hpost & Hfr). exists D'. split.
    + rewrite <-E. by eapply nodes_backward_erase.
    + intros q j Hnq. destruct (decide (rank q ≤ rank p)) as [Hle|Hgt].
      * by apply Hpost.
      * eapply (bchan_inv_frame net0 cur net' D D' F).
        -- apply received_node_obj, Hfr. lia.
        -- apply gs_node_obj, Hfr. lia.
        -- apply fs_node_obj, Hfr. lia.
        -- apply arrivals_ext.
           ++ intros e He. split; [|by apply Hsub]. intros HeD'.
              destruct (decide (e ∈ D)) as [|Hn]; [done|]. exfalso.
              specialize (Hnew e HeD' Hn).
              destruct (rw_out_sound _ _ W0 _ _ _ He) as (Hve & H1 & _).
              pose proof (rw_rank _ _ W0 e Hve) as Hrk. rewrite H1 in Hrk.
              lia.
           ++ assert ((q, j) ≠ (p, i)) by (intros [= -> ->]; lia).
              set_solver.
        -- intros e He. split; [|by apply Hsub]. intros HeD'.
           destruct (decide (e ∈ D)) as [|Hn]; [done|]. exfalso.
           specialize (Hnew e HeD' Hn).
           destruct (rw_in_sound _ _ W0 _ _ _ He) as (_ & H1 & _).
           rewrite H1 in Hnew. lia.
        -- by apply Hinv.
Qed.

Lemma bchannels_fire (fuel : nat) (net0 : network) (p : nat) :
  run_wf net0 rank → (∀ i, c_out net0 p i = []) → rank p < fuel →
  ∀ (ics : list (nat * option cube)) (cur : network) (D : gset nat)
    (F : gset (nat * nat)),
    NoDup ics.*1 → (∀ i, i ∈ ics.*1 → (p, i) ∉ F) →
    btop_inv net0 cur D F →
    match
      for_each (λ (ic : nat * option cube) net,
                  nodes_backward fuel p ic.1 ic.2 net) ics cur
    with
    | Ok net' =>
        ∃ D' F', btop_inv net0 net' D' F' ∧
          ∀ c, c ∈ F' ↔ c ∈ F ∨ ∃ i, i ∈ ics.*1 ∧ c = (p, i)
    | Err x => x ≠ OutOfFuel
    end.
Proof.
  intros W0 Hout Hfuel ics.
  induction ics as [|[i c] ics IH]; intros cur D F Hnd HF T.
  { simpl. exists D, F. split; [done|]. intros c. split; [by left|].
    intros [?|(i & Hi & _)]; [done|inversion Hi]. }
  cbn [for_each fst snd]. simpl in Hnd. apply NoDup_cons in Hnd as [Hi Hnd].
  pose proof (output_fire fuel net0 cur D F p i c W0 T (Hout i)
    ltac:(apply HF; left) Hfuel) as H1.
  destruct (nodes_backward fuel p i c cur) as [net1|err]; [|done].
  destruct H1 as [D1 T1]. cbn [mbind result_bind].
  specialize (IH net1 D1 ({[(p, i)]} ∪ F) Hnd).
  destruct (for_each _ ics net1) as [net'|err].
  2:{ apply IH; [|done]. intros j Hj.
      apply not_elem_of_union. split; [|apply HF; by right].
      intros [= ->]%elem_of_singleton. done. }
  destruct IH as (D' & F' & T' & HF'); [|done|].
  { intros j Hj. apply not_elem_of_union. split; [|apply HF; by right].
    intros [= ->]%elem_of_singleton. done. }
  exists D', F'. split; [done|]. intros c'. rewrite HF'. simpl. split.
  - intros [[->%elem_of_singleton|?]%elem_of_union|(j & Hj & ->)].
    + right. exists i. split; [left|done].
    + by left.
    + right. exists j. split; [by right|done].
  - intros [?|(j & [->|Hj]%elem_of_cons & ->)].
    + left. set_solver.
    + left. set_solver.
    + right. by exists j.
Qed.

Lemma outputs_fire (net0 : network) :
  run_wf net0 rank → outputs_wf net0 →
  ∀ (entries : list (string * list (option cube))) (cur : network)
    (D : gset nat) (F : gset (nat * nat)),
    NoDup entries.*1 →
    btop_inv net0 cur D F →
    (∀ name p i, name ∈ entries.*1 →
       StdMap.find name (output_nodes_ net0) = Some p → (p, i) ∉ F) →
    match for_each backward_entry entries cur with
    | Ok net' =>
        ∃ D' F', btop_inv net0 net' D' F' ∧ F ⊆ F' ∧
          (∀ name, name ∈ entries.*1 →
             ∃ p, StdMap.find name (output_nodes_ net0) = Some p ∧
                  ∀ i, i < c_size net0 p → (p, i) ∈ F') ∧
          (∀ p i, (p, i) ∈ F' → (p, i) ∈ F ∨ i < c_size net0 p)
    | Err x => x ≠ OutOfFuel
    end.
Proof.
  intros W0 O0 entries.
  induction entries as [|[name cubes] entries IH]; intros cur D F Hnd T HF.
  { simpl. exists D, F. split; [done|]. split; [done|].
    split; [|by left]. intros name Hn. inversion Hn. }
  simpl in Hnd. apply NoDup_cons in Hnd as [Hname Hnd].
  pose proof (erase_backward_same _ _ (bt_same _ _ _ _ T)) as S.
  cbn [for_each].
  assert (backward_entry (name, cubes) cur =
    (ZI_ASSERT (0 <? StdMap.count name (output_nodes_ cur));;
     out_layer ← deref (StdMap.find name (output_nodes_ cur));
     obj ← get_nodes cur out_layer;
     ZI_ASSERT (num_out_nodes obj =? length cubes);;
     for_channels (nodes_backward (run_fuel cur)) out_layer cubes cur)) as ->
    by done.
  rewrite (sb_output_nodes_ _ _ S).
  destruct (0 <? StdMap.count name (output_nodes_ net0)) eqn:Hc; [|done].
  cbn [ZI_ASSERT mbind result_bind].
  destruct (stdmap_count_find _ _ Hc) as [p Hp]. rewrite Hp.
  cbn [deref mbind result_bind].
  destruct (get_nodes cur p) as [o|err] eqn:Hget; [|no_fuel Hget].
  apply get_nodes_node_obj in Hget. cbn [mbind result_bind].
  destruct (num_out_nodes o =? length cubes) eqn:Hlen; [|done].
  apply Nat.eqb_eq in Hlen. cbn [ZI_ASSERT mbind result_bind].
  assert (c_size net0 p = length cubes) as Hsz.
  { rewrite <-(sb_c_size _ _ S). unfold c_size. by rewrite Hget. }
  assert (valid_node net0 p) as Hvp.
  { apply (sb_valid_node _ _ S). by eapply node_obj_valid. }
  assert (∀ i, c_out net0 p i = []) as Hsink.
  { intros i. apply (ow_sinks _ O0). by eapply stdmap_find_value. }
  unfold for_channels.
  pose proof (bchannels_fire (run_fuel cur) net0 p W0 Hsink
    ltac:(unfold run_fuel; rewrite (sb_channels _ _ S);
          pose proof (channels_ge net0 (rw_sizes _ _ W0));
          pose proof (rw_rank_bound _ _ W0 p Hvp); lia)
    (imap (λ i c, (i, c)) cubes) cur D F) as H1.
  pose proof (imap_indices cubes 0) as Hidx. simpl in Hidx.
  rewrite Hidx in H1.
  specialize (H1 (NoDup_seq _ _)
    ltac:(intros i _; apply (HF name); [left|done]) T).
  destruct (for_each _ (imap _ cubes) cur) as [net1|err]; [|done].
  destruct H1 as (D1 & F1 & T1 & HF1). cbn [mbind result_bind].
  specialize (IH net1 D1 F1 Hnd T1).
  assert (∀ name' p' i, name' ∈ entries.*1 →
            StdMap.find name' (output_nodes_ net0) = Some p' → (p', i) ∉ F1)
    as HF1'.
  { intros name' p' i Hn' Hp' [HiF|(j & _ & [= -> ->])]%HF1.
    - apply (HF name' p' i); [by right|done..].
    - assert (name' = name) as ->; [|done].
      eapply stdmap_find_inj; [apply (ow_inj _ O0)|done..]. }
  specialize (IH HF1').
  destruct (for_each backward_entry entries net1) as [net'|err]; [|done].
  destruct IH as (D' & F' & T' & Hsub & HF' & Hbound).
  assert (F ⊆ F1) as Hsub1 by (intros c Hc'; apply HF1; by left).
  exists D', F'. split; [done|]. split; [set_solver|]. split.
  - intros name' [->|Hn']%elem_of_cons; [|by apply HF'].
    exists p. split; [done|]. intros i Hi.
    apply Hsub, HF1. right. exists i. split; [|done].
    apply elem_of_seq. lia.
  - intros p' i' Hin. destruct (Hbound p' i' Hin) as [Hin1|?]; [|by right].
    apply HF1 in Hin1 as [?|(j & Hj & [= -> ->])]; [by left|right].
    apply elem_of_seq in Hj. lia.
Qed.

End BackwardOutputs.

Section BackwardAll.
Context `{Ext : Externals}.
Variable rank : nat → nat.

Lemma c_in_size net p i e :
  vectors_ok net → e ∈ c_in net p i →
  valid_node net p ∧ i < c_size net p ∧ ¬ input_at net p.
Proof.
  intros V He. unfold c_in, c_size, input_at in *.
  destruct (node_obj net p) as [o|] eqn:Ho; [|inversion He]. simpl in *.
  destruct (V p o Ho) as [_ Hin].
  split; [by eapply node_obj_valid|].
  destruct (inputs_of o !! i) as [l|] eqn:Hl; [|inversion He].
  apply lookup_lt_Some in Hl.
  destruct o as [x|x|x]; simpl in *; [lia|..];
    (split; [rewrite <-Hin by done; done|done]).
Qed.

Lemma initial_btop_inv net : quiescent net → btop_inv net net ∅ ∅.
Proof.
  intros Q. split; [done|]. intros q j _. unfold bchan_inv.
  assert (arrivals net ∅ ∅ q j = 0) as Ha.
  { unfold arrivals. destruct (decide _); [|apply delivered_empty].
    destruct (decide _) as [Hin|]; [|done]. set_solver. }
  assert (0 < expected net q j) as He.
  { unfold expected. destruct (decide _) as [|Hne]; [lia|].
    destruct (c_out net q j); [done|simpl; lia]. }
  rewrite Ha. rewrite decide_True by done.
  split; [apply Q|]. split; [set_solver|done].
Qed.

Lemma backward_fires_all net fout ret net' :
  run_wf net rank → outputs_wf net → quiescent net → StdMap.wf fout →
  network_backward fout net = Ok (ret, net') →
  ∃ (D : gset nat) (F : gset (nat * nat)),
    btop_inv net net' D F ∧
    (∀ name, name ∈ StdMap.keys fout →
       ∃ p, StdMap.find name (output_nodes_ net) = Some p ∧
            ∀ i, i < c_size net p → (p, i) ∈ F) ∧
    (∀ p i, (p, i) ∈ F → i < c_size net p).
Proof.
  intros W O Q Hfout (Hsz & Hloop & Hret)%network_backward_loops.
  pose proof (outputs_fire rank net W O fout net ∅ ∅ Hfout
                (initial_btop_inv net Q) ltac:(set_solver)) as H.
  rewrite Hloop in H. destruct H as (D & F & T & _ & Hcov & Hb).
  exists D, F. split; [done|]. split; [done|].
  intros p i Hin. destruct (Hb p i Hin); [set_solver|done].
Qed.

Lemma ball_full (net net' : network) (D : gset nat) (F : gset (nat * nat)) :
  run_wf net rank → vectors_ok net → outputs_wf net →
  btop_inv net net' D F →
  (∀ p i, p ∈ StdMap.values (output_nodes_ net) → i < c_size net p →
     (p, i) ∈ F) →
  ∀ q j, ¬ input_at net q → valid_node net q → j < c_size net q →
    arrivals net D F q j = expected net q j.
Proof.
  intros W V O T HF.
  assert (∀ k q j, length (nnodes_arena net) ≤ rank q + k →
            ¬ input_at net q → valid_node net q → j < c_size net q →
            arrivals net D F q j = expected net q j) as H;
    [|intros q j Hni Hv Hj;
      apply (H (length (nnodes_arena net)) q j); [lia|done..]].
  induction k as [|k IH]; intros q j Hk Hni Hv Hj.
  { pose proof (rw_rank_bound _ _ W q Hv). lia. }
  unfold arrivals, expected.
  destruct (decide (c_out net q j = [])) as [Hout|Hout].
  - rewrite decide_True; [done|]. apply HF; [|done].
    by apply (ow_cover _ O q j).
  - apply delivered_all. intros e He.
    destruct (rw_out_sound _ _ W _ _ _ He) as (Hve & Hq & Hqn).
    destruct (rw_complete _ _ W e Hve) as [_ Hin].
    pose proof (rw_rank _ _ W e Hve) as Hrk. rewrite Hq in Hrk.
    destruct (c_in_size _ _ _ _ V Hin) as (Hv' & Hj' & Hni').
    pose proof (IH (ed_out net e) (ed_out_num net e) ltac:(lia)
                  Hni' Hv' Hj') as Hfull.
    pose proof (bt_inv _ _ _ _ T (ed_out net e) (ed_out_num net e) Hni')
      as Hinv.
    unfold bchan_inv in Hinv. rewrite decide_False in Hinv by lia.
    destruct Hinv as (_ & Hall & _). by apply Hall.
Qed.

Lemma input_state net p i :
  input_at net p →
  received net p i = 0 ∧ gs net p i = None ∧ fs net p i = None.
Proof.
  unfold input_at, received, gs, fs.
  by destruct (node_obj net p) as [[]|].
Qed.

Lemma backward_post net fout ret net' :
  run_wf net rank → vectors_ok net → outputs_wf net → quiescent net →
  StdMap.wf fout →
  (∀ k, k ∈ StdMap.keys (output_nodes_ net) → k ∈ StdMap.keys fout) →
  network_backward fout net = Ok (ret, net') →
  erase_backward net' = erase_backward net ∧
  quiescent net' ∧
  (∀ p i, valid_node net p → i < c_size net p →
     gs net' p i = None ∧
     (transfer_at net p → fs net' p i = None) ∧
     (summing_at net p → fs net' p i = fs net p i)) ∧
  (∀ p i, ¬ (valid_node net p ∧ i < c_size net p) →
     gs net' p i = gs net p i ∧ fs net' p i = fs net p i).
Proof.
  intros W V O Q Hfout Hall Hrun.
  destruct (backward_fires_all net fout ret net' W O Q Hfout Hrun)
    as (D & F & T & Hcov & Hb).
  pose proof (bt_same _ _ _ _ T) as E.
  pose proof (erase_backward_same _ _ E) as S.
  assert (∀ p i, p ∈ StdMap.values (output_nodes_ net) →
            i < c_size net p → (p, i) ∈ F) as HF.
  { intros p i Hp Hi. apply list_elem_of_fmap in Hp as ([k p'] & -> & Hkp).
    simpl in *.
    pose proof (stdmap_elem_find _ _ _ (ow_keys _ O) Hkp) as Hfind.
    destruct (Hcov k) as (p'' & Hp'' & Hin).
    { apply Hall. apply list_elem_of_fmap. by exists (k, p'). }
    rewrite Hfind in Hp''. injection Hp'' as <-. by apply Hin. }
  pose proof (ball_full net net' D F W V O T HF) as Hfull.
  (* the channels that took no part *)
  assert (∀ p i, ¬ input_at net p → ¬ (valid_node net p ∧ i < c_size net p) →
            received net' p i = 0 ∧ gs net' p i = gs net p i ∧
            fs net' p i = fs net p i) as Hout.
  { intros p i Hni Hnv.
    assert (c_out net p i = []) as Hnil.
    { unfold c_out, c_size, valid_node in *.
      destruct (node_obj net p) as [o|] eqn:Ho; [|done]. simpl in *.
      rewrite lookup_ge_None_2; [done|].
      rewrite (rw_outputs_len _ _ W p o Ho).
      pose proof (node_obj_valid _ _ _ Ho). unfold valid_node in *. lia. }
    assert ((p, i) ∉ F) as HnF.
    { intros Hin. apply Hb in Hin. apply Hnv. split; [|done].
      unfold c_size in Hin. destruct (node_obj net p) eqn:Ho; [|simpl in Hin; lia].
      by eapply node_obj_valid. }
    pose proof (bt_inv _ _ _ _ T p i Hni) as Hinv. unfold bchan_inv in Hinv.
    assert (arrivals net D F p i = 0) as Ha.
    { unfold arrivals. rewrite decide_True by done.
      by rewrite decide_False by done. }
    assert (expected net p i = 1) as He
      by (unfold expected; by rewrite decide_True by done).
    rewrite Ha, He in Hinv. rewrite decide_True in Hinv by lia.
    destruct Hinv as (H1 & _ & H3 & H4). split; [done|]. split; [|done].
    by apply H3. }
  assert (∀ p i, ¬ input_at net p → valid_node net p → i < c_size net p →
            received net' p i = 0 ∧ gs net' p i = None ∧
            (transfer_at net p → fs net' p i = None) ∧
            (summing_at net p → fs net' p i = fs net p i)) as Hin.
  { intros p i Hni Hv Hi.
    pose proof (bt_inv _ _ _ _ T p i Hni) as Hinv. unfold bchan_inv in Hinv.
    rewrite decide_False in Hinv by (rewrite (Hfull p i Hni Hv Hi); lia).
    destruct Hinv as (H1 & _ & H3 & H4 & H5). done. }
  split; [done|]. split; [|split].
  - intros p i.
    destruct (decide (is_input <$> node_obj net p = Some true)) as [Hi|Hni].
    + apply input_state. by apply (sb_input_at _ _ S).
    + destruct (decide (p < length (nnodes_arena net) ∧ i < c_size net p))
        as [[Hv Hi]|Hn].
      * by apply Hin.
      * by apply Hout.
  - intros p i Hv Hi.
    destruct (decide (is_input <$> node_obj net p = Some true)) as [Hinp|Hni].
    + apply (sb_input_at _ _ S) in Hinp as Hinp'.
      destruct (input_state net' p i Hinp') as (_ & -> & ->).
      split; [done|]. split; [done|]. intros Hs.
      unfold input_at, summing_at in *.
      by destruct (node_obj net p) as [[]|].
    + by apply Hin.
  - intros p i Hn.
    destruct (decide (is_input <$> node_obj net p = Some true)) as [Hinp|Hni].
    + apply (sb_input_at _ _ S) in Hinp as Hinp'.
      destruct (input_state net' p i Hinp') as (_ & -> & ->).
      by destruct (input_state net p i Hinp) as (_ & -> & ->).
    + by apply Hout.
Qed.

Lemma backward_no_fuel net fout :
  run_wf net rank → outputs_wf net → quiescent net → StdMap.wf fout →
  network_backward fout net ≠ Err OutOfFuel.
Proof.
  intros W O Q Hfout. unfold network_backward.
  apply bind_no_fuel; [apply assert_no_fuel|]. intros _ _.
  apply bind_no_fuel; [|done].
  pose proof (outputs_fire rank net W O fout net ∅ ∅ Hfout
                (initial_btop_inv net Q) ltac:(set_solver)) as H.
  change (for_each backward_entry fout net) with
    (for_each
       (λ (o : string * list (option cube)) net,
          ZI_ASSERT (0 <? StdMap.count o.1 (output_nodes_ net));;
          out_layer ← deref (StdMap.find o.1 (output_nodes_ net));
          obj ← get_nodes net out_layer;
          ZI_ASSERT (num_out_nodes obj =? length o.2);;
          for_channels (nodes_backward (run_fuel net)) out_layer o.2 net)
       fout net) in H.
  destruct (for_each _ fout net) as [net1|err]; [done|].
  intros [= ->]. by apply H.
Qed.

End BackwardAll.

Lemma chain_net_fed_wf : run_wf chain_net_fed id.
Proof. run_wf_chain. Qed.

Lemma chain_net_fed_quiescent : quiescent chain_net_fed.
Proof. intros [|[|p]] [|i]; vm_compute; done. Qed.

Lemma chain_net_fed_vectors : vectors_ok chain_net_fed.
Proof.
  intros [|[|p]] o Ho; unfold node_obj in Ho; cbn in Ho;
    [injection Ho as <-; split; [reflexivity|by intros] ..|discriminate Ho].
Qed.

Lemma chain_net_fed_outputs : outputs_wf chain_net_fed.
Proof.
  split.
  - unfold StdMap.wf. literal_nodup.
  - literal_nodup.
  - intros p i H. members H. by destruct i.
  - intros [|[|p]] [|i] Hv Hi Hc; vm_compute in Hv, Hi, Hc; try lia;
      try done; member.
Qed.

(** X18: a backward pass on a well-formed network with no arrival pending,
    whose registry of output node groups names exactly the node groups
    without out-edge, never exhausts the recursion bound; and when it
    returns, having been given the gradients of every output node group,
    no arrival is pending, every channel has released its gradient buffer,
    every channel of a transfer node group has released the feature map
    the forward pass had left, and the feature buffers of summing node
    groups are what they were. *)
Theorem backward_resets_counters `{Ext : Externals} (rank : ptr → nat)
    (net : network) (fout : StdMap.t (list (option cube))) :
  run_wf net rank → vectors_ok net → outputs_wf net → quiescent net →
  StdMap.wf fout →
  network_backward fout net ≠ Err OutOfFuel ∧
  ∀ ret net', network_backward fout net = Ok (ret, net') →
    (∀ k, k ∈ StdMap.keys (output_nodes_ net) → k ∈ StdMap.keys fout) →
    quiescent net' ∧
    (∀ p i, valid_node net p → i < c_size net p →
       gs net' p i = None ∧
       (transfer_at net p → fs net' p i = None) ∧
       (summing_at net p → fs net' p i = fs net p i)) ∧
    (∀ p i, ¬ (valid_node net p ∧ i < c_size net p) →
       gs net' p i = gs net p i ∧ fs net' p i = fs net p i).
Proof.
  intros W V O Q Hfout. split; [by apply (backward_no_fuel rank)|].
  intros ret net' Hrun Hall.
  by destruct (backward_post rank net fout ret net' W V O Q Hfout Hall Hrun)
    as (_ & H).
Qed.

(** [chain_net] after a forward pass, given the gradient [28] at its
    output: the feature map [5] of the output channel is released *)
Lemma backward_resets_counters_witness :
  network_backward [("out", [Some (voxel 28)])] chain_net_fed
    = Ok chain_net_trained ∧
  fs chain_net_fed 1 0 = Some (voxel 5) ∧
  fs chain_net_trained.2 1 0 = None ∧
  received chain_net_trained.2 1 0 = 0.
Proof.
  assert (network_backward [("out", [Some (voxel 28)])] chain_net_fed
            = Ok (chain_net_trained.1, chain_net_trained.2)) as E
    by (vm_cast_no_check (eq_refl (Ok chain_net_trained))).
  split; [exact E|]. split; [reflexivity|].
  assert (StdMap.wf [("out", [Some (voxel 28)])]) as Hfout
    by (unfold StdMap.wf; literal_nodup).
  destruct (backward_resets_counters id chain_net_fed _
              chain_net_fed_wf chain_net_fed_vectors chain_net_fed_outputs
              chain_net_fed_quiescent Hfout) as [_ H].
  destruct (H _ _ E) as (HQ & Hin & _).
  { intros k Hk. members Hk. member. }
  split; [|apply HQ].
  refine (proj1 (proj2 (Hin 1 0 _ _)) _); vm_compute; (lia || done).
Defined.

Section Beyond.
Context `{Ext : Externals}.

Lemma kept_beyond_refl net : kept_beyond net net.
Proof. done. Qed.

Lemma kept_beyond_trans a b c :
  (∀ p, c_size b p = c_size a p) →
  kept_beyond a b → kept_beyond b c → kept_beyond a c.
Proof.
  intros Hs H1 H2 p i Hi. destruct (H1 p i Hi) as [<- <-].
  apply H2. by rewrite Hs.
Qed.

Lemma kept_beyond_objects a b :
  (∀ q, node_obj b q = node_obj a q) → kept_beyond a b.
Proof.
  intros H p i _. split; [by apply received_node_obj|by apply fs_node_obj].
Qed.

Lemma kept_beyond_put net p o o' :
  node_obj net p = Some o →
  (∀ j, num_out_nodes o ≤ j →
     received_of o' !! j = received_of o !! j ∧ fs_of o' !! j = fs_of o !! j) →
  kept_beyond net (put_nodes p o' net).
Proof.
  intros Ho H q j Hj. destruct (decide (q = p)) as [->|Hne].
  - unfold received, fs, c_size in *.
    rewrite node_obj_put_nodes_eq by (by eapply node_obj_valid).
    rewrite Ho in *. simpl in *. by destruct (H j Hj) as [-> ->].
  - split; [apply received_node_obj|apply fs_node_obj];
      by apply node_obj_put_nodes_ne.
Qed.

Lemma erase_forward_c_size a b :
  erase_forward b = erase_forward a → ∀ p, c_size b p = c_size a p.
Proof. intros E. apply (st_c_size _ _ (erase_forward_same _ _ E)). Qed.

Lemma edge_forward_beyond (nf : nodes_method) :
  (∀ p i f net net', nf p i f net = Ok net' → kept_beyond net net') →
  ∀ e f net net', edge_of_forward nf e f net = Ok net' →
    kept_beyond net net'.
Proof.
  intros IH e f net net' H. unfold edge_of_forward in H.
  apply bind_ok in H as (eo & Heo%at_ptr_ok & H).
  apply bind_ok in H as (r & _ & H). apply IH in H.
  intros p i Hi. by apply H.
Qed.

(** the dispatch loop of a channel *)
Lemma dispatch_beyond fuel (body : nat → network → result network) outs :
  (∀ p i f net net', nodes_forward fuel p i f net = Ok net' →
     kept_beyond net net') →
  (∀ e s s', body e s = Ok s' →
     ∃ c, edge_of_forward (nodes_forward fuel) e c s = Ok s') →
  ∀ net net', for_each body outs net = Ok net' → kept_beyond net net'.
Proof.
  intros IH Hbody net net' H.
  apply (for_each_inv
    (λ s, erase_forward s = erase_forward net ∧ kept_beyond net s)
    body outs net) in H; [by destruct H|done|].
  intros e s s' _ [Es Hs] Hb. destruct (Hbody _ _ _ Hb) as [c Hc].
  split.
  - rewrite <-Es. by eapply edge_forward_erase, Hc; apply nodes_forward_erase.
  - eapply kept_beyond_trans; [by apply erase_forward_c_size|done|].
    by eapply edge_forward_beyond, Hc.
Qed.

Lemma nodes_forward_beyond fuel : ∀ p i f net net',
  nodes_forward fuel p i f net = Ok net' → kept_beyond net net'.
Proof.
  induction fuel as [|fuel IH]; intros p i f net net' H; [done|].
  cbn [nodes_forward] in H.
  apply bind_ok in H as (o & Ho & H). destruct o as [x0|x0|x0].
  - unfold input_nodes_forward in H.
    apply bind_ok in H as (x & _ & H). apply bind_ok in H as (_ & _ & H).
    apply bind_ok in H as (outs & _ & H).
    eapply (dispatch_beyond fuel), H; [done|]. intros e s s' Hb. by exists f.
  - unfold summing_nodes_forward in H.
    apply bind_ok in H as (x & Hx%get_summing_nodes_inv & H).
    apply bind_ok in H as (_ & Hi%assert_ok%Nat.ltb_lt & H).
    apply bind_ok in H as (r & _ & H).
    apply bind_ok in H as (fs1 & Hacc & H).
    set (x1 := summing_nodes.set_received_ _ _) in H.
    set (net1 := put_nodes p (Summing x1) net) in H.
    assert (erase_forward net1 = erase_forward net) as E1.
    { apply (erase_forward_put_nodes _ _ (Summing x)); [done|]. by destruct x. }
    assert (kept_beyond net net1) as K1.
    { apply (kept_beyond_put _ _ (Summing x)); [done|]. intros j Hj.
      simpl in *. rewrite list_lookup_insert_ne by lia.
      by rewrite (accumulate_other _ _ _ _ _ _ Hacc) by lia. }
    apply bind_ok in H as (ins & _ & H).
    destruct (_ =? _); [|by injection H as <-].
    apply bind_ok in H as (outs & _ & H).
    apply bind_ok in H as (net2 & Hloop & H).
    apply bind_ok in H as (x2 & Hx2%get_summing_nodes_inv & [= <-]).
    assert (erase_forward net2 = erase_forward net1) as E2.
    { apply (for_each_inv (λ cur, erase_forward cur = erase_forward net1))
        in Hloop; [done|done|].
      intros e cur cur' _ Hc Hb.
      apply bind_ok in Hb as (? & _ & Hb).
      apply bind_ok in Hb as (c & _ & Hb).
      apply edge_forward_erase in Hb; [by rewrite Hb|].
      apply nodes_forward_erase. }
    apply (dispatch_beyond fuel) in Hloop; [|done|].
    2:{ intros e s s' Hb. apply bind_ok in Hb as (? & _ & Hb).
        apply bind_ok in Hb as (c & _ & Hb). by exists c. }
    eapply kept_beyond_trans; [by apply erase_forward_c_size|done|].
    eapply kept_beyond_trans; [by apply erase_forward_c_size|done|].
    apply (kept_beyond_put _ _ (Summing x2)); [done|]. intros j Hj.
    assert (summing_nodes.size_ x2 = summing_nodes.size_ x) as Hsz.
    { assert (c_size net2 p = c_size net p) as Hc.
      { by rewrite (erase_forward_c_size _ _ E2),
                   (erase_forward_c_size _ _ E1). }
      unfold c_size in Hc. by rewrite Hx2, Hx in Hc. }
    simpl in *. by rewrite !list_lookup_insert_ne by lia.
  - unfold transfer_nodes_forward in H.
    apply bind_ok in H as (x & Hx%get_transfer_nodes_inv & H).
    apply bind_ok in H as (_ & Hi%assert_ok%Nat.ltb_lt & H).
    apply bind_ok in H as (r & _ & H).
    apply bind_ok in H as (fs1 & Hacc & H).
    set (x1 := transfer_nodes.set_received_ _ _) in H.
    apply bind_ok in H as (ins & _ & H).
    destruct (_ =? _).
    2:{ injection H as <-.
        apply (kept_beyond_put _ _ (Transfer x)); [done|]. intros j Hj.
        simpl in *. rewrite list_lookup_insert_ne by lia.
        by rewrite (accumulate_other _ _ _ _ _ _ Hacc) by lia. }
    apply bind_ok in H as (slot & _ & H).
    apply bind_ok in H as (c & _ & H).
    apply bind_ok in H as (b & _ & H).
    set (x1' := transfer_nodes.set_fs_ _ x1) in H.
    set (net1 := put_nodes p (Transfer x1') net) in H.
    assert (erase_forward net1 = erase_forward net) as E1.
    { apply (erase_forward_put_nodes _ _ (Transfer x)); [done|].
      by destruct x. }
    assert (kept_beyond net net1) as K1.
    { apply (kept_beyond_put _ _ (Transfer x)); [done|]. intros j Hj.
      simpl in *. rewrite !list_lookup_insert_ne by lia.
      by rewrite (accumulate_other _ _ _ _ _ _ Hacc) by lia. }
    apply bind_ok in H as (outs & _ & H).
    apply bind_ok in H as (net2 & Hloop & H).
    apply bind_ok in H as (x2 & Hx2%get_transfer_nodes_inv & [= <-]).
    assert (erase_forward net2 = erase_forward net1) as E2.
    { apply (for_each_inv (λ cur, erase_forward cur = erase_forward net1))
        in Hloop; [done|done|].
      intros e cur cur' _ Hc Hb.
      apply bind_ok in Hb as (? & _ & Hb).
      apply bind_ok in Hb as (c' & _ & Hb).
      apply edge_forward_erase in Hb; [by rewrite Hb|].
      apply nodes_forward_erase. }
    apply (dispatch_beyond fuel) in Hloop; [|done|].
    2:{ intros e s s' Hb. apply bind_ok in Hb as (? & _ & Hb).
        apply bind_ok in Hb as (c' & _ & Hb). by exists c'. }
    eapply kept_beyond_trans; [by apply erase_forward_c_size|done|].
    eapply kept_beyond_trans; [by apply erase_forward_c_size|done|].
    apply (kept_beyond_put _ _ (Transfer x2)); [done|]. intros j Hj.
    assert (transfer_nodes.size_ x2 = transfer_nodes.size_ x) as Hsz.
    { assert (c_size net2 p = c_size net p) as Hc.
      { by rewrite (erase_forward_c_size _ _ E2),
                   (erase_forward_c_size _ _ E1). }
      unfold c_size in Hc. by rewrite Hx2, Hx in Hc. }
    simpl in *. by rewrite !list_lookup_insert_ne by lia.
Qed.

Lemma network_forward_beyond fin net ret net' :
  network_forward fin net = Ok (ret, net') → kept_beyond net net'.
Proof.
  intros (_ & H & _)%network_forward_loops.
  apply (for_each_inv
    (λ s, erase_forward s = erase_forward net ∧ kept_beyond net s))
    in H; [by destruct H|done|].
  intros i s s' _ [Es Hs] Hb. split.
  - rewrite <-Es. by apply forward_entry_erase in Hb.
  - eapply kept_beyond_trans; [by apply erase_forward_c_size|done|].
    unfold forward_entry in Hb.
    apply bind_ok in Hb as (_ & _ & Hb). apply bind_ok in Hb as (layer & _ & Hb).
    apply bind_ok in Hb as (o & _ & Hb). apply bind_ok in Hb as (_ & _ & Hb).
    unfold for_channels in Hb.
    apply (for_each_inv
      (λ t, erase_forward t = erase_forward s ∧ kept_beyond s t))
      in Hb; [by destruct Hb|done|].
    intros [j c] t t' _ [Et Ht] Hn. split.
    + rewrite <-Et. by apply nodes_forward_erase in Hn.
    + eapply kept_beyond_trans; [by apply erase_forward_c_size|done|].
      by eapply nodes_forward_beyond.
Qed.

End Beyond.

Section Steps.
Context `{Ext : Externals}.

Lemma erase_forward_node a b p o :
  erase_forward b = erase_forward a → node_obj b p = Some o →
  ∃ o', node_obj a p = Some o' ∧ erase_nodes o = erase_nodes o'.
Proof.
  intros E Ho. pose proof (node_obj_erase b p) as H.
  rewrite E, node_obj_erase, Ho in H.
  destruct (node_obj a p) as [o'|]; [|done]. exists o'. split; [done|].
  by injection H.
Qed.

Lemma erase_backward_node a b p o :
  erase_backward b = erase_backward a → node_obj b p = Some o →
  ∃ o', node_obj a p = Some o' ∧ erase_grads o = erase_grads o'.
Proof.
  intros E Ho. pose proof (node_obj_erase_backward b p) as H.
  rewrite E, node_obj_erase_backward, Ho in H.
  destruct (node_obj a p) as [o'|]; [|done]. exists o'. split; [done|].
  by injection H.
Qed.

Lemma erase_forward_vectors_ok a b :
  erase_forward b = erase_forward a → vectors_ok a → vectors_ok b.
Proof.
  intros E V p o Ho.
  destruct (erase_forward_node _ _ _ _ E Ho) as (o' & Ho' & Ee).
  destruct (V p o' Ho') as [H1 H2].
  rewrite <-(erase_nodes_outputs o), <-(erase_nodes_size o),
    <-(erase_nodes_inputs o), <-(erase_nodes_is_input o), Ee,
    erase_nodes_outputs, erase_nodes_size, erase_nodes_inputs,
    erase_nodes_is_input. done.
Qed.

Lemma erase_backward_vectors_ok a b :
  erase_backward b = erase_backward a → vectors_ok a → vectors_ok b.
Proof.
  intros E V p o Ho.
  destruct (erase_backward_node _ _ _ _ E Ho) as (o' & Ho' & Ee).
  destruct (V p o' Ho') as [H1 H2].
  rewrite <-(erase_grads_outputs o), <-(erase_grads_size o),
    <-(erase_grads_inputs o), <-(erase_grads_is_input o), Ee,
    erase_grads_outputs, erase_grads_size, erase_grads_inputs,
    erase_grads_is_input. done.
Qed.

Lemma same_topology_outputs_wf a b :
  same_topology a b → outputs_wf a → outputs_wf b.
Proof.
  intros S O. split.
  - rewrite (st_output_nodes_ _ _ S). apply (ow_keys _ O).
  - rewrite (st_output_nodes_ _ _ S). apply (ow_inj _ O).
  - intros p i. rewrite (st_output_nodes_ _ _ S), (st_c_out _ _ S).
    apply (ow_sinks _ O).
  - intros p i. rewrite (st_output_nodes_ _ _ S), (st_c_out _ _ S),
      (st_c_size _ _ S), (st_valid_node _ _ S). apply (ow_cover _ O).
Qed.

Lemma same_wiring_b_outputs_wf a b :
  same_wiring_b a b → outputs_wf a → outputs_wf b.
Proof.
  intros S O. split.
  - rewrite (sb_output_nodes_ _ _ S). apply (ow_keys _ O).
  - rewrite (sb_output_nodes_ _ _ S). apply (ow_inj _ O).
  - intros p i. rewrite (sb_output_nodes_ _ _ S), (sb_c_out _ _ S).
    apply (ow_sinks _ O).
  - intros p i. rewrite (sb_output_nodes_ _ _ S), (sb_c_out _ _ S),
      (sb_c_size _ _ S), (sb_valid_node _ _ S). apply (ow_cover _ O).
Qed.

Lemma erase_backward_run_wf rank a b :
  erase_backward b = erase_backward a → run_wf a rank → run_wf b rank.
Proof.
  intros E W. pose proof (erase_backward_same _ _ E) as S.
  pose proof (sb_edge_arena _ _ S) as Ha.
  assert (∀ e, valid_edge b e ↔ valid_edge a e) as Hve
    by (intros; unfold valid_edge; by rewrite Ha).
  assert (∀ e, ed_in b e = ed_in a e) as Hin
    by (intros; unfold ed_in; by rewrite Ha).
  assert (∀ e, ed_in_num b e = ed_in_num a e) as Hinn
    by (intros; unfold ed_in_num; by rewrite Ha).
  assert (∀ e, ed_out b e = ed_out a e) as Hout
    by (intros; unfold ed_out; by rewrite Ha).
  assert (∀ e, ed_out_num b e = ed_out_num a e) as Houtn
    by (intros; unfold ed_out_num; by rewrite Ha).
  split.
  - intros p i e H. rewrite (sb_c_out _ _ S) in H.
    rewrite Hve, Hin, Hinn. by apply (rw_out_sound _ _ W).
  - intros p i e H. rewrite (sb_c_in _ _ S) in H.
    rewrite Hve, Hout, Houtn. by apply (rw_in_sound _ _ W).
  - intros e H. rewrite Hve in H.
    rewrite Hin, Hinn, Hout, Houtn, (sb_c_out _ _ S), (sb_c_in _ _ S).
    by apply (rw_complete _ _ W).
  - intros p i. rewrite (sb_c_out _ _ S). apply (rw_out_nodup _ _ W).
  - intros p i. rewrite (sb_c_in _ _ S). apply (rw_in_nodup _ _ W).
  - intros e H. rewrite Hin, Hout. apply (rw_rank _ _ W). by apply Hve.
  - intros p H.
    assert (length (nnodes_arena b) = length (nnodes_arena a)) as ->.
    { apply (f_equal (λ n, length (nnodes_arena n))) in E.
      by rewrite !erase_backward_nnodes_arena, !length_fmap in E. }
    apply (rw_rank_bound _ _ W). by apply (sb_valid_node _ _ S).
  - intros p H. rewrite (sb_c_size _ _ S). apply (rw_sizes _ _ W).
    by apply (sb_valid_node _ _ S).
  - intros p o H.
    destruct (erase_backward_node _ _ _ _ E H) as (o' & Ho' & Ee).
    rewrite <-(erase_grads_outputs o), <-(erase_grads_size o), Ee,
      erase_grads_outputs, erase_grads_size.
    by apply (rw_outputs_len _ _ W p).
  - intros p i Hv Hi Hlt. rewrite (sb_c_in _ _ S). apply (rw_fed _ _ W).
    + by apply (sb_valid_node _ _ S).
    + by rewrite <-(sb_input_at _ _ S).
    + by rewrite <-(sb_c_size _ _ S).
  - rewrite (sb_input_nodes_ _ _ S). apply (rw_inputs_keys _ _ W).
  - rewrite (sb_input_nodes_ _ _ S). apply (rw_inputs_inj _ _ W).
  - intros p. rewrite (sb_input_nodes_ _ _ S), (sb_input_at _ _ S).
    apply (rw_inputs _ _ W).
Qed.

Lemma kind_cases net p :
  valid_node net p → input_at net p ∨ summing_at net p ∨ transfer_at net p.
Proof.
  intros Hv. unfold input_at, summing_at, transfer_at, node_obj.
  destruct (lookup_lt_is_Some_2 _ _ Hv) as [nn ->]. simpl.
  destruct (nnodes.nodes_obj nn); auto.
Qed.

End Steps.

(** X19: a training step keeps a network ready.  On a network that is
    well formed, with a sound registry of outputs, no arrival pending and
    every buffer released, a forward pass followed by a backward pass that
    is given the gradients of every output node group leaves a network of
    which all this holds again: the next step finds it as the constructor
    would have left it, but for the filters and biases. *)
Theorem training_step_ready `{Ext : Externals} (rank : ptr → nat)
    (net : network) (fin fout r1 r2 : StdMap.t (list (option cube)))
    (net1 net2 : network) :
  ready net rank → StdMap.wf fin → StdMap.wf fout →
  (∀ k, k ∈ StdMap.keys (output_nodes_ net) → k ∈ StdMap.keys fout) →
  network_forward fin net = Ok (r1, net1) →
  network_backward fout net1 = Ok (r2, net2) →
  ready net2 rank ∧
  erase_backward (erase_forward net2) = erase_backward (erase_forward net).
Proof.
  intros [W V O Q R] Hfin Hfout Hall Hf Hb.
  destruct (forward_post rank net fin r1 net1 W Q Hfin Hf) as [E1 Hpost1].
  pose proof (erase_forward_same _ _ E1) as S1.
  pose proof (network_forward_beyond _ _ _ _ Hf) as K1.
  assert (run_wf net1 rank) as W1 by (by eapply same_topology_run_wf).
  assert (vectors_ok net1) as V1 by (by eapply erase_forward_vectors_ok).
  assert (outputs_wf net1) as O1 by (by eapply same_topology_outputs_wf).
  assert (∀ p i, ¬ (valid_node net p ∧ i < c_size net p) →
            c_size net p ≤ i) as Hbeyond.
  { intros p i Hn. destruct (decide (i < c_size net p)) as [Hi|]; [|lia].
    exfalso. apply Hn. split; [|done]. unfold c_size in Hi.
    destruct (node_obj net p) eqn:Ho; [|simpl in Hi; lia].
    by eapply node_obj_valid. }
  assert (quiescent net1) as Q1.
  { intros p i.
    destruct (decide (p < length (nnodes_arena net) ∧ i < c_size net p))
      as [[Hv Hi]|Hn].
    - by apply Hpost1.
    - rewrite (proj1 (K1 p i (Hbeyond p i Hn))). apply Q. }
  destruct (backward_post rank net1 fout r2 net2 W1 V1 O1 Q1 Hfout) as
    (E2 & Q2 & Hin2 & Hout2); [|done|].
  { by rewrite (st_output_nodes_ _ _ S1). }
  pose proof (erase_backward_same _ _ E2) as S2.
  split.
  - split.
    + by eapply erase_backward_run_wf.
    + by eapply erase_backward_vectors_ok.
    + by eapply same_wiring_b_outputs_wf.
    + done.
    + intros p i.
      destruct (decide (p < length (nnodes_arena net) ∧ i < c_size net p))
        as [[Hv Hi]|Hn].
      * apply (st_valid_node _ _ S1) in Hv as Hv1.
        assert (i < c_size net1 p) as Hi1 by (by rewrite (st_c_size _ _ S1)).
        destruct (Hin2 p i Hv1 Hi1) as (Hg & Ht & Hs). split; [|done].
        destruct (kind_cases net1 p Hv1) as [Hk|[Hk|Hk]].
        -- apply (sb_input_at _ _ S2) in Hk. by apply input_state.
        -- rewrite (Hs Hk). apply (Hpost1 p i Hv Hi).
           by apply (st_summing_at _ _ S1).
        -- by apply Ht.
      * assert (¬ (valid_node net1 p ∧ i < c_size net1 p)) as Hn1.
        { intros [Hv1 Hi1]. apply Hn.
          split; [by apply (st_valid_node _ _ S1)|].
          by rewrite <-(st_c_size _ _ S1). }
        destruct (Hout2 p i Hn1) as [-> ->].
        rewrite (st_gs _ _ S1), (proj2 (K1 p i (Hbeyond p i Hn))).
        apply R.
  - rewrite <-E1.
    apply (f_equal erase_forward) in E2.
    assert (∀ n, erase_backward (erase_forward n)
                 = erase_forward (erase_backward n)) as Hcomm.
    { intros n. unfold erase_backward, erase_forward, set_filter_arena,
        set_edge_arena, set_nnodes_arena.
      cbn [nnodes_arena nedges_arena edge_arena filter_arena edges_ nodes_
           input_nodes_ output_nodes_].
      f_equal. rewrite <-!list_fmap_compose. apply list_fmap_ext.
      intros i [? ? ? o ? ?] _. by destruct o as [x|x|x]. }
    by rewrite !Hcomm, E2.
Qed.

Lemma chain_net_ready : ready chain_net id.
Proof.
  split.
  - exact chain_net_wf.
  - intros [|[|p]] o Ho; unfold node_obj in Ho; cbn in Ho;
      [injection Ho as <-; split; [reflexivity|by intros] ..|discriminate Ho].
  - split.
    + unfold StdMap.wf. literal_nodup.
    + literal_nodup.
    + intros p i H. members H. by destruct i.
    + intros [|[|p]] [|i] Hv Hi Hc; vm_compute in Hv, Hi, Hc; try lia;
        try done; member.
  - exact chain_net_quiescent.
  - intros [|[|p]] [|i]; vm_compute; done.
Qed.

(** one training step of [chain_net]: forward on the voxel [5], backward on
    the gradient [28] *)
Lemma training_step_ready_witness :
  network_forward [("in", [Some (voxel 5)])] chain_net = Ok chain_net_run ∧
  network_backward [("out", [Some (voxel 28)])] chain_net_run.2
    = Ok chain_net_trained ∧
  ready chain_net_trained.2 id.
Proof.
  assert (network_forward [("in", [Some (voxel 5)])] chain_net
            = Ok (chain_net_run.1, chain_net_run.2)) as E1
    by (vm_cast_no_check (eq_refl (Ok chain_net_run))).
  assert (network_backward [("out", [Some (voxel 28)])] chain_net_run.2
            = Ok (chain_net_trained.1, chain_net_trained.2)) as E2
    by (vm_cast_no_check (eq_refl (Ok chain_net_trained))).
  split; [exact E1|]. split; [exact E2|].
  refine (proj1 (training_step_ready id chain_net _ _ _ _ _ _
                   chain_net_ready _ _ _ E1 E2)).
  - unfold StdMap.wf. literal_nodup.
  - unfold StdMap.wf. literal_nodup.
  - intros k Hk. members Hk. member.
Defined.

Section CtorPhases.
Context `{Ext : Externals}.

Ltac geometry_accessor :=
  unfold n_stride, n_fov, n_fsize, e_width, e_stride;
  rewrite ?erase_edges_nnodes_arena, ?erase_edges_nedges_arena,
    list_lookup_fmap;
  by destruct (_ !! _) as [[]|].

Lemma erase_edges_n_stride net p :
  n_stride (erase_edges net) p = n_stride net p.
Proof. geometry_accessor. Qed.
Lemma erase_edges_n_fov net p : n_fov (erase_edges net) p = n_fov net p.
Proof. geometry_accessor. Qed.
Lemma erase_edges_n_fsize net p :
  n_fsize (erase_edges net) p = n_fsize net p.
Proof. geometry_accessor. Qed.
Lemma erase_edges_e_width net e :
  e_width (erase_edges net) e = e_width net e.
Proof. geometry_accessor. Qed.
Lemma erase_edges_e_stride net e :
  e_stride (erase_edges net) e = e_stride net e.
Proof. geometry_accessor. Qed.

Lemma reachable_same_graph a b p :
  same_graph a b → reachable b p → reachable a p.
Proof.
  intros S H. induction H as [k p Hk|e He Hr IH].
  - apply (reachable_input _ k). by rewrite <-(sg_input_nodes_ _ _ S).
  - rewrite (sg_e_out _ _ S).
    apply reachable_step; [by apply (sg_valid_nedges _ _ S)|].
    by rewrite <-(sg_e_in _ _ S).
Qed.

Lemma valid_node_length a b :
  (∀ p, valid_node b p ↔ valid_node a p) →
  length (nnodes_arena b) = length (nnodes_arena a).
Proof.
  unfold valid_node. intros H.
  destruct (Nat.lt_trichotomy (length (nnodes_arena b))
              (length (nnodes_arena a))) as [Hlt|[Heq|Hgt]]; [|done|].
  - apply H in Hlt. lia.
  - apply H in Hgt. lia.
Qed.

(** the four phases of the constructor *)
Lemma network_ctor_phases ns es outsz net :
  network_ctor ns es outsz = Ok net →
  ∃ net1 net2 net3,
    for_each add_nodes ns empty_network = Ok net1 ∧
    for_each add_edges es net1 = Ok net2 ∧
    init outsz net2 = Ok net3 ∧
    built_inv net3 net (StdMap.values (edges_ net3)) ∧
    same_graph net2 net3 ∧ same_graph net3 net.
Proof.
  unfold network_ctor. intros H.
  apply bind_ok in H as (net1 & H1 & H). apply bind_ok in H as (net2 & H2 & H).
  apply bind_ok in H as (net3 & H3 & H4).
  exists net1, net2, net3. split; [done|]. split; [done|]. split; [done|].
  assert (unwired net2) as U2.
  { assert (unwired net1) as U1.
    { apply (for_each_inv unwired _ _ _ _ unwired_empty) in H1; [done|].
      intros op cur cur' _ U Hb. by eapply add_nodes_unwired. }
    apply (for_each_inv unwired _ _ _ _ U1) in H2; [done|].
    intros op cur cur' _ U Hb. apply add_edges_same_objects in Hb.
    by eapply same_objects_unwired. }
  pose proof (init_same_objects _ _ _ H3) as O23.
  pose proof (same_objects_unwired _ _ O23 U2) as U3.
  pose proof (create_edges_built net3 net (unwired_registered _ U3)
                (proj1 U3) H4) as B.
  split; [done|]. split; [by eapply init_same_graph|].
  apply erase_edges_same, (bi_same _ _ _ B).
Qed.

End CtorPhases.

(** X20: the geometry of a constructed network.  If the declared windows
    and strides are positive, the graph is acyclic, every node group is
    fed from an input node group and the geometry fits into the 64-bit
    integers of a [vec3i] ([fits]), then in the network the constructor
    returns every node group has a positive stride and field of view and
    feature maps of size [outsz + (fov - 1) * stride]; along every edge
    group the stride is multiplied by the stride of the edge group and the
    field of view grows by its window; the input node groups have stride
    one and so need an input of [outsz + fov - 1]; the output node groups
    have a field of view of one and feature maps of size [outsz]. *)
Theorem constructed_geometry `{Ext : Externals} (ns es : list options)
    (outsz : vec3i) (net : network) (rank : ptr → nat)
    (bs bf bz : ptr → vec3i) :
  network_ctor ns es outsz = Ok net →
  vec3i_ops.positive outsz →
  fits net outsz bs bf bz →
  (∀ op k v, op ∈ es → opt.get op k = Some (OVec v) →
     vec3i_ops.positive v) →
  (∀ e, valid_nedges net e → rank (e_in net e) < rank (e_out net e)) →
  (∀ p, valid_node net p → rank p < length (nnodes_arena net)) →
  (∀ p, valid_node net p → reachable net p) →
  (∀ p, valid_node net p →
     vec3i_ops.positive (n_stride net p) ∧
     vec3i_ops.positive (n_fov net p) ∧
     n_fsize net p
     = (outsz + (n_fov net p - vec3i_ops.one) * n_stride net p)%V ∧
     (outsz + (n_fov net p - vec3i_ops.one) * n_stride net p)%V
     = vec3i_ops.exact_add outsz
         (vec3i_ops.exact_mul
            (vec3i_ops.exact_sub (n_fov net p) vec3i_ops.one)
            (n_stride net p))) ∧
  (∀ e, valid_nedges net e →
     n_stride net (e_out net e)
     = (n_stride net (e_in net e) * e_stride net e)%V ∧
     (n_stride net (e_in net e) * e_stride net e)%V
     = vec3i_ops.exact_mul (n_stride net (e_in net e)) (e_stride net e) ∧
     n_fov net (e_in net e)
     = ((n_fov net (e_out net e) - vec3i_ops.one) * e_stride net e
        + e_width net e)%V ∧
     ((n_fov net (e_out net e) - vec3i_ops.one) * e_stride net e
      + e_width net e)%V
     = vec3i_ops.exact_add
         (vec3i_ops.exact_mul
            (vec3i_ops.exact_sub (n_fov net (e_out net e)) vec3i_ops.one)
            (e_stride net e))
         (e_width net e)) ∧
  (∀ k p, (k, p) ∈ input_nodes_ net →
     n_stride net p = vec3i_ops.one ∧
     n_fsize net p = (outsz + n_fov net p - vec3i_ops.one)%V) ∧
  (∀ k p, (k, p) ∈ output_nodes_ net →
     n_fov net p = vec3i_ops.one ∧ n_fsize net p = outsz).
Proof.
  intros Hc Hsz F Hpos Hrank Hbound Hreach.
  destruct (network_ctor_phases _ _ _ _ Hc)
    as (net1 & net2 & net3 & H1 & H2 & H3 & B & S23 & S3).
  destruct (add_edges_loop _ _ _ _ H1 H2) as (W & Hln & Hle & Hns & Hes).
  pose proof (same_graph_trans _ _ _ S23 S3) as S.
  pose proof (bi_same _ _ _ B) as Hsame.
  assert (graph_wf net2 rank) as WF.
  { split.
    - split; [apply (dw_ends _ W)|apply (dw_out _ W)|apply (dw_in _ W)|].
      by apply (declared_positive es).
    - intros e He%(sg_valid_nedges _ _ S).
      rewrite <-(sg_e_in _ _ S), <-(sg_e_out _ _ S). by apply Hrank.
    - intros p Hp%(sg_valid_node _ _ S).
      rewrite <-(valid_node_length _ _ (sg_valid_node _ _ S)).
      by apply Hbound.
    - apply (dw_nodes_ _ W).
    - apply (dw_nodes_keys _ W).
    - intros k p Hk. apply (dw_inputs _ W) in Hk as [Hk _].
      apply (dw_nodes_ _ W). apply list_elem_of_fmap. by exists (k, p).
    - intros p Hp%(sg_valid_node _ _ S). apply (reachable_same_graph _ _ _ S).
      by apply Hreach.
    - apply (dw_no_outputs _ W).
    - apply (dw_fresh _ W). }
  assert (∀ e, e_stride net e = e_stride net3 e) as Ges3.
  { intros e. by rewrite <-erase_edges_e_stride, Hsame, erase_edges_e_stride. }
  assert (∀ e, e_width net e = e_width net3 e) as Gew3.
  { intros e. by rewrite <-erase_edges_e_width, Hsame, erase_edges_e_width. }
  pose proof (init_erase _ _ _ H3) as Hinit.
  assert (∀ e, e_stride net3 e = e_stride net2 e) as Ges2.
  { intros e. by rewrite <-erase_init_e_stride, Hinit, erase_init_e_stride. }
  assert (∀ e, e_width net3 e = e_width net2 e) as Gew2.
  { intros e. by rewrite <-erase_init_e_width, Hinit, erase_init_e_width. }
  assert (fits net2 outsz bs bf bz) as F2.
  { split.
    - apply (fit_top _ _ _ _ _ F).
    - intros k p. rewrite <-(sg_input_nodes_ _ _ S).
      apply (fit_inputs _ _ _ _ _ F).
    - intros p. rewrite <-(sg_valid_node _ _ S), <-(sg_n_out _ _ S).
      apply (fit_outputs _ _ _ _ _ F).
    - intros e. rewrite <-(sg_valid_nedges _ _ S), <-(sg_e_in _ _ S),
        <-(sg_e_out _ _ S), <-Ges2, <-Ges3. apply (fit_stride _ _ _ _ _ F).
    - intros e. rewrite <-(sg_valid_nedges _ _ S), <-(sg_e_in _ _ S),
        <-(sg_e_out _ _ S), <-Ges2, <-Ges3, <-Gew2, <-Gew3.
      apply (fit_fov _ _ _ _ _ F).
    - intros e. rewrite <-(sg_valid_nedges _ _ S), <-(sg_e_in _ _ S),
        <-(sg_e_out _ _ S), <-Gew2, <-Gew3. apply (fit_fsize _ _ _ _ _ F). }
  pose proof (init_spec outsz bs bf bz net2 rank WF Hsz F2) as P.
  rewrite H3 in P.
  pose proof (ip_wiring _ _ _ _ _ _ P) as SW.
  assert (∀ p, n_stride net p = n_stride net3 p) as Gs.
  { intros p. by rewrite <-erase_edges_n_stride, Hsame, erase_edges_n_stride. }
  assert (∀ p, n_fov net p = n_fov net3 p) as Gf.
  { intros p. by rewrite <-erase_edges_n_fov, Hsame, erase_edges_n_fov. }
  assert (∀ p, n_fsize net p = n_fsize net3 p) as Gz.
  { intros p. by rewrite <-erase_edges_n_fsize, Hsame, erase_edges_n_fsize. }
  assert (∀ e, e_stride net e = e_stride net2 e) as Ges.
  { intros e. rewrite <-erase_edges_e_stride, Hsame, erase_edges_e_stride.
    apply (sw_e_stride _ _ SW). }
  assert (∀ e, e_width net e = e_width net2 e) as Gew.
  { intros e. rewrite <-erase_edges_e_width, Hsame, erase_edges_e_width.
    apply (sw_e_width _ _ SW). }
  assert (∀ p, valid_node net p →
            n_fsize net p
            = (outsz + (n_fov net p - vec3i_ops.one) * n_stride net p)%V ∧
            (outsz + (n_fov net p - vec3i_ops.one) * n_stride net p)%V
            = vec3i_ops.exact_add outsz
                (vec3i_ops.exact_mul
                   (vec3i_ops.exact_sub (n_fov net p) vec3i_ops.one)
                   (n_stride net p)))
    as Hwin.
  { intros p Hp%(sg_valid_node _ _ S). rewrite Gz, Gf, Gs.
    pose proof (init_post_window outsz bs bf bz rank net2 net3 WF F2 P
                  (length (nnodes_arena net2)) p Hp ltac:(lia)) as X.
    destruct (ip_stride _ _ _ _ _ _ P p Hp) as [_ [Hps _]].
    destruct (ip_fov _ _ _ _ _ _ P p Hp) as (_ & [Hpf _] & [_ Hz]).
    rewrite (window_reduced outsz _ _ (bz p)); [done|done..| |].
    - by rewrite <-X.
    - apply (fit_top _ _ _ _ _ F). }
  split; [|split; [|split]].
  - intros p Hp. apply (sg_valid_node _ _ S) in Hp as Hp2.
    destruct (ip_stride _ _ _ _ _ _ P p Hp2) as [_ [Hs _]].
    destruct (ip_fov _ _ _ _ _ _ P p Hp2) as (_ & [Hf _] & _).
    split; [by rewrite Gs|]. split; [by rewrite Gf|]. by apply Hwin.
  - intros e He%(sg_valid_nedges _ _ S).
    destruct (dw_ends _ W e He) as [Hvi Hvo].
    rewrite !Gs, !Gf, Ges, Gew, (sg_e_in _ _ S), (sg_e_out _ _ S).
    destruct (init_post_exact outsz bs bf bz net2 rank net3 e WF F2 P He)
      as (X1 & X2 & _).
    split; [|split; [done|split; [|done]]].
    + destruct (ip_stride _ _ _ _ _ _ P _ Hvi) as [Hsc _].
      destruct (Hsc e) as [Hs1 _].
      { rewrite (sw_n_out _ _ SW). by apply (dw_out _ W). }
      by rewrite (sw_e_out _ _ SW), (sw_e_stride _ _ SW) in Hs1.
    + destruct (ip_fov _ _ _ _ _ _ P _ Hvo) as [[Hfc _] _].
      destruct (Hfc e) as [Hf1 _].
      { rewrite (sw_n_in _ _ SW). by apply (dw_in _ W). }
      by rewrite (sw_e_in _ _ SW), (sw_e_stride _ _ SW),
           (sw_e_width _ _ SW) in Hf1.
  - intros k p Hk. rewrite (sg_input_nodes_ _ _ S) in Hk.
    pose proof (wf_inputs _ _ WF k p Hk) as Hp.
    apply (sg_valid_node _ _ S) in Hp as Hp'.
    pose proof (ip_inputs _ _ _ _ _ _ P k p Hk) as Hone.
    split; [by rewrite Gs|].
    rewrite (proj1 (Hwin p Hp')), Gs, Hone. apply window_input.
  - intros k p Hk.
    assert (output_nodes_ net = output_nodes_ net3) as Ho
      by (by apply (f_equal output_nodes_) in Hsame).
    rewrite Ho, (init_output_nodes outsz net2 net3), (dw_no_outputs _ W) in Hk;
      [|intros [k' p'] Hin; apply (dw_nodes_ _ W), list_elem_of_fmap;
        by exists (k', p')|done].
    apply collect_outputs_sound in Hk as [Hk|[Hk Hnil]];
      [by apply elem_of_nil in Hk|]. simpl in Hnil.
    assert (valid_node net2 p) as Hp.
    { apply (dw_nodes_ _ W). apply list_elem_of_fmap. by exists (k, p). }
    rewrite Gf, Gz. by apply (ip_outputs _ _ _ _ _ _ P p Hp).
Qed.

Lemma constructed_geometry_witness :
  (∀ p, valid_node pool_conv_net p →
     n_fsize pool_conv_net p
     = (vec3i_ops.one
        + (n_fov pool_conv_net p - vec3i_ops.one)
          * n_stride pool_conv_net p)%V) ∧
  (∀ k p, (k, p) ∈ input_nodes_ pool_conv_net →
     n_stride pool_conv_net p = vec3i_ops.one ∧
     n_fsize pool_conv_net p
     = (vec3i_ops.one + n_fov pool_conv_net p - vec3i_ops.one)%V).
Proof.
  assert (vec3i_ops.positive vec3i_ops.one) as Hsz
    by (vm_compute; repeat split; reflexivity).
  assert (∀ op k v,
            op ∈ [edges_pool "p" "in" "mid";
                  edges_conv "c" "mid" "out" (Vec3 2 2 2) [1%Q]] →
            opt.get op k = Some (OVec v) → vec3i_ops.positive v) as Hpos.
  { intros op k v Hop Hget%opt_get_elem.
    apply elem_of_cons in Hop as [->|Hop];
      [|apply elem_of_cons in Hop as [->|Hop];
          [|by apply elem_of_nil in Hop]].
    - unfold edges_pool in Hget.
      repeat (apply elem_of_cons in Hget as [Hget|Hget];
              [first [discriminate Hget
                     |injection Hget as ? ->; vm_compute; by repeat split]|]).
      by apply elem_of_nil in Hget.
    - unfold edges_conv in Hget.
      repeat (apply elem_of_cons in Hget as [Hget|Hget];
              [first [discriminate Hget
                     |injection Hget as ? ->; vm_compute; by repeat split]|]).
      by apply elem_of_nil in Hget. }
  assert (∀ e, valid_nedges pool_conv_net e →
            e_in pool_conv_net e < e_out pool_conv_net e) as Hrank.
  { intros [|[|e]] He; vm_compute in He; try lia; vm_compute; lia. }
  assert (∀ p, valid_node pool_conv_net p → reachable pool_conv_net p)
    as Hreach.
  { assert (reachable pool_conv_net 0) as R0.
    { apply (reachable_input _ "in"). apply list_elem_of_here. }
    assert (reachable pool_conv_net 1) as R1.
    { apply (reachable_step pool_conv_net 0); [vm_compute; lia|exact R0]. }
    assert (reachable pool_conv_net 2) as R2.
    { apply (reachable_step pool_conv_net 1); [vm_compute; lia|exact R1]. }
    intros [|[|[|p]]] Hp; [exact R0|exact R1|exact R2|].
    vm_compute in Hp. lia. }
  assert (network_ctor
            [nodes_input "in" 1; nodes_transfer "mid" 1;
             nodes_transfer "out" 1]
            [edges_pool "p" "in" "mid";
             edges_conv "c" "mid" "out" (Vec3 2 2 2) [1%Q]]
            vec3i_ops.one = Ok pool_conv_net) as E
    by (vm_cast_no_check (eq_refl (Ok pool_conv_net))).
  assert (fits pool_conv_net vec3i_ops.one (n_stride pool_conv_net)
            (n_fov pool_conv_net) (n_fsize pool_conv_net)) as Hfit.
  { split.
    - intros [|[|[|p]]]; repeat split; vm_compute; done.
    - intros k p H. members H. injection H as -> ->.
      repeat split; vm_compute; done.
    - intros [|[|[|p]]] Hp Ho; vm_compute in Hp; try lia;
        try (vm_compute in Ho; discriminate Ho).
      repeat split; vm_compute; done.
    - intros [|[|e]] He; vm_compute in He; try lia;
        repeat split; vm_compute; done.
    - intros [|[|e]] He; vm_compute in He; try lia;
        repeat split; vm_compute; done.
    - intros [|[|e]] He; vm_compute in He; try lia;
        repeat split; vm_compute; done. }
  destruct (constructed_geometry _ _ _ _ id _ _ _ E Hsz Hfit Hpos Hrank
              (λ p Hp, Hp) Hreach) as (G & _ & I & _).
  split; [exact (λ p Hp, proj1 (proj2 (proj2 (G p Hp))))|exact I].
Defined.

(** X21: input node groups are sources.  [input_nodes] does not
    implement [attach_in_edge], so the construction of an edge object that
    ends in an input node group throws; hence in a network the constructor
    returns no edge group ends in an input node group, and no edge object
    is registered as an incoming edge of one of their channels. *)
Theorem constructed_inputs_are_sources `{Ext : Externals}
    (ns es : list options) (outsz : vec3i) (net : network) :
  network_ctor ns es outsz = Ok net →
  ∀ k p, (k, p) ∈ input_nodes_ net →
    (∀ g, valid_nedges net g → e_out net g ≠ p) ∧
    (∀ e, valid_edge net e → ed_out net e ≠ p).
Proof.
  intros Hc k p Hk.
  destruct (network_ctor_phases _ _ _ _ Hc)
    as (net1 & net2 & net3 & H1 & H2 & H3 & B & S23 & S3).
  destruct (add_edges_loop _ _ _ _ H1 H2) as (W & _).
  pose proof (same_graph_trans _ _ _ S23 S3) as S.
  assert (input_at net p) as Hin.
  { rewrite (sg_input_nodes_ _ _ S) in Hk.
    apply (sg_input_at _ _ S). by apply (dw_inputs _ W) in Hk as [_ ?]. }
  assert (∀ e, valid_edge net e → ed_out net e ≠ p) as Hobj.
  { intros e He <-.
    destruct (registered_complete _ _ (bi_registered _ _ _ B) He) as [_ Hi].
    apply (c_in_not_input net (ed_out net e) (ed_out_num net e));
      [|done]. intros Hnil. rewrite Hnil in Hi. by apply elem_of_nil in Hi. }
  split; [|done]. intros g Hg <-.
  apply (sg_valid_nedges _ _ S) in Hg as Hg2.
  destruct (dw_ends _ W g Hg2) as [_ Hvo].
  assert (g ∈ StdMap.values (edges_ net3)) as Hd.
  { rewrite (sg_edges_ _ _ S23). by apply (dw_edges_ _ W). }
  destruct (bi_cover _ _ _ B g 0 Hd) as (e & He & Ho & _).
  { rewrite (sg_e_out _ _ S23), (sg_c_size _ _ S23). by apply (dw_sizes _ W). }
  apply (Hobj e He). by rewrite Ho, (sg_e_out _ _ S3).
Qed.

Lemma constructed_inputs_are_sources_witness :
  (∀ g, valid_nedges pool_conv_net g → e_out pool_conv_net g ≠ 0) ∧
  (∀ e, valid_edge pool_conv_net e → ed_out pool_conv_net e ≠ 0).
Proof.
  assert (network_ctor
            [nodes_input "in" 1; nodes_transfer "mid" 1;
             nodes_transfer "out" 1]
            [edges_pool "p" "in" "mid";
             edges_conv "c" "mid" "out" (Vec3 2 2 2) [1%Q]]
            vec3i_ops.one = Ok pool_conv_net) as E
    by (vm_cast_no_check (eq_refl (Ok pool_conv_net))).
  apply (constructed_inputs_are_sources _ _ _ _ E "in" 0).
  apply list_elem_of_here.
Defined.
